(** * kripto: AES-128 with affine-matrix S-boxes

    A shallow embedding of the TypeScript core of the repository
    (core/consts.ts, core/galois.ts, core/affine.ts, core/sbox.ts,
    core/aes.ts, core/metrics.ts), of the store that drives it
    (store/useCryptoStore.ts) and of the pixel passes of
    components/visualizer/ImageEncryptor.tsx, and the properties of its
    specification and of the code.

    Conventions of the embedding.
    - A JavaScript number that holds a byte, a bit or a small counter is a
      [Z]; the bitwise operators [^ & | << >> >>>] are [Z.lxor], [Z.land],
      [Z.lor], [Z.shiftl], [Z.shiftr].  On the values the code feeds them
      (bytes, and nine-bit intermediates before a mask) the 32-bit
      truncation of JavaScript never fires.
    - A JavaScript array of numbers is a [list Z].  Reading a slot that
      does not exist yields [undefined].  Where the consumer is a bitwise
      operator, which coerces it to 0, the read is [get] and returns 0
      there; where the read is compared with [===], it is [item] and
      returns an option, [None] for [undefined].  Where the code takes a
      shift count or an exponent from its caller, [toInt32] and the count
      modulo 32 are written out.
    - Where a function compares the entries of an array without coercing
      them ([<], [>], [!==], the membership of a [Set]), its arrays hold
      values of the type [number]: the rationals, NaN and the infinities;
      a slot of such an array may hold nothing.
    - A [Uint8Array] is a [list Z] whose stores are reduced modulo 256.
    - A string is the list of its UTF-16 code units.  [TextEncoder] and
      [TextDecoder] are the UTF-8 encoder and decoder of the Encoding
      Standard.
    - Exceptions are values of a sum type. *)

From Stdlib Require Import ZArith List Lia Bool QArith Qabs Qminmax Btauto.
From Stdlib Require Qcanon.
From stdpp Require Import base tactics list.
Import ListNotations.

Local Open Scope Z_scope.

(** ** JavaScript arrays *)

(** [a[i]] for an array of numbers. *)
Definition get (a : list Z) (i : Z) : Z :=
  match i with
  | Zneg _ => 0
  | _ => nth (Z.to_nat i) a 0
  end.

(** The index range of [for (let i = lo; i < hi; i++)]. *)
Definition range (lo hi : Z) : list Z :=
  map (fun k => lo + Z.of_nat k) (seq 0 (Z.to_nat (hi - lo))).

Definition is_byte (v : Z) : Prop := 0 <= v < 256.

Definition is_byteb (v : Z) : bool := (0 <=? v) && (v <? 256).

(** ** core/consts.ts *)

Definition IRREDUCIBLE_POLY : Z := 0x11B.

Definition AES_CONSTANT : Z := 0x63.

Definition INVERSE_TABLE : list Z :=
  [ 0;   1;   141; 246; 203; 82;  123; 209; 232; 79;  41;  192; 176; 225; 229; 199;
    116; 180; 170; 75;  153; 43;  96;  95;  88;  63;  253; 204; 255; 64;  238; 178;
    58;  110; 90;  241; 85;  77;  168; 201; 193; 10;  152; 21;  48;  68;  162; 194;
    44;  69;  146; 108; 243; 57;  102; 66;  242; 53;  32;  111; 119; 187; 89;  25;
    29;  254; 55;  103; 45;  49;  245; 105; 167; 100; 171; 19;  84;  37;  233; 9;
    237; 92;  5;   202; 76;  36;  135; 191; 24;  62;  34;  240; 81;  236; 97;  23;
    22;  94;  175; 211; 73;  166; 54;  67;  244; 71;  145; 223; 51;  147; 33;  59;
    121; 183; 151; 133; 16;  181; 186; 60;  182; 112; 208; 6;   161; 250; 129; 130;
    131; 126; 127; 128; 150; 115; 190; 86;  155; 158; 149; 217; 247; 2;   185; 164;
    222; 106; 50;  109; 216; 138; 132; 114; 42;  20;  159; 136; 249; 220; 137; 154;
    251; 124; 46;  195; 143; 184; 101; 72;  38;  200; 18;  74;  206; 231; 210; 98;
    12;  224; 31;  239; 17;  117; 120; 113; 165; 142; 118; 61;  189; 188; 134; 87;
    11;  40;  47;  163; 218; 212; 228; 15;  169; 39;  83;  4;   27;  252; 172; 230;
    122; 7;   174; 99;  197; 219; 226; 234; 148; 139; 196; 213; 157; 248; 144; 107;
    177; 13;  214; 235; 198; 14;  207; 173; 8;   78;  215; 227; 93;  80;  30;  179;
    91;  35;  56;  52;  104; 70;  3;   140; 221; 156; 125; 160; 205; 26;  65;  28 ].

Definition K44_MATRIX : list Z :=
  [0x57; 0xAB; 0xD5; 0xEA; 0x75; 0xBA; 0x5D; 0xAE].

Definition KAES_MATRIX : list Z :=
  [0x8F; 0xC7; 0xE3; 0xF1; 0xF8; 0x7C; 0x3E; 0x1F].

Definition EXPECTED_SBOX44 : list Z :=
  [ 0x63; 0x34; 0xA5; 0x21; 0x86; 0xE0; 0xE7; 0xB2; 0xC0; 0xFD; 0x64; 0x90; 0x02; 0x7D; 0xA8; 0xB9;
    0x24; 0xD7; 0x36; 0x28; 0x05; 0xCF; 0x84; 0x88; 0xA1; 0x6F; 0x37; 0xAF; 0x9C; 0x3E; 0xBE; 0xA9;
    0xED; 0x10; 0x0A; 0x08; 0xC9; 0x56; 0x9D; 0x2D; 0xC7; 0x22; 0x52; 0x94; 0xAC; 0xEB; 0xDC; 0x3B;
    0xE6; 0xBC; 0x13; 0xBB; 0xA3; 0x11; 0xFA; 0x95; 0xF4; 0x2E; 0xD9; 0x47; 0xD8; 0x14; 0xF6; 0xAB;
    0x7E; 0xCB; 0x85; 0xAD; 0xB1; 0xFB; 0xDD; 0x39; 0x5E; 0x51; 0x61; 0xEA; 0x9E; 0x5B; 0x97; 0xDE;
    0x42; 0x74; 0xE1; 0xD1; 0x01; 0x0C; 0xE4; 0xC1; 0xFC; 0x38; 0x72; 0x5F; 0x1C; 0x15; 0xD3; 0x3F;
    0x68; 0xDF; 0xB4; 0x19; 0x83; 0x09; 0xD2; 0xC2; 0x8A; 0x17; 0xEF; 0x26; 0x50; 0x44; 0x8E; 0xBA;
    0x4C; 0x2B; 0x91; 0x4F; 0x16; 0x80; 0x43; 0x93; 0x7C; 0xF1; 0xE5; 0x1D; 0x20; 0x1E; 0x9A; 0x66;
    0x31; 0x65; 0x32; 0xCD; 0xC6; 0x0D; 0x96; 0x35; 0xAE; 0x2C; 0x3A; 0x58; 0x76; 0xC8; 0xBF; 0xA2;
    0x71; 0xC5; 0x07; 0xEC; 0x0F; 0x8C; 0x18; 0x5A; 0x98; 0xC3; 0x7B; 0x27; 0xE2; 0xDA; 0x70; 0xF9;
    0x49; 0xCE; 0x4D; 0x6C; 0x0E; 0xE8; 0x06; 0xD4; 0xA7; 0x7A; 0xBD; 0x7F; 0x04; 0x03; 0x4E; 0x2F;
    0x5C; 0x2A; 0xD5; 0xE9; 0x41; 0x73; 0x1B; 0xA6; 0xF5; 0x59; 0x8F; 0xC4; 0x6A; 0x3D; 0xB3; 0x62;
    0x75; 0x33; 0x1A; 0x8B; 0xA4; 0x30; 0xFF; 0xA0; 0xCA; 0xF0; 0xB7; 0xB6; 0x00; 0x60; 0x48; 0x54;
    0xB0; 0x4A; 0xE3; 0x78; 0x12; 0xF3; 0x81; 0x6B; 0x6D; 0xDB; 0x45; 0x67; 0xD0; 0xB5; 0xB8; 0x92;
    0x55; 0x0B; 0x9B; 0x3C; 0xEE; 0xF7; 0x53; 0x1F; 0x89; 0xAA; 0xCC; 0xD6; 0x23; 0x4B; 0x82; 0xFE;
    0x5D; 0x25; 0x46; 0x79; 0x6E; 0x40; 0x9F; 0xF2; 0x8D; 0x87; 0x99; 0x77; 0xF8; 0x57; 0x69; 0x29 ].

Definition AES_SBOX : list Z :=
  [ 99;  124; 119; 123; 242; 107; 111; 197; 48;  1;   103; 43;  254; 215; 171; 118;
    202; 130; 201; 125; 250; 89;  71;  240; 173; 212; 162; 175; 156; 164; 114; 192;
    183; 253; 147; 38;  54;  63;  247; 204; 52;  165; 229; 241; 113; 216; 49;  21;
    4;   199; 35;  195; 24;  150; 5;   154; 7;   18;  128; 226; 235; 39;  178; 117;
    9;   131; 44;  26;  27;  110; 90;  160; 82;  59;  214; 179; 41;  227; 47;  132;
    83;  209; 0;   237; 32;  252; 177; 91;  106; 203; 190; 57;  74;  76;  88;  207;
    208; 239; 170; 251; 67;  77;  51;  133; 69;  249; 2;   127; 80;  60;  159; 168;
    81;  163; 64;  143; 146; 157; 56;  245; 188; 182; 218; 33;  16;  255; 243; 210;
    205; 12;  19;  236; 95;  151; 68;  23;  196; 167; 126; 61;  100; 93;  25;  115;
    96;  129; 79;  220; 34;  42;  144; 136; 70;  238; 184; 20;  222; 94;  11;  219;
    224; 50;  58;  10;  73;  6;   36;  92;  194; 211; 172; 98;  145; 149; 228; 121;
    231; 200; 55;  109; 141; 213; 78;  169; 108; 86;  244; 234; 101; 122; 174; 8;
    186; 120; 37;  46;  28;  166; 180; 198; 232; 221; 116; 31;  75;  189; 139; 138;
    112; 62;  181; 102; 72;  3;   246; 14;  97;  53;  87;  185; 134; 193; 29;  158;
    225; 248; 152; 17;  105; 217; 142; 148; 155; 30;  135; 233; 206; 85;  40;  223;
    140; 161; 137; 13;  191; 230; 66;  104; 65;  153; 45;  15;  176; 84;  187; 22 ].

Definition RCON : list Z :=
  [0x01; 0x02; 0x04; 0x08; 0x10; 0x20; 0x40; 0x80; 0x1B; 0x36].

Definition MIX_COLUMNS_MATRIX : list (list Z) :=
  [ [0x02; 0x03; 0x01; 0x01];
    [0x01; 0x02; 0x03; 0x01];
    [0x01; 0x01; 0x02; 0x03];
    [0x03; 0x01; 0x01; 0x02] ].

Definition INV_MIX_COLUMNS_MATRIX : list (list Z) :=
  [ [0x0E; 0x0B; 0x0D; 0x09];
    [0x09; 0x0E; 0x0B; 0x0D];
    [0x0D; 0x09; 0x0E; 0x0B];
    [0x0B; 0x0D; 0x09; 0x0E] ].

(** ** core/galois.ts *)

(** One turn of the loop of [gfMultiply] on [(p, tempA, tempB)]. *)
Definition gfMultiply_step (st : Z * Z * Z) : Z * Z * Z :=
  let '(p, tempA, tempB) := st in
  let p := if Z.land tempB 1 =? 0 then p else Z.lxor p tempA in
  let hiBit := Z.land tempA 0x80 in
  let tempA := Z.land (Z.shiftl tempA 1) 0xFF in
  let tempA :=
    if hiBit =? 0 then tempA else Z.lxor tempA (Z.land IRREDUCIBLE_POLY 0xFF) in
  let tempB := Z.shiftr tempB 1 in
  (p, tempA, tempB).

Definition gfMultiply (a b : Z) : Z :=
  let '(p, _, _) := Nat.iter 8 gfMultiply_step (0, a, b) in p.

Definition gfInverse (byte : Z) : Z := get INVERSE_TABLE (Z.land byte 0xFF).

Definition gfInverseComputed (byte : Z) : Z :=
  if byte =? 0 then 0
  else
    let result :=
      Nat.iter 6 (fun result => gfMultiply (gfMultiply result result) byte) byte in
    gfMultiply result result.

Definition xtime (byte : Z) : Z :=
  let result := Z.land (Z.shiftl byte 1) 0xFF in
  if Z.land byte 0x80 =? 0 then result else Z.lxor result 0x1B.

Definition gfMultiplyConstant (byte multiplier : Z) : Z :=
  match multiplier with
  | 0x01 => byte
  | 0x02 => xtime byte
  | 0x03 => Z.lxor (xtime byte) byte
  | 0x09 => Z.lxor (xtime (xtime (xtime byte))) byte
  | 0x0B => Z.lxor (Z.lxor (xtime (xtime (xtime byte))) (xtime byte)) byte
  | 0x0D => Z.lxor (Z.lxor (xtime (xtime (xtime byte))) (xtime (xtime byte))) byte
  | 0x0E =>
      Z.lxor (Z.lxor (xtime (xtime (xtime byte))) (xtime (xtime byte))) (xtime byte)
  | _ => gfMultiply byte multiplier
  end.

(** [verifyInverseTable]: the loop returns false at the first [i] in 1..255
    whose product with its table entry is not 1. *)
Definition verifyInverseTable : bool :=
  forallb (fun i => gfMultiply i (get INVERSE_TABLE i) =? 1) (range 1 256).

(** ** core/affine.ts *)

(** The inner loop of [applyAffine]: the parity of the bits common to the
    matrix row [rowByte] and the input. *)
Definition affine_row_bit (rowByte byteVal : Z) : Z :=
  fold_left
    (fun bit j =>
       let matrixBit := Z.land (Z.shiftr rowByte j) 1 in
       let inputBit := Z.land (Z.shiftr byteVal j) 1 in
       if negb (matrixBit =? 0) && negb (inputBit =? 0) then Z.lxor bit 1 else bit)
    (range 0 8) 0.

Definition affine_linear (byteVal : Z) (matrix : list Z) : Z :=
  fold_left
    (fun result i =>
       let bit := affine_row_bit (get matrix i) byteVal in
       if bit =? 0 then result else Z.lor result (Z.shiftl 1 i))
    (range 0 8) 0.

Definition applyAffine (byteVal : Z) (matrix : list Z) (constant : Z) : Z :=
  Z.lxor (affine_linear byteVal matrix) constant.

Definition applyInverseAffine (byteVal : Z) (invMatrix : list Z) (constant : Z) : Z :=
  let xored := Z.lxor byteVal constant in
  affine_linear xored invMatrix.

(** ** core/sbox.ts *)

Definition generateSBox (matrix : list Z) (constant : Z) : list Z :=
  map (fun x => let inverse := get INVERSE_TABLE x in applyAffine inverse matrix constant)
      (range 0 256).

(** ** core/metrics.ts

    The metrics are JavaScript doubles.  Every quotient the functions below
    form is an integer of at most 15 bits divided by a power of two, then
    shifted by 0.5 or summed with others of the same kind: such values are
    exactly representable, so the rationals of [Q] compute the same numbers
    as the double arithmetic does. *)

(** [while (num) { count += num & 1; num >>>= 1; }]: an unsigned 32-bit
    number is exhausted after 32 shifts. *)
Fixpoint hammingWeight_loop (fuel : nat) (count num : Z) : Z :=
  match fuel with
  | O => count
  | S fuel' =>
      if num =? 0 then count
      else hammingWeight_loop fuel' (count + Z.land num 1) (Z.shiftr num 1)
  end.

Definition hammingWeight (n : Z) : Z := hammingWeight_loop 32 0 n.

(** The innermost loop of [calculateSAC] and of [calculateSACMatrix]. *)
Definition sac_flips (sbox : list Z) (inputBit outputBit : Z) : Z :=
  fold_left
    (fun flips x =>
       let xFlipped := Z.lxor x (Z.shiftl 1 inputBit) in
       let outOriginal := Z.land (Z.shiftr (get sbox x) outputBit) 1 in
       let outFlipped := Z.land (Z.shiftr (get sbox xFlipped) outputBit) 1 in
       if outOriginal =? outFlipped then flips else flips + 1)
    (range 0 256) 0.

Definition calculateSAC (sbox : list Z) : Q :=
  let '(totalFlips, totalTests) :=
    fold_left
      (fun acc inputBit =>
         fold_left
           (fun '(totalFlips, totalTests) outputBit =>
              let flips := sac_flips sbox inputBit outputBit in
              (totalFlips + flips, totalTests + 256))
           (range 0 8) acc)
      (range 0 8) (0, 0) in
  (inject_Z totalFlips / inject_Z totalTests)%Q.

Definition calculateSACMatrix (sbox : list Z) : list (list Q) :=
  map (fun outputBit =>
         map (fun inputBit =>
                let flips := sac_flips sbox inputBit outputBit in
                (inject_Z flips / 256)%Q)
             (range 0 8))
      (range 0 8).

(** The innermost loop of [calculateLAP]. *)
Definition lap_count (sbox : list Z) (inputMask outputMask : Z) : Z :=
  fold_left
    (fun count x =>
       let inputParity := Z.land (hammingWeight (Z.land x inputMask)) 1 in
       let outputParity := Z.land (hammingWeight (Z.land (get sbox x) outputMask)) 1 in
       if inputParity =? outputParity then count + 1 else count)
    (range 0 256) 0.

Definition lap_bias (sbox : list Z) (inputMask outputMask : Z) : Q :=
  Qabs (inject_Z (lap_count sbox inputMask outputMask) / 256 - 0.5)%Q.

(** The maximum search of [calculateLAP] over the given input masks; the
    output masks are always 1..255. *)
Definition lap_scan (sbox : list Z) (inputMasks : list Z) : Q :=
  fold_left
    (fun maxBias inputMask =>
       fold_left
         (fun maxBias outputMask =>
            let bias := lap_bias sbox inputMask outputMask in
            if Qlt_le_dec maxBias bias then bias else maxBias)
         (range 1 256) maxBias)
    inputMasks 0%Q.

Definition calculateLAP (sbox : list Z) : Q := lap_scan sbox (range 0 256).


(** ** JavaScript arrays indexed by loop counters

    Where a counter only indexes (the 4x4 state, the rows and columns of a
    bit matrix) it is a [nat] and the read is [nth]; a read outside the
    array is again the 0 that [undefined] turns into. *)

Definition at2 (a : list (list Z)) (i j : nat) : Z := nth j (nth i a []) 0.

(** [a[i][j] = v]. *)
Definition set2 (a : list (list Z)) (i j : nat) (v : Z) : list (list Z) :=
  <[i := <[j := v]> (nth i a [])]> a.

(** [a[i] = v] for an index computed from data: a negative index would
    create a property, not a slot, so the array is left as it is. *)
Definition set (a : list Z) (i v : Z) : list Z :=
  match i with
  | Zneg _ => a
  | _ => <[Z.to_nat i := v]> a
  end.

(** ** core/affine.ts: validity and inversion over GF(2) *)

(** The row [(b >> 0) & 1, ..., (b >> 7) & 1]. *)
Definition bitRow (b : Z) : list Z :=
  map (fun j => Z.land (Z.shiftr b (Z.of_nat j)) 1) (seq 0 8).

(** The first [row] in [start..7] with [m[row][col] === 1]. *)
Definition findPivot (m : list (list Z)) (col start : nat) : option nat :=
  find (fun row => at2 m row col =? 1) (seq start (8 - start)).

(** [[m[i], m[p]] = [m[p], m[i]]]. *)
Definition swapRows (m : list (list Z)) (i p : nat) : list (list Z) :=
  let fromP := nth p m [] in
  let fromI := nth i m [] in
  <[p := fromI]> (<[i := fromP]> m).

(** [for (c = 0; c < width; c++) a[c] ^= b[c]]. *)
Definition xorInto (width : nat) (a b : list Z) : list Z :=
  fold_left (fun a c => <[c := Z.lxor (nth c a 0) (nth c b 0)]> a) (seq 0 width) a.

(** The elimination loop: every row other than [piv] that has a 1 in
    column [col] gets row [piv] added to it. *)
Definition eliminate (width : nat) (m : list (list Z)) (piv col : nat) : list (list Z) :=
  fold_left
    (fun m row =>
       if negb (row =? piv)%nat && (at2 m row col =? 1)
       then <[row := xorInto width (nth row m []) (nth piv m [])]> m
       else m)
    (seq 0 8) m.

Definition isMatrixValid_step (st : list (list Z) * nat) (col : nat) : list (list Z) * nat :=
  let '(m, rank) := st in
  match findPivot m col rank with
  | None => (m, rank)
  | Some pivotRow =>
      let m := swapRows m rank pivotRow in
      let m := eliminate 8 m rank col in
      (m, S rank)
  end.

Definition isMatrixValid (matrix : list Z) : bool :=
  let m := map (fun i => bitRow (nth i matrix 0)) (seq 0 8) in
  let '(_, rank) := fold_left isMatrixValid_step (seq 0 8) (m, O) in
  (rank =? 8)%nat.

Definition identityRow (i : nat) : list Z :=
  map (fun j => if (i =? j)%nat then 1 else 0) (seq 0 8).

(** One column of the Gauss-Jordan loop of [invertMatrix]; [None] is the
    early [return null]. *)
Definition invertMatrix_step (st : option (list (list Z))) (col : nat)
  : option (list (list Z)) :=
  match st with
  | None => None
  | Some aug =>
      match findPivot aug col col with
      | None => None
      | Some pivotRow =>
          let aug := swapRows aug col pivotRow in
          Some (eliminate 16 aug col col)
      end
  end.

(** The byte whose bit [j] is set when [row[8 + j]] is truthy. *)
Definition packRight (row : list Z) : Z :=
  fold_left
    (fun byte j =>
       if nth (8 + j) row 0 =? 0 then byte else Z.lor byte (Z.shiftl 1 (Z.of_nat j)))
    (seq 0 8) 0.

Definition invertMatrix (matrix : list Z) : option (list Z) :=
  let aug := map (fun i => bitRow (nth i matrix 0) ++ identityRow i) (seq 0 8) in
  match fold_left invertMatrix_step (seq 0 8) (Some aug) with
  | None => None
  | Some aug => Some (map (fun i => packRight (nth i aug [])) (seq 0 8))
  end.

(** ** core/sbox.ts: the inverse table *)

(** [new Array(256)] has 256 empty slots; a slot that is never written
    reads as [undefined], that is 0 for the XOR that consumes it.  A write
    past the end (an S-box entry above 255) would grow the JavaScript array
    beyond the slots a byte can index; [set] leaves such a write out. *)
Definition generateInverseSBox (sbox : list Z) : list Z :=
  fold_left (fun invSbox i => set invSbox (get sbox i) i) (range 0 256) (repeat 0 256).

(** ** core/aes.ts *)

(** [type State = number[][]]. *)
Abbreviation State := (list (list Z)).

(** A store into a [Uint8Array] slot. *)
Definition toUint8 (v : Z) : Z := v mod 256.

(** [Array.from({ length: 4 }, () => new Array(4).fill(0))]. *)
Definition zeroState : State := repeat (repeat 0 4) 4.

Definition bytesToState (bytes : list Z) : State :=
  fold_left
    (fun state i => set2 state (i mod 4) (i / 4) (nth i bytes 0))
    (seq 0 16) zeroState.

(** [stateToBytes] reads the rows 0..3 of the state.  Every state that
    [bytesToState] and the round functions return has them.  On a state
    with fewer rows the code throws a TypeError: this definition is that
    of the code on states of four rows. *)
Definition stateToBytes (state : State) : list Z :=
  map (fun i => toUint8 (at2 state (i mod 4) (i / 4))) (seq 0 16).

Definition cloneState (state : State) : State := map (fun row => row) state.

Definition subBytes (state : State) (sbox : list Z) : State :=
  fold_left
    (fun result i =>
       fold_left
         (fun result j => set2 result i j (get sbox (at2 state i j)))
         (seq 0 4) result)
    (seq 0 4) (cloneState state).

Definition invSubBytes (state : State) (invSbox : list Z) : State :=
  subBytes state invSbox.

Definition shiftRows (state : State) : State :=
  fold_left
    (fun result row =>
       let temp := nth row result [] in
       fold_left
         (fun result col => set2 result row col (nth ((col + row) mod 4) temp 0))
         (seq 0 4) result)
    (seq 1 3) (cloneState state).

(** [(col - row + 4) % 4] is written with the addition first: the
    counters are natural numbers here. *)
Definition invShiftRows (state : State) : State :=
  fold_left
    (fun result row =>
       let temp := nth row result [] in
       fold_left
         (fun result col => set2 result row col (nth ((col + 4 - row) mod 4) temp 0))
         (seq 0 4) result)
    (seq 1 3) (cloneState state).

(** The body shared by [mixColumns] and [invMixColumns]. *)
Definition mixWith (matrix : list (list Z)) (state : State) : State :=
  fold_left
    (fun result col =>
       fold_left
         (fun result row =>
            let sum :=
              fold_left
                (fun sum k =>
                   Z.lxor sum (gfMultiplyConstant (at2 state k col) (at2 matrix row k)))
                (seq 0 4) 0 in
            set2 result row col sum)
         (seq 0 4) result)
    (seq 0 4) zeroState.

Definition mixColumns (state : State) : State := mixWith MIX_COLUMNS_MATRIX state.

Definition invMixColumns (state : State) : State := mixWith INV_MIX_COLUMNS_MATRIX state.

Definition addRoundKey (state roundKey : State) : State :=
  fold_left
    (fun result i =>
       fold_left
         (fun result j => set2 result i j (Z.lxor (at2 result i j) (at2 roundKey i j)))
         (seq 0 4) result)
    (seq 0 4) (cloneState state).

(** The word [W[i]] of the key schedule, from the words before it. *)
Definition nextWord (sbox : list Z) (W : list (list Z)) (i : nat) : list Z :=
  let temp := nth (i - 1) W [] in
  let temp :=
    if (i mod 4 =? 0)%nat then
      let temp := [nth 1 temp 0; nth 2 temp 0; nth 3 temp 0; nth 0 temp 0] in
      let temp := map (fun b => get sbox b) temp in
      <[O := Z.lxor (nth 0 temp 0) (nth (i / 4 - 1) RCON 0)]> temp
    else temp in
  imap (fun j b => Z.lxor b (nth j temp 0)) (nth (i - 4) W []).

(** The first four words are the bytes [key[4 * i + j]] of a key of 16
    bytes or more, which is what [encrypt] and [decrypt] pass.  A shorter
    key leaves [undefined] in the words of the code, where this
    definition reads 0: it is that of the code on keys of 16 bytes or
    more. *)
Definition expandWords (key sbox : list Z) : list (list Z) :=
  let W :=
    map (fun i => [nth (4 * i) key 0; nth (4 * i + 1) key 0;
                   nth (4 * i + 2) key 0; nth (4 * i + 3) key 0])
        (seq 0 4) in
  fold_left (fun W i => W ++ [nextWord sbox W i]) (seq 4 40) W.

Definition keyExpansion (key sbox : list Z) : list State :=
  let W := expandWords key sbox in
  map (fun round =>
         fold_left
           (fun roundKey col =>
              fold_left
                (fun roundKey row =>
                   set2 roundKey row col (nth row (nth (round * 4 + col) W []) 0))
                (seq 0 4) roundKey)
           (seq 0 4) zeroState)
      (seq 0 11).

Definition encryptRound (sbox : list Z) (roundKeys : list State) (state : State)
    (round : nat) : State :=
  let state := subBytes state sbox in
  let state := shiftRows state in
  let state := mixColumns state in
  addRoundKey state (nth round roundKeys []).

Definition encryptBlock (block key sbox : list Z) : list Z :=
  let roundKeys := keyExpansion key sbox in
  let state := bytesToState block in
  let state := addRoundKey state (nth 0 roundKeys []) in
  let state := fold_left (encryptRound sbox roundKeys) (seq 1 9) state in
  let state := subBytes state sbox in
  let state := shiftRows state in
  let state := addRoundKey state (nth 10 roundKeys []) in
  stateToBytes state.

Definition decryptRound (invSbox : list Z) (roundKeys : list State) (state : State)
    (round : nat) : State :=
  let state := addRoundKey state (nth round roundKeys []) in
  let state := invMixColumns state in
  let state := invShiftRows state in
  invSubBytes state invSbox.

Definition decryptBlock (block key sbox : list Z) : list Z :=
  let invSbox := generateInverseSBox sbox in
  let roundKeys := keyExpansion key sbox in
  let state := bytesToState block in
  let state := addRoundKey state (nth 10 roundKeys []) in
  let state := invShiftRows state in
  let state := invSubBytes state invSbox in
  let state := fold_left (decryptRound invSbox roundKeys) (rev (seq 1 9)) state in
  let state := addRoundKey state (nth 0 roundKeys []) in
  stateToBytes state.

(** *** The step trace *)

Inductive Operation : Type :=
  | initial | opSubBytes | opShiftRows | opMixColumns | opAddRoundKey.

Record EncryptionStep : Type := mkStep {
  round : nat;
  operation : Operation;
  state : State;
  roundKey : option State
}.

(** The four pushes of one of the rounds 1..9, on [(state, steps)]. *)
Definition traceRound (sbox : list Z) (roundKeys : list State)
    (acc : State * list EncryptionStep) (round : nat) : State * list EncryptionStep :=
  let '(state, steps) := acc in
  let state := subBytes state sbox in
  let steps := steps ++ [mkStep round opSubBytes (cloneState state) None] in
  let state := shiftRows state in
  let steps := steps ++ [mkStep round opShiftRows (cloneState state) None] in
  let state := mixColumns state in
  let steps := steps ++ [mkStep round opMixColumns (cloneState state) None] in
  let state := addRoundKey state (nth round roundKeys []) in
  let steps :=
    steps ++ [mkStep round opAddRoundKey (cloneState state) (Some (nth round roundKeys []))] in
  (state, steps).

Definition encryptBlockWithSteps (block key sbox : list Z)
  : list Z * list EncryptionStep * list State :=
  let roundKeys := keyExpansion key sbox in
  let steps := [] in
  let state := bytesToState block in
  let steps := steps ++ [mkStep 0 initial (cloneState state) None] in
  let state := addRoundKey state (nth 0 roundKeys []) in
  let steps :=
    steps ++ [mkStep 0 opAddRoundKey (cloneState state) (Some (nth 0 roundKeys []))] in
  let '(state, steps) := fold_left (traceRound sbox roundKeys) (seq 1 9) (state, steps) in
  let state := subBytes state sbox in
  let steps := steps ++ [mkStep 10 opSubBytes (cloneState state) None] in
  let state := shiftRows state in
  let steps := steps ++ [mkStep 10 opShiftRows (cloneState state) None] in
  let state := addRoundKey state (nth 10 roundKeys []) in
  let steps :=
    steps ++ [mkStep 10 opAddRoundKey (cloneState state) (Some (nth 10 roundKeys []))] in
  (stateToBytes state, steps, roundKeys).

(** *** PKCS7 and the ECB loops *)

Definition pkcs7Pad (data : list Z) : list Z :=
  let blockSize := 16%nat in
  let padLen := (blockSize - length data mod blockSize)%nat in
  data ++ repeat (Z.of_nat padLen) padLen.

Inductive PaddingError : Type :=
  | EmptyData
  | InvalidPaddingLength (padLen : Z)
  | PaddingExceedsLength (padLen : Z) (len : nat)
  | InvalidPaddingByte (position : nat) (expected got : Z).

Definition pkcs7Unpad (data : list Z) : PaddingError + list Z :=
  if (length data =? 0)%nat then inl EmptyData
  else
    let padLen := nth (length data - 1) data 0 in
    if (padLen >? 16) || (padLen =? 0) then inl (InvalidPaddingLength padLen)
    else if padLen >? Z.of_nat (length data)
    then inl (PaddingExceedsLength padLen (length data))
    else
      match
        find (fun i => negb (nth i data 0 =? padLen))
             (seq (length data - Z.to_nat padLen) (Z.to_nat padLen))
      with
      | Some i => inl (InvalidPaddingByte i padLen (nth i data 0))
      | None => inr (firstn (length data - Z.to_nat padLen) data)
      end.

(** What [encrypt] and [decrypt] can throw. *)
Inductive Exception : Type :=
  | RangeError
  | InvalidPadding (e : PaddingError).

(** [a.slice(lo, hi)] for [lo <= hi]. *)
Definition slice (a : list Z) (lo hi : nat) : list Z := firstn (hi - lo) (skipn lo a).

(** [target.set(source, offset)] on typed arrays: a source that does not
    fit throws a RangeError. *)
Definition typedSet (target source : list Z) (offset : nat) : Exception + list Z :=
  if (offset + length source <=? length target)%nat
  then inr (firstn offset target ++ source ++ skipn (offset + length source) target)
  else inl RangeError.

(** The offsets [0, 16, 32, ...] below [len]. *)
Definition blockOffsets (len : nat) : list nat :=
  map (fun k => 16 * k)%nat (seq 0 ((len + 15) / 16)).

(** The block loop shared by [encrypt] and [decrypt]. *)
Definition ecbLoop (blockFn : list Z -> list Z) (input : list Z) : Exception + list Z :=
  fold_left
    (fun result i =>
       match result with
       | inl e => inl e
       | inr result =>
           let block := slice input i (i + 16) in
           typedSet result (blockFn block) i
       end)
    (blockOffsets (length input)) (inr (repeat 0 (length input))).

(** A JavaScript string is the list of its UTF-16 code units.
    [keyStr.padEnd(16, '\0').slice(0, 16)]. *)
Definition canonicalKey (keyStr : list Z) : list Z :=
  firstn 16 (keyStr ++ repeat 0 (16 - length keyStr)).

Section Codec.

(** [TextEncoder.encode] and [TextDecoder.decode] belong to the platform,
    not to the repository: the cipher is written over any pair of them;
    those of the platform are [TextEncoder_encode] and
    [TextDecoder_decode] below. *)
Variable encode : list Z -> list Z.
Variable decode : list Z -> list Z.

Definition encrypt (plaintext keyStr sbox : list Z) : Exception + list Z :=
  let data := pkcs7Pad (encode plaintext) in
  let key := encode (canonicalKey keyStr) in
  ecbLoop (fun block => encryptBlock block key sbox) data.

Definition decrypt (ciphertext keyStr sbox : list Z) : Exception + list Z :=
  let key := encode (canonicalKey keyStr) in
  match ecbLoop (fun block => decryptBlock block key sbox) ciphertext with
  | inl e => inl e
  | inr result =>
      match pkcs7Unpad result with
      | inl e => inl (InvalidPadding e)
      | inr data => inr (decode data)
      end
  end.

End Codec.

(** ** TextEncoder and TextDecoder *)

(** [encrypt] and [decrypt] create their [TextEncoder] and [TextDecoder]
    with no argument.  Both belong to the platform; what follows is their
    algorithm in the Encoding Standard: UTF-8, a malformed sequence
    replaced by U+FFFD, and a byte order mark at the start of the decoded
    text removed. *)








Module Utf8.

(** The UTF-8 encoder on one scalar value. *)
Definition encode (cp : Z) : list Z :=
  if cp <=? 0x7F then [cp]
  else
    let '(count, offset) :=
      if cp <=? 0x7FF then (1%nat, 0xC0)
      else if cp <=? 0xFFFF then (2%nat, 0xE0)
      else (3%nat, 0xF0) in
    (Z.shiftr cp (6 * Z.of_nat count) + offset)
    :: map (fun k => Z.lor 0x80 (Z.land (Z.shiftr cp (6 * Z.of_nat k)) 0x3F))
         (rev (seq 0 count)).

(** The state of the UTF-8 decoder. *)
Record Decoder : Type := mkDecoder {
  codePoint : Z;
  bytesSeen : Z;
  bytesNeeded : Z;
  lowerBoundary : Z;
  upperBoundary : Z
}.

Definition initial : Decoder := mkDecoder 0 0 0 0x80 0xBF.

(** What the handler returns for a byte; [ErrorRestored] is the error
    that puts the byte back into the queue. *)
Inductive Result : Type :=
  | Continue
  | CodePoint (cp : Z)
  | Error
  | ErrorRestored.

Definition inRange (lo hi byte : Z) : bool := (lo <=? byte) && (byte <=? hi).

Definition handler (d : Decoder) (byte : Z) : Decoder * Result :=
  if bytesNeeded d =? 0 then
    if inRange 0x00 0x7F byte then (d, CodePoint byte)
    else if inRange 0xC2 0xDF byte then
      (mkDecoder (Z.land byte 0x1F) (bytesSeen d) 1 (lowerBoundary d) (upperBoundary d),
       Continue)
    else if inRange 0xE0 0xEF byte then
      (mkDecoder (Z.land byte 0xF) (bytesSeen d) 2
         (if byte =? 0xE0 then 0xA0 else lowerBoundary d)
         (if byte =? 0xED then 0x9F else upperBoundary d),
       Continue)
    else if inRange 0xF0 0xF4 byte then
      (mkDecoder (Z.land byte 0x7) (bytesSeen d) 3
         (if byte =? 0xF0 then 0x90 else lowerBoundary d)
         (if byte =? 0xF4 then 0x8F else upperBoundary d),
       Continue)
    else (d, Error)
  else if negb (inRange (lowerBoundary d) (upperBoundary d) byte) then
    (initial, ErrorRestored)
  else
    let cp := Z.lor (Z.shiftl (codePoint d) 6) (Z.land byte 0x3F) in
    let seen := bytesSeen d + 1 in
    if seen =? bytesNeeded d then (initial, CodePoint cp)
    else (mkDecoder cp seen (bytesNeeded d) 0x80 0xBF, Continue).

(** The code points that a result adds to the output, errors being
    replaced. *)
Definition emitted (r : Result) : list Z :=
  match r with
  | Continue => []
  | CodePoint cp => [cp]
  | Error | ErrorRestored => [0xFFFD]
  end.

(** The decoder run over the bytes, then over the end of the queue.  A
    restored byte is read again, by the decoder in its initial state. *)
Fixpoint decode (d : Decoder) (bytes : list Z) : list Z :=
  match bytes with
  | [] => if bytesNeeded d =? 0 then [] else [0xFFFD]
  | byte :: rest =>
      let '(d1, r1) := handler d byte in
      match r1 with
      | ErrorRestored =>
          let '(d2, r2) := handler d1 byte in
          0xFFFD :: emitted r2 ++ decode d2 rest
      | _ => emitted r1 ++ decode d1 rest
      end
  end.

End Utf8.



(** ** core/galois.ts: addition and powers *)

Definition gfAdd (a b : Z) : Z := Z.lxor a b.

(** The 32-bit integer that the operators [&] and [>>] read from a
    number. *)
Definition toInt32 (v : Z) : Z := (v + 2 ^ 31) mod 2 ^ 32 - 2 ^ 31.

(** The [while (e > 0)] loop of [gfPow].  After the first shift [e] is
    below 2^30 in magnitude, so 32 turns always reach [e <= 0]. *)
Fixpoint gfPow_loop (fuel : nat) (result b e : Z) : Z :=
  match fuel with
  | O => result
  | S fuel' =>
      if e >? 0 then
        let result := if Z.land (toInt32 e) 1 =? 0 then result else gfMultiply result b in
        let b := gfMultiply b b in
        let e := Z.shiftr (toInt32 e) 1 in
        gfPow_loop fuel' result b e
      else result
  end.

Definition gfPow (base exp : Z) : Z :=
  if exp =? 0 then 1
  else if base =? 0 then 0
  else gfPow_loop 32 1 base exp.

(** ** core/affine.ts: conversions and single bits *)

(** Reading an element of a row that the array does not have:
    "Cannot read properties of undefined". *)
Inductive TypeError : Type :=
  | ReadOfUndefined (index : nat).

(** The byte whose bit [j] is set when [row[j]] is truthy. *)
Definition rowToByte (row : list Z) : Z :=
  fold_left
    (fun byte j =>
       if nth j row 0 =? 0 then byte else Z.lor byte (Z.shiftl 1 (Z.of_nat j)))
    (seq 0 8) 0.

Definition matrixToBytes (matrix : list (list Z)) : TypeError + list Z :=
  fold_left
    (fun bytes i =>
       match bytes with
       | inl e => inl e
       | inr bytes =>
           match matrix !! i with
           | None => inl (ReadOfUndefined i)
           | Some row => inr (bytes ++ [rowToByte row])
           end
       end)
    (seq 0 8) (inr []).

Definition bytesToMatrix (bytes : list Z) : list (list Z) :=
  map (fun i => bitRow (nth i bytes 0)) (seq 0 8).

(** [1 << col]: a shift count is taken modulo 32 and the result is a
    signed 32-bit integer. *)
Definition bitMask (col : nat) : Z := toInt32 (Z.shiftl 1 (Z.of_nat col mod 32)).

(** [matrix[row]] is coerced to a signed 32-bit integer by the bitwise
    operators, [undefined] to 0. *)
Definition getMatrixBit (matrix : list Z) (row col : nat) : Z :=
  Z.land (Z.shiftr (toInt32 (nth row matrix 0)) (Z.of_nat col mod 32)) 1.

(** [a[i] = v] on a plain array: a write past the end grows the array,
    and the slots skipped read as [undefined], 0 for the bitwise
    operators. *)
Definition store (a : list Z) (i : nat) (v : Z) : list Z :=
  if (i <? length a)%nat then <[i := v]> a
  else a ++ repeat 0 (i - length a) ++ [v].

(** [setMatrixBit] and [toggleMatrixBit] update the array in place; here
    they return the updated array. *)
Definition setMatrixBit (matrix : list Z) (row col : nat) (value : bool) : list Z :=
  if value
  then store matrix row (Z.lor (toInt32 (nth row matrix 0)) (bitMask col))
  else store matrix row (Z.land (toInt32 (nth row matrix 0)) (Z.lnot (bitMask col))).

Definition toggleMatrixBit (matrix : list Z) (row col : nat) : list Z :=
  store matrix row (Z.lxor (toInt32 (nth row matrix 0)) (bitMask col)).

(** ** core/sbox.ts: checks and lookups *)

(** *** JavaScript numbers

    Where a function tests or compares the entries of an array without
    coercing them to integers, the entries are JavaScript numbers: a
    finite double is the rational it denotes (the two zeros are one number
    here; no operation below tells them apart), or NaN, or an infinity. *)
Inductive number : Type :=
  | Finite (q : Qcanon.Qc)
  | NaN
  | Infinity (negative : bool).

(** The number of an integer. *)
Definition Int (z : Z) : number := Finite (Qcanon.Q2Qc (inject_Z z)).

(** An array of numbers is the list of its slots: [None] is a slot that
    holds nothing and reads as [undefined], as does a slot past the end.
    [ints] is the array of numbers of an array of integers. *)
Definition ints (a : list Z) : list (option number) := map (fun z => Some (Int z)) a.

(** The number that [<] and [>] compare for a value read from an array:
    [undefined] converts to NaN. *)
Definition toNumber (v : option number) : number :=
  match v with
  | Some n => n
  | None => NaN
  end.

(** [a < b]: false when one side is NaN. *)
Definition lessThan (a b : number) : bool :=
  match a, b with
  | NaN, _ | _, NaN => false
  | Infinity true, Infinity true => false
  | Infinity true, _ => true
  | _, Infinity true => false
  | Infinity false, _ => false
  | _, Infinity false => true
  | Finite p, Finite q => if Qcanon.Qclt_le_dec p q then true else false
  end.

(** [a >= b]: false when one side is NaN. *)
Definition atLeast (a b : number) : bool :=
  match a, b with
  | NaN, _ | _, NaN => false
  | _, _ => negb (lessThan a b)
  end.

(** [a + z] for an integer [z].  The sum of the rationals is the sum of
    the doubles where no rounding occurs, as between integers below
    2^53. *)
Definition addInt (a : number) (z : Z) : number :=
  match a with
  | Finite q => Finite (Qcanon.Qcplus q (Qcanon.Q2Qc (inject_Z z)))
  | _ => a
  end.

(** The equality of a [Set] (SameValueZero): NaN is equal to itself,
    [undefined] to itself only. *)
Definition sameNumber (a b : number) : bool :=
  match a, b with
  | Finite p, Finite q => if Qcanon.Qc_eq_dec p q then true else false
  | NaN, NaN => true
  | Infinity s, Infinity t => Bool.eqb s t
  | _, _ => false
  end.

Definition sameValueZero (a b : option number) : bool :=
  match a, b with
  | Some x, Some y => sameNumber x y
  | None, None => true
  | _, _ => false
  end.

(** [a[i]] on an array of numbers: [None] is [undefined]. *)
Definition slot (a : list (option number)) (i : Z) : option number :=
  match i with
  | Zneg _ => None
  | _ => nth (Z.to_nat i) a None
  end.

(** [===] on two reads of arrays of numbers: NaN differs from itself,
    [undefined] is equal to itself. *)
Definition strictEquals (a b : option number) : bool :=
  match a, b with
  | Some NaN, _ | _, Some NaN => false
  | Some x, Some y => sameNumber x y
  | None, None => true
  | _, _ => false
  end.

(** [a[i]] as a value: [None] is [undefined]. *)
Definition item (a : list Z) (i : Z) : option Z :=
  match i with
  | Zneg _ => None
  | _ => a !! Z.to_nat i
  end.

(** [===] on two array reads. *)
Definition strictEq (a b : option Z) : bool :=
  match a, b with
  | Some x, Some y => x =? y
  | None, None => true
  | _, _ => false
  end.

(** The [Set] of [isSBoxBijective] is the list of its elements in
    insertion order; [None] is the early [return false].  This is the
    function on arrays of integers, which every table of this file is;
    [Numbers.isSBoxBijective] below is the function on arrays of any
    numbers. *)
Definition isSBoxBijective (sbox : list Z) : bool :=
  if negb (length sbox =? 256)%nat then false
  else
    match
      fold_left
        (fun seen i =>
           match seen with
           | None => None
           | Some seen =>
               let value := get sbox i in
               if (value <? 0) || (value >? 255) then None
               else if existsb (Z.eqb value) seen then None
               else Some (seen ++ [value])
           end)
        (range 0 256) (Some [])
    with
    | None => false
    | Some seen => (length seen =? 256)%nat
    end.

Module Numbers.

(** [isSBoxBijective] on an array of any numbers.  The tests are [<], [>]
    and the membership of a [Set]; nothing asks whether a slot holds an
    integer, or holds anything. *)
Definition isSBoxBijective (sbox : list (option number)) : bool :=
  if negb (length sbox =? 256)%nat then false
  else
    match
      fold_left
        (fun seen i =>
           match seen with
           | None => None
           | Some seen =>
               let value := nth i sbox None in
               if lessThan (toNumber value) (Int 0) || lessThan (Int 255) (toNumber value)
               then None
               else if existsb (sameValueZero value) seen then None
               else Some (seen ++ [value])
           end)
        (seq 0 256) (Some [])
    with
    | None => false
    | Some seen => (length seen =? 256)%nat
    end.

End Numbers.

(** The count [ones] of [isSBoxBalanced] for one bit position. *)
Definition countOnes (sbox : list Z) (bit : Z) : Z :=
  fold_left
    (fun ones i => if Z.land (Z.shiftr (get sbox i) bit) 1 =? 0 then ones else ones + 1)
    (range 0 256) 0.

Definition isSBoxBalanced (sbox : list Z) : bool :=
  forallb (fun bit => countOnes sbox bit =? 128) (range 0 8).

Definition findFixedPoints (sbox : list Z) : list Z :=
  fold_left
    (fun fixedPoints i =>
       if strictEq (item sbox i) (Some i) then fixedPoints ++ [i] else fixedPoints)
    (range 0 256) [].

Definition findOppositeFixedPoints (sbox : list Z) : list Z :=
  fold_left
    (fun oppositeFixed i =>
       if strictEq (item sbox i) (Some (Z.land (Z.lnot i) 0xFF))
       then oppositeFixed ++ [i] else oppositeFixed)
    (range 0 256) [].

(** [compareSBoxes] tests the slots with [!==] and does not coerce them:
    its arrays hold JavaScript numbers. *)
Definition compareSBoxes (sbox1 sbox2 : list (option number)) : Z :=
  fold_left
    (fun differences i =>
       if strictEquals (slot sbox1 i) (slot sbox2 i) then differences else differences + 1)
    (range 0 256) 0.

Definition substitute (sbox : list Z) (byte : Z) : option Z :=
  item sbox (Z.land byte 0xFF).

Definition substituteBytes (sbox bytes : list Z) : list (option Z) :=
  map (fun b => item sbox (Z.land b 0xFF)) bytes.

(** ** core/metrics.ts: nonlinearity and differential probability *)

Definition walshTransform (truthTable : list Z) (mask : Z) : Z :=
  fold_left
    (fun sum x =>
       let input := Z.land (hammingWeight (Z.land x mask)) 1 in
       let output := item truthTable x in
       sum + (if strictEq (Some input) output then 1 else -1))
    (range 0 256) 0.

(** The search for [maxWalsh] that [calculateNL] and [calculateBICNL]
    run on a truth table. *)
Definition maxWalshOf (truthTable : list Z) : Z :=
  fold_left
    (fun maxWalsh mask =>
       let coef := Z.abs (walshTransform truthTable mask) in
       if coef >? maxWalsh then coef else maxWalsh)
    (range 0 256) 0.

Definition calculateNL (sbox : list Z) : Q :=
  fold_left
    (fun minNL bit =>
       let truthTable :=
         map (fun x => Z.land (Z.shiftr (get sbox x) bit) 1) (range 0 256) in
       let maxWalsh := maxWalshOf truthTable in
       let nl := (128 - inject_Z maxWalsh / 2)%Q in
       if Qlt_le_dec nl minNL then nl else minNL)
    (range 0 8) 120%Q.

Definition calculateBICNL (sbox : list Z) : Q :=
  fold_left
    (fun minNL bit1 =>
       fold_left
         (fun minNL bit2 =>
            let truthTable :=
              map (fun x =>
                     let b1 := Z.land (Z.shiftr (get sbox x) bit1) 1 in
                     let b2 := Z.land (Z.shiftr (get sbox x) bit2) 1 in
                     Z.lxor b1 b2)
                  (range 0 256) in
            let maxWalsh := maxWalshOf truthTable in
            let nl := (128 - inject_Z maxWalsh / 2)%Q in
            if Qlt_le_dec nl minNL then nl else minNL)
         (range (bit1 + 1) 8) minNL)
    (range 0 8) 120%Q.

(** The array [diffCounts] of [calculateDAP] after its counting loop.
    An increment at an index outside 0..255 would not touch the slots that
    the scan reads afterwards; [set] leaves it out. *)
Definition diffCounts (sbox : list Z) (inputDiff : Z) : list Z :=
  fold_left
    (fun diffCounts x =>
       let outputDiff := Z.lxor (get sbox x) (get sbox (Z.lxor x inputDiff)) in
       set diffCounts outputDiff (get diffCounts outputDiff + 1))
    (range 0 256) (repeat 0 256).

Definition calculateDAP (sbox : list Z) : Q :=
  fold_left
    (fun maxProb inputDiff =>
       let diffCounts := diffCounts sbox inputDiff in
       fold_left
         (fun maxProb outputDiff =>
            let prob := (inject_Z (get diffCounts outputDiff) / 256)%Q in
            if Qlt_le_dec maxProb prob then prob else maxProb)
         (range 0 256) maxProb)
    (range 1 256) 0%Q.

(** ** store/useCryptoStore.ts

    The state of the store and its synchronous actions.  An action reads
    the state with [get()] and merges an object into it with [set]; here it
    is a function from the state to the next state.  The timers
    ([recalculateMetrics] and the subscription that calls it) are left
    out; the actions below only reset [metrics] to [null]. *)

(** [generateRandomValidMatrix].  [random k] is the value of the [k]-th
    call of [Math.floor(Math.random() * 256)], counted from 0; each
    attempt draws eight of them.  [randomAttempts] is the [do ... while]
    loop: [fuel] counts the turns that may still follow, and 999 of them
    are enough because the loop stops when [attempts] reaches
    [maxAttempts = 1000]. *)
Fixpoint randomAttempts (random : nat -> Z) (fuel attempts : nat) : list Z :=
  let matrix := map (fun j => random (8 * attempts + j)%nat) (seq 0 8) in
  let attempts := S attempts in
  if negb (isMatrixValid matrix) && (attempts <? 1000)%nat
  then match fuel with
       | O => matrix
       | S fuel' => randomAttempts random fuel' attempts
       end
  else matrix.

Definition generateRandomValidMatrix (random : nat -> Z) : list Z :=
  let matrix := randomAttempts random 999 0 in
  if negb (isMatrixValid matrix) then K44_MATRIX else matrix.

Module Store.

Record SBoxMetrics : Type := {
  NL : Q; SAC : Q; BICNL : Q; BICSAC : Q; LAP : Q; DAP : Q
}.

(** The string in [decryptedText]: a text, or one of the bracketed error
    messages, kept here as the error it is formatted from. *)
Inductive DecryptedText : Type :=
  | Text (text : list Z)
  | NoEncryptionSBox
  | DecryptionError (e : Exception)
  | InputError (e : option Exception).

(** [isValid] is the field [isMatrixValid] of the store; the name is
    taken by the function of core/affine.ts. *)
Record CryptoState : Type := {
  affineMatrix : list Z;
  constant : Z;
  isValid : bool;
  sbox : list Z;
  inverseSbox : list Z;
  metrics : option SBoxMetrics;
  isCalculatingMetrics : bool;
  plaintext : list Z;
  encryptionKey : list Z;
  ciphertext : option (list Z);
  ciphertextInput : list Z;
  decryptedText : DecryptedText;
  encryptionSbox : option (list Z);
  encryptionSteps : list EncryptionStep;
  roundKeys : list State;
  currentStepIndex : number
}.

(** The helper [regenerateSBox]: [(sbox, inverseSbox, isMatrixValid)]. *)
Definition regenerateSBox (matrix : list Z) (constant : Z) : list Z * list Z * bool :=
  let valid := isMatrixValid matrix in
  if negb valid then ([], [], false)
  else
    let sbox := generateSBox matrix constant in
    let inverseSbox := generateInverseSBox sbox in
    (sbox, inverseSbox, true).

Definition initialState : CryptoState :=
  let initialMatrix := K44_MATRIX in
  let initialConstant := AES_CONSTANT in
  let initialSBox := generateSBox initialMatrix initialConstant in
  let initialInvSBox := generateInverseSBox initialSBox in
  {| affineMatrix := initialMatrix;
     constant := initialConstant;
     isValid := true;
     sbox := initialSBox;
     inverseSbox := initialInvSBox;
     metrics := None;
     isCalculatingMetrics := false;
     plaintext := [];
     encryptionKey := [];
     ciphertext := None;
     ciphertextInput := [];
     decryptedText := Text [];
     encryptionSbox := None;
     encryptionSteps := [];
     roundKeys := [];
     currentStepIndex := Int 0 |}.

(** [set({ affineMatrix, constant, sbox, inverseSbox, isMatrixValid,
    metrics: null })], the merge that the matrix actions end with. *)
Definition setMatrixState (st : CryptoState) (matrix : list Z) (c : Z)
    (regenerated : list Z * list Z * bool) : CryptoState :=
  let '(newSbox, newInverseSbox, valid) := regenerated in
  {| affineMatrix := matrix;
     constant := c;
     isValid := valid;
     sbox := newSbox;
     inverseSbox := newInverseSbox;
     metrics := None;
     isCalculatingMetrics := isCalculatingMetrics st;
     plaintext := plaintext st;
     encryptionKey := encryptionKey st;
     ciphertext := ciphertext st;
     ciphertextInput := ciphertextInput st;
     decryptedText := decryptedText st;
     encryptionSbox := encryptionSbox st;
     encryptionSteps := encryptionSteps st;
     roundKeys := roundKeys st;
     currentStepIndex := currentStepIndex st |}.

Definition setMatrixBit (row col : nat) (value : bool) (st : CryptoState) : CryptoState :=
  let matrix := setMatrixBit (affineMatrix st) row col value in
  setMatrixState st matrix (constant st) (regenerateSBox matrix (constant st)).

Definition toggleMatrixBit (row col : nat) (st : CryptoState) : CryptoState :=
  let matrix := toggleMatrixBit (affineMatrix st) row col in
  setMatrixState st matrix (constant st) (regenerateSBox matrix (constant st)).

Definition setMatrix (matrix : list Z) (st : CryptoState) : CryptoState :=
  setMatrixState st matrix (constant st) (regenerateSBox matrix (constant st)).

Definition setConstant (c : Z) (st : CryptoState) : CryptoState :=
  setMatrixState st (affineMatrix st) c (regenerateSBox (affineMatrix st) c).

(** The two values of [MatrixPreset]. *)
Inductive MatrixPreset : Type := K44 | KAES.

Definition loadPreset (preset : MatrixPreset) (st : CryptoState) : CryptoState :=
  let matrix := match preset with K44 => K44_MATRIX | KAES => KAES_MATRIX end in
  setMatrixState st matrix AES_CONSTANT (regenerateSBox matrix AES_CONSTANT).

Definition randomizeMatrix (random : nat -> Z) (st : CryptoState) : CryptoState :=
  let matrix := generateRandomValidMatrix random in
  setMatrixState st matrix (constant st) (regenerateSBox matrix (constant st)).

Definition clearMatrix (st : CryptoState) : CryptoState :=
  let matrix := repeat 0 8 in
  setMatrixState st matrix (constant st) ([], [], false).

(** A string is falsy when it is empty. *)
Definition emptyString (s : list Z) : bool :=
  match s with
  | [] => true
  | _ => false
  end.

(** [set({ plaintext })] and its like. *)
Definition setEncryptionFields (st : CryptoState) (newPlaintext newKey : list Z)
    (newCiphertext : option (list Z)) (newInput : list Z) (newDecrypted : DecryptedText)
    (newEncryptionSbox : option (list Z)) : CryptoState :=
  {| affineMatrix := affineMatrix st;
     constant := constant st;
     isValid := isValid st;
     sbox := sbox st;
     inverseSbox := inverseSbox st;
     metrics := metrics st;
     isCalculatingMetrics := isCalculatingMetrics st;
     plaintext := newPlaintext;
     encryptionKey := newKey;
     ciphertext := newCiphertext;
     ciphertextInput := newInput;
     decryptedText := newDecrypted;
     encryptionSbox := newEncryptionSbox;
     encryptionSteps := encryptionSteps st;
     roundKeys := roundKeys st;
     currentStepIndex := currentStepIndex st |}.

Definition setPlaintext (text : list Z) (st : CryptoState) : CryptoState :=
  setEncryptionFields st text (encryptionKey st) (ciphertext st) (ciphertextInput st)
    (decryptedText st) (encryptionSbox st).

Definition setEncryptionKey (key : list Z) (st : CryptoState) : CryptoState :=
  setEncryptionFields st (plaintext st) key (ciphertext st) (ciphertextInput st)
    (decryptedText st) (encryptionSbox st).

Definition setCiphertextInput (text : list Z) (st : CryptoState) : CryptoState :=
  setEncryptionFields st (plaintext st) (encryptionKey st) (ciphertext st) text
    (decryptedText st) (encryptionSbox st).

Definition clearEncryptionData (st : CryptoState) : CryptoState :=
  setEncryptionFields st [] [] None [] (Text []) None.

(** [set({ encryptionSteps, roundKeys, currentStepIndex, ... })]. *)
Definition setStepFields (st : CryptoState) (steps : list EncryptionStep)
    (keys : list State) (index : number) (newCiphertext : option (list Z))
    (newEncryptionSbox : option (list Z)) : CryptoState :=
  {| affineMatrix := affineMatrix st;
     constant := constant st;
     isValid := isValid st;
     sbox := sbox st;
     inverseSbox := inverseSbox st;
     metrics := metrics st;
     isCalculatingMetrics := isCalculatingMetrics st;
     plaintext := plaintext st;
     encryptionKey := encryptionKey st;
     ciphertext := newCiphertext;
     ciphertextInput := ciphertextInput st;
     decryptedText := decryptedText st;
     encryptionSbox := newEncryptionSbox;
     encryptionSteps := steps;
     roundKeys := keys;
     currentStepIndex := index |}.

(** The guard compares numbers; it does not ask for an integer. *)
Definition setCurrentStepIndex (index : number) (st : CryptoState) : CryptoState :=
  if atLeast index (Int 0) && lessThan index (Int (Z.of_nat (length (encryptionSteps st))))
  then setStepFields st (encryptionSteps st) (roundKeys st) index
         (ciphertext st) (encryptionSbox st)
  else st.

Definition nextStep (st : CryptoState) : CryptoState :=
  if lessThan (currentStepIndex st) (Int (Z.of_nat (length (encryptionSteps st)) - 1))
  then setStepFields st (encryptionSteps st) (roundKeys st) (addInt (currentStepIndex st) 1)
         (ciphertext st) (encryptionSbox st)
  else st.

Definition prevStep (st : CryptoState) : CryptoState :=
  if lessThan (Int 0) (currentStepIndex st)
  then setStepFields st (encryptionSteps st) (roundKeys st) (addInt (currentStepIndex st) (-1))
         (ciphertext st) (encryptionSbox st)
  else st.

Section Platform.

(** The platform's text codec, and [atob] after [trim]: the characters of
    the decoded binary string, or [None] when [atob] throws. *)
Variable encode : list Z -> list Z.
Variable decode : list Z -> list Z.
Variable atobTrimmed : list Z -> option (list Z).

Definition performEncryption (st : CryptoState) : CryptoState :=
  if negb (isValid st) || emptyString (plaintext st) || emptyString (encryptionKey st)
  then st
  else
    match encrypt encode (plaintext st) (encryptionKey st) (sbox st) with
    | inr newCiphertext =>
        setEncryptionFields st (plaintext st) (encryptionKey st) (Some newCiphertext)
          (ciphertextInput st) (Text []) (Some (sbox st))
    | inl _ => st
    end.

Definition performDecryption (st : CryptoState) : CryptoState :=
  match ciphertext st with
  | None => st
  | Some bytes =>
      if emptyString (encryptionKey st) then st
      else
        let decrypted :=
          match encryptionSbox st with
          | None => NoEncryptionSBox
          | Some usedSbox =>
              if negb (length usedSbox =? 256)%nat then NoEncryptionSBox
              else
                match decrypt encode decode bytes (encryptionKey st) usedSbox with
                | inr text => Text text
                | inl e => DecryptionError e
                end
          end in
        setEncryptionFields st (plaintext st) (encryptionKey st) (ciphertext st)
          (ciphertextInput st) decrypted (encryptionSbox st)
  end.

Definition performDecryptionFromInput (st : CryptoState) : CryptoState :=
  if negb (isValid st) || emptyString (ciphertextInput st) || emptyString (encryptionKey st)
  then st
  else
    match atobTrimmed (ciphertextInput st) with
    | None =>
        setEncryptionFields st (plaintext st) (encryptionKey st) (ciphertext st)
          (ciphertextInput st) (InputError None) (encryptionSbox st)
    | Some binaryString =>
        let bytes := map toUint8 binaryString in
        match decrypt encode decode bytes (encryptionKey st) (sbox st) with
        | inr text =>
            setEncryptionFields st (plaintext st) (encryptionKey st) (Some bytes)
              (ciphertextInput st) (Text text) (encryptionSbox st)
        | inl e =>
            setEncryptionFields st (plaintext st) (encryptionKey st) (ciphertext st)
              (ciphertextInput st) (InputError (Some e)) (encryptionSbox st)
        end
    end.

Definition encryptWithVisualization (st : CryptoState) : CryptoState :=
  if negb (isValid st) || emptyString (plaintext st) || emptyString (encryptionKey st)
  then st
  else
    let paddedText := canonicalKey (plaintext st) in
    let block := encode paddedText in
    let key := encode (canonicalKey (encryptionKey st)) in
    let '(newCiphertext, steps, keys) := encryptBlockWithSteps block key (sbox st) in
    setStepFields st steps keys (Int 0) (Some newCiphertext) (Some (sbox st)).

(** The actions of the store, for statements about every sequence of
    them. *)
Inductive Action : Type :=
  | ASetMatrixBit (row col : nat) (value : bool)
  | AToggleMatrixBit (row col : nat)
  | ASetMatrix (matrix : list Z)
  | ASetConstant (c : Z)
  | ALoadPreset (preset : MatrixPreset)
  | ARandomizeMatrix (random : nat -> Z)
  | AClearMatrix
  | ASetPlaintext (text : list Z)
  | ASetEncryptionKey (key : list Z)
  | ASetCiphertextInput (text : list Z)
  | APerformEncryption
  | APerformDecryption
  | APerformDecryptionFromInput
  | AEncryptWithVisualization
  | ASetCurrentStepIndex (index : number)
  | ANextStep
  | APrevStep
  | AClearEncryptionData.

Definition act (st : CryptoState) (a : Action) : CryptoState :=
  match a with
  | ASetMatrixBit row col value => setMatrixBit row col value st
  | AToggleMatrixBit row col => toggleMatrixBit row col st
  | ASetMatrix matrix => setMatrix matrix st
  | ASetConstant c => setConstant c st
  | ALoadPreset preset => loadPreset preset st
  | ARandomizeMatrix random => randomizeMatrix random st
  | AClearMatrix => clearMatrix st
  | ASetPlaintext text => setPlaintext text st
  | ASetEncryptionKey key => setEncryptionKey key st
  | ASetCiphertextInput text => setCiphertextInput text st
  | APerformEncryption => performEncryption st
  | APerformDecryption => performDecryption st
  | APerformDecryptionFromInput => performDecryptionFromInput st
  | AEncryptWithVisualization => encryptWithVisualization st
  | ASetCurrentStepIndex index => setCurrentStepIndex index st
  | ANextStep => nextStep st
  | APrevStep => prevStep st
  | AClearEncryptionData => clearEncryptionData st
  end.

(** The actions that edit the matrix or the constant. *)
Definition editsMatrix (a : Action) : bool :=
  match a with
  | ASetMatrixBit _ _ _ | AToggleMatrixBit _ _ | ASetMatrix _ | ASetConstant _
  | ALoadPreset _ | ARandomizeMatrix _ | AClearMatrix => true
  | _ => false
  end.

End Platform.

(** The S-box fields agree with the matrix and the constant. *)
Definition consistent (st : CryptoState) : Prop :=
  isValid st = isMatrixValid (affineMatrix st)
  /\ sbox st
     = (if isValid st then generateSBox (affineMatrix st) (constant st) else [])
  /\ inverseSbox st = (if isValid st then generateInverseSBox (sbox st) else []).

(** The step index points into the trace, or is 0 on an empty one. *)
Definition stepIndexInRange (st : CryptoState) : Prop :=
  (encryptionSteps st = [] /\ currentStepIndex st = Int 0)
  \/ (length (encryptionSteps st) = 41%nat
      /\ exists i, 0 <= i < 41 /\ currentStepIndex st = Int i).

(** The action passes an integer where it passes a step index. *)
Definition integerIndex (a : Action) : Prop :=
  match a with
  | ASetCurrentStepIndex index => exists i, index = Int i
  | _ => True
  end.

End Store.

(** ** components/visualizer/ImageEncryptor.tsx

    The pixel arrays that [encryptImage] and [decryptImage] compute in
    their timer callback.  [data] is the [Uint8ClampedArray] of an
    [ImageData], four bytes for each pixel.  The React state, the canvas
    and the guard in front of the callback are left out. *)

(** The offsets of [for (let i = 0; i < data.length; i += 4)]. *)
Definition pixelOffsets (len : nat) : list nat :=
  map (fun k => 4 * k)%nat (seq 0 ((len + 3) / 4)).

(** "Extract RGB values".  A slot that [data] does not have is pushed as
    [undefined], which the [Uint8Array] of its block turns into 0. *)
Definition extractRgb (data : list Z) : list Z :=
  fold_left
    (fun rgbData i => rgbData ++ [nth i data 0; nth (i + 1) data 0; nth (i + 2) data 0])
    (pixelOffsets (length data)) [].

(** [while (rgbData.length % 16 !== 0) rgbData.push(0)]: at most 15
    turns. *)
Fixpoint padToBlocks (fuel : nat) (rgbData : list Z) : list Z :=
  match fuel with
  | O => rgbData
  | S fuel' =>
      if negb (length rgbData mod 16 =? 0)%nat then padToBlocks fuel' (rgbData ++ [0])
      else rgbData
  end.

(** The block loop:
    [out.push(...blockFn(new Uint8Array(rgbData.slice(i, i + 16))))]. *)
Definition processBlocks (blockFn : list Z -> list Z) (rgbData : list Z) : list Z :=
  fold_left
    (fun out i => out ++ blockFn (map toUint8 (slice rgbData i (i + 16))))
    (blockOffsets (length rgbData)) [].

(** A store into a [Uint8ClampedArray] clamps the number; a store past
    the end is dropped. *)
Definition clamp (v : Z) : Z := Z.max 0 (Z.min 255 v).

(** "Reconstruct image data"; [rgb[rgbIdx++] ?? 0] reads 0 past the
    end. *)
Definition reconstruct (len : nat) (rgb : list Z) : list Z :=
  fst
    (fold_left
       (fun '(image, rgbIdx) i =>
          let image := <[i := clamp (nth rgbIdx rgb 0)]> image in
          let rgbIdx := S rgbIdx in
          let image := <[(i + 1)%nat := clamp (nth rgbIdx rgb 0)]> image in
          let rgbIdx := S rgbIdx in
          let image := <[(i + 2)%nat := clamp (nth rgbIdx rgb 0)]> image in
          let rgbIdx := S rgbIdx in
          let image := <[(i + 3)%nat := clamp 255]> image in
          (image, rgbIdx))
       (pixelOffsets len) (repeat 0 len, 0%nat)).

(** The part that [encryptImage] and [decryptImage] share. *)
Definition imagePass (blockFn : list Z -> list Z) (data : list Z) : list Z :=
  let rgbData := padToBlocks 15 (extractRgb data) in
  reconstruct (length data) (processBlocks blockFn rgbData).

Section ImageCodec.

Variable encode : list Z -> list Z.

Definition encryptImage (imageKey sbox data : list Z) : list Z :=
  let key := encode (canonicalKey imageKey) in
  imagePass (fun block => encryptBlock block key sbox) data.

Definition decryptImage (imageKey sbox data : list Z) : list Z :=
  let key := encode (canonicalKey imageKey) in
  imagePass (fun block => decryptBlock block key sbox) data.

End ImageCodec.

(** The specification's reading of LAP: the largest bias over the 255 nonzero input
    masks and the 255 nonzero output masks. *)
Definition LAP_spec (sbox : list Z) : Q :=
  fold_right Qmax 0%Q
    (flat_map (fun inputMask => map (lap_bias sbox inputMask) (range 1 256))
              (range 1 256)).

(** The arithmetic mean of the entries of a matrix of numbers. *)
Definition matrix_mean (m : list (list Q)) : Q :=
  (fold_right Qplus 0 (concat m) / inject_Z (Z.of_nat (length (concat m))))%Q.


(** ** Checkers evaluated in the proofs *)

Definition inverse_paths_check (x : Z) : bool :=
  (gfInverse x =? gfInverseComputed x)
  && ((x =? 0) || (gfMultiply x (gfInverse x) =? 1)).

(** The table of 256 zeros: a well-formed argument of the metrics, though
    not a permutation. *)
Definition zero_table : list Z := repeat 0 256.

(** [lap_scan] with the output mask fixed to 1. *)
Definition lap_scan_mask1 (sbox : list Z) (inputMasks : list Z) : Q :=
  fold_left
    (fun maxBias inputMask =>
       let bias := lap_bias sbox inputMask 1 in
       if Qlt_le_dec maxBias bias then bias else maxBias)
    inputMasks 0%Q.

(** ** Replaying a step trace *)



Definition emptyStep : EncryptionStep := mkStep 0 initial [] None.

(** ** Bit vectors for the linear algebra over GF(2) *)

(** Truthiness of a number that holds a bit. *)
Definition bitOf (v : Z) : bool := negb (v =? 0).

Definition is_bit (v : Z) : Prop := v = 0 \/ v = 1.

(** The GF(2) inner product of the eight entries of [row] from position
    [off] on with the low eight bits of [x]. *)
Definition dotAt (off : nat) (row : list Z) (x : Z) : bool :=
  fold_left
    (fun acc j => xorb acc (bitOf (nth (off + j) row 0) && Z.testbit x (Z.of_nat j)))
    (seq 0 8) false.

(** The byte whose bit [i] is [f i], for [i] in 0..7. *)
Definition pack (f : nat -> bool) : Z :=
  fold_left
    (fun acc i => if f i then Z.lor acc (Z.shiftl 1 (Z.of_nat i)) else acc)
    (seq 0 8) 0.

(** The shape of the working matrix of the eliminations: eight rows of
    [width] entries. *)
Definition shaped (width : nat) (m : list (list Z)) : Prop :=
  length m = 8%nat /\ forall r, (r < 8)%nat -> length (nth r m []) = width.

(** All entries of the eight rows are bits. *)
Definition bit_rows (m : list (list Z)) : Prop :=
  forall r, (r < 8)%nat -> Forall is_bit (nth r m []).

(** What the elimination loop leaves in row [r]. *)
Definition eliminatedRow (width : nat) (m : list (list Z)) (piv col r : nat) : list Z :=
  if negb (r =? piv)%nat && (at2 m r col =? 1)
  then xorInto width (nth r m []) (nth piv m [])
  else nth r m [].

(** ** Invariants of the Gauss-Jordan loop of [invertMatrix]

    [matrix] is the input, [aug] the augmented matrix before column
    [col]. *)

(** Every row [(a | b)] satisfies [a . x = b . (K x)] for the linear map
    [K] of [matrix]. *)
Definition rowsRelated (matrix : list Z) (aug : list (list Z)) : Prop :=
  forall r, (r < 8)%nat -> forall x,
    dotAt 0 (nth r aug []) x = dotAt 8 (nth r aug []) (affine_linear x matrix).

(** The columns before [col] are those of the identity. *)
Definition reducedUpTo (col : nat) (aug : list (list Z)) : Prop :=
  forall r c, (r < 8)%nat -> (c < col)%nat ->
    at2 aug r c = if (r =? c)%nat then 1 else 0.

(** [x] is orthogonal to the left half of every row. *)
Definition inKernel (aug : list (list Z)) (x : Z) : Prop :=
  forall r, (r < 8)%nat -> dotAt 0 (nth r aug []) x = false.

Record GaussInv (matrix : list Z) (col : nat) (aug : list (list Z)) : Prop := {
  gauss_shape : shaped 16 aug;
  gauss_bits : bit_rows aug;
  gauss_related : rowsRelated matrix aug;
  gauss_reduced : reducedUpTo col aug;
  gauss_kernel : forall x, inKernel aug x -> affine_linear x matrix = 0
}.

(** The augmented matrix [A | I] that [invertMatrix] starts from. *)
Definition augmented (matrix : list Z) : list (list Z) :=
  map (fun i => bitRow (nth i matrix 0) ++ identityRow i) (seq 0 8).

(** A vector orthogonal to all rows when column [col] has no pivot. *)
Definition kernelVector (aug : list (list Z)) (col : nat) : Z :=
  pack (fun j =>
          if (j =? col)%nat then true
          else if (j <? col)%nat then bitOf (at2 aug j col) else false).

(** The 8x8 bit matrix that [isMatrixValid] starts from. *)
Definition bitMatrix (matrix : list Z) : list (list Z) :=
  map (fun i => bitRow (nth i matrix 0)) (seq 0 8).

(** How the loop of [isMatrixValid], in state [(m, rank)], and the loop of
    [invertMatrix], in state [st], stand to each other before column
    [col]: while no pivot was missing they work on the same left half and
    [rank] is the column; afterwards [rank] lags behind. *)
Definition inStep (col : nat) (vs : list (list Z) * nat) (st : option (list (list Z)))
  : Prop :=
  match st with
  | Some aug =>
      snd vs = col /\ shaped 16 aug /\ length (fst vs) = 8%nat
      /\ forall r, (r < 8)%nat -> nth r (fst vs) [] = firstn 8 (nth r aug [])
  | None => (snd vs < col)%nat
  end.

(** ** S-boxes that are injective on the bytes *)

Definition sbox_injective (sbox : list Z) : Prop :=
  (forall x, is_byte x -> is_byte (get sbox x))
  /\ (forall x y, is_byte x -> is_byte y -> get sbox x = get sbox y -> x = y).

Definition inverse_table_check (x : Z) : bool :=
  is_byteb (get INVERSE_TABLE x) && (get INVERSE_TABLE (get INVERSE_TABLE x) =? x).

Definition lxor_byte_check (a : Z) : bool :=
  forallb (fun b => is_byteb (Z.lxor a b)) (range 0 256).

(** ** Well-formed cipher states *)

(** A 4x4 grid of bytes. *)
Definition wfState (s : State) : Prop :=
  exists a b c d e f g h i j k l m n o p,
    s = [[a; b; c; d]; [e; f; g; h]; [i; j; k; l]; [m; n; o; p]]
    /\ Forall is_byte [a; b; c; d; e; f; g; h; i; j; k; l; m; n; o; p].

(** One entry of a [mixColumns] product: the fold over [k] of the inner
    loop, for the coefficients [m0..m3] and the column [a, b, c, d]. *)
Definition mixEntry (m0 m1 m2 m3 a b c d : Z) : Z :=
  Z.lxor
    (Z.lxor
       (Z.lxor (Z.lxor 0 (gfMultiplyConstant a m0)) (gfMultiplyConstant b m1))
       (gfMultiplyConstant c m2))
    (gfMultiplyConstant d m3).

(** The constants that [mixColumns] and [invMixColumns] multiply by. *)
Definition mixCoefficients : list Z := [1; 2; 3; 9; 11; 13; 14].

Definition gmc_linear_check (a : Z) : bool :=
  forallb
    (fun b =>
       forallb
         (fun m =>
            gfMultiplyConstant (Z.lxor a b) m
            =? Z.lxor (gfMultiplyConstant a m) (gfMultiplyConstant b m))
         mixCoefficients)
    (range 0 256).

Definition gmc_byte_check (a : Z) : bool :=
  forallb (fun m => is_byteb (gfMultiplyConstant a m)) mixCoefficients.

(** The product of the inverse matrix with column [j] of the forward
    matrix, applied to the byte [s]: [s] on the diagonal, 0 elsewhere. *)
Definition mix_product_check (s : Z) : bool :=
  let g := gfMultiplyConstant s in
  let col0 m0 m1 m2 m3 := mixEntry m0 m1 m2 m3 (g 2) (g 1) (g 1) (g 3) in
  let col1 m0 m1 m2 m3 := mixEntry m0 m1 m2 m3 (g 3) (g 2) (g 1) (g 1) in
  let col2 m0 m1 m2 m3 := mixEntry m0 m1 m2 m3 (g 1) (g 3) (g 2) (g 1) in
  let col3 m0 m1 m2 m3 := mixEntry m0 m1 m2 m3 (g 1) (g 1) (g 3) (g 2) in
  (col0 14 11 13 9 =? s) && (col1 14 11 13 9 =? 0)
  && (col2 14 11 13 9 =? 0) && (col3 14 11 13 9 =? 0)
  && (col0 9 14 11 13 =? 0) && (col1 9 14 11 13 =? s)
  && (col2 9 14 11 13 =? 0) && (col3 9 14 11 13 =? 0)
  && (col0 13 9 14 11 =? 0) && (col1 13 9 14 11 =? 0)
  && (col2 13 9 14 11 =? s) && (col3 13 9 14 11 =? 0)
  && (col0 11 13 9 14 =? 0) && (col1 11 13 9 14 =? 0)
  && (col2 11 13 9 14 =? 0) && (col3 11 13 9 14 =? s).

(** A round key all of whose entries are bytes. *)
Definition byteKey (rk : State) : Prop := forall i j, is_byte (at2 rk i j).

(** An S-box whose entries at the bytes are bytes. *)
Definition sbox_bytes (sbox : list Z) : Prop := forall x, is_byte x -> is_byte (get sbox x).

(** Key-schedule words all of whose entries are bytes. *)
Definition byteWords (W : list (list Z)) : Prop := Forall (Forall is_byte) W.

(** One turn of the block loop of [ecbLoop]. *)
Definition ecbStep (blockFn : list Z -> list Z) (input : list Z)
    (result : Exception + list Z) (i : nat) : Exception + list Z :=
  match result with
  | inl e => inl e
  | inr result => typedSet result (blockFn (slice input i (i + 16))) i
  end.
(** ** GF(2^8) as a field *)

(** A map of the bytes that respects XOR. *)
Definition additive (f : Z -> Z) : Prop :=
  forall x y, is_byte x -> is_byte y -> f (Z.lxor x y) = Z.lxor (f x) (f y).

(** The XOR of a list of numbers. *)
Definition xorList (l : list Z) : Z := fold_right Z.lxor 0 l.

(** The powers of two that make up a byte. *)
Definition bitTerms (x : Z) : list Z :=
  map (fun i => if Z.testbit x i then Z.shiftl 1 i else 0) (range 0 8).

(** [x] multiplied [n] times onto 1. *)
Definition gfPower (x : Z) (n : nat) : Z := Nat.iter n (gfMultiply x) 1.

(** The laws of one bit of a row byte, as a test that is run on every
    byte. *)
Definition row_bit_check (x : Z) : bool :=
  forallb
    (fun c =>
       let bit := Z.shiftl 1 c in
       let on := Z.lor x bit in
       let off := Z.land x (Z.lnot bit) in
       let flipped := Z.lxor x bit in
       is_byteb on && is_byteb off && is_byteb flipped
       && (Z.lxor flipped bit =? x)
       && (flipped =? if Z.land (Z.shiftr x c) 1 =? 0 then on else off)
       && forallb
            (fun c' =>
               (Z.land (Z.shiftr on c') 1
                =? if c =? c' then 1 else Z.land (Z.shiftr x c') 1)
               && (Z.land (Z.shiftr off c') 1
                   =? if c =? c' then 0 else Z.land (Z.shiftr x c') 1))
            (range 0 8))
    (range 0 8).

(** ** Tables that are permutations of the bytes *)

(** One turn of the scan of [isSBoxBijective]. *)
Definition seenStep (sbox : list Z) (seen : option (list Z)) (i : Z) : option (list Z) :=
  match seen with
  | None => None
  | Some seen =>
      let value := get sbox i in
      if (value <? 0) || (value >? 255) then None
      else if existsb (Z.eqb value) seen then None
      else Some (seen ++ [value])
  end.

(** A table of 256 distinct bytes. *)
Definition bytePermutation (sbox : list Z) : Prop :=
  length sbox = 256%nat /\ Forall is_byte sbox /\ List.NoDup sbox.

(** The number of entries of [l] with the bit [bit] set. *)
Definition bitCount (bit : Z) (l : list Z) : Z :=
  fold_right (fun v n => if Z.land (Z.shiftr v bit) 1 =? 0 then n else n + 1) 0 l.

(** Whether two tables differ at index [i], as a number. *)
Definition differsAt (sbox1 sbox2 : list (option number)) (i : Z) : Z :=
  if strictEquals (slot sbox1 i) (slot sbox2 i) then 0 else 1.

(** A slot that passes the range tests of [isSBoxBijective]: it holds
    a number neither below 0 nor above 255, or NaN, or nothing.  The
    infinities do not pass. *)
Definition inByteRange (v : option number) : Prop :=
  match toNumber v with
  | Finite q => Qcanon.Qcle (Qcanon.Q2Qc 0) q /\ Qcanon.Qcle q (Qcanon.Q2Qc 255)
  | NaN => True
  | Infinity _ => False
  end.

(** The sum of a list of numbers. *)
Definition sumList (l : list Z) : Z := fold_right Z.add 0 l.

(** The product of the forward matrix with column [j] of the inverse
    matrix, applied to the byte [s]: [s] on the diagonal, 0 elsewhere. *)
Definition inv_mix_product_check (s : Z) : bool :=
  let g := gfMultiplyConstant s in
  let col0 m0 m1 m2 m3 := mixEntry m0 m1 m2 m3 (g 14) (g 9) (g 13) (g 11) in
  let col1 m0 m1 m2 m3 := mixEntry m0 m1 m2 m3 (g 11) (g 14) (g 9) (g 13) in
  let col2 m0 m1 m2 m3 := mixEntry m0 m1 m2 m3 (g 13) (g 11) (g 14) (g 9) in
  let col3 m0 m1 m2 m3 := mixEntry m0 m1 m2 m3 (g 9) (g 13) (g 11) (g 14) in
  (col0 2 3 1 1 =? s) && (col1 2 3 1 1 =? 0)
  && (col2 2 3 1 1 =? 0) && (col3 2 3 1 1 =? 0)
  && (col0 1 2 3 1 =? 0) && (col1 1 2 3 1 =? s)
  && (col2 1 2 3 1 =? 0) && (col3 1 2 3 1 =? 0)
  && (col0 1 1 2 3 =? 0) && (col1 1 1 2 3 =? 0)
  && (col2 1 1 2 3 =? s) && (col3 1 1 2 3 =? 0)
  && (col0 3 1 1 2 =? 0) && (col1 3 1 1 2 =? 0)
  && (col2 3 1 1 2 =? 0) && (col3 3 1 1 2 =? s).

(** ** Counting in the metrics *)

(** The number of [x] in [l] whose output difference under [inputDiff]
    is [d]. *)
Definition diffCount (sbox : list Z) (inputDiff d : Z) (l : list Z) : Z :=
  Z.of_nat
    (length
       (List.filter
          (fun x => Z.lxor (get sbox x) (get sbox (Z.lxor x inputDiff)) =? d) l)).

(** The parity of the bits that a mask of one or two bits selects is the
    bit, or the exclusive or of the two bits; a test that is run on every
    byte. *)
Definition parity_bit_check (v : Z) : bool :=
  forallb
    (fun bit1 =>
       let b1 := Z.land (Z.shiftr v bit1) 1 in
       (Z.land (hammingWeight (Z.land v (Z.shiftl 1 bit1))) 1 =? b1)
       && forallb
            (fun bit2 =>
               let b2 := Z.land (Z.shiftr v bit2) 1 in
               Z.land (hammingWeight (Z.land v (Z.lor (Z.shiftl 1 bit1) (Z.shiftl 1 bit2)))) 1
               =? Z.lxor b1 b2)
            (range (bit1 + 1) 8))
    (range 0 8).

(** * Properties *)

(** ** Index ranges *)

Lemma In_range lo hi x : In x (range lo hi) <-> lo <= x < hi.
Proof.
  unfold range. rewrite in_map_iff. split.
  - intros (k & <- & Hk). apply in_seq in Hk. lia.
  - intros Hx. exists (Z.to_nat (x - lo)). split; [lia|]. apply in_seq. lia.
Qed.

Lemma forallb_range f lo hi :
  forallb f (range lo hi) = true -> forall x, lo <= x < hi -> f x = true.
Proof.
  intros H x Hx. rewrite forallb_forall in H. apply H, In_range, Hx.
Qed.

Lemma range_0_8 : range 0 8 = [0; 1; 2; 3; 4; 5; 6; 7].
Proof. reflexivity. Qed.

Lemma length_range lo hi : length (range lo hi) = Z.to_nat (hi - lo).
Proof. unfold range. now rewrite length_map, length_seq. Qed.

(** ** GF(2^8): the two inverse paths *)

Lemma inverse_paths_checked : forallb inverse_paths_check (range 0 256) = true.
Proof. vm_compute. reflexivity. Qed.

(** C8. For every byte [x] the table lookup [gfInverse x] equals the
    exponentiation [gfInverseComputed x]; [gfInverse 0 = 0]; for nonzero
    [x] the product [gfMultiply x (gfInverse x)] is 1; and
    [verifyInverseTable] returns true. *)
Theorem gfInverse_paths_agree (x : Z) :
  0 <= x < 256 ->
  gfInverse x = gfInverseComputed x
  /\ gfInverse 0 = 0
  /\ (x <> 0 -> gfMultiply x (gfInverse x) = 1)
  /\ verifyInverseTable = true.
Proof.
  intros Hx.
  pose proof (forallb_range _ _ _ inverse_paths_checked x Hx) as H.
  unfold inverse_paths_check in H.
  apply andb_prop in H as [H1 H2]. apply Z.eqb_eq in H1.
  split; [exact H1|]. split; [reflexivity|]. split.
  - intros Hne. apply orb_prop in H2 as [H2|H2].
    + apply Z.eqb_eq in H2. contradiction.
    + now apply Z.eqb_eq in H2.
  - vm_compute. reflexivity.
Qed.

Lemma gfInverse_paths_agree_witness :
  gfInverse 0x53 = gfInverseComputed 0x53
  /\ gfInverse 0 = 0
  /\ (0x53 <> 0 -> gfMultiply 0x53 (gfInverse 0x53) = 1)
  /\ verifyInverseTable = true.
Proof. apply (gfInverse_paths_agree 0x53). lia. Defined.

(** ** S-box generation on the two preset matrices *)

(** C2. With constant 0x63, [generateSBox] on the K44 matrix yields the
    reference table (entries 0x63, 0x34, 0xA5, ...), but on the bytes of
    [KAES_MATRIX] it does not yield the standard AES S-box: entry 1 is 236
    where the AES S-box has 124.  [applyAffine] reads column [j] of a row
    from bit [j] of the row byte; the bytes of [KAES_MATRIX] list the AES
    rows with column 0 in the top bit, and the same rows with column 0 in
    bit 0 do give the AES S-box. *)
Theorem generateSBox_presets :
  generateSBox K44_MATRIX 0x63 = EXPECTED_SBOX44
  /\ get (generateSBox K44_MATRIX 0x63) 0 = 0x63
  /\ get (generateSBox K44_MATRIX 0x63) 1 = 0x34
  /\ get (generateSBox K44_MATRIX 0x63) 2 = 0xA5
  /\ get (generateSBox KAES_MATRIX 0x63) 0 = 99
  /\ get (generateSBox KAES_MATRIX 0x63) 1 = 236
  /\ get AES_SBOX 1 = 124
  /\ generateSBox KAES_MATRIX 0x63 <> AES_SBOX
  /\ generateSBox [0xF1; 0xE3; 0xC7; 0x8F; 0x1F; 0x3E; 0x7C; 0xF8] 0x63 = AES_SBOX.
Proof.
  repeat split; try (vm_compute; reflexivity).
  intros H. apply (f_equal (fun l => get l 1)) in H. vm_compute in H. discriminate.
Qed.

(** ** Metrics *)

Lemma fold_left_ext_in {A B} (f g : A -> B -> A) (l : list B) (a : A) :
  (forall a x, In x l -> f a x = g a x) -> fold_left f l a = fold_left g l a.
Proof.
  revert a. induction l as [|x l IH]; intros a H; [reflexivity|].
  simpl. rewrite (H a x (or_introl eq_refl)).
  apply IH. intros a' y Hy. apply H. now right.
Qed.

Lemma get_zero_table x : get zero_table x = 0.
Proof.
  unfold get, zero_table. destruct x; try reflexivity; apply nth_repeat.
Qed.

Lemma lap_bias_zero_table inputMask outputMask :
  lap_bias zero_table inputMask outputMask = lap_bias zero_table inputMask 1.
Proof.
  assert (H : lap_count zero_table inputMask outputMask
              = lap_count zero_table inputMask 1).
  { unfold lap_count. apply fold_left_ext_in. intros count x _.
    rewrite get_zero_table. reflexivity. }
  unfold lap_bias. rewrite H. reflexivity.
Qed.

(** A maximum search over a non-empty list of equal candidates keeps the
    result of its first comparison. *)
Lemma max_search_const (b : Q) (l : list Z) (m : Q) :
  l <> [] ->
  fold_left (fun maxBias (_ : Z) => if Qlt_le_dec maxBias b then b else maxBias) l m
  = if Qlt_le_dec m b then b else m.
Proof.
  revert m. induction l as [|x l IH]; intros m Hne; [contradiction|].
  simpl. destruct l as [|y l]; [reflexivity|].
  rewrite IH by discriminate.
  destruct (Qlt_le_dec m b) as [Hlt|Hle].
  - destruct (Qlt_le_dec b b) as [Hbb|_]; [|reflexivity].
    now apply Qlt_irrefl in Hbb.
  - destruct (Qlt_le_dec m b) as [Hlt|_]; [|reflexivity].
    exfalso. eapply Qlt_irrefl, Qlt_le_trans; eassumption.
Qed.

Lemma lap_scan_zero_table inputMasks :
  lap_scan zero_table inputMasks = lap_scan_mask1 zero_table inputMasks.
Proof.
  unfold lap_scan, lap_scan_mask1.
  apply fold_left_ext_in. intros m inputMask _.
  erewrite fold_left_ext_in.
  - apply max_search_const. discriminate.
  - intros a outputMask _. cbv beta zeta. now rewrite lap_bias_zero_table.
Qed.

Lemma Qmax_list_zero (l : list Q) :
  (forall q, In q l -> (q == 0)%Q) -> (fold_right Qmax 0%Q l == 0)%Q.
Proof.
  induction l as [|q l IH]; intros H; [reflexivity|].
  simpl. specialize (IH (fun q' Hq' => H q' (or_intror Hq'))).
  pose proof (H q (or_introl eq_refl)) as Hq.
  destruct (Q.max_spec q (fold_right Qmax 0%Q l)) as [[_ ->]|[_ ->]]; assumption.
Qed.

Lemma lap_bias_zero_table_nonzero_mask :
  forallb (fun inputMask => Qeq_bool (lap_bias zero_table inputMask 1) 0)
          (range 1 256) = true.
Proof. vm_compute. reflexivity. Qed.

(** C4. On the table of 256 zeros [calculateLAP] returns 1/2, although
    every pair of a nonzero input mask and a nonzero output mask has bias
    0 there, so that the maximum the specification describes is 0: the loop of
    [calculateLAP] starts its input masks at 0, and the pair (0, 1) has
    count 256. *)
Theorem calculateLAP_scans_input_mask_zero :
  (calculateLAP zero_table == 1 # 2)%Q
  /\ (LAP_spec zero_table == 0)%Q
  /\ lap_count zero_table 0 1 = 256
  /\ ~ (calculateLAP zero_table == LAP_spec zero_table)%Q.
Proof.
  assert (Hcode : (calculateLAP zero_table == 1 # 2)%Q).
  { unfold calculateLAP. rewrite lap_scan_zero_table. vm_compute. reflexivity. }
  assert (Hspec : (LAP_spec zero_table == 0)%Q).
  { apply Qmax_list_zero. intros q Hq.
    apply in_flat_map in Hq as (inputMask & Hin & Hq).
    apply in_map_iff in Hq as (outputMask & <- & _).
    rewrite lap_bias_zero_table. apply Qeq_bool_iff.
    apply (forallb_range _ _ _ lap_bias_zero_table_nonzero_mask).
    now apply In_range. }
  split; [exact Hcode|]. split; [exact Hspec|]. split; [vm_compute; reflexivity|].
  rewrite Hcode, Hspec. discriminate.
Qed.

(** C10. [calculateSAC sbox] is the arithmetic mean of the 64 entries of
    [calculateSACMatrix sbox]. *)
Theorem calculateSAC_is_matrix_mean (sbox : list Z) :
  length (concat (calculateSACMatrix sbox)) = 64%nat
  /\ (calculateSAC sbox == matrix_mean (calculateSACMatrix sbox))%Q.
Proof.
  split; [reflexivity|].
  unfold calculateSAC, calculateSACMatrix, matrix_mean.
  rewrite range_0_8.
  generalize (sac_flips sbox). intros flips.
  cbn [fold_left map concat app length fold_right].
  repeat rewrite inject_Z_plus.
  change (inject_Z 0) with 0%Q.
  change (Z.of_nat 64) with 64.
  cbn [Z.add Pos.add Pos.succ Pos.add_carry].
  field.
Qed.

(** ** PKCS7 unpadding *)

(** [pkcs7Unpad] either throws or returns the data without its last
    [padLen] bytes. *)
Lemma pkcs7Unpad_cases (data : list Z) :
  let len := length data in
  let padLen := nth (len - 1) data 0 in
  pkcs7Unpad data = inr (firstn (len - Z.to_nat padLen) data)
  \/ (exists e, pkcs7Unpad data = inl e).
Proof.
  intros len padLen. unfold pkcs7Unpad. fold len. fold padLen.
  repeat match goal with
         | |- context [if ?c then _ else _] => destruct c
         | |- context [match ?c with Some _ => _ | None => _ end] => destruct c
         end; eauto.
Qed.

(** C3. [pkcs7Unpad] throws exactly when the data is empty, or its last
    byte is outside 1..16, or exceeds the length, or one of the last
    [padLen] bytes differs from [padLen]; otherwise it returns the data
    without its last [padLen] bytes.  [decrypt] on a ciphertext whose
    decrypted bytes end in 0 or in a value above their length throws a
    padding error and returns no text. *)
Theorem pkcs7Unpad_fails_iff (data : list Z) :
  Forall is_byte data ->
  let len := length data in
  let padLen := nth (len - 1) data 0 in
  ((exists e, pkcs7Unpad data = inl e) <->
     data = []
     \/ ~ (1 <= padLen <= 16)
     \/ Z.of_nat len < padLen
     \/ exists i, (len - Z.to_nat padLen <= i < len)%nat /\ nth i data 0 <> padLen)
  /\ ((forall e, pkcs7Unpad data <> inl e) ->
      pkcs7Unpad data = inr (firstn (len - Z.to_nat padLen) data))
  /\ (forall encode decode ciphertext keyStr sbox,
        ecbLoop (fun block => decryptBlock block (encode (canonicalKey keyStr)) sbox)
                ciphertext = inr data ->
        padLen = 0 \/ Z.of_nat len < padLen ->
        exists e, decrypt encode decode ciphertext keyStr sbox = inl (InvalidPadding e)).
Proof.
  intros Hbytes len padLen.
  assert (Hpad : data <> [] -> 0 <= padLen).
  { intros Hne. rewrite List.Forall_forall in Hbytes.
    assert (Hin : In padLen data).
    { apply nth_In. destruct data; [contradiction|]. subst len. simpl. lia. }
    apply Hbytes in Hin. unfold is_byte in Hin. lia. }
  assert (Hiff : (exists e, pkcs7Unpad data = inl e) <->
     data = []
     \/ ~ (1 <= padLen <= 16)
     \/ Z.of_nat len < padLen
     \/ exists i, (len - Z.to_nat padLen <= i < len)%nat /\ nth i data 0 <> padLen).
  { unfold pkcs7Unpad. fold len. fold padLen.
    destruct (Nat.eqb_spec len 0) as [Hlen|Hlen].
    { split; [|eauto]. intros _. left. now apply length_zero_iff_nil. }
    assert (Hne : data <> []) by (intros ->; now apply Hlen).
    specialize (Hpad Hne).
    destruct (Z.gtb_spec padLen 16) as [H16|H16]; simpl.
    { split; [|eauto]. intros _. right. left. lia. }
    destruct (Z.eqb_spec padLen 0) as [H0|H0]; simpl.
    { split; [|eauto]. intros _. right. left. lia. }
    destruct (Z.gtb_spec padLen (Z.of_nat len)) as [Hgt|Hgt].
    { split; [|eauto]. intros _. right. right. left. lia. }
    destruct (find _ _) as [i|] eqn:Hfind.
    - split; [|eauto]. intros _. do 3 right.
      apply find_some in Hfind as [Hin Hi]. apply in_seq in Hin.
      exists i. split; [lia|].
      apply negb_true_iff, Z.eqb_neq in Hi. exact Hi.
    - split; [intros [e He]; discriminate|].
      intros [Hnil|[Hr|[Hl|(i & Hi & Hneq)]]]; try contradiction; try lia.
      exfalso. apply Hneq.
      pose proof (find_none _ _ Hfind i) as Hnone.
      cbv beta in Hnone. apply negb_false_iff, Z.eqb_eq in Hnone; [exact Hnone|].
      apply in_seq. lia. }
  split; [exact Hiff|]. split.
  - intros Hok.
    destruct (pkcs7Unpad_cases data) as [H|[e He]]; [exact H|].
    now apply Hok in He.
  - intros encode decode ciphertext keyStr sbox Hloop Hlast.
    unfold decrypt. rewrite Hloop.
    assert (Hfail : exists e, pkcs7Unpad data = inl e).
    { apply Hiff. destruct (decide (data = [])) as [Hnil|Hne]; [now left|].
      right. destruct Hlast as [->|Hlast]; [left; lia | right; left; exact Hlast]. }
    destruct Hfail as [e ->]. eauto.
Qed.

Lemma pkcs7Unpad_fails_iff_witness :
  pkcs7Unpad [104; 105; 2; 2] = inr [104; 105]
  /\ exists e,
       decrypt (fun s => s) (fun b => b) (repeat 7 16) [107]
         (generateSBox K44_MATRIX 0x63)
       = inl (InvalidPadding e).
Proof.
  split.
  - assert (Hbytes : Forall is_byte [104; 105; 2; 2])
      by (repeat constructor; unfold is_byte; lia).
    destruct (pkcs7Unpad_fails_iff [104; 105; 2; 2] Hbytes) as (_ & Hok & _).
    apply Hok. intros e He. vm_compute in He. discriminate.
  - set (data := [209; 239; 183; 166; 58; 176; 17; 3; 84; 238; 153; 92; 171; 103; 62; 200]).
    assert (Hbytes : Forall is_byte data)
      by (repeat constructor; unfold is_byte; lia).
    destruct (pkcs7Unpad_fails_iff data Hbytes) as (_ & _ & Hdec).
    apply (Hdec (fun s => s) (fun b => b) (repeat 7 16) [107]
             (generateSBox K44_MATRIX 0x63)).
    + vm_compute. reflexivity.
    + right. vm_compute. reflexivity.
Defined.

(** ** Key canonicalisation *)

Lemma canonicalKey_past_16 (keyStr extra : list Z) :
  (16 <= length keyStr)%nat -> canonicalKey (keyStr ++ extra) = canonicalKey keyStr.
Proof.
  intros Hlen. unfold canonicalKey.
  rewrite length_app.
  replace (16 - (length keyStr + length extra))%nat with O by lia.
  replace (16 - length keyStr)%nat with O by lia.
  simpl. rewrite !app_nil_r. rewrite firstn_app.
  replace (16 - length keyStr)%nat with O by lia.
  simpl. now rewrite app_nil_r.
Qed.

Lemma firstn_repeat_min {A} (a : A) (n m : nat) :
  firstn n (repeat a m) = repeat a (Nat.min n m).
Proof.
  revert m. induction n as [|n IH]; intros [|m]; simpl; try reflexivity.
  now rewrite IH.
Qed.

Lemma canonicalKey_trailing_NUL (keyStr : list Z) (n : nat) :
  canonicalKey (keyStr ++ repeat 0 n) = canonicalKey keyStr.
Proof.
  unfold canonicalKey.
  rewrite <- app_assoc, <- repeat_app, length_app, repeat_length.
  rewrite !firstn_app, !firstn_repeat_min. f_equal. f_equal. lia.
Qed.

Lemma length_canonicalKey (keyStr : list Z) : length (canonicalKey keyStr) = 16%nat.
Proof.
  unfold canonicalKey. rewrite length_firstn, length_app, repeat_length. lia.
Qed.

(** The code unit at a position below 16 of the canonical key is that of
    the key, and NUL past the end of the key. *)
Lemma nth_canonicalKey (keyStr : list Z) (i : nat) :
  (i < 16)%nat -> nth i (canonicalKey keyStr) 0 = nth i keyStr 0.
Proof.
  intros Hi. unfold canonicalKey. rewrite nth_firstn.
  destruct (Nat.ltb_spec i 16) as [_|H]; [|lia].
  destruct (Nat.lt_ge_cases i (length keyStr)) as [Hlt|Hge].
  - now rewrite app_nth1.
  - rewrite app_nth2, nth_repeat by assumption. now rewrite nth_overflow.
Qed.

(** C9. [encrypt] and [decrypt] see the key only through
    [keyStr.padEnd(16, '\0').slice(0, 16)].  That canonical key has 16 code
    units: a key of at most 16 is padded with NUL at its end, a longer key
    is cut to its first 16; two keys have the same canonical key exactly
    when they agree on the positions below 16, a missing position
    counting as NUL.  Two keys with the same canonical key give the same
    ciphertext and the same decryption: so do a key of 16 or more code
    units and that key with more appended, and a key and that key with
    NULs appended. *)
Theorem key_is_canonicalized (encode decode : list Z -> list Z)
    (keyStr extra k1 k2 plaintext ciphertext sbox : list Z) (n : nat) :
  length (canonicalKey keyStr) = 16%nat
  /\ ((length keyStr <= 16)%nat ->
      canonicalKey keyStr = keyStr ++ repeat 0 (16 - length keyStr))
  /\ ((16 <= length keyStr)%nat -> canonicalKey keyStr = firstn 16 keyStr)
  /\ (canonicalKey k1 = canonicalKey k2
      <-> forall i, (i < 16)%nat -> nth i k1 0 = nth i k2 0)
  /\ (canonicalKey k1 = canonicalKey k2 ->
      encrypt encode plaintext k1 sbox = encrypt encode plaintext k2 sbox
      /\ decrypt encode decode ciphertext k1 sbox
         = decrypt encode decode ciphertext k2 sbox)
  /\ ((16 <= length keyStr)%nat ->
      encrypt encode plaintext (keyStr ++ extra) sbox
      = encrypt encode plaintext keyStr sbox
      /\ decrypt encode decode ciphertext (keyStr ++ extra) sbox
         = decrypt encode decode ciphertext keyStr sbox)
  /\ encrypt encode plaintext (keyStr ++ repeat 0 n) sbox
     = encrypt encode plaintext keyStr sbox
  /\ decrypt encode decode ciphertext (keyStr ++ repeat 0 n) sbox
     = decrypt encode decode ciphertext keyStr sbox.
Proof.
  assert (Hsame : forall a b,
             canonicalKey a = canonicalKey b ->
             encrypt encode plaintext a sbox = encrypt encode plaintext b sbox
             /\ decrypt encode decode ciphertext a sbox
                = decrypt encode decode ciphertext b sbox).
  { intros a b Hk. unfold encrypt, decrypt. now rewrite Hk. }
  split; [apply length_canonicalKey|]. split; [|split; [|split; [|split; [|split]]]].
  - intros Hlen. unfold canonicalKey. apply firstn_all2.
    rewrite length_app, repeat_length. lia.
  - intros Hlen. unfold canonicalKey.
    replace (16 - length keyStr)%nat with O by lia. cbn [repeat].
    now rewrite app_nil_r.
  - split.
    + intros Hk i Hi.
      rewrite <- (nth_canonicalKey k1 i Hi), <- (nth_canonicalKey k2 i Hi).
      now rewrite Hk.
    + intros Hnth. apply (nth_ext _ _ 0 0).
      * now rewrite !length_canonicalKey.
      * intros i Hi. rewrite length_canonicalKey in Hi.
        rewrite !nth_canonicalKey by assumption. now apply Hnth.
  - apply Hsame.
  - intros Hlen. apply Hsame. now apply canonicalKey_past_16.
  - apply Hsame. apply canonicalKey_trailing_NUL.
Qed.

(** ** The step trace *)

Lemma cloneState_id (s : State) : cloneState s = s.
Proof. unfold cloneState. induction s as [|row s IH]; simpl; congruence. Qed.


(** ** Bits, bytes and the affine map *)

Lemma nth_insert_eq {A} (l : list A) (i : nat) (x d : A) :
  (i < length l)%nat -> nth i (<[i := x]> l) d = x.
Proof. intros H. rewrite nth_lookup, list_lookup_insert_eq by exact H. reflexivity. Qed.

Lemma nth_insert_ne {A} (l : list A) (i j : nat) (x d : A) :
  i <> j -> nth j (<[i := x]> l) d = nth j l d.
Proof. intros H. rewrite !nth_lookup, list_lookup_insert_ne by exact H. reflexivity. Qed.

Lemma fold_left_map_in {A B C} (f : A -> C -> A) (g : B -> C) (l : list B) (a : A) :
  fold_left f (map g l) a = fold_left (fun a x => f a (g x)) l a.
Proof. revert a. induction l as [|x l IH]; intros a; simpl; [reflexivity | apply IH]. Qed.

Lemma land_shiftr_1 (x j : Z) :
  0 <= j -> Z.land (Z.shiftr x j) 1 = Z.b2z (Z.testbit x j).
Proof.
  intros Hj. change 1 with (Z.ones 1). rewrite Z.land_ones by lia.
  change (2 ^ 1) with 2. rewrite <- Z.bit0_mod, Z.shiftr_spec by lia. reflexivity.
Qed.

Lemma bitOf_b2z (b : bool) : bitOf (Z.b2z b) = b.
Proof. now destruct b. Qed.

Lemma b2z_eqb_0 (b : bool) : (Z.b2z b =? 0) = negb b.
Proof. now destruct b. Qed.

Lemma nth_bitRow (b : Z) (j : nat) :
  (j < 8)%nat -> nth j (bitRow b) 0 = Z.b2z (Z.testbit b (Z.of_nat j)).
Proof.
  intros Hj. rewrite <- land_shiftr_1 by lia. unfold bitRow.
  do 8 (destruct j as [|j]; [reflexivity|]). lia.
Qed.

Lemma pack_ext (f g : nat -> bool) :
  (forall i, (i < 8)%nat -> f i = g i) -> pack f = pack g.
Proof.
  intros H. unfold pack. cbn [fold_left seq].
  rewrite !H by lia. reflexivity.
Qed.

Lemma pack_bits (f : nat -> bool) (i : nat) :
  (i < 8)%nat -> Z.testbit (pack f) (Z.of_nat i) = f i.
Proof.
  intros Hi. unfold pack. cbn [fold_left seq].
  do 8 (destruct i as [|i]; [clear Hi;
    destruct (f 0%nat), (f 1%nat), (f 2%nat), (f 3%nat),
             (f 4%nat), (f 5%nat), (f 6%nat), (f 7%nat); reflexivity|]).
  lia.
Qed.

Lemma pack_byte (f : nat -> bool) : is_byte (pack f).
Proof.
  unfold pack, is_byte. cbn [fold_left seq].
  destruct (f 0%nat), (f 1%nat), (f 2%nat), (f 3%nat),
           (f 4%nat), (f 5%nat), (f 6%nat), (f 7%nat); vm_compute; split; congruence.
Qed.

Lemma pack_testbit_checked :
  forallb (fun x => pack (fun i => Z.testbit x (Z.of_nat i)) =? x) (range 0 256) = true.
Proof. vm_compute. reflexivity. Qed.

Lemma pack_testbit (x : Z) : is_byte x -> pack (fun i => Z.testbit x (Z.of_nat i)) = x.
Proof.
  intros Hx. apply Z.eqb_eq.
  exact (forallb_range _ _ _ pack_testbit_checked x Hx).
Qed.

(** Two bytes with the same eight bits are equal. *)
Lemma byte_ext (x y : Z) :
  is_byte x -> is_byte y ->
  (forall i, (i < 8)%nat -> Z.testbit x (Z.of_nat i) = Z.testbit y (Z.of_nat i)) ->
  x = y.
Proof.
  intros Hx Hy H. rewrite <- (pack_testbit x Hx), <- (pack_testbit y Hy).
  now apply pack_ext.
Qed.

Lemma parity_fold (F G : Z -> Z) (l : list Z) (a : bool) :
  fold_left
    (fun bit j => if negb (F j =? 0) && negb (G j =? 0) then Z.lxor bit 1 else bit)
    l (Z.b2z a)
  = Z.b2z (fold_left (fun acc j => xorb acc (bitOf (F j) && bitOf (G j))) l a).
Proof.
  revert a. induction l as [|j l IH]; intros a; [reflexivity|].
  cbn [fold_left]. rewrite <- IH. f_equal. unfold bitOf.
  destruct (negb (F j =? 0) && negb (G j =? 0)), a; reflexivity.
Qed.

(** The inner loop of [applyAffine] is the inner product of the row's
    bits with the input. *)
Lemma affine_row_bit_dot (rowByte x : Z) :
  affine_row_bit rowByte x = Z.b2z (dotAt 0 (bitRow rowByte) x).
Proof.
  unfold affine_row_bit, dotAt. cbv zeta.
  etransitivity;
    [apply (parity_fold (fun j => Z.land (Z.shiftr rowByte j) 1)
                        (fun j => Z.land (Z.shiftr x j) 1) (range 0 8) false)|].
  f_equal. change (range 0 8) with (map Z.of_nat (seq 0 8)).
  rewrite fold_left_map_in. apply fold_left_ext_in.
  intros acc j Hj. apply in_seq in Hj.
  change (0 + j)%nat with j.
  rewrite nth_bitRow by lia.
  rewrite !land_shiftr_1 by lia. now rewrite !bitOf_b2z.
Qed.

Lemma affine_linear_pack (x : Z) (matrix : list Z) :
  affine_linear x matrix = pack (fun i => dotAt 0 (bitRow (nth i matrix 0)) x).
Proof.
  unfold affine_linear, pack.
  change (range 0 8) with (map Z.of_nat (seq 0 8)).
  rewrite fold_left_map_in. apply fold_left_ext_in.
  intros acc i Hi. apply in_seq in Hi. cbv beta zeta.
  rewrite affine_row_bit_dot, b2z_eqb_0.
  replace (get matrix (Z.of_nat i)) with (nth i matrix 0).
  - now destruct (dotAt 0 _ x).
  - unfold get. destruct (Z.of_nat i) eqn:E; try lia; now rewrite <- E, Nat2Z.id.
Qed.

Lemma affine_linear_byte (x : Z) (matrix : list Z) : is_byte (affine_linear x matrix).
Proof. rewrite affine_linear_pack. apply pack_byte. Qed.

Lemma affine_linear_bit (x : Z) (matrix : list Z) (i : nat) :
  (i < 8)%nat ->
  Z.testbit (affine_linear x matrix) (Z.of_nat i) = dotAt 0 (bitRow (nth i matrix 0)) x.
Proof. intros Hi. rewrite affine_linear_pack. now apply pack_bits. Qed.

(** ** Row operations of the eliminations *)

Lemma xorInto_from (b : list Z) (n k : nat) (a : list Z) :
  (k + n <= length a)%nat ->
  let res :=
    fold_left (fun a c => <[c := Z.lxor (nth c a 0) (nth c b 0)]> a) (seq k n) a in
  length res = length a
  /\ forall c, nth c res 0 =
       if (k <=? c)%nat && (c <? k + n)%nat
       then Z.lxor (nth c a 0) (nth c b 0) else nth c a 0.
Proof.
  revert k a. induction n as [|n IH]; intros k a Hlen; cbn [seq fold_left].
  - split; [reflexivity|]. intros c.
    destruct (Nat.leb_spec k c), (Nat.ltb_spec c (k + 0)); simpl; try reflexivity; lia.
  - specialize (IH (S k) (<[k := Z.lxor (nth k a 0) (nth k b 0)]> a)).
    rewrite length_insert in IH. destruct IH as [IHlen IHnth]; [lia|].
    cbv zeta. split; [exact IHlen|]. intros c. rewrite IHnth.
    destruct (Nat.eq_dec k c) as [->|Hne].
    + rewrite nth_insert_eq by lia.
      destruct (Nat.leb_spec (S c) c), (Nat.leb_spec c c), (Nat.ltb_spec c (c + S n));
        simpl; try reflexivity; lia.
    + rewrite nth_insert_ne by exact Hne.
      destruct (Nat.leb_spec (S k) c), (Nat.leb_spec k c),
               (Nat.ltb_spec c (S k + n)), (Nat.ltb_spec c (k + S n));
        simpl; try reflexivity; lia.
Qed.

Lemma length_xorInto (w : nat) (a b : list Z) :
  length a = w -> length (xorInto w a b) = w.
Proof.
  intros Ha. unfold xorInto.
  destruct (xorInto_from b w 0 a) as [H _]; [simpl; lia|]. now rewrite H.
Qed.

Lemma nth_xorInto (w : nat) (a b : list Z) (c : nat) :
  length a = w -> (c < w)%nat ->
  nth c (xorInto w a b) 0 = Z.lxor (nth c a 0) (nth c b 0).
Proof.
  intros Ha Hc. unfold xorInto.
  destruct (xorInto_from b w 0 a) as [_ H]; [simpl; lia|]. rewrite H.
  destruct (Nat.leb_spec 0 c), (Nat.ltb_spec c (0 + w)); simpl; try reflexivity; lia.
Qed.

Lemma xorInto_bits (w : nat) (a b : list Z) :
  length a = w -> length b = w -> Forall is_bit a -> Forall is_bit b ->
  Forall is_bit (xorInto w a b).
Proof.
  intros Ha Hb Hba Hbb. apply List.Forall_forall. intros v Hv.
  apply (In_nth _ _ 0) in Hv as (c & Hc & <-).
  rewrite length_xorInto in Hc by exact Ha.
  rewrite nth_xorInto by assumption.
  rewrite List.Forall_forall in Hba, Hbb.
  assert (H1 : is_bit (nth c a 0)) by (apply Hba, nth_In; lia).
  assert (H2 : is_bit (nth c b 0)) by (apply Hbb, nth_In; lia).
  destruct H1 as [-> | ->], H2 as [-> | ->]; [left | right | right | left]; reflexivity.
Qed.

Lemma nth_swapRows (m : list (list Z)) (i p r : nat) :
  (i < length m)%nat -> (p < length m)%nat ->
  nth r (swapRows m i p) [] =
    if (r =? p)%nat then nth i m []
    else if (r =? i)%nat then nth p m [] else nth r m [].
Proof.
  intros Hi Hp. unfold swapRows.
  destruct (Nat.eqb_spec r p) as [->|Hrp].
  - rewrite nth_insert_eq; [reflexivity|]. now rewrite length_insert.
  - rewrite nth_insert_ne by congruence.
    destruct (Nat.eqb_spec r i) as [->|Hri].
    + now rewrite nth_insert_eq.
    + now rewrite nth_insert_ne by congruence.
Qed.

Lemma length_swapRows (m : list (list Z)) (i p : nat) :
  length (swapRows m i p) = length m.
Proof. unfold swapRows. now rewrite !length_insert. Qed.

Lemma eliminate_from (w piv col n k : nat) (m : list (list Z)) :
  (k + n <= length m)%nat ->
  let res :=
    fold_left
      (fun m row =>
         if negb (row =? piv)%nat && (at2 m row col =? 1)
         then <[row := xorInto w (nth row m []) (nth piv m [])]> m
         else m)
      (seq k n) m in
  length res = length m
  /\ forall r, nth r res [] =
       if (k <=? r)%nat && (r <? k + n)%nat
       then eliminatedRow w m piv col r else nth r m [].
Proof.
  revert k m. induction n as [|n IH]; intros k m Hlen; cbn [seq fold_left].
  - split; [reflexivity|]. intros r.
    destruct (Nat.leb_spec k r), (Nat.ltb_spec r (k + 0)); simpl; try reflexivity; lia.
  - set (m' := if negb (k =? piv)%nat && (at2 m k col =? 1)
               then <[k := xorInto w (nth k m []) (nth piv m [])]> m else m).
    assert (Hm'len : length m' = length m).
    { subst m'. destruct (_ && _); [apply length_insert | reflexivity]. }
    assert (Hm'k : nth k m' [] = eliminatedRow w m piv col k).
    { subst m'. unfold eliminatedRow.
      destruct (_ && _); [apply nth_insert_eq; lia | reflexivity]. }
    assert (Hm'ne : forall r, r <> k -> nth r m' [] = nth r m []).
    { intros r Hr. subst m'.
      destruct (_ && _); [apply nth_insert_ne; congruence | reflexivity]. }
    assert (Hm'piv : nth piv m' [] = nth piv m []).
    { destruct (Nat.eq_dec piv k) as [->|Hne]; [|now apply Hm'ne].
      subst m'. now rewrite Nat.eqb_refl. }
    specialize (IH (S k) m'). rewrite Hm'len in IH.
    destruct IH as [IHlen IHnth]; [lia|].
    cbv zeta. split; [exact IHlen|]. intros r. rewrite IHnth.
    destruct (Nat.eq_dec r k) as [->|Hne].
    + rewrite Hm'k.
      destruct (Nat.leb_spec (S k) k), (Nat.leb_spec k k), (Nat.ltb_spec k (k + S n));
        simpl; try reflexivity; lia.
    + unfold eliminatedRow, at2. rewrite Hm'piv, (Hm'ne r Hne).
      destruct (Nat.leb_spec (S k) r), (Nat.leb_spec k r),
               (Nat.ltb_spec r (S k + n)), (Nat.ltb_spec r (k + S n));
        simpl; try reflexivity; lia.
Qed.

Lemma nth_eliminate (w : nat) (m : list (list Z)) (piv col r : nat) :
  length m = 8%nat -> (r < 8)%nat ->
  nth r (eliminate w m piv col) [] = eliminatedRow w m piv col r.
Proof.
  intros Hm Hr. unfold eliminate.
  destruct (eliminate_from w piv col 8 0 m) as [_ H]; [simpl; lia|]. rewrite H.
  destruct (Nat.leb_spec 0 r), (Nat.ltb_spec r (0 + 8)); simpl; try reflexivity; lia.
Qed.

Lemma length_eliminate (w : nat) (m : list (list Z)) (piv col : nat) :
  length m = 8%nat -> length (eliminate w m piv col) = 8%nat.
Proof.
  intros Hm. unfold eliminate.
  destruct (eliminate_from w piv col 8 0 m) as [H _]; [simpl; lia|]. now rewrite H.
Qed.

(** The pivot search. *)
Lemma findPivot_Some (m : list (list Z)) (col start p : nat) :
  findPivot m col start = Some p ->
  (start <= p < 8)%nat /\ at2 m p col = 1.
Proof.
  unfold findPivot. intros H. apply find_some in H as [Hin Hp].
  apply in_seq in Hin. apply Z.eqb_eq in Hp. split; [lia | exact Hp].
Qed.

Lemma findPivot_None (m : list (list Z)) (col start : nat) :
  findPivot m col start = None ->
  forall r, (start <= r < 8)%nat -> at2 m r col <> 1.
Proof.
  unfold findPivot. intros H r Hr.
  apply Z.eqb_neq. apply (find_none _ _ H r). apply in_seq. lia.
Qed.

(** One column step keeps the shape. *)
Lemma shaped_step (w : nat) (m : list (list Z)) (piv p col : nat) :
  shaped w m -> (piv < 8)%nat -> (p < 8)%nat ->
  shaped w (eliminate w (swapRows m piv p) piv col).
Proof.
  intros [Hlen Hrows] Hpiv Hp.
  assert (Hswap : shaped w (swapRows m piv p)).
  { split; [now rewrite length_swapRows|]. intros r Hr.
    rewrite nth_swapRows by lia.
    destruct (r =? p)%nat; [|destruct (r =? piv)%nat]; now apply Hrows. }
  destruct Hswap as [Hlen1 Hrows1].
  split; [now apply length_eliminate|]. intros r Hr.
  rewrite nth_eliminate by assumption. unfold eliminatedRow.
  destruct (_ && _); [|now apply Hrows1].
  apply length_xorInto. now apply Hrows1.
Qed.

Lemma bit_rows_step (w : nat) (m : list (list Z)) (piv p col : nat) :
  shaped w m -> bit_rows m -> (piv < 8)%nat -> (p < 8)%nat ->
  bit_rows (eliminate w (swapRows m piv p) piv col).
Proof.
  intros [Hlen Hrows] Hbits Hpiv Hp.
  assert (Hrows1 : forall r, (r < 8)%nat -> length (nth r (swapRows m piv p) []) = w).
  { intros r Hr. rewrite nth_swapRows by lia.
    destruct (r =? p)%nat; [|destruct (r =? piv)%nat]; now apply Hrows. }
  assert (Hbits1 : bit_rows (swapRows m piv p)).
  { intros r Hr. rewrite nth_swapRows by lia.
    destruct (r =? p)%nat; [|destruct (r =? piv)%nat]; now apply Hbits. }
  intros r Hr. rewrite nth_eliminate by (rewrite ?length_swapRows; assumption).
  unfold eliminatedRow. destruct (_ && _); [|now apply Hbits1].
  apply xorInto_bits; auto.
Qed.

(** ** The inner product is linear in the row *)

Lemma bitOf_lxor (u v : Z) :
  is_bit u -> is_bit v -> bitOf (Z.lxor u v) = xorb (bitOf u) (bitOf v).
Proof. intros [-> | ->] [-> | ->]; reflexivity. Qed.

Lemma xor_fold_split (t t1 t2 : nat -> bool) (l : list nat) (a1 a2 : bool) :
  (forall j, In j l -> t j = xorb (t1 j) (t2 j)) ->
  fold_left (fun acc j => xorb acc (t j)) l (xorb a1 a2)
  = xorb (fold_left (fun acc j => xorb acc (t1 j)) l a1)
         (fold_left (fun acc j => xorb acc (t2 j)) l a2).
Proof.
  revert a1 a2. induction l as [|j l IH]; intros a1 a2 H; [reflexivity|].
  cbn [fold_left]. rewrite <- IH by (intros k Hk; apply H; now right).
  f_equal. rewrite (H j (or_introl eq_refl)).
  destruct a1, a2, (t1 j), (t2 j); reflexivity.
Qed.

Lemma Forall_bit_nth (row : list Z) (c : nat) : Forall is_bit row -> is_bit (nth c row 0).
Proof.
  intros H. destruct (Nat.lt_ge_cases c (length row)) as [Hc|Hc].
  - rewrite List.Forall_forall in H. now apply H, nth_In.
  - rewrite nth_overflow by exact Hc. now left.
Qed.

Lemma dotAt_xorInto (off : nat) (a b : list Z) (x : Z) :
  length a = 16%nat -> Forall is_bit a -> Forall is_bit b -> (off + 8 <= 16)%nat ->
  dotAt off (xorInto 16 a b) x = xorb (dotAt off a x) (dotAt off b x).
Proof.
  intros Ha Hba Hbb Hoff. unfold dotAt.
  change false with (xorb false false) at 1.
  apply xor_fold_split. intros j Hj. apply in_seq in Hj.
  rewrite nth_xorInto by lia.
  rewrite bitOf_lxor by (apply Forall_bit_nth; assumption).
  destruct (bitOf (nth (off + j) a 0)), (bitOf (nth (off + j) b 0)),
           (Z.testbit x (Z.of_nat j)); reflexivity.
Qed.

(** A row with a single 1 among the eight entries selects one bit. *)
Lemma dotAt_unit (off i : nat) (row : list Z) (x : Z) :
  (i < 8)%nat ->
  (forall j, (j < 8)%nat -> bitOf (nth (off + j) row 0) = (i =? j)%nat) ->
  dotAt off row x = Z.testbit x (Z.of_nat i).
Proof.
  intros Hi H. unfold dotAt. cbn [fold_left seq].
  rewrite !H by lia.
  do 8 (destruct i as [|i];
        [cbn [Nat.eqb andb xorb];
         rewrite ?andb_false_l, ?xorb_false_r, ?xorb_false_l, ?andb_true_l;
         reflexivity|]).
  lia.
Qed.

Lemma dotAt_ext (off off' : nat) (row row' : list Z) (x : Z) :
  (forall j, (j < 8)%nat -> bitOf (nth (off + j) row 0) = bitOf (nth (off' + j) row' 0)) ->
  dotAt off row x = dotAt off' row' x.
Proof.
  intros H. unfold dotAt. apply fold_left_ext_in.
  intros acc j Hj. apply in_seq in Hj. now rewrite H by lia.
Qed.

(** ** The initial augmented matrix *)

Lemma nth_augmented (matrix : list Z) (r : nat) :
  (r < 8)%nat ->
  nth r (augmented matrix) [] = bitRow (nth r matrix 0) ++ identityRow r.
Proof.
  intros Hr. unfold augmented.
  do 8 (destruct r as [|r]; [reflexivity|]). lia.
Qed.

Lemma bitRow_bits (b : Z) : Forall is_bit (bitRow b).
Proof.
  unfold bitRow. apply List.Forall_forall. intros v Hv.
  apply in_map_iff in Hv as (j & <- & _).
  rewrite land_shiftr_1 by lia. destruct (Z.testbit _ _); [now right | now left].
Qed.

Lemma identityRow_bits (i : nat) : Forall is_bit (identityRow i).
Proof.
  unfold identityRow. apply List.Forall_forall. intros v Hv.
  apply in_map_iff in Hv as (j & <- & _).
  destruct (i =? j)%nat; [now right | now left].
Qed.

Lemma nth_identityRow (i j : nat) :
  (j < 8)%nat -> nth j (identityRow i) 0 = if (i =? j)%nat then 1 else 0.
Proof.
  intros Hj. unfold identityRow.
  do 8 (destruct j as [|j]; [reflexivity|]). lia.
Qed.

Lemma length_bitRow (b : Z) : length (bitRow b) = 8%nat.
Proof. reflexivity. Qed.

Lemma pack_false : pack (fun _ => false) = 0.
Proof. reflexivity. Qed.

Lemma GaussInv_init (matrix : list Z) : GaussInv matrix 0 (augmented matrix).
Proof.
  split.
  - split; [reflexivity|]. intros r Hr. rewrite nth_augmented by exact Hr. reflexivity.
  - intros r Hr. rewrite nth_augmented by exact Hr.
    apply Forall_app. split; [apply bitRow_bits | apply identityRow_bits].
  - intros r Hr x. rewrite nth_augmented by exact Hr.
    transitivity (dotAt 0 (bitRow (nth r matrix 0)) x).
    + apply dotAt_ext. intros j Hj.
      rewrite app_nth1; [reflexivity | rewrite length_bitRow; lia].
    + rewrite <- affine_linear_bit by exact Hr. symmetry.
      apply dotAt_unit; [exact Hr|]. intros j Hj.
      rewrite app_nth2 by (rewrite length_bitRow; lia).
      rewrite length_bitRow. replace (8 + j - 8)%nat with j by lia.
      rewrite nth_identityRow by exact Hj. now destruct (r =? j)%nat.
  - intros r c _ Hc. lia.
  - intros x Hx. rewrite affine_linear_pack.
    transitivity (pack (fun _ => false)); [|reflexivity].
    apply pack_ext. intros i Hi. specialize (Hx i Hi).
    rewrite nth_augmented in Hx by exact Hi.
    etransitivity; [|exact Hx].
    apply dotAt_ext. intros j Hj.
    rewrite app_nth1; [reflexivity | rewrite length_bitRow; lia].
Qed.

(** ** One column of the Gauss-Jordan loop *)

Lemma GaussInv_step (matrix : list Z) (c p : nat) (aug : list (list Z)) :
  GaussInv matrix c aug -> (c < 8)%nat -> findPivot aug c c = Some p ->
  GaussInv matrix (S c) (eliminate 16 (swapRows aug c p) c c).
Proof.
  intros [[Hlen Hrows] Hbits Hrel Hred Hker] Hc Hpiv.
  apply findPivot_Some in Hpiv as [Hp Hpc].
  set (m1 := swapRows aug c p).
  assert (Hlen1 : length m1 = 8%nat) by (subst m1; now rewrite length_swapRows).
  assert (Hrow1 : forall r, (r < 8)%nat ->
            nth r m1 [] = if (r =? p)%nat then nth c aug []
                          else if (r =? c)%nat then nth p aug [] else nth r aug []).
  { intros r Hr. subst m1. apply nth_swapRows; lia. }
  assert (Hsrc : forall r, (r < 8)%nat -> exists r', (r' < 8)%nat /\ nth r m1 [] = nth r' aug []).
  { intros r Hr. rewrite Hrow1 by exact Hr.
    destruct (r =? p)%nat; [exists c | destruct (r =? c)%nat; [exists p | exists r]];
      (split; [lia | reflexivity]). }
  assert (Hrows1 : forall r, (r < 8)%nat -> length (nth r m1 []) = 16%nat).
  { intros r Hr. destruct (Hsrc r Hr) as (r' & Hr' & ->). now apply Hrows. }
  assert (Hbits1 : bit_rows m1).
  { intros r Hr. destruct (Hsrc r Hr) as (r' & Hr' & ->). now apply Hbits. }
  assert (Hrel1 : rowsRelated matrix m1).
  { intros r Hr x. destruct (Hsrc r Hr) as (r' & Hr' & ->). now apply Hrel. }
  assert (Hred1 : reducedUpTo c m1).
  { intros r c' Hr Hc'. unfold at2. rewrite Hrow1 by exact Hr.
    destruct (Nat.eqb_spec r p) as [->|Hrp].
    - fold (at2 aug c c'). rewrite Hred by lia.
      destruct (Nat.eqb_spec c c'), (Nat.eqb_spec p c'); try reflexivity; lia.
    - destruct (Nat.eqb_spec r c) as [->|Hrc].
      + fold (at2 aug p c'). rewrite Hred by lia.
        destruct (Nat.eqb_spec c c'), (Nat.eqb_spec p c'); try reflexivity; lia.
      + fold (at2 aug r c'). now apply Hred. }
  assert (Hpiv1 : nth c m1 [] = nth p aug []).
  { rewrite Hrow1 by exact Hc.
    destruct (Nat.eqb_spec c p) as [->|_]; [reflexivity|]. now rewrite Nat.eqb_refl. }
  assert (Hcc1 : at2 m1 c c = 1) by (unfold at2; now rewrite Hpiv1).
  assert (Hker1 : forall x, inKernel m1 x -> inKernel aug x).
  { intros x Hx r Hr.
    destruct (Nat.eq_dec r c) as [->|Hrc].
    - destruct (Nat.eq_dec c p) as [->|Hcp].
      + specialize (Hx p Hr). rewrite Hrow1, Nat.eqb_refl in Hx by exact Hr. exact Hx.
      + assert (Hp8 : (p < 8)%nat) by lia.
        specialize (Hx p Hp8). rewrite Hrow1, Nat.eqb_refl in Hx by exact Hp8. exact Hx.
    - destruct (Nat.eq_dec r p) as [->|Hrp].
      + specialize (Hx c Hc). rewrite Hpiv1 in Hx. exact Hx.
      + specialize (Hx r Hr). rewrite Hrow1 in Hx by exact Hr.
        destruct (Nat.eqb_spec r p), (Nat.eqb_spec r c); try contradiction. exact Hx. }
  assert (Hrow2 : forall r, (r < 8)%nat ->
            nth r (eliminate 16 m1 c c) [] = eliminatedRow 16 m1 c c r).
  { intros r Hr. now apply nth_eliminate. }
  split.
  - apply shaped_step; [split; assumption | lia | lia].
  - apply bit_rows_step; [split; assumption | assumption | lia | lia].
  - intros r Hr x. rewrite Hrow2 by exact Hr. unfold eliminatedRow.
    destruct (_ && _); [|now apply Hrel1].
    rewrite !dotAt_xorInto by (auto; lia).
    now rewrite !Hrel1 by assumption.
  - intros r c' Hr Hc'. unfold at2. rewrite Hrow2 by exact Hr. unfold eliminatedRow.
    assert (Hbit : is_bit (at2 m1 r c)) by (apply Forall_bit_nth, Hbits1, Hr).
    destruct (Nat.eqb_spec r c) as [->|Hrc]; cbn [negb andb].
    + fold (at2 m1 c c').
      destruct (Nat.eq_dec c' c) as [->|Hne]; [now rewrite Nat.eqb_refl|].
      rewrite Hred1 by lia. reflexivity.
    + destruct (Z.eqb_spec (at2 m1 r c) 1) as [H1|H1].
      * rewrite nth_xorInto by (auto; lia).
        fold (at2 m1 r c'). fold (at2 m1 c c').
        destruct (Nat.eq_dec c' c) as [->|Hne].
        -- rewrite H1, Hcc1. now destruct (Nat.eqb_spec r c).
        -- rewrite !Hred1 by lia.
           destruct (Nat.eqb_spec c c'); [lia|]. now rewrite Z.lxor_0_r.
      * fold (at2 m1 r c').
        destruct (Nat.eq_dec c' c) as [->|Hne].
        -- destruct Hbit as [H0|H0]; [|contradiction].
           rewrite H0. now destruct (Nat.eqb_spec r c).
        -- apply Hred1; lia.
  - intros x Hx. apply Hker, Hker1. intros r Hr.
    pose proof (Hx c Hc) as Hxc. rewrite Hrow2 in Hxc by exact Hc.
    unfold eliminatedRow in Hxc. rewrite Nat.eqb_refl in Hxc. cbn [negb andb] in Hxc.
    specialize (Hx r Hr). rewrite Hrow2 in Hx by exact Hr. unfold eliminatedRow in Hx.
    destruct (_ && _); [|exact Hx].
    rewrite dotAt_xorInto in Hx by (auto; lia).
    rewrite Hxc in Hx. now rewrite xorb_false_r in Hx.
Qed.

(** ** A column without pivot *)

Lemma xor_fold_false (t : nat -> bool) (l : list nat) (a : bool) :
  (forall j, In j l -> t j = false) ->
  fold_left (fun acc j => xorb acc (t j)) l a = a.
Proof.
  revert a. induction l as [|j l IH]; intros a H; [reflexivity|].
  cbn [fold_left]. rewrite (H j (or_introl eq_refl)), xorb_false_r.
  apply IH. intros k Hk. apply H. now right.
Qed.

Lemma xor_fold_pair (t : nat -> bool) (r c : nat) :
  (r < c < 8)%nat -> t r = t c ->
  (forall j, (j < 8)%nat -> j <> r -> j <> c -> t j = false) ->
  fold_left (fun acc j => xorb acc (t j)) (seq 0 8) false = false.
Proof.
  intros Hrc Heq Hother.
  set (b := t c) in *.
  assert (E : forall j, (j < 8)%nat ->
            t j = if (j =? r)%nat || (j =? c)%nat then b else false).
  { intros j Hj.
    destruct (Nat.eqb_spec j r) as [->|Hjr]; [exact Heq|].
    destruct (Nat.eqb_spec j c) as [->|Hjc]; [reflexivity|].
    now apply Hother. }
  cbn [fold_left seq].
  rewrite (E 0%nat), (E 1%nat), (E 2%nat), (E 3%nat),
          (E 4%nat), (E 5%nat), (E 6%nat), (E 7%nat) by lia.
  clearbody b. clear E Heq Hother.
  do 8 (destruct r as [|r];
        [do 8 (destruct c as [|c]; [first [lia | destruct b; reflexivity]|]); lia|]).
  lia.
Qed.

Lemma kernelVector_spec (matrix : list Z) (c : nat) (aug : list (list Z)) :
  GaussInv matrix c aug -> (c < 8)%nat -> findPivot aug c c = None ->
  is_byte (kernelVector aug c)
  /\ kernelVector aug c <> 0
  /\ inKernel aug (kernelVector aug c).
Proof.
  intros [[Hlen Hrows] Hbits Hrel Hred Hker] Hc Hpiv.
  pose proof (findPivot_None _ _ _ Hpiv) as Hnone.
  split; [apply pack_byte|]. split.
  - intros H0.
    assert (Hbit : Z.testbit (kernelVector aug c) (Z.of_nat c) = true).
    { unfold kernelVector. rewrite pack_bits by exact Hc. now rewrite Nat.eqb_refl. }
    rewrite H0, Z.bits_0 in Hbit. discriminate.
  - intros r Hr. unfold dotAt.
    set (t := fun j => bitOf (at2 aug r j)
                       && (if (j =? c)%nat then true
                           else if (j <? c)%nat then bitOf (at2 aug j c) else false)).
    rewrite (fold_left_ext_in _ (fun acc j => xorb acc (t j))).
    2:{ intros acc j Hj. apply in_seq in Hj. unfold kernelVector.
        rewrite pack_bits by lia. reflexivity. }
    destruct (Nat.lt_ge_cases r c) as [Hrc|Hrc].
    + apply (xor_fold_pair t r c); [lia| |].
      * subst t. cbv beta.
        rewrite (Hred r r) by lia. rewrite !Nat.eqb_refl.
        destruct (Nat.eqb_spec r c); [lia|]. destruct (Nat.ltb_spec r c); [|lia].
        cbn [bitOf Z.eqb negb andb]. now rewrite andb_true_r.
      * intros j Hj Hjr Hjc. subst t. cbv beta.
        destruct (Nat.eqb_spec j c); [contradiction|].
        destruct (Nat.ltb_spec j c); [|apply andb_false_r].
        rewrite (Hred r j) by lia.
        destruct (Nat.eqb_spec r j); [congruence|]. reflexivity.
    + apply xor_fold_false. intros j Hj. apply in_seq in Hj. subst t. cbv beta.
      destruct (Nat.eqb_spec j c) as [->|Hjc].
      * assert (Hbit : is_bit (at2 aug r c)) by (apply Forall_bit_nth, Hbits, Hr).
        destruct Hbit as [H0|H1]; [now rewrite H0|].
        exfalso. apply (Hnone r); [lia | exact H1].
      * destruct (Nat.ltb_spec j c); [|apply andb_false_r].
        rewrite (Hred r j) by lia.
        destruct (Nat.eqb_spec r j); [lia|]. reflexivity.
Qed.

(** ** The whole loop *)

Lemma invertMatrix_step_None (l : list nat) : fold_left invertMatrix_step l None = None.
Proof. induction l; [reflexivity | exact IHl]. Qed.

Lemma GaussInv_run (matrix : list Z) (n c : nat) (aug : list (list Z)) :
  (c + n = 8)%nat -> GaussInv matrix c aug ->
  match fold_left invertMatrix_step (seq c n) (Some aug) with
  | Some aug' => GaussInv matrix 8 aug'
  | None => exists x, is_byte x /\ x <> 0 /\ affine_linear x matrix = 0
  end.
Proof.
  revert c aug. induction n as [|n IH]; intros c aug Hcn Hinv.
  - replace c with 8%nat in Hinv by lia. exact Hinv.
  - cbn [seq fold_left invertMatrix_step].
    destruct (findPivot aug c c) as [p|] eqn:Hpiv.
    + apply IH; [lia|]. apply GaussInv_step; [assumption | lia | assumption].
    + rewrite invertMatrix_step_None.
      destruct (kernelVector_spec matrix c aug Hinv) as (Hb & Hne & Hk);
        [lia | assumption|].
      exists (kernelVector aug c). split; [exact Hb|]. split; [exact Hne|].
      now apply (gauss_kernel _ _ _ Hinv).
Qed.

Lemma invertMatrix_run (matrix : list Z) :
  match fold_left invertMatrix_step (seq 0 8) (Some (augmented matrix)) with
  | Some aug' =>
      GaussInv matrix 8 aug'
      /\ invertMatrix matrix = Some (map (fun i => packRight (nth i aug' [])) (seq 0 8))
  | None =>
      invertMatrix matrix = None
      /\ exists x, is_byte x /\ x <> 0 /\ affine_linear x matrix = 0
  end.
Proof.
  pose proof (GaussInv_run matrix 8 0 (augmented matrix) eq_refl (GaussInv_init matrix)) as H.
  unfold invertMatrix. fold (augmented matrix).
  destruct (fold_left invertMatrix_step (seq 0 8) (Some (augmented matrix)));
    split; auto.
Qed.

Lemma packRight_pack (row : list Z) :
  packRight row = pack (fun j => bitOf (nth (8 + j) row 0)).
Proof.
  unfold packRight, pack. apply fold_left_ext_in. intros acc j _.
  unfold bitOf. now destruct (nth (8 + j) row 0 =? 0).
Qed.

(** The inverse matrix undoes the linear map: [N (K x) = x]. *)
Lemma invertMatrix_left_inverse (matrix inv : list Z) (x : Z) :
  invertMatrix matrix = Some inv -> is_byte x ->
  affine_linear (affine_linear x matrix) inv = x.
Proof.
  intros Hinv Hx. pose proof (invertMatrix_run matrix) as Hrun.
  destruct (fold_left invertMatrix_step (seq 0 8) (Some (augmented matrix)))
    as [aug|]; [|destruct Hrun as [Hnone _]; congruence].
  destruct Hrun as [[[Hlen Hrows] Hbits Hrel Hred Hker] Heq].
  assert (Hinv' : inv = map (fun i => packRight (nth i aug [])) (seq 0 8)) by congruence.
  subst inv. clear Heq Hinv.
  apply byte_ext; [apply affine_linear_byte | exact Hx|].
  intros i Hi. rewrite affine_linear_bit by exact Hi.
  replace (nth i (map (fun i => packRight (nth i aug [])) (seq 0 8)) 0)
    with (packRight (nth i aug [])).
  2:{ clear -Hi. do 8 (destruct i as [|i]; [reflexivity|]). lia. }
  transitivity (dotAt 8 (nth i aug []) (affine_linear x matrix)).
  - apply dotAt_ext. intros j Hj.
    change (0 + j)%nat with j.
    rewrite nth_bitRow by lia. rewrite packRight_pack.
    rewrite pack_bits by lia. now rewrite bitOf_b2z.
  - rewrite <- Hrel by exact Hi.
    apply dotAt_unit; [exact Hi|]. intros j Hj.
    change (nth (0 + j) (nth i aug []) 0) with (at2 aug i j).
    rewrite Hred by lia. now destruct (i =? j)%nat.
Qed.

(** A matrix whose linear map has a trivial kernel is inverted. *)
Lemma invertMatrix_succeeds (matrix : list Z) :
  (forall x, is_byte x -> affine_linear x matrix = 0 -> x = 0) ->
  exists inv, invertMatrix matrix = Some inv.
Proof.
  intros Hker. pose proof (invertMatrix_run matrix) as Hrun.
  destruct (fold_left invertMatrix_step (seq 0 8) (Some (augmented matrix))) as [aug|].
  - destruct Hrun as [_ Heq]. eauto.
  - destruct Hrun as [_ (x & Hb & Hne & H0)]. exfalso. now apply Hne, Hker.
Qed.

(** ** [isMatrixValid] and [invertMatrix] run the same elimination *)

Lemma find_ext_in {A} (f g : A -> bool) (l : list A) :
  (forall x, In x l -> f x = g x) -> find f l = find g l.
Proof.
  induction l as [|x l IH]; intros H; [reflexivity|].
  cbn [find]. rewrite (H x (or_introl eq_refl)).
  destruct (g x); [reflexivity|]. apply IH. intros y Hy. apply H. now right.
Qed.

Lemma nth_firstn_lt {A} (l : list A) (n k : nat) (d : A) :
  (k < n)%nat -> nth k (firstn n l) d = nth k l d.
Proof.
  revert n k. induction l as [|a l IH]; intros n k Hk.
  - now rewrite firstn_nil.
  - destruct n as [|n]; [lia|]. destruct k as [|k]; [reflexivity|].
    cbn [firstn nth]. apply IH. lia.
Qed.

Lemma firstn_xorInto (a b : list Z) :
  length a = 16%nat ->
  firstn 8 (xorInto 16 a b) = xorInto 8 (firstn 8 a) (firstn 8 b).
Proof.
  intros Ha.
  assert (Hfa : length (firstn 8 a) = 8%nat) by (rewrite length_firstn; lia).
  apply (nth_ext _ _ 0 0).
  - rewrite length_firstn, !length_xorInto by assumption. reflexivity.
  - intros k Hk. rewrite length_firstn, length_xorInto in Hk by assumption.
    rewrite nth_firstn_lt by lia.
    rewrite !nth_xorInto by (assumption || lia).
    now rewrite !nth_firstn_lt by lia.
Qed.

Lemma inStep_step (c : nat) (vs : list (list Z) * nat) (st : option (list (list Z))) :
  (c < 8)%nat -> inStep c vs st ->
  inStep (S c) (isMatrixValid_step vs c) (invertMatrix_step st c).
Proof.
  intros Hc H. destruct vs as [m rank]. destruct st as [aug|]; cbn [inStep fst snd] in H.
  - destruct H as (-> & [Hlen Hrows] & Hm & Hleft).
    assert (Hat : forall r k, (r < 8)%nat -> (k < 8)%nat -> at2 m r k = at2 aug r k).
    { intros r k Hr Hk. unfold at2. rewrite Hleft by exact Hr. now apply nth_firstn_lt. }
    cbn [isMatrixValid_step invertMatrix_step].
    assert (Hfind : findPivot m c c = findPivot aug c c).
    { unfold findPivot. apply find_ext_in. intros r Hr. apply in_seq in Hr.
      rewrite Hat by lia. reflexivity. }
    rewrite Hfind. destruct (findPivot aug c c) as [p|] eqn:Hpiv; cbn [inStep fst snd].
    + apply findPivot_Some in Hpiv as [Hp _].
      split; [reflexivity|]. split; [apply shaped_step; [split; assumption | lia | lia]|].
      split; [apply length_eliminate; now rewrite length_swapRows|].
      intros r Hr.
      rewrite !nth_eliminate by (rewrite ?length_swapRows; assumption).
      assert (Hsw : forall r, (r < 8)%nat ->
                nth r (swapRows m c p) [] = firstn 8 (nth r (swapRows aug c p) [])).
      { intros r' Hr'. rewrite !nth_swapRows by lia.
        destruct (r' =? p)%nat; [|destruct (r' =? c)%nat]; apply Hleft; lia. }
      assert (Hsw16 : forall r, (r < 8)%nat -> length (nth r (swapRows aug c p) []) = 16%nat).
      { intros r' Hr'. rewrite nth_swapRows by lia.
        destruct (r' =? p)%nat; [|destruct (r' =? c)%nat]; apply Hrows; lia. }
      unfold eliminatedRow.
      replace (at2 (swapRows m c p) r c) with (at2 (swapRows aug c p) r c).
      2:{ unfold at2. rewrite Hsw by exact Hr. now rewrite nth_firstn_lt. }
      destruct (_ && _); [|now apply Hsw].
      rewrite firstn_xorInto by (apply Hsw16; exact Hr).
      now rewrite !Hsw by assumption.
    + lia.
  - cbn [invertMatrix_step inStep]. cbn [isMatrixValid_step].
    destruct (findPivot m c rank); cbn [snd]; lia.
Qed.

Lemma inStep_run (n c : nat) (vs : list (list Z) * nat) (st : option (list (list Z))) :
  (c + n = 8)%nat -> inStep c vs st ->
  inStep 8 (fold_left isMatrixValid_step (seq c n) vs)
           (fold_left invertMatrix_step (seq c n) st).
Proof.
  revert c vs st. induction n as [|n IH]; intros c vs st Hcn H.
  - replace c with 8%nat in H by lia. exact H.
  - cbn [seq fold_left]. apply IH; [lia|]. apply inStep_step; [lia | exact H].
Qed.

Lemma inStep_init (matrix : list Z) :
  inStep 0 (bitMatrix matrix, O) (Some (augmented matrix)).
Proof.
  cbn [inStep fst snd]. split; [reflexivity|].
  split; [apply (gauss_shape _ _ _ (GaussInv_init matrix))|].
  split; [reflexivity|]. intros r Hr.
  rewrite nth_augmented by exact Hr.
  unfold bitMatrix. do 8 (destruct r as [|r]; [reflexivity|]). lia.
Qed.

(** [isMatrixValid] accepts exactly the matrices that [invertMatrix]
    inverts. *)
Lemma isMatrixValid_iff_invertMatrix (matrix : list Z) :
  isMatrixValid matrix = true <-> exists inv, invertMatrix matrix = Some inv.
Proof.
  pose proof (inStep_run 8 0 _ _ eq_refl (inStep_init matrix)) as H.
  unfold isMatrixValid, invertMatrix.
  fold (bitMatrix matrix). fold (augmented matrix).
  destruct (fold_left isMatrixValid_step (seq 0 8) (bitMatrix matrix, O)) as [m rank].
  destruct (fold_left invertMatrix_step (seq 0 8) (Some (augmented matrix))) as [aug|];
    cbn [inStep fst snd] in H.
  - destruct H as (-> & _). split; [eauto | reflexivity].
  - split.
    + intros Hr. apply Nat.eqb_eq in Hr. lia.
    + intros [inv Hinv]. discriminate.
Qed.

(** ** Maps on bytes *)

Lemma NoDup_range (lo hi : Z) : List.NoDup (range lo hi).
Proof.
  unfold range. apply List.NoDup_map_NoDup_ForallPairs; [|apply List.seq_NoDup].
  intros a b _ _ H. lia.
Qed.

(** An injective map of the bytes into themselves reaches every byte. *)
Lemma byte_map_onto (f : Z -> Z) :
  (forall x, is_byte x -> is_byte (f x)) ->
  (forall x y, is_byte x -> is_byte y -> f x = f y -> x = y) ->
  forall y, is_byte y -> exists x, is_byte x /\ f x = y.
Proof.
  intros Hbyte Hinj y Hy.
  assert (Hincl : incl (range 0 256) (map f (range 0 256))).
  { apply List.NoDup_length_incl.
    - apply List.NoDup_map_NoDup_ForallPairs; [|apply NoDup_range].
      intros a b Ha Hb. apply In_range in Ha, Hb. now apply Hinj.
    - now rewrite length_map.
    - intros z Hz. apply in_map_iff in Hz as (x & <- & Hx).
      apply In_range in Hx. now apply In_range, Hbyte. }
  assert (Hin : In y (map f (range 0 256))) by now apply Hincl, In_range.
  apply in_map_iff in Hin as (x & <- & Hx). apply In_range in Hx. eauto.
Qed.

Lemma affine_linear_0 (matrix : list Z) : affine_linear 0 matrix = 0.
Proof.
  rewrite affine_linear_pack. transitivity (pack (fun _ => false)); [|reflexivity].
  apply pack_ext. intros i Hi. unfold dotAt. apply xor_fold_false.
  intros j _. rewrite Z.bits_0. apply andb_false_r.
Qed.

Section Inverse.

Variables matrix inv : list Z.
Hypothesis Hinv : invertMatrix matrix = Some inv.

Let K (x : Z) : Z := affine_linear x matrix.
Let N (y : Z) : Z := affine_linear y inv.

Lemma inverse_left (x : Z) : is_byte x -> N (K x) = x.
Proof. now apply invertMatrix_left_inverse. Qed.

Lemma affine_linear_injective (x y : Z) :
  is_byte x -> is_byte y -> K x = K y -> x = y.
Proof.
  intros Hx Hy H. rewrite <- (inverse_left x Hx), <- (inverse_left y Hy). now rewrite H.
Qed.

Lemma inverse_right (y : Z) : is_byte y -> K (N y) = y.
Proof.
  intros Hy.
  destruct (byte_map_onto K) with (y := y) as (x & Hx & <-).
  - intros x _. apply affine_linear_byte.
  - exact affine_linear_injective.
  - exact Hy.
  - now rewrite inverse_left.
Qed.

Lemma inverse_kernel (y : Z) : is_byte y -> N y = 0 -> y = 0.
Proof.
  intros Hy H0. rewrite <- (inverse_right y Hy), H0. apply affine_linear_0.
Qed.

End Inverse.

Lemma dotAt_basis (b : Z) (j : nat) :
  (j < 8)%nat ->
  dotAt 0 (bitRow b) (Z.shiftl 1 (Z.of_nat j)) = Z.testbit b (Z.of_nat j).
Proof.
  intros Hj. unfold dotAt. cbn [fold_left seq Nat.add].
  rewrite !nth_bitRow, !bitOf_b2z by lia.
  do 8 (destruct j as [|j];
        [cbn;
         rewrite ?andb_false_r, ?andb_true_r, ?xorb_false_r, ?xorb_false_l;
         reflexivity|]).
  lia.
Qed.

Lemma basis_byte (j : nat) : (j < 8)%nat -> is_byte (Z.shiftl 1 (Z.of_nat j)).
Proof.
  intros Hj. do 8 (destruct j as [|j]; [vm_compute; split; congruence|]). lia.
Qed.

(** A matrix of eight bytes is determined by its linear map. *)
Lemma matrix_ext (m1 m2 : list Z) :
  length m1 = 8%nat -> length m2 = 8%nat ->
  Forall is_byte m1 -> Forall is_byte m2 ->
  (forall x, is_byte x -> affine_linear x m1 = affine_linear x m2) ->
  m1 = m2.
Proof.
  intros Hl1 Hl2 Hb1 Hb2 H.
  apply (nth_ext _ _ 0 0); [congruence|].
  intros r Hr. rewrite Hl1 in Hr.
  rewrite List.Forall_forall in Hb1, Hb2.
  apply byte_ext; [apply Hb1, nth_In; lia | apply Hb2, nth_In; lia|].
  intros j Hj. rewrite <- !dotAt_basis by exact Hj.
  rewrite <- !affine_linear_bit by exact Hr.
  now rewrite H by (apply basis_byte; exact Hj).
Qed.

Lemma invertMatrix_shape (matrix inv : list Z) :
  invertMatrix matrix = Some inv -> length inv = 8%nat /\ Forall is_byte inv.
Proof.
  unfold invertMatrix. destruct (fold_left _ _ _) as [aug|]; [|discriminate].
  intros H.
  assert (Hinv : inv = map (fun i => packRight (nth i aug [])) (seq 0 8)) by congruence.
  subst inv. clear H. split; [reflexivity|].
  apply List.Forall_forall. intros v Hv. apply in_map_iff in Hv as (i & <- & _).
  rewrite packRight_pack. apply pack_byte.
Qed.

(** C6. For a matrix of eight bytes, [isMatrixValid] is true exactly when
    [invertMatrix] returns a matrix, and inverting that matrix returns the
    original. *)
Theorem isMatrixValid_invertMatrix (matrix : list Z) :
  length matrix = 8%nat -> Forall is_byte matrix ->
  (isMatrixValid matrix = true <-> exists inv, invertMatrix matrix = Some inv)
  /\ (isMatrixValid matrix = false <-> invertMatrix matrix = None)
  /\ forall inv, invertMatrix matrix = Some inv -> invertMatrix inv = Some matrix.
Proof.
  intros Hlen Hbytes.
  pose proof (isMatrixValid_iff_invertMatrix matrix) as Hiff.
  split; [exact Hiff|]. split.
  - destruct (isMatrixValid matrix), (invertMatrix matrix) as [inv|] eqn:E;
      split; intros H; try reflexivity; try discriminate.
    + destruct (proj1 Hiff eq_refl) as [inv Hinv]. discriminate.
    + assert (Ht : false = true) by (apply Hiff; eauto). discriminate.
  - intros inv Hinv.
    destruct (invertMatrix_shape _ _ Hinv) as [Hilen Hibytes].
    destruct (invertMatrix_succeeds inv) as [back Hback].
    { intros x Hx. now apply (inverse_kernel matrix inv Hinv). }
    destruct (invertMatrix_shape _ _ Hback) as [Hblen Hbbytes].
    rewrite Hback. f_equal.
    apply matrix_ext; try assumption.
    intros x Hx.
    rewrite <- (inverse_left matrix inv Hinv x Hx) at 1.
    apply (inverse_left inv back Hback). apply affine_linear_byte.
Qed.

Lemma isMatrixValid_invertMatrix_witness :
  (isMatrixValid K44_MATRIX = true <-> exists inv, invertMatrix K44_MATRIX = Some inv)
  /\ (isMatrixValid K44_MATRIX = false <-> invertMatrix K44_MATRIX = None)
  /\ forall inv, invertMatrix K44_MATRIX = Some inv -> invertMatrix inv = Some K44_MATRIX.
Proof.
  apply (isMatrixValid_invertMatrix K44_MATRIX); [reflexivity|].
  repeat constructor; unfold is_byte; lia.
Defined.

(** ** The generated S-box and its inverse table *)

Lemma is_byteb_spec (v : Z) : is_byteb v = true <-> is_byte v.
Proof. unfold is_byteb, is_byte. lia. Qed.

Lemma get_nth (a : list Z) (i : Z) : 0 <= i -> get a i = nth (Z.to_nat i) a 0.
Proof. intros Hi. unfold get. destruct i; [reflexivity | reflexivity | lia]. Qed.

Lemma get_map_range (f : Z -> Z) (n x : Z) :
  0 <= x < n -> get (map f (range 0 n)) x = f x.
Proof.
  intros Hx. rewrite get_nth by lia. unfold range. rewrite map_map.
  rewrite (nth_indep _ 0 (f (0 + Z.of_nat 0))) by (rewrite length_map, length_seq; lia).
  rewrite (map_nth (fun k => f (0 + Z.of_nat k))), seq_nth by lia.
  f_equal. lia.
Qed.

Lemma get_generateSBox (matrix : list Z) (constant x : Z) :
  is_byte x ->
  get (generateSBox matrix constant) x = applyAffine (get INVERSE_TABLE x) matrix constant.
Proof. intros Hx. unfold generateSBox. now rewrite get_map_range. Qed.

Lemma inverse_table_checked : forallb inverse_table_check (range 0 256) = true.
Proof. vm_compute. reflexivity. Qed.

Lemma inverse_table_byte (x : Z) : is_byte x -> is_byte (get INVERSE_TABLE x).
Proof.
  intros Hx. pose proof (forallb_range _ _ _ inverse_table_checked x Hx) as H.
  apply andb_prop in H as [H _]. now apply is_byteb_spec.
Qed.

Lemma inverse_table_involutive (x : Z) :
  is_byte x -> get INVERSE_TABLE (get INVERSE_TABLE x) = x.
Proof.
  intros Hx. pose proof (forallb_range _ _ _ inverse_table_checked x Hx) as H.
  apply andb_prop in H as [_ H]. now apply Z.eqb_eq.
Qed.

Lemma lxor_byte_checked : forallb lxor_byte_check (range 0 256) = true.
Proof. vm_compute. reflexivity. Qed.

Lemma lxor_byte (a b : Z) : is_byte a -> is_byte b -> is_byte (Z.lxor a b).
Proof.
  intros Ha Hb. apply is_byteb_spec.
  pose proof (forallb_range _ _ _ lxor_byte_checked a Ha) as H.
  exact (forallb_range _ _ _ H b Hb).
Qed.

Lemma lxor_cancel_r (a b c : Z) : Z.lxor a c = Z.lxor b c -> a = b.
Proof.
  intros H. apply (f_equal (fun v => Z.lxor v c)) in H.
  now rewrite !Z.lxor_assoc, Z.lxor_nilpotent, !Z.lxor_0_r in H.
Qed.

Lemma generateSBox_injective (matrix : list Z) (constant : Z) :
  isMatrixValid matrix = true -> is_byte constant ->
  sbox_injective (generateSBox matrix constant).
Proof.
  intros Hvalid Hc.
  apply isMatrixValid_iff_invertMatrix in Hvalid as [inv Hinv].
  split.
  - intros x Hx. rewrite get_generateSBox by exact Hx. unfold applyAffine.
    apply lxor_byte; [apply affine_linear_byte | exact Hc].
  - intros x y Hx Hy H. rewrite !get_generateSBox in H by assumption.
    unfold applyAffine in H. apply lxor_cancel_r in H.
    apply (affine_linear_injective matrix inv Hinv) in H;
      [|now apply inverse_table_byte..].
    rewrite <- (inverse_table_involutive x Hx), <- (inverse_table_involutive y Hy).
    now rewrite H.
Qed.

Lemma length_set (a : list Z) (i v : Z) : length (set a i v) = length a.
Proof. unfold set. destruct i; try reflexivity; apply length_insert. Qed.

Lemma get_set_eq (a : list Z) (i v : Z) :
  0 <= i < Z.of_nat (length a) -> get (set a i v) i = v.
Proof.
  intros Hi. rewrite get_nth by lia. unfold set.
  destruct i; try lia; apply nth_insert_eq; lia.
Qed.

Lemma get_set_ne (a : list Z) (i j v : Z) :
  0 <= i -> 0 <= j -> i <> j -> get (set a i v) j = get a j.
Proof.
  intros Hi Hj Hne. rewrite !get_nth by lia. unfold set.
  destruct i; try lia; apply nth_insert_ne; lia.
Qed.

Lemma inverse_table_fold (sbox : list Z) (l : list Z) (inv0 : list Z) :
  length inv0 = 256%nat ->
  (forall i, In i l -> is_byte (get sbox i)) ->
  (forall i j, In i l -> In j l -> get sbox i = get sbox j -> i = j) ->
  let inv := fold_left (fun invSbox i => set invSbox (get sbox i) i) l inv0 in
  length inv = 256%nat
  /\ forall x, In x l -> get inv (get sbox x) = x.
Proof.
  intros Hlen. induction l as [|a l IH] using rev_ind; intros Hbyte Hinj.
  - split; [exact Hlen | contradiction].
  - cbv zeta. rewrite fold_left_app. cbn [fold_left].
    destruct IH as [IHlen IHget].
    { intros i Hi. apply Hbyte, in_or_app. now left. }
    { intros i j Hi Hj. apply Hinj; apply in_or_app; now left. }
    assert (Ha : In a (l ++ [a])) by (apply in_or_app; right; now left).
    pose proof (Hbyte a Ha) as Hba. unfold is_byte in Hba.
    split; [now rewrite length_set|].
    intros x Hx. apply in_app_or in Hx as [Hx|[<-|[]]].
    + destruct (Z.eq_dec (get sbox a) (get sbox x)) as [E|E].
      * rewrite <- E. rewrite get_set_eq by lia.
        apply Hinj; [exact Ha | apply in_or_app; now left | exact E].
      * assert (Hbx : is_byte (get sbox x)) by (apply Hbyte, in_or_app; now left).
        unfold is_byte in Hbx. rewrite get_set_ne by lia. now apply IHget.
    + apply get_set_eq. lia.
Qed.

(** On an S-box that is injective on the bytes the inverse table undoes
    the S-box. *)
Lemma generateInverseSBox_get (sbox : list Z) (x : Z) :
  sbox_injective sbox -> is_byte x ->
  get (generateInverseSBox sbox) (get sbox x) = x.
Proof.
  intros [Hbyte Hinj] Hx. unfold generateInverseSBox.
  destruct (inverse_table_fold sbox (range 0 256) (repeat 0 256)) as [_ H].
  - apply repeat_length.
  - intros i Hi. apply Hbyte, In_range, Hi.
  - intros i j Hi Hj. apply Hinj; now apply In_range.
  - apply H, In_range, Hx.
Qed.

(** C7. For an invertible matrix, a constant byte and a byte [x], the
    inverse table of the generated S-box maps the S-box entry of [x] back
    to [x]. *)
Theorem generateInverseSBox_inverts (matrix : list Z) (constant x : Z) :
  isMatrixValid matrix = true -> is_byte constant -> is_byte x ->
  get (generateInverseSBox (generateSBox matrix constant))
      (get (generateSBox matrix constant) x) = x.
Proof.
  intros Hvalid Hc Hx.
  apply generateInverseSBox_get; [|exact Hx].
  now apply generateSBox_injective.
Qed.

Lemma generateInverseSBox_inverts_witness :
  get (generateInverseSBox (generateSBox K44_MATRIX 0x63))
      (get (generateSBox K44_MATRIX 0x63) 0x53) = 0x53.
Proof.
  apply (generateInverseSBox_inverts K44_MATRIX 0x63 0x53);
    [vm_compute; reflexivity | unfold is_byte; lia | unfold is_byte; lia].
Defined.

(** ** The round transformations on explicit states *)

Lemma subBytes_explicit (sbox : list Z) a b c d e f g h i j k l m n o p :
  subBytes [[a; b; c; d]; [e; f; g; h]; [i; j; k; l]; [m; n; o; p]] sbox
  = [[get sbox a; get sbox b; get sbox c; get sbox d];
     [get sbox e; get sbox f; get sbox g; get sbox h];
     [get sbox i; get sbox j; get sbox k; get sbox l];
     [get sbox m; get sbox n; get sbox o; get sbox p]].
Proof. reflexivity. Qed.

Lemma shiftRows_explicit a b c d e f g h i j k l m n o p :
  shiftRows [[a; b; c; d]; [e; f; g; h]; [i; j; k; l]; [m; n; o; p]]
  = [[a; b; c; d]; [f; g; h; e]; [k; l; i; j]; [p; m; n; o]].
Proof. reflexivity. Qed.

Lemma invShiftRows_explicit a b c d e f g h i j k l m n o p :
  invShiftRows [[a; b; c; d]; [e; f; g; h]; [i; j; k; l]; [m; n; o; p]]
  = [[a; b; c; d]; [h; e; f; g]; [k; l; i; j]; [n; o; p; m]].
Proof. reflexivity. Qed.

Lemma addRoundKey_explicit (rk : State) a b c d e f g h i j k l m n o p :
  addRoundKey [[a; b; c; d]; [e; f; g; h]; [i; j; k; l]; [m; n; o; p]] rk
  = [[Z.lxor a (at2 rk 0 0); Z.lxor b (at2 rk 0 1); Z.lxor c (at2 rk 0 2); Z.lxor d (at2 rk 0 3)];
     [Z.lxor e (at2 rk 1 0); Z.lxor f (at2 rk 1 1); Z.lxor g (at2 rk 1 2); Z.lxor h (at2 rk 1 3)];
     [Z.lxor i (at2 rk 2 0); Z.lxor j (at2 rk 2 1); Z.lxor k (at2 rk 2 2); Z.lxor l (at2 rk 2 3)];
     [Z.lxor m (at2 rk 3 0); Z.lxor n (at2 rk 3 1); Z.lxor o (at2 rk 3 2); Z.lxor p (at2 rk 3 3)]].
Proof. reflexivity. Qed.

Lemma mixColumns_explicit a b c d e f g h i j k l m n o p :
  mixColumns [[a; b; c; d]; [e; f; g; h]; [i; j; k; l]; [m; n; o; p]]
  = [[mixEntry 2 3 1 1 a e i m; mixEntry 2 3 1 1 b f j n;
      mixEntry 2 3 1 1 c g k o; mixEntry 2 3 1 1 d h l p];
     [mixEntry 1 2 3 1 a e i m; mixEntry 1 2 3 1 b f j n;
      mixEntry 1 2 3 1 c g k o; mixEntry 1 2 3 1 d h l p];
     [mixEntry 1 1 2 3 a e i m; mixEntry 1 1 2 3 b f j n;
      mixEntry 1 1 2 3 c g k o; mixEntry 1 1 2 3 d h l p];
     [mixEntry 3 1 1 2 a e i m; mixEntry 3 1 1 2 b f j n;
      mixEntry 3 1 1 2 c g k o; mixEntry 3 1 1 2 d h l p]].
Proof. reflexivity. Qed.

Lemma invMixColumns_explicit a b c d e f g h i j k l m n o p :
  invMixColumns [[a; b; c; d]; [e; f; g; h]; [i; j; k; l]; [m; n; o; p]]
  = [[mixEntry 14 11 13 9 a e i m; mixEntry 14 11 13 9 b f j n;
      mixEntry 14 11 13 9 c g k o; mixEntry 14 11 13 9 d h l p];
     [mixEntry 9 14 11 13 a e i m; mixEntry 9 14 11 13 b f j n;
      mixEntry 9 14 11 13 c g k o; mixEntry 9 14 11 13 d h l p];
     [mixEntry 13 9 14 11 a e i m; mixEntry 13 9 14 11 b f j n;
      mixEntry 13 9 14 11 c g k o; mixEntry 13 9 14 11 d h l p];
     [mixEntry 11 13 9 14 a e i m; mixEntry 11 13 9 14 b f j n;
      mixEntry 11 13 9 14 c g k o; mixEntry 11 13 9 14 d h l p]].
Proof. reflexivity. Qed.

Lemma bytesToState_explicit (bytes : list Z) :
  bytesToState bytes
  = [[nth 0 bytes 0; nth 4 bytes 0; nth 8 bytes 0; nth 12 bytes 0];
     [nth 1 bytes 0; nth 5 bytes 0; nth 9 bytes 0; nth 13 bytes 0];
     [nth 2 bytes 0; nth 6 bytes 0; nth 10 bytes 0; nth 14 bytes 0];
     [nth 3 bytes 0; nth 7 bytes 0; nth 11 bytes 0; nth 15 bytes 0]].
Proof. reflexivity. Qed.

Lemma stateToBytes_explicit a b c d e f g h i j k l m n o p :
  stateToBytes [[a; b; c; d]; [e; f; g; h]; [i; j; k; l]; [m; n; o; p]]
  = map toUint8 [a; e; i; m; b; f; j; n; c; g; k; o; d; h; l; p].
Proof. reflexivity. Qed.

(** ** MixColumns and its inverse *)

Lemma gmc_linear_checked : forallb gmc_linear_check (range 0 256) = true.
Proof. vm_compute. reflexivity. Qed.

Lemma gmc_byte_checked : forallb gmc_byte_check (range 0 256) = true.
Proof. vm_compute. reflexivity. Qed.

Lemma mix_product_checked : forallb mix_product_check (range 0 256) = true.
Proof. vm_compute. reflexivity. Qed.

Lemma gmc_linear (m a b : Z) :
  In m mixCoefficients -> is_byte a -> is_byte b ->
  gfMultiplyConstant (Z.lxor a b) m
  = Z.lxor (gfMultiplyConstant a m) (gfMultiplyConstant b m).
Proof.
  intros Hm Ha Hb.
  pose proof (forallb_range _ _ _ gmc_linear_checked a Ha) as H.
  pose proof (forallb_range _ _ _ H b Hb) as H'. cbv beta in H'.
  rewrite forallb_forall in H'. apply Z.eqb_eq, H', Hm.
Qed.

Lemma gmc_byte (m a : Z) :
  In m mixCoefficients -> is_byte a -> is_byte (gfMultiplyConstant a m).
Proof.
  intros Hm Ha.
  pose proof (forallb_range _ _ _ gmc_byte_checked a Ha) as H.
  unfold gmc_byte_check in H. rewrite forallb_forall in H.
  apply is_byteb_spec, H, Hm.
Qed.

Lemma mixEntry_byte (m0 m1 m2 m3 a b c d : Z) :
  In m0 mixCoefficients -> In m1 mixCoefficients ->
  In m2 mixCoefficients -> In m3 mixCoefficients ->
  is_byte a -> is_byte b -> is_byte c -> is_byte d ->
  is_byte (mixEntry m0 m1 m2 m3 a b c d).
Proof.
  intros. unfold mixEntry. rewrite Z.lxor_0_l.
  repeat apply lxor_byte; now apply gmc_byte.
Qed.

(** Multiplying a sum of four bytes by a coefficient. *)
Lemma gmc_mixEntry (m m0 m1 m2 m3 a b c d : Z) :
  In m mixCoefficients ->
  In m0 mixCoefficients -> In m1 mixCoefficients ->
  In m2 mixCoefficients -> In m3 mixCoefficients ->
  is_byte a -> is_byte b -> is_byte c -> is_byte d ->
  gfMultiplyConstant (mixEntry m0 m1 m2 m3 a b c d) m
  = Z.lxor
      (Z.lxor
         (Z.lxor (gfMultiplyConstant (gfMultiplyConstant a m0) m)
                 (gfMultiplyConstant (gfMultiplyConstant b m1) m))
         (gfMultiplyConstant (gfMultiplyConstant c m2) m))
      (gfMultiplyConstant (gfMultiplyConstant d m3) m).
Proof.
  intros Hm H0 H1 H2 H3 Ha Hb Hc Hd. unfold mixEntry. rewrite Z.lxor_0_l.
  pose proof (gmc_byte _ _ H0 Ha). pose proof (gmc_byte _ _ H1 Hb).
  pose proof (gmc_byte _ _ H2 Hc). pose proof (gmc_byte _ _ H3 Hd).
  rewrite !gmc_linear by (try assumption; repeat apply lxor_byte; assumption).
  reflexivity.
Qed.

(** Regrouping a sum of four sums of four. *)
Lemma lxor_transpose (a0 a1 a2 a3 b0 b1 b2 b3 c0 c1 c2 c3 d0 d1 d2 d3 : Z) :
  Z.lxor
    (Z.lxor
       (Z.lxor
          (Z.lxor 0 (Z.lxor (Z.lxor (Z.lxor a0 b0) c0) d0))
          (Z.lxor (Z.lxor (Z.lxor a1 b1) c1) d1))
       (Z.lxor (Z.lxor (Z.lxor a2 b2) c2) d2))
    (Z.lxor (Z.lxor (Z.lxor a3 b3) c3) d3)
  = Z.lxor
      (Z.lxor
         (Z.lxor
            (Z.lxor (Z.lxor (Z.lxor (Z.lxor 0 a0) a1) a2) a3)
            (Z.lxor (Z.lxor (Z.lxor (Z.lxor 0 b0) b1) b2) b3))
         (Z.lxor (Z.lxor (Z.lxor (Z.lxor 0 c0) c1) c2) c3))
      (Z.lxor (Z.lxor (Z.lxor (Z.lxor 0 d0) d1) d2) d3).
Proof.
  apply Z.bits_inj'. intros n Hn.
  rewrite !Z.lxor_spec, !Z.bits_0. btauto.
Qed.

Lemma mixEntry_compose (i0 i1 i2 i3 a b c d : Z) :
  In i0 mixCoefficients -> In i1 mixCoefficients ->
  In i2 mixCoefficients -> In i3 mixCoefficients ->
  is_byte a -> is_byte b -> is_byte c -> is_byte d ->
  let g := gfMultiplyConstant in
  mixEntry i0 i1 i2 i3
    (mixEntry 2 3 1 1 a b c d) (mixEntry 1 2 3 1 a b c d)
    (mixEntry 1 1 2 3 a b c d) (mixEntry 3 1 1 2 a b c d)
  = Z.lxor
      (Z.lxor
         (Z.lxor (mixEntry i0 i1 i2 i3 (g a 2) (g a 1) (g a 1) (g a 3))
                 (mixEntry i0 i1 i2 i3 (g b 3) (g b 2) (g b 1) (g b 1)))
         (mixEntry i0 i1 i2 i3 (g c 1) (g c 3) (g c 2) (g c 1)))
      (mixEntry i0 i1 i2 i3 (g d 1) (g d 1) (g d 3) (g d 2)).
Proof.
  intros H0 H1 H2 H3 Ha Hb Hc Hd g.
  assert (C1 : In 1 mixCoefficients) by (cbv; tauto).
  assert (C2 : In 2 mixCoefficients) by (cbv; tauto).
  assert (C3 : In 3 mixCoefficients) by (cbv; tauto).
  unfold mixEntry at 1.
  rewrite !gmc_mixEntry by assumption.
  rewrite lxor_transpose. reflexivity.
Qed.

Lemma invMix_mix_column (a b c d : Z) :
  is_byte a -> is_byte b -> is_byte c -> is_byte d ->
  let y0 := mixEntry 2 3 1 1 a b c d in
  let y1 := mixEntry 1 2 3 1 a b c d in
  let y2 := mixEntry 1 1 2 3 a b c d in
  let y3 := mixEntry 3 1 1 2 a b c d in
  mixEntry 14 11 13 9 y0 y1 y2 y3 = a
  /\ mixEntry 9 14 11 13 y0 y1 y2 y3 = b
  /\ mixEntry 13 9 14 11 y0 y1 y2 y3 = c
  /\ mixEntry 11 13 9 14 y0 y1 y2 y3 = d.
Proof.
  intros Ha Hb Hc Hd. cbv zeta.
  assert (C9 : In 9 mixCoefficients) by (cbv; tauto).
  assert (C11 : In 11 mixCoefficients) by (cbv; tauto).
  assert (C13 : In 13 mixCoefficients) by (cbv; tauto).
  assert (C14 : In 14 mixCoefficients) by (cbv; tauto).
  rewrite !mixEntry_compose by assumption. cbv zeta.
  pose proof (forallb_range _ _ _ mix_product_checked a Ha) as Pa.
  pose proof (forallb_range _ _ _ mix_product_checked b Hb) as Pb.
  pose proof (forallb_range _ _ _ mix_product_checked c Hc) as Pc.
  pose proof (forallb_range _ _ _ mix_product_checked d Hd) as Pd.
  unfold mix_product_check in Pa, Pb, Pc, Pd. cbv zeta in Pa, Pb, Pc, Pd.
  rewrite !andb_true_iff, !Z.eqb_eq in Pa, Pb, Pc, Pd.
  decompose [and] Pa. decompose [and] Pb. decompose [and] Pc. decompose [and] Pd.
  repeat match goal with H : mixEntry _ _ _ _ _ _ _ _ = _ |- _ => rewrite H; clear H end.
  rewrite ?Z.lxor_0_r, ?Z.lxor_0_l. repeat split; reflexivity.
Qed.

(** ** Well-formed states through the rounds *)

Ltac wf_destruct H :=
  let Hall := fresh "Hall" in
  destruct H as (?a & ?b & ?c & ?d & ?e & ?f & ?g & ?h & ?i & ?j & ?k & ?l
                 & ?m & ?n & ?o & ?p & -> & Hall);
  rewrite !Forall_cons in Hall; destruct_and!.

Ltac wf_intro :=
  do 16 eexists; split; [reflexivity|];
  repeat (apply List.Forall_cons); [..|apply List.Forall_nil].

Lemma toUint8_byte (v : Z) : is_byte v -> toUint8 v = v.
Proof. intros H. unfold toUint8, is_byte in *. now apply Z.mod_small. Qed.

Lemma toUint8_is_byte (v : Z) : is_byte (toUint8 v).
Proof. unfold toUint8, is_byte. apply Z.mod_pos_bound. lia. Qed.

Lemma length_stateToBytes (s : State) : length (stateToBytes s) = 16%nat.
Proof. reflexivity. Qed.

Lemma stateToBytes_bytes (s : State) : Forall is_byte (stateToBytes s).
Proof.
  unfold stateToBytes. apply List.Forall_forall. intros v Hv.
  apply in_map_iff in Hv as (i & <- & _). apply toUint8_is_byte.
Qed.

Lemma nth_byte (l : list Z) (i : nat) : Forall is_byte l -> is_byte (nth i l 0).
Proof.
  intros H. destruct (Nat.lt_ge_cases i (length l)) as [Hi|Hi].
  - rewrite List.Forall_forall in H. now apply H, nth_In.
  - rewrite nth_overflow by exact Hi. unfold is_byte. lia.
Qed.

Lemma wfState_bytesToState (block : list Z) :
  Forall is_byte block -> wfState (bytesToState block).
Proof.
  intros H. rewrite bytesToState_explicit. wf_intro; now apply nth_byte.
Qed.

Lemma bytesToState_stateToBytes (s : State) :
  wfState s -> bytesToState (stateToBytes s) = s.
Proof.
  intros H. wf_destruct H.
  rewrite stateToBytes_explicit, bytesToState_explicit. cbn [map nth].
  now rewrite !toUint8_byte by assumption.
Qed.

Lemma stateToBytes_bytesToState (block : list Z) :
  length block = 16%nat -> Forall is_byte block ->
  stateToBytes (bytesToState block) = block.
Proof.
  intros Hlen H. rewrite bytesToState_explicit, stateToBytes_explicit.
  do 17 (destruct block as [|? block]; try discriminate Hlen).
  cbn [map nth]. rewrite !Forall_cons in H. destruct_and!.
  now rewrite !toUint8_byte by assumption.
Qed.

Lemma wfState_subBytes (s : State) (sbox : list Z) :
  wfState s -> sbox_bytes sbox -> wfState (subBytes s sbox).
Proof.
  intros H Hs. wf_destruct H. rewrite subBytes_explicit. wf_intro; now apply Hs.
Qed.

Lemma wfState_shiftRows (s : State) : wfState s -> wfState (shiftRows s).
Proof. intros H. wf_destruct H. rewrite shiftRows_explicit. wf_intro; assumption. Qed.

Lemma wfState_mixColumns (s : State) : wfState s -> wfState (mixColumns s).
Proof.
  intros H. wf_destruct H. rewrite mixColumns_explicit.
  wf_intro; apply mixEntry_byte; try assumption; cbv; tauto.
Qed.

Lemma wfState_addRoundKey (s rk : State) :
  wfState s -> byteKey rk -> wfState (addRoundKey s rk).
Proof.
  intros H Hk. wf_destruct H. rewrite addRoundKey_explicit.
  wf_intro; apply lxor_byte; try assumption; apply Hk.
Qed.

Lemma invSubBytes_subBytes (s : State) (sbox : list Z) :
  wfState s -> sbox_injective sbox ->
  invSubBytes (subBytes s sbox) (generateInverseSBox sbox) = s.
Proof.
  intros H Hs. wf_destruct H. unfold invSubBytes. rewrite !subBytes_explicit.
  now rewrite !generateInverseSBox_get by assumption.
Qed.

Lemma invShiftRows_shiftRows (s : State) : wfState s -> invShiftRows (shiftRows s) = s.
Proof.
  intros H. wf_destruct H. now rewrite shiftRows_explicit, invShiftRows_explicit.
Qed.

Lemma invMixColumns_mixColumns (s : State) :
  wfState s -> invMixColumns (mixColumns s) = s.
Proof.
  intros H. wf_destruct H. rewrite mixColumns_explicit, invMixColumns_explicit.
  repeat match goal with
         | Ha : is_byte ?a, Hb : is_byte ?b, Hc : is_byte ?c, Hd : is_byte ?d
           |- context [mixEntry 14 11 13 9 (mixEntry 2 3 1 1 ?a ?b ?c ?d)] =>
             destruct (invMix_mix_column a b c d Ha Hb Hc Hd) as (-> & -> & -> & ->)
         end.
  reflexivity.
Qed.

Lemma addRoundKey_involutive (s rk : State) :
  wfState s -> addRoundKey (addRoundKey s rk) rk = s.
Proof.
  intros H. wf_destruct H. rewrite !addRoundKey_explicit.
  now rewrite !Z.lxor_assoc, !Z.lxor_nilpotent, !Z.lxor_0_r.
Qed.

(** ** The key schedule yields byte round keys *)

Lemma nth_byteWords (W : list (list Z)) (k : nat) :
  byteWords W -> Forall is_byte (nth k W []).
Proof.
  intros H. destruct (Nat.lt_ge_cases k (length W)) as [Hk|Hk].
  - unfold byteWords in H. rewrite List.Forall_forall in H. now apply H, nth_In.
  - rewrite nth_overflow by exact Hk. apply List.Forall_nil.
Qed.

Lemma RCON_bytes : Forall is_byte RCON.
Proof. repeat apply List.Forall_cons; try apply List.Forall_nil; unfold is_byte; lia. Qed.

Lemma nextWord_bytes (sbox : list Z) (W : list (list Z)) (i : nat) :
  sbox_bytes sbox -> byteWords W -> Forall is_byte (nextWord sbox W i).
Proof.
  intros Hs HW. unfold nextWord.
  pose proof (nth_byteWords W (i - 1) HW) as Hprev.
  set (temp := if (i mod 4 =? 0)%nat then _ else _).
  assert (Htemp : Forall is_byte temp).
  { subst temp. destruct (i mod 4 =? 0)%nat; [|exact Hprev].
    apply Forall_insert.
    - cbn [map]. repeat apply List.Forall_cons; try apply List.Forall_nil;
        apply Hs, nth_byte, Hprev.
    - apply lxor_byte; [|apply nth_byte, RCON_bytes].
      cbn [map nth]. apply Hs, nth_byte, Hprev. }
  apply Forall_forall. intros x Hx.
  apply elem_of_lookup_imap_1 in Hx as (j & y & -> & Hy).
  apply lxor_byte; [|now apply nth_byte].
  pose proof (nth_byteWords W (i - 4) HW) as Hold.
  rewrite Forall_forall in Hold. apply Hold.
  apply list_elem_of_lookup. eauto.
Qed.

Lemma expandWords_bytes (key sbox : list Z) :
  Forall is_byte key -> sbox_bytes sbox -> byteWords (expandWords key sbox).
Proof.
  intros Hk Hs. unfold expandWords.
  assert (Hfold : forall l W, byteWords W ->
            byteWords (fold_left (fun W i => W ++ [nextWord sbox W i]) l W)).
  { induction l as [|i l IH]; intros W HW; [exact HW|].
    cbn [fold_left]. apply IH. apply Forall_app. split; [exact HW|].
    apply List.Forall_cons; [now apply nextWord_bytes | apply List.Forall_nil]. }
  apply Hfold. cbn [map seq].
  repeat apply List.Forall_cons; try apply List.Forall_nil; now apply nth_byte.
Qed.

Lemma wfState_byteKey (s : State) : wfState s -> byteKey s.
Proof.
  intros H. wf_destruct H. intros row col.
  do 4 (destruct row as [|row];
        [do 4 (destruct col as [|col]; [assumption|]);
         unfold at2; cbn [nth]; destruct col; unfold is_byte; cbn; lia|]).
  unfold at2. cbn [nth]. destruct row, col; unfold is_byte; cbn; lia.
Qed.

Lemma roundKey_explicit (W : list (list Z)) (round : nat) :
  fold_left
    (fun roundKey col =>
       fold_left
         (fun roundKey row =>
            set2 roundKey row col (nth row (nth (round * 4 + col) W []) 0))
         (seq 0 4) roundKey)
    (seq 0 4) zeroState
  = [[nth 0 (nth (round * 4 + 0) W []) 0; nth 0 (nth (round * 4 + 1) W []) 0;
      nth 0 (nth (round * 4 + 2) W []) 0; nth 0 (nth (round * 4 + 3) W []) 0];
     [nth 1 (nth (round * 4 + 0) W []) 0; nth 1 (nth (round * 4 + 1) W []) 0;
      nth 1 (nth (round * 4 + 2) W []) 0; nth 1 (nth (round * 4 + 3) W []) 0];
     [nth 2 (nth (round * 4 + 0) W []) 0; nth 2 (nth (round * 4 + 1) W []) 0;
      nth 2 (nth (round * 4 + 2) W []) 0; nth 2 (nth (round * 4 + 3) W []) 0];
     [nth 3 (nth (round * 4 + 0) W []) 0; nth 3 (nth (round * 4 + 1) W []) 0;
      nth 3 (nth (round * 4 + 2) W []) 0; nth 3 (nth (round * 4 + 3) W []) 0]].
Proof. reflexivity. Qed.

Lemma keyExpansion_wf (key sbox : list Z) (r : nat) :
  Forall is_byte key -> sbox_bytes sbox -> (r <= 10)%nat ->
  wfState (nth r (keyExpansion key sbox) []).
Proof.
  intros Hk Hs Hr. unfold keyExpansion.
  pose proof (expandWords_bytes key sbox Hk Hs) as HW.
  revert HW. generalize (expandWords key sbox). intros W HW. cbv zeta.
  match goal with |- wfState (nth _ (map ?g _) _) => set (f := g) end.
  assert (Hnth : nth r (map f (seq 0 11)) [] = f r).
  { clearbody f. do 11 (destruct r as [|r]; [reflexivity|]). lia. }
  rewrite Hnth. subst f. cbv beta. rewrite roundKey_explicit.
  wf_intro; apply nth_byte, nth_byteWords, HW.
Qed.

(** ** One block *)

(** A fold of steps is undone by the fold of their inverses in reverse
    order. *)
Lemma fold_left_undo {S R : Type} (enc dec : S -> R -> S)
    (P : S -> Prop) (Q : R -> Prop) :
  (forall s r, P s -> Q r -> P (enc s r) /\ dec (enc s r) r = s) ->
  forall l s, (forall r, In r l -> Q r) -> P s ->
    P (fold_left enc l s) /\ fold_left dec (rev l) (fold_left enc l s) = s.
Proof.
  intros Hstep. induction l as [|r l IH]; intros s HQ HP.
  - split; [exact HP | reflexivity].
  - destruct (Hstep s r HP (HQ r (or_introl eq_refl))) as [HP' Hundo].
    destruct (IH (enc s r) (fun r' Hr' => HQ r' (or_intror Hr')) HP') as [IHP IHundo].
    split; [exact IHP|].
    change (rev (r :: l)) with (rev l ++ [r]).
    change (fold_left enc (r :: l) s) with (fold_left enc l (enc s r)).
    rewrite fold_left_app, IHundo. exact Hundo.
Qed.

Lemma round_undo (sbox : list Z) (roundKeys : list State) (s : State) (r : nat) :
  sbox_injective sbox -> wfState s -> byteKey (nth r roundKeys []) ->
  wfState (encryptRound sbox roundKeys s r)
  /\ decryptRound (generateInverseSBox sbox) roundKeys
       (encryptRound sbox roundKeys s r) r = s.
Proof.
  intros Hs Hwf Hr.
  assert (H1 : wfState (subBytes s sbox))
    by (apply wfState_subBytes; [exact Hwf | exact (proj1 Hs)]).
  assert (H2 : wfState (shiftRows (subBytes s sbox))) by now apply wfState_shiftRows.
  assert (H3 : wfState (mixColumns (shiftRows (subBytes s sbox))))
    by now apply wfState_mixColumns.
  unfold decryptRound, encryptRound.
  split; [now apply wfState_addRoundKey|].
  rewrite addRoundKey_involutive by exact H3.
  rewrite invMixColumns_mixColumns by exact H2.
  rewrite invShiftRows_shiftRows by exact H1.
  now apply invSubBytes_subBytes.
Qed.

Lemma encryptBlock_eq (block key sbox : list Z) :
  encryptBlock block key sbox
  = stateToBytes
      (addRoundKey
         (shiftRows
            (subBytes
               (fold_left (encryptRound sbox (keyExpansion key sbox)) (seq 1 9)
                  (addRoundKey (bytesToState block) (nth 0 (keyExpansion key sbox) [])))
               sbox))
         (nth 10 (keyExpansion key sbox) [])).
Proof. reflexivity. Qed.

Lemma decryptBlock_eq (block key sbox : list Z) :
  decryptBlock block key sbox
  = stateToBytes
      (addRoundKey
         (fold_left
            (decryptRound (generateInverseSBox sbox) (keyExpansion key sbox))
            (rev (seq 1 9))
            (invSubBytes
               (invShiftRows
                  (addRoundKey (bytesToState block) (nth 10 (keyExpansion key sbox) [])))
               (generateInverseSBox sbox)))
         (nth 0 (keyExpansion key sbox) [])).
Proof. reflexivity. Qed.

(** [decryptBlock] undoes [encryptBlock] on a block of 16 bytes. *)
Lemma decryptBlock_encryptBlock (block key sbox : list Z) :
  length block = 16%nat -> Forall is_byte block -> Forall is_byte key ->
  sbox_injective sbox ->
  decryptBlock (encryptBlock block key sbox) key sbox = block.
Proof.
  intros Hlen Hb Hk Hs.
  assert (Hsb : sbox_bytes sbox) by exact (proj1 Hs).
  assert (Hrk : forall r, (r <= 10)%nat -> byteKey (nth r (keyExpansion key sbox) [])).
  { intros r Hr. now apply wfState_byteKey, keyExpansion_wf. }
  rewrite decryptBlock_eq, encryptBlock_eq.
  generalize dependent (keyExpansion key sbox). intros rks Hrk.
  pose proof (wfState_bytesToState block Hb) as W0.
  assert (W1 : wfState (addRoundKey (bytesToState block) (nth 0 rks []))).
  { apply wfState_addRoundKey; [exact W0 | apply Hrk; lia]. }
  destruct (fold_left_undo (encryptRound sbox rks)
              (decryptRound (generateInverseSBox sbox) rks)
              wfState (fun r => byteKey (nth r rks []))
              (fun s r Hwf Hr => round_undo sbox rks s r Hs Hwf Hr)
              (seq 1 9) _ (fun r Hr => Hrk r ltac:(apply in_seq in Hr; lia)) W1)
    as [W2 R2].
  revert W2 R2.
  generalize (fold_left (encryptRound sbox rks) (seq 1 9)
                (addRoundKey (bytesToState block) (nth 0 rks []))).
  intros s2 W2 R2.
  assert (W3 : wfState (subBytes s2 sbox)) by now apply wfState_subBytes.
  assert (W4 : wfState (shiftRows (subBytes s2 sbox))) by now apply wfState_shiftRows.
  assert (W5 : wfState (addRoundKey (shiftRows (subBytes s2 sbox)) (nth 10 rks []))).
  { apply wfState_addRoundKey; [exact W4 | apply Hrk; lia]. }
  rewrite bytesToState_stateToBytes by exact W5.
  rewrite addRoundKey_involutive by exact W4.
  rewrite invShiftRows_shiftRows by exact W3.
  rewrite invSubBytes_subBytes by assumption.
  rewrite R2.
  rewrite addRoundKey_involutive by exact W0.
  now apply stateToBytes_bytesToState.
Qed.

(** ** PKCS7 padding and the ECB loop *)

Lemma find_none_intro {A} (f : A -> bool) (l : list A) :
  (forall x, In x l -> f x = false) -> find f l = None.
Proof.
  induction l as [|x l IH]; intros H; [reflexivity|].
  cbn [find]. rewrite (H x (or_introl eq_refl)). apply IH.
  intros y Hy. apply H. now right.
Qed.

Lemma pkcs7Pad_length (data : list Z) :
  length (pkcs7Pad data) = (16 * (length data / 16 + 1))%nat.
Proof.
  unfold pkcs7Pad. rewrite length_app, repeat_length.
  pose proof (Nat.div_mod_eq (length data) 16).
  pose proof (Nat.mod_upper_bound (length data) 16). lia.
Qed.

Lemma pkcs7Pad_bytes (data : list Z) :
  Forall is_byte data -> Forall is_byte (pkcs7Pad data).
Proof.
  intros H. unfold pkcs7Pad. apply Forall_app. split; [exact H|].
  apply List.Forall_forall. intros v Hv. apply repeat_spec in Hv. subst v.
  pose proof (Nat.mod_upper_bound (length data) 16). unfold is_byte. lia.
Qed.

Lemma pkcs7Unpad_pkcs7Pad (data : list Z) : pkcs7Unpad (pkcs7Pad data) = inr data.
Proof.
  unfold pkcs7Pad, pkcs7Unpad.
  assert (Hmod : (length data mod 16 < 16)%nat) by (apply Nat.mod_upper_bound; lia).
  set (padLen := (16 - length data mod 16)%nat) in *.
  assert (Hpad : (1 <= padLen <= 16)%nat) by (subst padLen; lia).
  rewrite length_app, repeat_length.
  destruct (Nat.eqb_spec (length data + padLen) 0) as [H0|_]; [lia|].
  assert (Hlast : nth (length data + padLen - 1) (data ++ repeat (Z.of_nat padLen) padLen) 0
                  = Z.of_nat padLen).
  { rewrite app_nth2 by lia. apply nth_repeat_lt. lia. }
  rewrite Hlast.
  destruct (Z.gtb_spec (Z.of_nat padLen) 16) as [H16|_]; [lia|].
  destruct (Z.eqb_spec (Z.of_nat padLen) 0) as [H0|_]; [lia|]. cbn [orb].
  destruct (Z.gtb_spec (Z.of_nat padLen) (Z.of_nat (length data + padLen))) as [Hgt|_];
    [lia|].
  rewrite Nat2Z.id. replace (length data + padLen - padLen)%nat with (length data) by lia.
  rewrite find_none_intro.
  - rewrite firstn_app, Nat.sub_diag, firstn_all. cbn [firstn]. now rewrite app_nil_r.
  - intros i Hi. apply in_seq in Hi.
    rewrite app_nth2 by lia. rewrite nth_repeat_lt by lia.
    now rewrite Z.eqb_refl.
Qed.

Lemma length_concat_16 (blocks : list (list Z)) :
  Forall (fun b => length b = 16%nat) blocks ->
  length (concat blocks) = (16 * length blocks)%nat.
Proof.
  induction 1 as [|b blocks Hb _ IH]; [reflexivity|].
  cbn [concat length]. rewrite length_app. lia.
Qed.

Lemma chunks_exist (n : nat) (l : list Z) :
  length l = (16 * n)%nat ->
  exists blocks, concat blocks = l /\ Forall (fun b => length b = 16%nat) blocks.
Proof.
  revert l. induction n as [|n IH]; intros l Hl.
  - exists []. split; [|apply List.Forall_nil].
    symmetry. apply length_zero_iff_nil. lia.
  - destruct (IH (skipn 16 l)) as (blocks & Hc & Hf).
    { rewrite length_skipn. lia. }
    exists (firstn 16 l :: blocks). split.
    + cbn [concat]. rewrite Hc. apply firstn_skipn.
    + apply List.Forall_cons; [|exact Hf]. rewrite length_firstn. lia.
Qed.

Lemma blockOffsets_16 (n : nat) :
  blockOffsets (16 * n) = map (fun k => 16 * k)%nat (seq 0 n).
Proof.
  unfold blockOffsets. do 2 f_equal.
  symmetry. apply (Nat.div_unique _ 16 n 15); lia.
Qed.

Lemma ecbLoop_eq (blockFn : list Z -> list Z) (input : list Z) :
  ecbLoop blockFn input
  = fold_left (ecbStep blockFn input) (blockOffsets (length input))
      (inr (repeat 0 (length input))).
Proof. reflexivity. Qed.

Lemma ecb_fold (blockFn : list Z -> list Z) (rest done : list (list Z)) (tail : list Z) :
  (forall b, length (blockFn b) = 16%nat) ->
  Forall (fun b => length b = 16%nat) done ->
  Forall (fun b => length b = 16%nat) rest ->
  length tail = (16 * length rest)%nat ->
  fold_left (ecbStep blockFn (concat (done ++ rest)))
    (map (fun k => 16 * k)%nat (seq (length done) (length rest)))
    (inr (concat (map blockFn done) ++ tail))
  = inr (concat (map blockFn (done ++ rest))).
Proof.
  intros Hfn. revert done tail.
  induction rest as [|b rest IH]; intros done tail Hdone Hrest Htail.
  - cbn [length seq map fold_left]. rewrite app_nil_r.
    apply length_zero_iff_nil in Htail. subst tail. now rewrite app_nil_r.
  - apply Forall_cons in Hrest as [Hb Hrest].
    cbn [length] in Htail.
    assert (Hdone' : Forall (fun b => length b = 16%nat) (done ++ [b])).
    { apply Forall_app. split; [exact Hdone|]. apply List.Forall_cons; [exact Hb|].
      apply List.Forall_nil. }
    assert (Hmapdone : Forall (fun b => length b = 16%nat) (map blockFn done)).
    { apply List.Forall_forall. intros x Hx. apply in_map_iff in Hx as (y & <- & _).
      apply Hfn. }
    pose proof (length_concat_16 done Hdone) as Hlen1.
    pose proof (length_concat_16 _ Hmapdone) as Hlen2. rewrite length_map in Hlen2.
    cbn [length seq map fold_left].
    assert (Hstep :
      ecbStep blockFn (concat (done ++ b :: rest))
        (inr (concat (map blockFn done) ++ tail)) (16 * length done)
      = inr (concat (map blockFn (done ++ [b])) ++ skipn 16 tail)).
    { unfold ecbStep, slice, typedSet.
      replace (16 * length done + 16 - 16 * length done)%nat with 16%nat by lia.
      rewrite concat_app. cbn [concat].
      rewrite skipn_app, Hlen1, Nat.sub_diag, skipn_all2 by lia.
      cbn [app]. rewrite skipn_O. rewrite firstn_app, Hb, Nat.sub_diag, firstn_all2 by lia.
      cbn [firstn]. rewrite app_nil_r.
      rewrite Hfn, length_app, Hlen2.
      destruct (Nat.leb_spec (16 * length done + 16) (16 * length done + length tail));
        [|lia].
      f_equal. rewrite firstn_app, Hlen2, Nat.sub_diag, firstn_all2 by lia.
      cbn [firstn]. rewrite app_nil_r.
      rewrite skipn_app, Hlen2, skipn_all2 by lia.
      replace (16 * length done + 16 - 16 * length done)%nat with 16%nat by lia.
      rewrite map_app, concat_app. cbn [map concat app].
      now rewrite app_nil_r, <- app_assoc. }
    rewrite Hstep.
    replace (done ++ b :: rest) with ((done ++ [b]) ++ rest) by now rewrite <- app_assoc.
    replace (S (length done)) with (length (done ++ [b]))
      by (rewrite length_app; cbn [length]; lia).
    apply IH; [exact Hdone' | exact Hrest|].
    rewrite length_skipn. lia.
Qed.

(** On whole blocks the ECB loop maps [blockFn] over the blocks. *)
Lemma ecbLoop_concat (blockFn : list Z -> list Z) (blocks : list (list Z)) :
  (forall b, length (blockFn b) = 16%nat) ->
  Forall (fun b => length b = 16%nat) blocks ->
  ecbLoop blockFn (concat blocks) = inr (concat (map blockFn blocks)).
Proof.
  intros Hfn Hblocks. rewrite ecbLoop_eq.
  rewrite (length_concat_16 blocks Hblocks), blockOffsets_16.
  pose proof (ecb_fold blockFn blocks [] (repeat 0 (16 * length blocks)) Hfn) as H.
  cbn [app map concat length] in H. apply H; [apply List.Forall_nil | exact Hblocks|].
  apply repeat_length.
Qed.

(** ** The text codec *)


























(** ** Messages *)

Lemma length_encryptBlock (block key sbox : list Z) :
  length (encryptBlock block key sbox) = 16%nat.
Proof. rewrite encryptBlock_eq. apply length_stateToBytes. Qed.

Lemma length_decryptBlock (block key sbox : list Z) :
  length (decryptBlock block key sbox) = 16%nat.
Proof. rewrite decryptBlock_eq. apply length_stateToBytes. Qed.

(** On a padded message the two block loops are inverse to each other. *)
Lemma ecb_roundtrip (data key sbox : list Z) (n : nat) :
  length data = (16 * n)%nat -> Forall is_byte data -> Forall is_byte key ->
  sbox_injective sbox ->
  exists ciphertext,
    ecbLoop (fun block => encryptBlock block key sbox) data = inr ciphertext
    /\ length ciphertext = length data
    /\ ecbLoop (fun block => decryptBlock block key sbox) ciphertext = inr data.
Proof.
  intros Hlen Hbytes Hkey Hs.
  destruct (chunks_exist n data Hlen) as (blocks & <- & Hblocks).
  assert (Henc : Forall (fun b => length b = 16%nat)
                   (map (fun block => encryptBlock block key sbox) blocks)).
  { apply List.Forall_forall. intros c Hc. apply in_map_iff in Hc as (b & <- & _).
    cbv beta. apply length_encryptBlock. }
  exists (concat (map (fun block => encryptBlock block key sbox) blocks)).
  split; [|split].
  - apply ecbLoop_concat; [|exact Hblocks].
    intros b. cbv beta. apply length_encryptBlock.
  - rewrite !length_concat_16 by assumption. now rewrite length_map.
  - rewrite ecbLoop_concat; [| |exact Henc].
    2:{ intros b. cbv beta. apply length_decryptBlock. }
    do 2 f_equal. rewrite map_map. rewrite <- (map_id blocks) at 2.
    apply map_ext_in. intros b Hb. cbv beta.
    apply decryptBlock_encryptBlock; try assumption.
    + rewrite List.Forall_forall in Hblocks. now apply Hblocks.
    + apply Forall_concat in Hbytes. rewrite List.Forall_forall in Hbytes.
      now apply Hbytes.
Qed.




(** ** GF(2^8): the multiplication *)

Lemma gfMultiply_checked :
  forallb
    (fun a =>
       forallb
         (fun b =>
            is_byteb (gfMultiply a b)
            && (gfMultiply a b =? gfMultiply b a)
            && (gfMultiplyConstant a b =? gfMultiply a b))
         (range 0 256))
    (range 0 256) = true.
Proof. vm_compute. reflexivity. Qed.

Lemma gfMultiply_facts (a b : Z) :
  is_byte a -> is_byte b ->
  is_byte (gfMultiply a b)
  /\ gfMultiply a b = gfMultiply b a
  /\ gfMultiplyConstant a b = gfMultiply a b.
Proof.
  intros Ha Hb.
  pose proof (forallb_range _ _ _ gfMultiply_checked a Ha) as H.
  pose proof (forallb_range _ _ _ H b Hb) as H'. cbv beta in H'.
  apply andb_prop in H' as [H' H3]. apply andb_prop in H' as [H1 H2].
  apply is_byteb_spec in H1. apply Z.eqb_eq in H2. apply Z.eqb_eq in H3.
  auto.
Qed.

Lemma gfMultiply_byte (a b : Z) : is_byte a -> is_byte b -> is_byte (gfMultiply a b).
Proof. intros Ha Hb. apply (gfMultiply_facts a b Ha Hb). Qed.

Lemma gfMultiply_comm (a b : Z) :
  is_byte a -> is_byte b -> gfMultiply a b = gfMultiply b a.
Proof. intros Ha Hb. apply (gfMultiply_facts a b Ha Hb). Qed.

Lemma xtime_checked :
  forallb
    (fun a =>
       is_byteb (xtime a)
       && forallb (fun b => xtime (Z.lxor a b) =? Z.lxor (xtime a) (xtime b))
                  (range 0 256))
    (range 0 256) = true.
Proof. vm_compute. reflexivity. Qed.

Lemma xtime_byte (a : Z) : is_byte a -> is_byte (xtime a).
Proof.
  intros Ha. pose proof (forallb_range _ _ _ xtime_checked a Ha) as H.
  apply andb_prop in H as [H _]. now apply is_byteb_spec.
Qed.

Lemma xtime_lxor (a b : Z) :
  is_byte a -> is_byte b -> xtime (Z.lxor a b) = Z.lxor (xtime a) (xtime b).
Proof.
  intros Ha Hb. pose proof (forallb_range _ _ _ xtime_checked a Ha) as H.
  apply andb_prop in H as [_ H].
  apply Z.eqb_eq. exact (forallb_range _ _ _ H b Hb).
Qed.

(** One turn of the loop of [gfMultiply], with the update of [tempA]
    read as [xtime]. *)
Lemma gfMultiply_step_eq (p a b : Z) :
  gfMultiply_step (p, a, b)
  = (if Z.land b 1 =? 0 then p else Z.lxor p a, xtime a, Z.shiftr b 1).
Proof.
  unfold gfMultiply_step, xtime. change (Z.land IRREDUCIBLE_POLY 255) with 27.
  reflexivity.
Qed.

(** The loop of [gfMultiply] on the XOR of two runs. *)
Lemma gfMultiply_run_lxor (n : nat) (p1 p2 a1 a2 b : Z) :
  is_byte a1 -> is_byte a2 ->
  let '(q1, c1, d1) := Nat.iter n gfMultiply_step (p1, a1, b) in
  let '(q2, c2, d2) := Nat.iter n gfMultiply_step (p2, a2, b) in
  Nat.iter n gfMultiply_step (Z.lxor p1 p2, Z.lxor a1 a2, b)
  = (Z.lxor q1 q2, Z.lxor c1 c2, d1)
  /\ d1 = d2 /\ is_byte c1 /\ is_byte c2.
Proof.
  intros Ha1 Ha2. induction n as [|n IH].
  - simpl. auto.
  - rewrite !Nat.iter_succ.
    destruct (Nat.iter n gfMultiply_step (p1, a1, b)) as [[q1 c1] d1].
    destruct (Nat.iter n gfMultiply_step (p2, a2, b)) as [[q2 c2] d2].
    destruct IH as (-> & <- & Hc1 & Hc2).
    rewrite !gfMultiply_step_eq.
    split; [|auto using xtime_byte].
    rewrite xtime_lxor by assumption.
    destruct (Z.land d1 1 =? 0); [reflexivity|].
    f_equal. f_equal.
    rewrite !Z.lxor_assoc. f_equal.
    rewrite <- !Z.lxor_assoc. f_equal. apply Z.lxor_comm.
Qed.

Lemma gfMultiply_lxor_l (a1 a2 b : Z) :
  is_byte a1 -> is_byte a2 ->
  gfMultiply (Z.lxor a1 a2) b = Z.lxor (gfMultiply a1 b) (gfMultiply a2 b).
Proof.
  intros Ha1 Ha2. unfold gfMultiply.
  pose proof (gfMultiply_run_lxor 8 0 0 a1 a2 b Ha1 Ha2) as H.
  destruct (Nat.iter 8 gfMultiply_step (0, a1, b)) as [[q1 c1] d1].
  destruct (Nat.iter 8 gfMultiply_step (0, a2, b)) as [[q2 c2] d2].
  destruct H as (H & _). change (Z.lxor 0 0) with 0 in H. now rewrite H.
Qed.

Lemma gfMultiply_lxor_r (a b1 b2 : Z) :
  is_byte a -> is_byte b1 -> is_byte b2 ->
  gfMultiply a (Z.lxor b1 b2) = Z.lxor (gfMultiply a b1) (gfMultiply a b2).
Proof.
  intros Ha Hb1 Hb2.
  rewrite (gfMultiply_comm a (Z.lxor b1 b2)) by auto using lxor_byte.
  rewrite gfMultiply_lxor_l by assumption.
  now rewrite (gfMultiply_comm b1 a), (gfMultiply_comm b2 a).
Qed.

(** *** Additive maps are fixed by the powers of two *)

Lemma bitTerms_checked :
  forallb (fun x => xorList (bitTerms x) =? x) (range 0 256) = true.
Proof. vm_compute. reflexivity. Qed.

Lemma xorList_bitTerms (x : Z) : is_byte x -> xorList (bitTerms x) = x.
Proof.
  intros Hx. apply Z.eqb_eq. exact (forallb_range _ _ _ bitTerms_checked x Hx).
Qed.

Lemma additive_0 (f : Z -> Z) : additive f -> f 0 = 0.
Proof.
  intros Hf. assert (H0 : is_byte 0) by (unfold is_byte; lia).
  pose proof (Hf 0 0 H0 H0) as H. change (Z.lxor 0 0) with 0 in H.
  rewrite Z.lxor_nilpotent in H. exact H.
Qed.

Lemma xorList_byte (l : list Z) : Forall is_byte l -> is_byte (xorList l).
Proof.
  induction 1 as [|x l Hx _ IH]; simpl.
  - unfold is_byte. lia.
  - now apply lxor_byte.
Qed.

Lemma additive_xorList (f : Z -> Z) (l : list Z) :
  additive f -> Forall is_byte l -> f (xorList l) = xorList (map f l).
Proof.
  intros Hf. induction 1 as [|x l Hx Hl IH]; simpl.
  - now apply additive_0.
  - rewrite Hf by auto using xorList_byte. now rewrite IH.
Qed.

Lemma bitTerms_bytes (x : Z) : Forall is_byte (bitTerms x).
Proof.
  unfold bitTerms. apply List.Forall_forall. intros t Ht.
  apply in_map_iff in Ht as (i & <- & Hi). apply In_range in Hi.
  destruct (Z.testbit x i); [|unfold is_byte; lia].
  replace i with (Z.of_nat (Z.to_nat i)) by lia. apply basis_byte. lia.
Qed.

Lemma additive_ext (f g : Z -> Z) :
  additive f -> additive g ->
  (forall i, 0 <= i < 8 -> f (Z.shiftl 1 i) = g (Z.shiftl 1 i)) ->
  forall x, is_byte x -> f x = g x.
Proof.
  intros Hf Hg Hbasis x Hx.
  rewrite <- (xorList_bitTerms x Hx).
  rewrite !additive_xorList by auto using bitTerms_bytes.
  f_equal. unfold bitTerms. rewrite !map_map. apply map_ext_in.
  intros i Hi. apply In_range in Hi.
  destruct (Z.testbit x i); [now apply Hbasis|].
  now rewrite !additive_0.
Qed.

Lemma gfMultiply_basis_checked :
  forallb
    (fun i =>
       forallb
         (fun j =>
            forallb
              (fun k =>
                 gfMultiply (gfMultiply (Z.shiftl 1 i) (Z.shiftl 1 j)) (Z.shiftl 1 k)
                 =? gfMultiply (Z.shiftl 1 i) (gfMultiply (Z.shiftl 1 j) (Z.shiftl 1 k)))
              (range 0 8))
         (range 0 8))
    (range 0 8) = true.
Proof. vm_compute. reflexivity. Qed.

Lemma shiftl_1_byte (i : Z) : 0 <= i < 8 -> is_byte (Z.shiftl 1 i).
Proof.
  intros Hi. replace i with (Z.of_nat (Z.to_nat i)) by lia. apply basis_byte. lia.
Qed.

Lemma gfMultiply_assoc (a b c : Z) :
  is_byte a -> is_byte b -> is_byte c ->
  gfMultiply (gfMultiply a b) c = gfMultiply a (gfMultiply b c).
Proof.
  intros Ha Hb Hc. revert a Ha.
  apply (additive_ext (fun a => gfMultiply (gfMultiply a b) c)
                      (fun a => gfMultiply a (gfMultiply b c))).
  { intros x y Hx Hy. cbv beta.
    rewrite gfMultiply_lxor_l by assumption.
    now rewrite gfMultiply_lxor_l by auto using gfMultiply_byte. }
  { intros x y Hx Hy. cbv beta. now rewrite gfMultiply_lxor_l. }
  intros i Hi. pose proof (shiftl_1_byte i Hi) as Hbi. revert b Hb.
  apply (additive_ext (fun b => gfMultiply (gfMultiply (Z.shiftl 1 i) b) c)
                      (fun b => gfMultiply (Z.shiftl 1 i) (gfMultiply b c))).
  { intros x y Hx Hy. cbv beta.
    rewrite gfMultiply_lxor_r by assumption.
    now rewrite gfMultiply_lxor_l by auto using gfMultiply_byte. }
  { intros x y Hx Hy. cbv beta.
    rewrite gfMultiply_lxor_l by assumption.
    now rewrite gfMultiply_lxor_r by auto using gfMultiply_byte. }
  intros j Hj. pose proof (shiftl_1_byte j Hj) as Hbj. revert c Hc.
  apply (additive_ext
           (fun c => gfMultiply (gfMultiply (Z.shiftl 1 i) (Z.shiftl 1 j)) c)
           (fun c => gfMultiply (Z.shiftl 1 i) (gfMultiply (Z.shiftl 1 j) c))).
  { intros x y Hx Hy. cbv beta.
    now rewrite gfMultiply_lxor_r by auto using gfMultiply_byte. }
  { intros x y Hx Hy. cbv beta.
    rewrite gfMultiply_lxor_r by assumption.
    now rewrite gfMultiply_lxor_r by auto using gfMultiply_byte. }
  intros k Hk. apply Z.eqb_eq.
  pose proof (forallb_range _ _ _ gfMultiply_basis_checked i Hi) as H.
  pose proof (forallb_range _ _ _ H j Hj) as H'.
  exact (forallb_range _ _ _ H' k Hk).
Qed.

Lemma gfMultiply_units_checked :
  forallb
    (fun a =>
       (gfMultiply a 1 =? a) && (gfMultiply 1 a =? a)
       && (gfMultiply a 0 =? 0) && (gfMultiply 0 a =? 0)
       && (xtime a =? gfMultiply a 2)
       && forallb (fun b => negb (gfMultiply a b =? 0) || (a =? 0) || (b =? 0))
                  (range 0 256))
    (range 0 256) = true.
Proof. vm_compute. reflexivity. Qed.

(** X1. On bytes [gfMultiply] is a commutative monoid with unit 1: the
    product of two bytes is a byte, the order of the factors and the
    grouping of three factors do not matter, and 1 is neutral. *)
Theorem gfMultiply_commutative_monoid (a b c : Z) :
  is_byte a -> is_byte b -> is_byte c ->
  is_byte (gfMultiply a b)
  /\ gfMultiply a b = gfMultiply b a
  /\ gfMultiply (gfMultiply a b) c = gfMultiply a (gfMultiply b c)
  /\ gfMultiply a 1 = a
  /\ gfMultiply 1 a = a.
Proof.
  intros Ha Hb Hc.
  pose proof (forallb_range _ _ _ gfMultiply_units_checked a Ha) as H.
  cbv beta in H. repeat (apply andb_prop in H as [H ?]).
  split; [now apply gfMultiply_byte|].
  split; [now apply gfMultiply_comm|].
  split; [now apply gfMultiply_assoc|].
  split; now apply Z.eqb_eq.
Qed.

Lemma gfMultiply_commutative_monoid_witness :
  is_byte (gfMultiply 0x57 0x83)
  /\ gfMultiply 0x57 0x83 = gfMultiply 0x83 0x57
  /\ gfMultiply (gfMultiply 0x57 0x83) 0x13 = gfMultiply 0x57 (gfMultiply 0x83 0x13)
  /\ gfMultiply 0x57 1 = 0x57
  /\ gfMultiply 1 0x57 = 0x57.
Proof.
  apply (gfMultiply_commutative_monoid 0x57 0x83 0x13); unfold is_byte; lia.
Defined.

(** X2. [gfMultiply] distributes over [gfAdd] on both sides, 0 absorbs,
    and a product of bytes is 0 only if a factor is 0. *)
Theorem gfMultiply_distributes_over_gfAdd (a b c : Z) :
  is_byte a -> is_byte b -> is_byte c ->
  gfMultiply a (gfAdd b c) = gfAdd (gfMultiply a b) (gfMultiply a c)
  /\ gfMultiply (gfAdd a b) c = gfAdd (gfMultiply a c) (gfMultiply b c)
  /\ gfMultiply a 0 = 0
  /\ gfMultiply 0 a = 0
  /\ (gfMultiply a b = 0 -> a = 0 \/ b = 0).
Proof.
  intros Ha Hb Hc. unfold gfAdd.
  pose proof (forallb_range _ _ _ gfMultiply_units_checked a Ha) as H.
  cbv beta in H.
  apply andb_prop in H as [H Hzero]. repeat (apply andb_prop in H as [H ?]).
  split; [now apply gfMultiply_lxor_r|].
  split; [now apply gfMultiply_lxor_l|].
  split; [now apply Z.eqb_eq|].
  split; [now apply Z.eqb_eq|].
  intros Hprod. pose proof (forallb_range _ _ _ Hzero b Hb) as Hab.
  cbv beta in Hab. rewrite Hprod in Hab. simpl in Hab.
  apply orb_prop in Hab as [Hab|Hab]; apply Z.eqb_eq in Hab; auto.
Qed.

Lemma gfMultiply_distributes_over_gfAdd_witness :
  gfMultiply 0x57 (gfAdd 0x83 0x13) = gfAdd (gfMultiply 0x57 0x83) (gfMultiply 0x57 0x13)
  /\ gfMultiply (gfAdd 0x57 0x83) 0x13 = gfAdd (gfMultiply 0x57 0x13) (gfMultiply 0x83 0x13)
  /\ gfMultiply 0x57 0 = 0
  /\ gfMultiply 0 0x57 = 0
  /\ (gfMultiply 0x57 0x83 = 0 -> 0x57 = 0 \/ 0x83 = 0).
Proof.
  apply (gfMultiply_distributes_over_gfAdd 0x57 0x83 0x13); unfold is_byte; lia.
Defined.

(** X3. The shortcuts of [gfMultiplyConstant] compute the same product
    as [gfMultiply], for every byte and every multiplier byte, and
    [xtime] is the multiplication by 2. *)
Theorem gfMultiplyConstant_is_gfMultiply (byte multiplier : Z) :
  is_byte byte -> is_byte multiplier ->
  gfMultiplyConstant byte multiplier = gfMultiply byte multiplier
  /\ xtime byte = gfMultiply byte 2.
Proof.
  intros Ha Hb. split.
  - apply (gfMultiply_facts byte multiplier Ha Hb).
  - pose proof (forallb_range _ _ _ gfMultiply_units_checked byte Ha) as H.
    cbv beta in H. repeat (apply andb_prop in H as [H ?]).
    now apply Z.eqb_eq.
Qed.

Lemma gfMultiplyConstant_is_gfMultiply_witness :
  gfMultiplyConstant 0x57 0x0E = gfMultiply 0x57 0x0E
  /\ xtime 0x57 = gfMultiply 0x57 2.
Proof.
  apply (gfMultiplyConstant_is_gfMultiply 0x57 0x0E); unfold is_byte; lia.
Defined.

(** ** GF(2^8): powers *)

Lemma gfPower_byte (x : Z) (n : nat) : is_byte x -> is_byte (gfPower x n).
Proof.
  intros Hx. induction n as [|n IH]; unfold gfPower in *.
  - simpl. unfold is_byte. lia.
  - rewrite Nat.iter_succ. now apply gfMultiply_byte.
Qed.

Lemma gfMultiply_1_l (a : Z) : is_byte a -> gfMultiply 1 a = a.
Proof.
  intros Ha. pose proof (forallb_range _ _ _ gfMultiply_units_checked a Ha) as H.
  cbv beta in H. repeat (apply andb_prop in H as [H ?]). now apply Z.eqb_eq.
Qed.

Lemma gfMultiply_1_r (a : Z) : is_byte a -> gfMultiply a 1 = a.
Proof.
  intros Ha. pose proof (forallb_range _ _ _ gfMultiply_units_checked a Ha) as H.
  cbv beta in H. repeat (apply andb_prop in H as [H ?]). now apply Z.eqb_eq.
Qed.

Lemma gfPower_succ (x : Z) (n : nat) : gfPower x (S n) = gfMultiply x (gfPower x n).
Proof. reflexivity. Qed.

Lemma gfPower_add (x : Z) (m n : nat) :
  is_byte x -> gfPower x (m + n) = gfMultiply (gfPower x m) (gfPower x n).
Proof.
  intros Hx. induction m as [|m IH].
  - simpl. now rewrite gfMultiply_1_l by now apply gfPower_byte.
  - change (S m + n)%nat with (S (m + n)). rewrite !gfPower_succ, IH.
    now rewrite gfMultiply_assoc by auto using gfPower_byte.
Qed.

Lemma gfPower_square (x : Z) (n : nat) :
  is_byte x -> gfPower (gfMultiply x x) n = gfPower x (2 * n).
Proof.
  intros Hx. induction n as [|n IH]; [reflexivity|].
  replace (2 * S n)%nat with (S (S (2 * n))) by lia.
  rewrite !gfPower_succ, IH.
  now rewrite gfMultiply_assoc by auto using gfPower_byte.
Qed.

Lemma toInt32_small (e : Z) : 0 <= e < 2 ^ 31 -> toInt32 e = e.
Proof.
  intros He. unfold toInt32. rewrite Z.mod_small; lia.
Qed.

Lemma gfPow_loop_spec (fuel : nat) :
  forall result b e,
    is_byte result -> is_byte b ->
    0 <= e < 2 ^ Z.of_nat fuel -> e < 2 ^ 31 ->
    gfPow_loop fuel result b e = gfMultiply result (gfPower b (Z.to_nat e)).
Proof.
  induction fuel as [|fuel IH]; intros result b e Hr Hb He He31.
  - change (2 ^ Z.of_nat 0) with 1 in He. replace e with 0 by lia.
    simpl. now rewrite gfMultiply_1_r.
  - cbn [gfPow_loop]. destruct (Z.gtb_spec e 0) as [Hpos|Hzero].
    + rewrite toInt32_small by lia.
      rewrite Z.shiftr_div_pow2 by lia. change (2 ^ 1) with 2.
      change 1 with (Z.ones 1) at 1. rewrite Z.land_ones by lia.
      change (2 ^ 1) with 2.
      assert (Hhalf : 0 <= e / 2 < 2 ^ Z.of_nat fuel).
      { rewrite Nat2Z.inj_succ, Z.pow_succ_r in He by lia.
        split; [apply Z.div_pos; lia|]. apply Z.div_lt_upper_bound; lia. }
      assert (Hsplit : Z.to_nat e = (2 * Z.to_nat (e / 2) + Z.to_nat (e mod 2))%nat).
      { pose proof (Z.div_mod e 2 ltac:(lia)) as Hdm.
        pose proof (Z.mod_pos_bound e 2 ltac:(lia)). lia. }
      pose proof (Z.mod_pos_bound e 2 ltac:(lia)) as Hmod.
      rewrite IH; [| |now apply gfMultiply_byte|exact Hhalf|lia].
      * rewrite gfPower_square by assumption. rewrite Hsplit.
        destruct (Z.eqb_spec (e mod 2) 0) as [H0|H1].
        -- rewrite H0. simpl Z.to_nat. now rewrite Nat.add_0_r.
        -- replace (e mod 2) with 1 by lia. simpl Z.to_nat.
           rewrite (Nat.add_comm _ 1). change (1 + ?n)%nat with (S n).
           rewrite gfPower_succ.
           now rewrite gfMultiply_assoc by auto using gfPower_byte.
      * destruct (e mod 2 =? 0); [assumption|now apply gfMultiply_byte].
    + replace e with 0 by lia. simpl. now rewrite gfMultiply_1_r.
Qed.

Lemma gfPow_loop_nonpos (fuel : nat) (result b e : Z) :
  e <= 0 -> gfPow_loop fuel result b e = result.
Proof.
  intros He. destruct fuel as [|fuel]; [reflexivity|].
  cbn [gfPow_loop]. destruct (Z.gtb_spec e 0); [lia|reflexivity].
Qed.

Lemma gfPower_0 (n : nat) : (0 < n)%nat -> gfPower 0 n = 0.
Proof.
  destruct n as [|n]; [lia|]. intros _. rewrite gfPower_succ.
  assert (H0 : is_byte 0) by (unfold is_byte; lia).
  pose proof (gfPower_byte 0 n H0) as Hb.
  pose proof (forallb_range _ _ _ gfMultiply_units_checked _ Hb) as H.
  cbv beta in H. apply andb_prop in H as [H _].
  repeat (apply andb_prop in H as [H ?]). now apply Z.eqb_eq.
Qed.

Lemma gfPow_gfPower (x e : Z) :
  is_byte x -> 0 <= e < 2 ^ 31 -> gfPow x e = gfPower x (Z.to_nat e).
Proof.
  intros Hx He. unfold gfPow.
  destruct (Z.eqb_spec e 0) as [->|Hne]; [reflexivity|].
  destruct (Z.eqb_spec x 0) as [->|Hx0].
  - symmetry. apply gfPower_0. lia.
  - rewrite gfPow_loop_spec; try assumption.
    + now rewrite gfMultiply_1_l by now apply gfPower_byte.
    + unfold is_byte. lia.
    + change (2 ^ Z.of_nat 32) with (2 ^ 32). lia.
    + lia.
Qed.

Lemma gfPow_inverse_checked :
  forallb
    (fun x => (gfPow x 254 =? gfInverse x) && ((x =? 0) || (gfPow x 255 =? 1)))
    (range 0 256) = true.
Proof. vm_compute. reflexivity. Qed.

(** X4. For a byte [x] and an exponent [0 <= e < 2^31], [gfPow x e] is
    the product of [e] factors [x] (1 for [e = 0], also when [x = 0]);
    so exponents add up under [gfMultiply], [gfPow x 254] is the inverse
    [gfInverse x] and the 255th power of a nonzero byte is 1.  A negative
    exponent gives 1 (0 for the base 0), not an inverse power. *)
Theorem gfPow_is_repeated_product (x e : Z) :
  is_byte x -> 0 <= e < 2 ^ 31 ->
  gfPow x e = gfPower x (Z.to_nat e)
  /\ (forall m n, 0 <= m -> 0 <= n -> m + n = e ->
        gfPow x e = gfMultiply (gfPow x m) (gfPow x n))
  /\ gfPow x 0 = 1
  /\ gfPow x 254 = gfInverse x
  /\ (x <> 0 -> gfPow x 255 = 1)
  /\ (forall n, n < 0 -> gfPow x n = if x =? 0 then 0 else 1).
Proof.
  intros Hx He.
  pose proof (forallb_range _ _ _ gfPow_inverse_checked x Hx) as H.
  cbv beta in H. apply andb_prop in H as [H254 H255].
  split; [now apply gfPow_gfPower|].
  split.
  { intros m n Hm Hn Hsum.
    rewrite !gfPow_gfPower by (try assumption; lia).
    rewrite <- gfPower_add by assumption. f_equal. lia. }
  split; [reflexivity|].
  split; [now apply Z.eqb_eq|].
  split.
  { intros Hne. apply orb_prop in H255 as [H0|H1]; apply Z.eqb_eq in H0 || apply Z.eqb_eq in H1.
    - contradiction.
    - exact H1. }
  intros n Hn. unfold gfPow.
  destruct (Z.eqb_spec n 0) as [->|_]; [lia|].
  destruct (x =? 0); [reflexivity|].
  apply gfPow_loop_nonpos. lia.
Qed.

Lemma gfPow_is_repeated_product_witness :
  gfPow 3 5 = gfPower 3 (Z.to_nat 5)
  /\ (forall m n, 0 <= m -> 0 <= n -> m + n = 5 ->
        gfPow 3 5 = gfMultiply (gfPow 3 m) (gfPow 3 n))
  /\ gfPow 3 0 = 1
  /\ gfPow 3 254 = gfInverse 3
  /\ (3 <> 0 -> gfPow 3 255 = 1)
  /\ (forall n, n < 0 -> gfPow 3 n = if 3 =? 0 then 0 else 1).
Proof.
  apply (gfPow_is_repeated_product 3 5); [unfold is_byte; lia | lia].
Defined.

(** ** The affine map and its inverse *)

(** X5. With the matrix that [invertMatrix] returns, [applyInverseAffine]
    undoes [applyAffine] on every byte, for any constant; and
    [applyAffine] undoes [applyInverseAffine] when the constant is a
    byte. *)
Theorem applyInverseAffine_applyAffine (matrix inv : list Z) (constant x : Z) :
  invertMatrix matrix = Some inv -> is_byte x ->
  applyInverseAffine (applyAffine x matrix constant) inv constant = x
  /\ (is_byte constant ->
      applyAffine (applyInverseAffine x inv constant) matrix constant = x).
Proof.
  intros Hinv Hx. unfold applyInverseAffine, applyAffine. cbv zeta. split.
  - rewrite Z.lxor_assoc, Z.lxor_nilpotent, Z.lxor_0_r.
    now apply (inverse_left matrix inv).
  - intros Hc. rewrite (inverse_right matrix inv Hinv) by now apply lxor_byte.
    now rewrite Z.lxor_assoc, Z.lxor_nilpotent, Z.lxor_0_r.
Qed.

Lemma applyInverseAffine_applyAffine_witness :
  applyInverseAffine (applyAffine 0x53 KAES_MATRIX 0x63)
    [82; 41; 148; 74; 37; 146; 73; 164] 0x63 = 0x53
  /\ (is_byte 0x63 ->
      applyAffine (applyInverseAffine 0x53 [82; 41; 148; 74; 37; 146; 73; 164] 0x63)
        KAES_MATRIX 0x63 = 0x53).
Proof.
  apply (applyInverseAffine_applyAffine KAES_MATRIX); [reflexivity | unfold is_byte; lia].
Defined.

(** ** Matrices as bytes and as bit grids *)

Lemma nth_map_seq {A} (f : nat -> A) (n i : nat) (d : A) :
  (i < n)%nat -> nth i (map f (seq 0 n)) d = f i.
Proof.
  intros Hi. rewrite (nth_indep _ d (f n)) by now rewrite length_map, length_seq.
  rewrite (map_nth f). now rewrite seq_nth.
Qed.

Lemma rowToByte_pack (row : list Z) :
  rowToByte row = pack (fun j => bitOf (nth j row 0)).
Proof.
  unfold rowToByte, pack. apply fold_left_ext_in. intros acc j _.
  unfold bitOf. now destruct (nth j row 0 =? 0).
Qed.

Lemma rowToByte_bitRow (b : Z) : is_byte b -> rowToByte (bitRow b) = b.
Proof.
  intros Hb. rewrite rowToByte_pack.
  transitivity (pack (fun i => Z.testbit b (Z.of_nat i))); [|now apply pack_testbit].
  apply pack_ext. intros j Hj. now rewrite nth_bitRow, bitOf_b2z.
Qed.

Lemma bitRow_rowToByte (row : list Z) :
  length row = 8%nat -> Forall is_bit row -> bitRow (rowToByte row) = row.
Proof.
  intros Hlen Hbits. apply (nth_ext _ _ 0 0).
  - now rewrite length_bitRow.
  - intros j Hj. rewrite length_bitRow in Hj.
    rewrite nth_bitRow, rowToByte_pack, pack_bits by assumption.
    destruct (Forall_bit_nth row j Hbits) as [-> | ->]; reflexivity.
Qed.

Lemma matrixToBytes_rows (matrix : list (list Z)) :
  (8 <= length matrix)%nat ->
  matrixToBytes matrix = inr (map (fun i => rowToByte (nth i matrix [])) (seq 0 8)).
Proof.
  intros Hlen.
  do 8 (destruct matrix as [|? matrix]; [simpl in Hlen; lia|]).
  reflexivity.
Qed.

Lemma matrixToBytes_short (matrix : list (list Z)) :
  (length matrix < 8)%nat ->
  matrixToBytes matrix = inl (ReadOfUndefined (length matrix)).
Proof.
  intros Hlen.
  do 8 (destruct matrix as [|? matrix]; [reflexivity|]).
  simpl in Hlen. lia.
Qed.

(** X6. [matrixToBytes] and [bytesToMatrix] are inverse to each other:
    eight bytes survive the trip through the bit grid, and an 8x8 grid
    of bits survives the trip through the bytes.  A grid with fewer than
    eight rows makes [matrixToBytes] throw at the first missing row. *)
Theorem matrixToBytes_bytesToMatrix (bytes : list Z) (matrix : list (list Z)) :
  (length bytes = 8%nat -> Forall is_byte bytes ->
   matrixToBytes (bytesToMatrix bytes) = inr bytes)
  /\ (shaped 8 matrix -> bit_rows matrix ->
      exists packed,
        matrixToBytes matrix = inr packed
        /\ length packed = 8%nat /\ Forall is_byte packed
        /\ bytesToMatrix packed = matrix)
  /\ ((length matrix < 8)%nat ->
      matrixToBytes matrix = inl (ReadOfUndefined (length matrix))).
Proof.
  split; [|split].
  - intros Hlen Hbytes. rewrite matrixToBytes_rows by reflexivity.
    f_equal. apply (nth_ext _ _ 0 0).
    + now rewrite length_map, length_seq.
    + intros i Hi. rewrite length_map, length_seq in Hi.
      rewrite nth_map_seq by assumption. unfold bytesToMatrix.
      rewrite nth_map_seq by assumption.
      apply rowToByte_bitRow. now apply nth_byte.
  - intros [Hlen Hrows] Hbits.
    exists (map (fun i => rowToByte (nth i matrix [])) (seq 0 8)).
    split; [apply matrixToBytes_rows; lia|].
    split; [reflexivity|].
    split.
    { apply List.Forall_forall. intros v Hv. apply in_map_iff in Hv as (i & <- & _).
      rewrite rowToByte_pack. apply pack_byte. }
    apply (nth_ext _ _ [] []).
    { unfold bytesToMatrix. now rewrite length_map, length_seq. }
    intros i Hi. unfold bytesToMatrix in *. rewrite length_map, length_seq in Hi.
    rewrite !nth_map_seq by assumption.
    apply bitRow_rowToByte; auto.
  - apply matrixToBytes_short.
Qed.

Lemma matrixToBytes_bytesToMatrix_witness :
  (length K44_MATRIX = 8%nat -> Forall is_byte K44_MATRIX ->
   matrixToBytes (bytesToMatrix K44_MATRIX) = inr K44_MATRIX)
  /\ (shaped 8 (bytesToMatrix K44_MATRIX) -> bit_rows (bytesToMatrix K44_MATRIX) ->
      exists packed,
        matrixToBytes (bytesToMatrix K44_MATRIX) = inr packed
        /\ length packed = 8%nat /\ Forall is_byte packed
        /\ bytesToMatrix packed = bytesToMatrix K44_MATRIX)
  /\ ((length (bytesToMatrix K44_MATRIX) < 8)%nat ->
      matrixToBytes (bytesToMatrix K44_MATRIX)
      = inl (ReadOfUndefined (length (bytesToMatrix K44_MATRIX)))).
Proof. apply (matrixToBytes_bytesToMatrix K44_MATRIX (bytesToMatrix K44_MATRIX)). Defined.

(** ** Single bits of a matrix *)

Lemma row_bit_checked : forallb row_bit_check (range 0 256) = true.
Proof. vm_compute. reflexivity. Qed.

Lemma nth_store (a : list Z) (i j : nat) (v : Z) :
  (i < length a)%nat ->
  nth j (store a i v) 0 = if (i =? j)%nat then v else nth j a 0.
Proof.
  intros Hi. unfold store. apply Nat.ltb_lt in Hi as Hlt. rewrite Hlt.
  destruct (Nat.eqb_spec i j) as [->|Hne].
  - now apply nth_insert_eq.
  - now apply nth_insert_ne.
Qed.

Lemma store_in_range (a : list Z) (i : nat) (v : Z) :
  (i < length a)%nat -> store a i v = <[i := v]> a.
Proof. intros Hi. unfold store. apply Nat.ltb_lt in Hi. now rewrite Hi. Qed.

Lemma toInt32_byte (v : Z) : is_byte v -> toInt32 v = v.
Proof. unfold is_byte. intros Hv. apply toInt32_small. lia. Qed.

Lemma bitMask_small (col : nat) :
  (col < 8)%nat -> bitMask col = Z.shiftl 1 (Z.of_nat col).
Proof.
  intros Hcol. unfold bitMask. rewrite Z.mod_small by lia.
  apply toInt32_small. rewrite Z.shiftl_1_l. split; [apply Z.pow_nonneg; lia|].
  apply Z.le_lt_trans with (2 ^ 7); [apply Z.pow_le_mono_r; lia|reflexivity].
Qed.

Lemma getMatrixBit_byte (matrix : list Z) (row col : nat) :
  Forall is_byte matrix -> (col < 8)%nat ->
  getMatrixBit matrix row col = Z.land (Z.shiftr (nth row matrix 0) (Z.of_nat col)) 1.
Proof.
  intros Hbytes Hcol. unfold getMatrixBit.
  rewrite Z.mod_small by lia. now rewrite toInt32_byte by now apply nth_byte.
Qed.

(** X7. On a matrix of bytes, for a row of the matrix and columns
    0..7: after [setMatrixBit] the bit read by [getMatrixBit] at the same
    place is the value written and every other bit is as before; the
    rows stay bytes; [toggleMatrixBit] writes the complement of the bit,
    and toggling twice restores the matrix. *)
Theorem setMatrixBit_getMatrixBit (matrix : list Z) (row col row' col' : nat)
    (value : bool) :
  Forall is_byte matrix -> (row < length matrix)%nat ->
  (col < 8)%nat -> (col' < 8)%nat ->
  getMatrixBit (setMatrixBit matrix row col value) row' col'
  = (if (row =? row')%nat && (col =? col')%nat then Z.b2z value
     else getMatrixBit matrix row' col')
  /\ Forall is_byte (setMatrixBit matrix row col value)
  /\ length (setMatrixBit matrix row col value) = length matrix
  /\ toggleMatrixBit matrix row col
     = setMatrixBit matrix row col (getMatrixBit matrix row col =? 0)
  /\ toggleMatrixBit (toggleMatrixBit matrix row col) row col = matrix.
Proof.
  intros Hbytes Hrow Hcol Hcol'.
  pose proof (nth_byte matrix row Hbytes) as Hx.
  pose proof (forallb_range _ _ _ row_bit_checked _ Hx) as H.
  unfold row_bit_check in H.
  pose proof (forallb_range _ _ _ H (Z.of_nat col) ltac:(lia)) as Hc.
  cbv beta zeta in Hc.
  apply andb_prop in Hc as [Hc Hother].
  apply andb_prop in Hc as [Hc Htoggle]. apply andb_prop in Hc as [Hc Htwice].
  apply andb_prop in Hc as [Hc Hflip]. apply andb_prop in Hc as [Hon Hoff].
  apply is_byteb_spec in Hon, Hoff, Hflip.
  apply Z.eqb_eq in Htwice, Htoggle.
  pose proof (forallb_range _ _ _ Hother (Z.of_nat col') ltac:(lia)) as Hc'.
  cbv beta in Hc'. apply andb_prop in Hc' as [Hget1 Hget0].
  apply Z.eqb_eq in Hget1, Hget0.
  assert (Heqb : (Z.of_nat col =? Z.of_nat col') = (col =? col')%nat).
  { destruct (Nat.eqb_spec col col') as [->|Hne]; [apply Z.eqb_refl|].
    apply Z.eqb_neq. lia. }
  rewrite Heqb in Hget1, Hget0.
  assert (Hset : Forall is_byte (setMatrixBit matrix row col value)).
  { unfold setMatrixBit. rewrite toInt32_byte, bitMask_small by assumption.
    destruct value; rewrite store_in_range by assumption;
      apply Forall_insert; assumption. }
  assert (Htog : Forall is_byte (toggleMatrixBit matrix row col)).
  { unfold toggleMatrixBit. rewrite toInt32_byte, bitMask_small by assumption.
    rewrite store_in_range by assumption. apply Forall_insert; assumption. }
  split; [|split; [exact Hset|split; [|split]]].
  - rewrite !getMatrixBit_byte by assumption. unfold setMatrixBit.
    rewrite toInt32_byte, bitMask_small by assumption.
    destruct value; rewrite nth_store by assumption;
      (destruct (Nat.eqb_spec row row') as [<-|Hne]; [|reflexivity]); cbn [andb].
    + rewrite Hget1. now destruct (col =? col')%nat.
    + rewrite Hget0. now destruct (col =? col')%nat.
  - unfold setMatrixBit.
    destruct value; rewrite store_in_range by assumption; apply length_insert.
  - rewrite getMatrixBit_byte by assumption. unfold toggleMatrixBit, setMatrixBit.
    rewrite toInt32_byte, bitMask_small by assumption. rewrite Htoggle.
    now destruct (Z.land (Z.shiftr (nth row matrix 0) (Z.of_nat col)) 1 =? 0).
  - unfold toggleMatrixBit at 1.
    rewrite (toInt32_byte _ (nth_byte _ row Htog)), bitMask_small by assumption.
    unfold toggleMatrixBit.
    rewrite toInt32_byte, bitMask_small by assumption.
    rewrite (store_in_range matrix) by assumption.
    rewrite store_in_range by now rewrite length_insert.
    rewrite nth_insert_eq by assumption. rewrite Htwice.
    rewrite list_insert_insert_eq. apply list_insert_id.
    destruct (lookup_lt_is_Some_2 _ _ Hrow) as [v Hv].
    now rewrite (nth_lookup_Some _ _ 0 _ Hv).
Qed.

Lemma setMatrixBit_getMatrixBit_witness :
  getMatrixBit (setMatrixBit K44_MATRIX 2 3 true) 2 3
  = (if (2 =? 2)%nat && (3 =? 3)%nat then Z.b2z true
     else getMatrixBit K44_MATRIX 2 3)
  /\ Forall is_byte (setMatrixBit K44_MATRIX 2 3 true)
  /\ length (setMatrixBit K44_MATRIX 2 3 true) = length K44_MATRIX
  /\ toggleMatrixBit K44_MATRIX 2 3
     = setMatrixBit K44_MATRIX 2 3 (getMatrixBit K44_MATRIX 2 3 =? 0)
  /\ toggleMatrixBit (toggleMatrixBit K44_MATRIX 2 3) 2 3 = K44_MATRIX.
Proof.
  apply (setMatrixBit_getMatrixBit K44_MATRIX 2 3 2 3 true);
    [repeat constructor; unfold is_byte; lia | simpl; lia | lia | lia].
Defined.

(** ** Bijective S-boxes *)

Lemma range_succ (k : nat) :
  range 0 (Z.of_nat (S k)) = range 0 (Z.of_nat k) ++ [Z.of_nat k].
Proof.
  unfold range. rewrite !Z.sub_0_r, !Nat2Z.id, seq_S, map_app. reflexivity.
Qed.

Lemma existsb_eqb_In (v : Z) (l : list Z) : existsb (Z.eqb v) l = true <-> In v l.
Proof.
  rewrite existsb_exists. split.
  - intros (x & Hx & Heq). apply Z.eqb_eq in Heq. now subst.
  - intros Hv. exists v. split; [assumption|apply Z.eqb_refl].
Qed.

Lemma NoDup_snoc_iff (l : list Z) (x : Z) :
  List.NoDup (l ++ [x]) <-> List.NoDup l /\ ~ In x l.
Proof.
  split.
  - intros H. apply NoDup_rev in H. rewrite rev_app_distr in H. simpl in H.
    apply NoDup_cons_iff in H as [Hin Hnd]. split.
    + apply NoDup_rev in Hnd. now rewrite rev_involutive in Hnd.
    + intros Hx. apply Hin. now apply in_rev in Hx.
  - intros [Hnd Hin]. apply NoDup_rev in Hnd.
    rewrite <- (rev_involutive (l ++ [x])). apply NoDup_rev.
    rewrite rev_app_distr. simpl. apply NoDup_cons_iff. split; [|assumption].
    intros Hx. apply Hin. now apply in_rev.
Qed.

Lemma firstn_succ_nth (l : list Z) (k : nat) :
  (k < length l)%nat -> firstn (S k) l = firstn k l ++ [nth k l 0].
Proof.
  intros Hk. destruct (lookup_lt_is_Some_2 _ _ Hk) as [v Hv].
  rewrite (nth_lookup_Some _ _ 0 _ Hv). now apply take_S_r.
Qed.

(** The scan of the first [k] entries keeps them when they are distinct
    bytes and gives up otherwise. *)
Lemma seen_scan (sbox : list Z) (k : nat) :
  (k <= length sbox)%nat ->
  match fold_left (seenStep sbox) (range 0 (Z.of_nat k)) (Some []) with
  | Some seen =>
      seen = firstn k sbox /\ Forall is_byte seen /\ List.NoDup seen
  | None =>
      ~ (Forall is_byte (firstn k sbox) /\ List.NoDup (firstn k sbox))
  end.
Proof.
  induction k as [|k IH]; intros Hk.
  - simpl. repeat split; constructor.
  - rewrite range_succ, fold_left_app. cbn [fold_left].
    specialize (IH ltac:(lia)).
    rewrite firstn_succ_nth by lia.
    destruct (fold_left _ _ _) as [seen|].
    + destruct IH as (-> & Hbytes & Hnd). cbn [seenStep].
      rewrite get_nth, Nat2Z.id by lia.
      destruct (Z.ltb_spec (nth k sbox 0) 0) as [Hneg|Hnonneg]; cbn [orb].
      { intros [Hb _]. apply Forall_app in Hb as [_ Hb].
        apply Forall_inv in Hb. unfold is_byte in Hb. lia. }
      destruct (Z.gtb_spec (nth k sbox 0) 255) as [Hbig|Hsmall].
      { intros [Hb _]. apply Forall_app in Hb as [_ Hb].
        apply Forall_inv in Hb. unfold is_byte in Hb. lia. }
      destruct (existsb _ _) eqn:Hex.
      { apply existsb_eqb_In in Hex. intros [_ Hn].
        apply NoDup_snoc_iff in Hn as [_ Hn]. contradiction. }
      split; [reflexivity|]. split.
      * apply Forall_app. split; [assumption|].
        constructor; [unfold is_byte; lia|constructor].
      * apply NoDup_snoc_iff. split; [assumption|].
        intros Hin. apply existsb_eqb_In in Hin. congruence.
    + cbn [seenStep]. intros [Hb Hn]. apply IH. split.
      * now apply Forall_app in Hb as [Hb _].
      * now apply NoDup_snoc_iff in Hn as [Hn _].
Qed.

Lemma isSBoxBijective_spec (sbox : list Z) :
  isSBoxBijective sbox = true <-> bytePermutation sbox.
Proof.
  unfold isSBoxBijective, bytePermutation.
  destruct (Nat.eqb_spec (length sbox) 256) as [Hlen|Hlen]; cbn [negb].
  - pose proof (seen_scan sbox 256 ltac:(lia)) as H.
    change (Z.of_nat 256) with 256 in H. fold (seenStep sbox).
    rewrite <- Hlen, firstn_all in H.
    destruct (fold_left _ _ _) as [seen|].
    + destruct H as (-> & Hb & Hn). rewrite Hlen, Nat.eqb_refl. tauto.
    + split; [discriminate|]. intros (_ & Hb & Hn). exfalso. now apply H.
  - split; [discriminate|]. intros (H & _). contradiction.
Qed.

Lemma bytePermutation_injective (sbox : list Z) :
  bytePermutation sbox -> sbox_injective sbox.
Proof.
  intros (Hlen & Hbytes & Hnd). split.
  - intros x Hx. rewrite get_nth by (unfold is_byte in Hx; lia).
    now apply nth_byte.
  - intros x y Hx Hy. unfold is_byte in Hx, Hy.
    rewrite !get_nth by lia. intros Heq.
    apply (proj1 (NoDup_nth sbox 0) Hnd) in Heq; lia.
Qed.

Lemma NoDup_map_range (f : Z -> Z) (n : Z) :
  (forall x y, 0 <= x < n -> 0 <= y < n -> f x = f y -> x = y) ->
  List.NoDup (map f (range 0 n)).
Proof.
  intros Hinj. apply NoDup_map_NoDup_ForallPairs; [|apply NoDup_range].
  intros x y Hx Hy. apply In_range in Hx, Hy. now apply Hinj.
Qed.

Lemma nth_get_list (a b : list Z) :
  length a = 256%nat -> length b = 256%nat ->
  (forall x, is_byte x -> get a x = get b x) -> a = b.
Proof.
  intros Ha Hb H. apply (nth_ext _ _ 0 0); [congruence|].
  intros i Hi. specialize (H (Z.of_nat i) ltac:(unfold is_byte; lia)).
  now rewrite !get_nth, Nat2Z.id in H by lia.
Qed.

Lemma bytePermutation_of_injective (sbox : list Z) :
  length sbox = 256%nat -> sbox_injective sbox -> bytePermutation sbox.
Proof.
  intros Hlen [Hbytes Hinj]. split; [assumption|]. split.
  - apply List.Forall_forall. intros v Hv. apply (In_nth _ _ 0) in Hv as (i & Hi & <-).
    specialize (Hbytes (Z.of_nat i) ltac:(unfold is_byte; lia)).
    now rewrite get_nth, Nat2Z.id in Hbytes by lia.
  - apply (NoDup_nth sbox 0). intros i j Hi Hj Heq.
    assert (Z.of_nat i = Z.of_nat j); [|lia].
    apply Hinj; [unfold is_byte; lia..|].
    now rewrite !get_nth, !Nat2Z.id by lia.
Qed.

Lemma length_generateSBox (matrix : list Z) (constant : Z) :
  length (generateSBox matrix constant) = 256%nat.
Proof. unfold generateSBox. now rewrite length_map, length_range. Qed.

Lemma length_generateInverseSBox (sbox : list Z) :
  length (generateInverseSBox sbox) = 256%nat.
Proof.
  unfold generateInverseSBox.
  assert (H : forall l a, length (fold_left (fun invSbox i => set invSbox (get sbox i) i) l a)
                          = length a).
  { induction l as [|i l IH]; intros a; [reflexivity|].
    cbn [fold_left]. now rewrite IH, length_set. }
  now rewrite H, repeat_length.
Qed.

(** A singular matrix sends two S-box inputs to the same entry. *)
Lemma generateSBox_collision (matrix : list Z) (constant : Z) :
  isMatrixValid matrix = false ->
  exists x, is_byte x /\ x <> 0
            /\ get (generateSBox matrix constant) x = get (generateSBox matrix constant) 0.
Proof.
  intros Hvalid. pose proof (invertMatrix_run matrix) as Hrun.
  destruct (fold_left invertMatrix_step _ _) as [aug|].
  - destruct Hrun as [_ Hinv].
    assert (Htrue : isMatrixValid matrix = true)
      by (apply isMatrixValid_iff_invertMatrix; eauto).
    congruence.
  - destruct Hrun as (_ & x & Hx & Hne & Hker).
    exists (get INVERSE_TABLE x).
    pose proof (inverse_table_byte x Hx) as Hix.
    split; [assumption|]. split.
    + intros H0. apply Hne.
      rewrite <- (inverse_table_involutive x Hx), H0. reflexivity.
    + rewrite !get_generateSBox by (try assumption; unfold is_byte; lia).
      rewrite inverse_table_involutive by assumption.
      unfold applyAffine. rewrite Hker.
      change (get INVERSE_TABLE 0) with 0. now rewrite affine_linear_0.
Qed.

(** *** Arrays of any numbers *)

Lemma sameNumber_spec (a b : number) : sameNumber a b = true <-> a = b.
Proof.
  destruct a as [p| |s], b as [q| |t]; cbn [sameNumber];
    try (split; [discriminate|congruence]); try tauto.
  - destruct (Qcanon.Qc_eq_dec p q) as [->|Hne]; [tauto|].
    split; [discriminate|]. intros H. congruence.
  - rewrite Bool.eqb_true_iff. split; congruence.
Qed.

Lemma sameValueZero_spec (a b : option number) : sameValueZero a b = true <-> a = b.
Proof.
  destruct a as [x|], b as [y|]; cbn [sameValueZero];
    try (split; [discriminate|congruence]); [|tauto].
  rewrite sameNumber_spec. split; congruence.
Qed.

Lemma Int_inj (a b : Z) : Int a = Int b -> a = b.
Proof.
  intros H.
  pose proof (f_equal (fun v => match v with
                                | Finite q => q
                                | _ => Qcanon.Q2Qc (inject_Z a)
                                end) H) as H'.
  change (Qcanon.Q2Qc (inject_Z a) = Qcanon.Q2Qc (inject_Z b)) in H'.
  apply Qcanon.Q2Qc_eq_iff in H'. apply inject_Z_injective. exact H'.
Qed.

Lemma Qcle_Q2Qc (p q : Q) : Qcanon.Qcle (Qcanon.Q2Qc p) (Qcanon.Q2Qc q) <-> (p <= q)%Q.
Proof.
  unfold Qcanon.Qcle. cbn [Qcanon.this Qcanon.Q2Qc]. now rewrite !Qred_correct.
Qed.

Lemma inByteRange_tests (v : option number) :
  inByteRange v
  <-> lessThan (toNumber v) (Int 0) = false /\ lessThan (Int 255) (toNumber v) = false.
Proof.
  unfold inByteRange.
  destruct (toNumber v) as [q| |[|]]; unfold Int; cbn [lessThan].
  - destruct (Qcanon.Qclt_le_dec q _) as [Hlt|Hle],
             (Qcanon.Qclt_le_dec _ q) as [Hgt|Hge].
    + split; [|intros [H _]; discriminate H].
      intros [H _]. exfalso. exact (Qcanon.Qcle_not_lt _ _ H Hlt).
    + split; [|intros [H _]; discriminate H].
      intros [H _]. exfalso. exact (Qcanon.Qcle_not_lt _ _ H Hlt).
    + split; [|intros [_ H]; discriminate H].
      intros [_ H]. exfalso. exact (Qcanon.Qcle_not_lt _ _ H Hgt).
    + split; [intros _; now split|]. intros _. split; assumption.
  - tauto.
  - split; [tauto|]. intros [H _]. discriminate H.
  - split; [tauto|]. intros [_ H]. discriminate H.
Qed.

Lemma inByteRange_Int (z : Z) : inByteRange (Some (Int z)) <-> is_byte z.
Proof.
  unfold Int, is_byte, inByteRange. cbn [toNumber].
  change 0%Q with (inject_Z 0). change 255%Q with (inject_Z 255).
  rewrite !Qcle_Q2Qc, <- !Zle_Qle. lia.
Qed.

Lemma NoDup_snoc_any {A} (l : list A) (x : A) :
  List.NoDup (l ++ [x]) <-> List.NoDup l /\ ~ In x l.
Proof.
  split.
  - intros H. apply NoDup_rev in H. rewrite rev_app_distr in H. simpl in H.
    apply NoDup_cons_iff in H as [Hin Hnd]. split.
    + apply NoDup_rev in Hnd. now rewrite rev_involutive in Hnd.
    + intros Hx. apply Hin. now apply in_rev in Hx.
  - intros [Hnd Hin]. apply NoDup_rev in Hnd.
    rewrite <- (rev_involutive (l ++ [x])). apply NoDup_rev.
    rewrite rev_app_distr. simpl. apply NoDup_cons_iff. split; [|assumption].
    intros Hx. apply Hin. now apply in_rev.
Qed.

(** The scan of [isSBoxBijective] over the first [k] entries of an array
    of numbers. *)
Lemma seen_scan_numbers (sbox : list (option number)) (k : nat) :
  (k <= length sbox)%nat ->
  match
    fold_left
      (fun seen i =>
         match seen with
         | None => None
         | Some seen =>
             let value := nth i sbox None in
             if lessThan (toNumber value) (Int 0) || lessThan (Int 255) (toNumber value)
             then None
             else if existsb (sameValueZero value) seen then None
             else Some (seen ++ [value])
         end)
      (seq 0 k) (Some [])
  with
  | Some seen =>
      seen = firstn k sbox /\ Forall inByteRange seen /\ List.NoDup seen
  | None =>
      ~ (Forall inByteRange (firstn k sbox) /\ List.NoDup (firstn k sbox))
  end.
Proof.
  induction k as [|k IH]; intros Hk.
  - simpl. repeat split; constructor.
  - rewrite seq_S, fold_left_app. cbn [fold_left Nat.add].
    specialize (IH ltac:(lia)).
    assert (Hsnoc : firstn (S k) sbox = firstn k sbox ++ [nth k sbox None]).
    { destruct (lookup_lt_is_Some_2 _ _ Hk) as [v Hv].
      rewrite (nth_lookup_Some _ _ None _ Hv). now apply take_S_r. }
    rewrite Hsnoc.
    destruct (fold_left _ _ _) as [seen|].
    + destruct IH as (-> & Hrange & Hnd). cbv zeta.
      destruct (lessThan (toNumber (nth k sbox None)) (Int 0)
                || lessThan (Int 255) (toNumber (nth k sbox None))) eqn:Htest.
      { intros [Hb _]. apply Forall_app in Hb as [_ Hb]. apply Forall_inv in Hb.
        apply inByteRange_tests in Hb as [H0 H255]. rewrite H0, H255 in Htest.
        discriminate. }
      apply orb_false_elim in Htest as [H0 H255].
      destruct (existsb _ _) eqn:Hex.
      { apply existsb_exists in Hex as (x & Hx & Heq).
        apply sameValueZero_spec in Heq. subst x. intros [_ Hn].
        apply NoDup_snoc_any in Hn as [_ Hn]. contradiction. }
      split; [reflexivity|]. split.
      * apply Forall_app. split; [assumption|].
        constructor; [now apply inByteRange_tests|constructor].
      * apply NoDup_snoc_any. split; [assumption|].
        intros Hin.
        assert (Hex' : existsb (sameValueZero (nth k sbox None)) (firstn k sbox) = true).
        { apply existsb_exists. exists (nth k sbox None). split; [assumption|].
          now apply sameValueZero_spec. }
        congruence.
    + intros [Hb Hn]. apply IH. split.
      * now apply Forall_app in Hb as [Hb _].
      * now apply NoDup_snoc_any in Hn as [Hn _].
Qed.

Lemma isSBoxBijective_numbers (table : list (option number)) :
  Numbers.isSBoxBijective table = true
  <-> length table = 256%nat /\ Forall inByteRange table /\ List.NoDup table.
Proof.
  unfold Numbers.isSBoxBijective.
  destruct (Nat.eqb_spec (length table) 256) as [Hlen|Hlen]; cbn [negb].
  - pose proof (seen_scan_numbers table 256 ltac:(lia)) as H.
    rewrite <- Hlen, firstn_all in H. rewrite <- Hlen.
    destruct (fold_left _ _ _) as [seen|].
    + destruct H as (-> & Hb & Hn). rewrite Nat.eqb_refl. tauto.
    + split; [discriminate|]. intros (_ & Hb & Hn). exfalso. now apply H.
  - split; [discriminate|]. intros (H & _). contradiction.
Qed.

Lemma NoDup_ints (sbox : list Z) : List.NoDup (ints sbox) <-> List.NoDup sbox.
Proof.
  unfold ints. split; [apply NoDup_map_inv|].
  induction 1 as [|z l Hin _ IH]; cbn [map]; constructor; [|exact IH].
  intros H. apply in_map_iff in H as (y & Hy & Hin').
  assert (Hy' : Int y = Int z) by congruence. apply Int_inj in Hy'. now subst.
Qed.

Lemma isSBoxBijective_ints (sbox : list Z) :
  isSBoxBijective sbox = Numbers.isSBoxBijective (ints sbox).
Proof.
  assert (H : isSBoxBijective sbox = true <-> Numbers.isSBoxBijective (ints sbox) = true).
  { rewrite isSBoxBijective_spec, isSBoxBijective_numbers. unfold bytePermutation, ints.
    rewrite length_map.
    assert (Hrange : Forall inByteRange (map (fun z => Some (Int z)) sbox)
                     <-> Forall is_byte sbox).
    { rewrite List.Forall_map. split; apply List.Forall_impl; intros z; apply inByteRange_Int. }
    pose proof (NoDup_ints sbox) as Hnd. unfold ints in Hnd.
    tauto. }
  destruct (isSBoxBijective sbox), (Numbers.isSBoxBijective (ints sbox));
    try reflexivity; [symmetry|]; now apply H.
Qed.

(** X8. On an array of any numbers, [isSBoxBijective] returns true
    exactly when the array has 256 slots, pairwise distinct, none of them
    holding a number below 0 or above 255: it has no test for integers,
    and NaN and an empty slot pass the range tests.  On an array of
    integers that is: exactly for the tables of 256 distinct bytes. *)
Theorem isSBoxBijective_iff (table : list (option number)) (sbox : list Z) :
  (Numbers.isSBoxBijective table = true
   <-> length table = 256%nat /\ Forall inByteRange table /\ List.NoDup table)
  /\ isSBoxBijective sbox = Numbers.isSBoxBijective (ints sbox)
  /\ (isSBoxBijective sbox = true
      <-> length sbox = 256%nat /\ Forall is_byte sbox /\ List.NoDup sbox)
  /\ Numbers.isSBoxBijective (Some (Finite (Qcanon.Q2Qc (1 # 2))) :: ints (range 1 256))
     = true
  /\ Numbers.isSBoxBijective (Some NaN :: ints (range 1 256)) = true
  /\ Numbers.isSBoxBijective (None :: ints (range 1 256)) = true.
Proof.
  split; [apply isSBoxBijective_numbers|]. split; [apply isSBoxBijective_ints|].
  split; [rewrite isSBoxBijective_spec; unfold bytePermutation; tauto|].
  repeat split; vm_compute; reflexivity.
Qed.

(** X9. For a byte constant the generated S-box is bijective exactly
    when the matrix is valid: [isSBoxBijective (generateSBox matrix
    constant)] and [isMatrixValid matrix] return the same answer. *)
Theorem generateSBox_bijective_iff_valid (matrix : list Z) (constant : Z) :
  is_byte constant ->
  isSBoxBijective (generateSBox matrix constant) = isMatrixValid matrix.
Proof.
  intros Hc. destruct (isMatrixValid matrix) eqn:Hvalid.
  - apply isSBoxBijective_spec, bytePermutation_of_injective.
    + apply length_generateSBox.
    + now apply generateSBox_injective.
  - destruct (isSBoxBijective _) eqn:Hbij; [|reflexivity].
    apply isSBoxBijective_spec, bytePermutation_injective in Hbij as [_ Hinj].
    destruct (generateSBox_collision matrix constant Hvalid) as (x & Hx & Hne & Heq).
    apply Hinj in Heq; [contradiction|assumption|unfold is_byte; lia].
Qed.

Lemma generateSBox_bijective_iff_valid_witness :
  isSBoxBijective (generateSBox K44_MATRIX 0x63) = isMatrixValid K44_MATRIX.
Proof. apply (generateSBox_bijective_iff_valid K44_MATRIX 0x63). unfold is_byte. lia. Defined.

(** ** Balance *)

Lemma countOnes_bitCount (sbox : list Z) (bit : Z) :
  length sbox = 256%nat -> countOnes sbox bit = bitCount bit sbox.
Proof.
  intros Hlen. unfold countOnes.
  assert (H : forall k acc, (k <= length sbox)%nat ->
             fold_left
               (fun ones i =>
                  if Z.land (Z.shiftr (get sbox i) bit) 1 =? 0 then ones else ones + 1)
               (range 0 (Z.of_nat k)) acc
             = acc + bitCount bit (firstn k sbox)).
  { induction k as [|k IH]; intros acc Hk.
    - simpl. lia.
    - rewrite range_succ, fold_left_app, IH by lia. cbn [fold_left].
      rewrite firstn_succ_nth by lia. rewrite get_nth, Nat2Z.id by lia.
      assert (Happ : forall l v,
                 bitCount bit (l ++ [v])
                 = bitCount bit l + if Z.land (Z.shiftr v bit) 1 =? 0 then 0 else 1).
      { induction l as [|w l IHl]; intros v; simpl.
        - destruct (_ =? 0); lia.
        - rewrite IHl. destruct (Z.land (Z.shiftr w bit) 1 =? 0); lia. }
      rewrite Happ. destruct (_ =? 0); lia. }
  specialize (H 256%nat 0 ltac:(lia)). change (Z.of_nat 256) with 256 in H.
  rewrite H, <- Hlen, firstn_all. lia.
Qed.

Lemma bitCount_Permutation (bit : Z) (l l' : list Z) :
  Permutation l l' -> bitCount bit l = bitCount bit l'.
Proof.
  induction 1 as [|x l l' _ IH|x y l|l l' l'' _ IH1 _ IH2]; simpl.
  - reflexivity.
  - now rewrite IH.
  - destruct (Z.land (Z.shiftr x bit) 1 =? 0), (Z.land (Z.shiftr y bit) 1 =? 0); lia.
  - congruence.
Qed.

Lemma bytePermutation_Permutation (sbox : list Z) :
  bytePermutation sbox -> Permutation sbox (range 0 256).
Proof.
  intros (Hlen & Hbytes & Hnd). apply NoDup_Permutation_bis; [assumption| |].
  - rewrite length_range, Hlen. reflexivity.
  - intros v Hv. apply In_range. rewrite List.Forall_forall in Hbytes. now apply Hbytes.
Qed.

Lemma bitCount_range_checked :
  forallb (fun bit => bitCount bit (range 0 256) =? 128) (range 0 8) = true.
Proof. vm_compute. reflexivity. Qed.

(** X10. Every array of integers that [isSBoxBijective] accepts is
    balanced: [isSBoxBalanced] accepts it too, each output bit being set
    in exactly 128 entries. *)
Theorem isSBoxBijective_isSBoxBalanced (sbox : list Z) :
  Numbers.isSBoxBijective (ints sbox) = true ->
  isSBoxBalanced sbox = true
  /\ forall bit, 0 <= bit < 8 -> countOnes sbox bit = 128.
Proof.
  intros Hbij. rewrite <- isSBoxBijective_ints in Hbij.
  apply isSBoxBijective_spec in Hbij.
  assert (Hcount : forall bit, 0 <= bit < 8 -> countOnes sbox bit = 128).
  { intros bit Hbit. rewrite countOnes_bitCount by apply Hbij.
    rewrite (bitCount_Permutation bit _ _ (bytePermutation_Permutation sbox Hbij)).
    apply Z.eqb_eq. exact (forallb_range _ _ _ bitCount_range_checked bit Hbit). }
  split; [|exact Hcount].
  unfold isSBoxBalanced. apply forallb_forall. intros bit Hbit.
  apply In_range in Hbit. apply Z.eqb_eq. now apply Hcount.
Qed.

Lemma isSBoxBijective_isSBoxBalanced_witness :
  isSBoxBalanced AES_SBOX = true
  /\ forall bit, 0 <= bit < 8 -> countOnes AES_SBOX bit = 128.
Proof. apply (isSBoxBijective_isSBoxBalanced AES_SBOX). vm_compute. reflexivity. Defined.

(** ** The inverse table of a bijective S-box *)

Lemma inverse_of_permutation (sbox : list Z) :
  bytePermutation sbox ->
  bytePermutation (generateInverseSBox sbox)
  /\ (forall x, is_byte x -> get (generateInverseSBox sbox) (get sbox x) = x)
  /\ (forall y, is_byte y -> get sbox (get (generateInverseSBox sbox) y) = y).
Proof.
  intros Hperm. pose proof (bytePermutation_injective sbox Hperm) as Hinj.
  pose proof Hinj as [Hbytes Hone].
  assert (Hleft : forall x, is_byte x -> get (generateInverseSBox sbox) (get sbox x) = x)
    by (intros x Hx; now apply generateInverseSBox_get).
  assert (Honto : forall y, is_byte y -> exists x, is_byte x /\ get sbox x = y)
    by (apply byte_map_onto; assumption).
  assert (Hright : forall y, is_byte y -> get sbox (get (generateInverseSBox sbox) y) = y).
  { intros y Hy. destruct (Honto y Hy) as (x & Hx & <-). now rewrite Hleft. }
  split; [|split; assumption].
  apply bytePermutation_of_injective; [apply length_generateInverseSBox|].
  split.
  - intros y Hy. destruct (Honto y Hy) as (x & Hx & <-). now rewrite Hleft.
  - intros y1 y2 Hy1 Hy2 Heq.
    rewrite <- (Hright y1 Hy1), <- (Hright y2 Hy2). now rewrite Heq.
Qed.

(** X11. For an array of integers that [isSBoxBijective] accepts, the
    table built by [generateInverseSBox] is accepted too and inverts the
    S-box on both sides, and inverting it again returns the S-box. *)
Theorem generateInverseSBox_two_sided (sbox : list Z) :
  Numbers.isSBoxBijective (ints sbox) = true ->
  let invSbox := generateInverseSBox sbox in
  Numbers.isSBoxBijective (ints invSbox) = true
  /\ (forall x, is_byte x -> get invSbox (get sbox x) = x /\ get sbox (get invSbox x) = x)
  /\ generateInverseSBox invSbox = sbox.
Proof.
  intros Hbij invSbox. rewrite <- isSBoxBijective_ints in Hbij.
  apply isSBoxBijective_spec in Hbij.
  destruct (inverse_of_permutation sbox Hbij) as (Hperm & Hleft & Hright).
  split; [rewrite <- isSBoxBijective_ints; now apply isSBoxBijective_spec|].
  split; [auto|].
  destruct (inverse_of_permutation _ Hperm) as (_ & Hleft' & _).
  apply nth_get_list; [apply length_generateInverseSBox|apply Hbij|].
  intros x Hx. fold invSbox in Hleft'.
  rewrite <- (Hleft x Hx) at 1. fold invSbox. apply Hleft'.
  apply (bytePermutation_injective sbox Hbij). exact Hx.
Qed.

Lemma generateInverseSBox_two_sided_witness :
  let invSbox := generateInverseSBox AES_SBOX in
  Numbers.isSBoxBijective (ints invSbox) = true
  /\ (forall x, is_byte x ->
        get invSbox (get AES_SBOX x) = x /\ get AES_SBOX (get invSbox x) = x)
  /\ generateInverseSBox invSbox = AES_SBOX.
Proof. apply (generateInverseSBox_two_sided AES_SBOX). vm_compute. reflexivity. Defined.

(** ** Substitution through a table *)

Lemma item_get (a : list Z) (i : Z) :
  0 <= i < Z.of_nat (length a) -> item a i = Some (get a i).
Proof.
  intros Hi. unfold item, get.
  destruct (lookup_lt_is_Some_2 a (Z.to_nat i) ltac:(lia)) as [v Hv].
  destruct i as [|p|p]; try lia; rewrite Hv; f_equal; symmetry;
    now apply nth_lookup_Some.
Qed.

Lemma land_255_byte (b : Z) : is_byte b -> Z.land b 0xFF = b.
Proof.
  intros Hb. change 0xFF with (Z.ones 8). rewrite Z.land_ones by lia.
  apply Z.mod_small. exact Hb.
Qed.

Lemma substitute_get (sbox : list Z) (b : Z) :
  length sbox = 256%nat -> is_byte b -> substitute sbox b = Some (get sbox b).
Proof.
  intros Hlen Hb. unfold substitute. rewrite land_255_byte by assumption.
  apply item_get. unfold is_byte in Hb. lia.
Qed.

(** X12. Substituting through a bijective S-box and then through its
    inverse table returns the bytes: [substitute] and [substituteBytes]
    find an entry for every byte, the entries are bytes, and the same
    functions on [generateInverseSBox sbox] map them back. *)
Theorem substituteBytes_roundtrip (sbox bytes : list Z) :
  isSBoxBijective sbox = true -> Forall is_byte bytes ->
  exists substituted,
    substituteBytes sbox bytes = map Some substituted
    /\ length substituted = length bytes
    /\ Forall is_byte substituted
    /\ substituteBytes (generateInverseSBox sbox) substituted = map Some bytes
    /\ forall b, is_byte b ->
         exists s, substitute sbox b = Some s /\ is_byte s
                   /\ substitute (generateInverseSBox sbox) s = Some b.
Proof.
  intros Hbij Hbytes. apply isSBoxBijective_spec in Hbij.
  destruct (inverse_of_permutation sbox Hbij) as (Hperm & Hleft & _).
  pose proof (bytePermutation_injective sbox Hbij) as [Hsb _].
  destruct Hbij as (Hlen & _). destruct Hperm as (Hlen' & _).
  exists (map (get sbox) bytes).
  split; [|split; [|split; [|split]]].
  - unfold substituteBytes. rewrite map_map. apply map_ext_in.
    intros b Hb. rewrite List.Forall_forall in Hbytes.
    now apply (substitute_get sbox b Hlen), Hbytes.
  - apply length_map.
  - apply List.Forall_forall. intros v Hv. apply in_map_iff in Hv as (b & <- & Hb).
    rewrite List.Forall_forall in Hbytes. auto.
  - unfold substituteBytes. rewrite map_map. apply map_ext_in.
    intros b Hb. rewrite List.Forall_forall in Hbytes. specialize (Hbytes b Hb).
    fold (substitute (generateInverseSBox sbox) (get sbox b)).
    rewrite substitute_get by auto. now rewrite Hleft.
  - intros b Hb. exists (get sbox b).
    split; [now apply substitute_get|]. split; [auto|].
    rewrite substitute_get by auto. now rewrite Hleft.
Qed.

Lemma substituteBytes_roundtrip_witness :
  exists substituted,
    substituteBytes AES_SBOX [0x00; 0x53; 0xFF] = map Some substituted
    /\ length substituted = length [0x00; 0x53; 0xFF]
    /\ Forall is_byte substituted
    /\ substituteBytes (generateInverseSBox AES_SBOX) substituted
       = map Some [0x00; 0x53; 0xFF]
    /\ forall b, is_byte b ->
         exists s, substitute AES_SBOX b = Some s /\ is_byte s
                   /\ substitute (generateInverseSBox AES_SBOX) s = Some b.
Proof.
  apply (substituteBytes_roundtrip AES_SBOX [0x00; 0x53; 0xFF]);
    [vm_compute; reflexivity | repeat constructor; unfold is_byte; lia].
Defined.

(** ** Comparing two tables *)

Lemma strictEq_spec (a b : option Z) : strictEq a b = true <-> a = b.
Proof.
  destruct a as [x|], b as [y|]; simpl; try (split; [discriminate|congruence]).
  - rewrite Z.eqb_eq. split; congruence.
  - tauto.
Qed.

Lemma compareSBoxes_sum (sbox1 sbox2 : list (option number)) :
  compareSBoxes sbox1 sbox2 = sumList (map (differsAt sbox1 sbox2) (range 0 256)).
Proof.
  unfold compareSBoxes.
  assert (H : forall l acc,
             fold_left
               (fun differences i =>
                  if strictEquals (slot sbox1 i) (slot sbox2 i)
                  then differences else differences + 1) l acc
             = acc + sumList (map (differsAt sbox1 sbox2) l)).
  { induction l as [|i l IH]; intros acc; simpl; [lia|].
    rewrite IH. unfold differsAt. destruct (strictEquals _ _); lia. }
  rewrite H. lia.
Qed.

Lemma sumList_bounds (f g : Z -> Z) (l : list Z) :
  (forall i, In i l -> 0 <= f i <= g i) ->
  0 <= sumList (map f l) <= sumList (map g l).
Proof.
  induction l as [|i l IH]; intros H; simpl; [lia|].
  specialize (IH (fun j Hj => H j (or_intror Hj))).
  specialize (H i (or_introl eq_refl)). lia.
Qed.

Lemma sumList_add (f g : Z -> Z) (l : list Z) :
  sumList (map (fun i => f i + g i) l) = sumList (map f l) + sumList (map g l).
Proof. induction l as [|i l IH]; simpl; lia. Qed.

Lemma sumList_zero (f : Z -> Z) (l : list Z) :
  (forall i, In i l -> 0 <= f i) ->
  (sumList (map f l) = 0 <-> forall i, In i l -> f i = 0).
Proof.
  induction l as [|i l IH]; intros Hpos; simpl.
  - split; [intros _ j []|reflexivity].
  - pose proof (sumList_bounds f f l (fun j Hj => conj (Hpos j (or_intror Hj)) (Z.le_refl _))).
    pose proof (Hpos i (or_introl eq_refl)).
    specialize (IH (fun j Hj => Hpos j (or_intror Hj))). split.
    + intros Hsum j [<-|Hj]; [lia|]. apply IH; [lia|assumption].
    + intros Hall. rewrite (Hall i (or_introl eq_refl)).
      rewrite (proj2 IH); [reflexivity|]. intros j Hj. apply Hall. now right.
Qed.

Lemma strictEquals_spec (a b : option number) :
  strictEquals a b = true <-> a = b /\ a <> Some NaN.
Proof.
  destruct a as [[p| |s]|], b as [[q| |t]|]; cbn [strictEquals];
    try (split; [discriminate|intros [H1 H2]; congruence]);
    first [ rewrite sameNumber_spec;
            split; [intros H; split; congruence|intros [H _]; congruence]
          | split; [intros _; split; congruence|reflexivity] ].
Qed.

Lemma differsAt_cases (a b : list (option number)) (i : Z) :
  (differsAt a b i = 0 /\ slot a i = slot b i /\ slot a i <> Some NaN)
  \/ (differsAt a b i = 1 /\ ~ (slot a i = slot b i /\ slot a i <> Some NaN)).
Proof.
  unfold differsAt. destruct (strictEquals _ _) eqn:E.
  - left. split; [reflexivity|]. now apply strictEquals_spec.
  - right. split; [reflexivity|]. intros H. apply strictEquals_spec in H. congruence.
Qed.

Lemma nth_ints (a : list Z) (n : nat) : nth n (ints a) None = option_map Int (a !! n).
Proof.
  unfold ints. revert n. induction a as [|z a IH]; intros [|n]; try reflexivity.
  cbn [map nth]. apply IH.
Qed.

Lemma slot_ints (a : list Z) (i : Z) : slot (ints a) i = option_map Int (item a i).
Proof.
  unfold slot, item. destruct i; try reflexivity; apply nth_ints.
Qed.

(** X13. [compareSBoxes] counts the slots 0..255 at which two arrays of
    numbers differ under [!==].  It lies in 0..256, is symmetric and
    obeys the triangle inequality.  It is 0 exactly when every slot
    0..255 holds the same value in both arrays (or nothing in both) and
    that value is not NaN: an array with a NaN slot differs from
    itself.  On arrays of integers it is 0 exactly when the slots 0..255
    agree. *)
Theorem compareSBoxes_distance (sbox1 sbox2 sbox3 : list (option number))
    (a b : list Z) :
  0 <= compareSBoxes sbox1 sbox2 <= 256
  /\ compareSBoxes sbox1 sbox2 = compareSBoxes sbox2 sbox1
  /\ (compareSBoxes sbox1 sbox2 = 0
      <-> forall i, 0 <= i < 256 -> slot sbox1 i = slot sbox2 i /\ slot sbox1 i <> Some NaN)
  /\ compareSBoxes sbox1 sbox3
     <= compareSBoxes sbox1 sbox2 + compareSBoxes sbox2 sbox3
  /\ (compareSBoxes (ints a) (ints b) = 0
      <-> forall i, 0 <= i < 256 -> item a i = item b i).
Proof.
  assert (Hzero : forall s1 s2,
             compareSBoxes s1 s2 = 0
             <-> forall i, 0 <= i < 256 -> slot s1 i = slot s2 i /\ slot s1 i <> Some NaN).
  { intros s1 s2. rewrite compareSBoxes_sum, sumList_zero.
    - split.
      + intros H i Hi. specialize (H i (proj2 (In_range 0 256 i) Hi)).
        destruct (differsAt_cases s1 s2 i) as [[_ H1]|[H1 _]]; [assumption|lia].
      + intros H i Hi. apply In_range in Hi. specialize (H i Hi).
        destruct (differsAt_cases s1 s2 i) as [[H1 _]|[_ H1]]; [assumption|contradiction].
    - intros i _. destruct (differsAt_cases s1 s2 i) as [[-> _]|[-> _]]; lia. }
  split; [|split; [|split; [exact (Hzero sbox1 sbox2)|split]]].
  - rewrite compareSBoxes_sum.
    pose proof (sumList_bounds (differsAt sbox1 sbox2) (fun _ => 1) (range 0 256)) as H.
    change (sumList (map (fun _ => 1) (range 0 256))) with 256 in H.
    apply H. intros i _. destruct (differsAt_cases sbox1 sbox2 i) as [[-> _]|[-> _]]; lia.
  - rewrite !compareSBoxes_sum. f_equal. apply map_ext. intros i.
    destruct (differsAt_cases sbox1 sbox2 i) as [[-> (H1 & H1')]|[-> H1]],
             (differsAt_cases sbox2 sbox1 i) as [[-> (H2 & H2')]|[-> H2]];
      try reflexivity.
    + exfalso. apply H2. split; congruence.
    + exfalso. apply H1. split; congruence.
  - rewrite !compareSBoxes_sum, <- sumList_add.
    apply (sumList_bounds (differsAt sbox1 sbox3)
             (fun i => differsAt sbox1 sbox2 i + differsAt sbox2 sbox3 i)).
    intros i _.
    destruct (differsAt_cases sbox1 sbox2 i) as [[-> (H1 & H1')]|[-> H1]],
             (differsAt_cases sbox2 sbox3 i) as [[-> (H2 & H2')]|[-> H2]],
             (differsAt_cases sbox1 sbox3 i) as [[-> (H3 & H3')]|[-> H3]];
      try lia.
    exfalso. apply H3. split; congruence.
  - rewrite Hzero. split.
    + intros H i Hi. destruct (H i Hi) as [Heq _]. rewrite !slot_ints in Heq.
      destruct (item a i) as [x|], (item b i) as [y|]; cbn [option_map] in Heq;
        try congruence.
      f_equal. apply Int_inj. congruence.
    + intros H i Hi. rewrite !slot_ints, (H i Hi). split; [reflexivity|].
      destruct (item b i); cbn [option_map]; unfold Int; congruence.
Qed.

(** ** Fixed points *)

Lemma fold_left_push (p : Z -> bool) (l acc : list Z) :
  fold_left (fun found i => if p i then found ++ [i] else found) l acc
  = acc ++ List.filter p l.
Proof.
  revert acc. induction l as [|i l IH]; intros acc; simpl.
  - now rewrite app_nil_r.
  - rewrite IH. destruct (p i); [|reflexivity].
    now rewrite <- app_assoc.
Qed.

Lemma lnot_land_255_checked :
  forallb (fun i => Z.land (Z.lnot i) 0xFF =? 255 - i) (range 0 256) = true.
Proof. vm_compute. reflexivity. Qed.

(** X14. [findFixedPoints] lists, in increasing order and without
    repetition, exactly the indices [i] in 0..255 with [sbox[i] = i], and
    [findOppositeFixedPoints] those with [sbox[i] = 255 - i]; no index is
    in both lists. *)
Theorem findFixedPoints_spec (sbox : list Z) (i : Z) :
  (In i (findFixedPoints sbox) <-> 0 <= i < 256 /\ item sbox i = Some i)
  /\ (In i (findOppositeFixedPoints sbox)
      <-> 0 <= i < 256 /\ item sbox i = Some (255 - i))
  /\ ~ (In i (findFixedPoints sbox) /\ In i (findOppositeFixedPoints sbox))
  /\ findFixedPoints sbox
     = List.filter (fun i => strictEq (item sbox i) (Some i)) (range 0 256)
  /\ List.NoDup (findFixedPoints sbox)
  /\ List.NoDup (findOppositeFixedPoints sbox).
Proof.
  unfold findFixedPoints, findOppositeFixedPoints.
  rewrite (fold_left_push (fun i => strictEq (item sbox i) (Some i))).
  rewrite (fold_left_push (fun i => strictEq (item sbox i) (Some (Z.land (Z.lnot i) 0xFF)))).
  cbn [app].
  assert (H1 : In i (List.filter (fun i => strictEq (item sbox i) (Some i)) (range 0 256))
               <-> 0 <= i < 256 /\ item sbox i = Some i).
  { rewrite filter_In, In_range, strictEq_spec. tauto. }
  assert (H2 : In i (List.filter (fun i => strictEq (item sbox i) (Some (Z.land (Z.lnot i) 0xFF)))
                            (range 0 256))
               <-> 0 <= i < 256 /\ item sbox i = Some (255 - i)).
  { rewrite filter_In, In_range, strictEq_spec. split.
    - intros [Hi Heq]. split; [assumption|].
      pose proof (forallb_range _ _ _ lnot_land_255_checked i Hi) as Hc.
      apply Z.eqb_eq in Hc. now rewrite <- Hc.
    - intros [Hi Heq]. split; [assumption|].
      pose proof (forallb_range _ _ _ lnot_land_255_checked i Hi) as Hc.
      apply Z.eqb_eq in Hc. now rewrite Hc. }
  split; [exact H1|]. split; [exact H2|]. split.
  - rewrite H1, H2. intros [[_ Ha] [_ Hb]]. rewrite Ha in Hb.
    injection Hb as Hb. lia.
  - split; [reflexivity|]. split; apply List.NoDup_filter, NoDup_range.
Qed.

(** ** The round transformations and their inverses, in both orders *)

Lemma inv_mix_product_checked : forallb inv_mix_product_check (range 0 256) = true.
Proof. vm_compute. reflexivity. Qed.

Lemma mixEntry_compose_inv (i0 i1 i2 i3 a b c d : Z) :
  In i0 mixCoefficients -> In i1 mixCoefficients ->
  In i2 mixCoefficients -> In i3 mixCoefficients ->
  is_byte a -> is_byte b -> is_byte c -> is_byte d ->
  let g := gfMultiplyConstant in
  mixEntry i0 i1 i2 i3
    (mixEntry 14 11 13 9 a b c d) (mixEntry 9 14 11 13 a b c d)
    (mixEntry 13 9 14 11 a b c d) (mixEntry 11 13 9 14 a b c d)
  = Z.lxor
      (Z.lxor
         (Z.lxor (mixEntry i0 i1 i2 i3 (g a 14) (g a 9) (g a 13) (g a 11))
                 (mixEntry i0 i1 i2 i3 (g b 11) (g b 14) (g b 9) (g b 13)))
         (mixEntry i0 i1 i2 i3 (g c 13) (g c 11) (g c 14) (g c 9)))
      (mixEntry i0 i1 i2 i3 (g d 9) (g d 13) (g d 11) (g d 14)).
Proof.
  intros H0 H1 H2 H3 Ha Hb Hc Hd g.
  assert (C9 : In 9 mixCoefficients) by (cbv; tauto).
  assert (C11 : In 11 mixCoefficients) by (cbv; tauto).
  assert (C13 : In 13 mixCoefficients) by (cbv; tauto).
  assert (C14 : In 14 mixCoefficients) by (cbv; tauto).
  unfold mixEntry at 1.
  rewrite !gmc_mixEntry by assumption.
  rewrite lxor_transpose. reflexivity.
Qed.

Lemma mix_invMix_column (a b c d : Z) :
  is_byte a -> is_byte b -> is_byte c -> is_byte d ->
  let y0 := mixEntry 14 11 13 9 a b c d in
  let y1 := mixEntry 9 14 11 13 a b c d in
  let y2 := mixEntry 13 9 14 11 a b c d in
  let y3 := mixEntry 11 13 9 14 a b c d in
  mixEntry 2 3 1 1 y0 y1 y2 y3 = a
  /\ mixEntry 1 2 3 1 y0 y1 y2 y3 = b
  /\ mixEntry 1 1 2 3 y0 y1 y2 y3 = c
  /\ mixEntry 3 1 1 2 y0 y1 y2 y3 = d.
Proof.
  intros Ha Hb Hc Hd. cbv zeta.
  assert (C1 : In 1 mixCoefficients) by (cbv; tauto).
  assert (C2 : In 2 mixCoefficients) by (cbv; tauto).
  assert (C3 : In 3 mixCoefficients) by (cbv; tauto).
  rewrite !mixEntry_compose_inv by assumption. cbv zeta.
  pose proof (forallb_range _ _ _ inv_mix_product_checked a Ha) as Pa.
  pose proof (forallb_range _ _ _ inv_mix_product_checked b Hb) as Pb.
  pose proof (forallb_range _ _ _ inv_mix_product_checked c Hc) as Pc.
  pose proof (forallb_range _ _ _ inv_mix_product_checked d Hd) as Pd.
  unfold inv_mix_product_check in Pa, Pb, Pc, Pd. cbv zeta in Pa, Pb, Pc, Pd.
  rewrite !andb_true_iff, !Z.eqb_eq in Pa, Pb, Pc, Pd.
  decompose [and] Pa. decompose [and] Pb. decompose [and] Pc. decompose [and] Pd.
  repeat match goal with H : mixEntry _ _ _ _ _ _ _ _ = _ |- _ => rewrite H; clear H end.
  rewrite ?Z.lxor_0_r, ?Z.lxor_0_l. repeat split; reflexivity.
Qed.

Lemma wfState_invShiftRows (s : State) : wfState s -> wfState (invShiftRows s).
Proof. intros H. wf_destruct H. rewrite invShiftRows_explicit. wf_intro; assumption. Qed.

Lemma wfState_invMixColumns (s : State) : wfState s -> wfState (invMixColumns s).
Proof.
  intros H. wf_destruct H. rewrite invMixColumns_explicit.
  wf_intro; apply mixEntry_byte; try assumption; cbv; tauto.
Qed.

Lemma shiftRows_invShiftRows (s : State) : wfState s -> shiftRows (invShiftRows s) = s.
Proof.
  intros H. wf_destruct H. now rewrite invShiftRows_explicit, shiftRows_explicit.
Qed.

Lemma mixColumns_invMixColumns (s : State) :
  wfState s -> mixColumns (invMixColumns s) = s.
Proof.
  intros H. wf_destruct H. rewrite invMixColumns_explicit, mixColumns_explicit.
  repeat match goal with
         | Ha : is_byte ?a, Hb : is_byte ?b, Hc : is_byte ?c, Hd : is_byte ?d
           |- context [mixEntry 2 3 1 1 (mixEntry 14 11 13 9 ?a ?b ?c ?d)] =>
             destruct (mix_invMix_column a b c d Ha Hb Hc Hd) as (-> & -> & -> & ->)
         end.
  reflexivity.
Qed.

Lemma subBytes_invSubBytes (s : State) (sbox : list Z) :
  wfState s -> bytePermutation sbox ->
  subBytes (invSubBytes s (generateInverseSBox sbox)) sbox = s.
Proof.
  intros H Hs. destruct (inverse_of_permutation sbox Hs) as (_ & _ & Hright).
  wf_destruct H. unfold invSubBytes. rewrite !subBytes_explicit.
  now rewrite !Hright by assumption.
Qed.

(** X15. On a 4x4 state of bytes every round transformation is undone
    by its inverse, in both orders: [shiftRows] and [invShiftRows],
    [mixColumns] and [invMixColumns], [subBytes] and [invSubBytes] with
    the inverse table of a bijective S-box; [addRoundKey] with the same
    round key undoes itself. *)
Theorem round_transformations_invert (s roundKey : State) (sbox : list Z) :
  wfState s ->
  invShiftRows (shiftRows s) = s
  /\ shiftRows (invShiftRows s) = s
  /\ invMixColumns (mixColumns s) = s
  /\ mixColumns (invMixColumns s) = s
  /\ addRoundKey (addRoundKey s roundKey) roundKey = s
  /\ (isSBoxBijective sbox = true ->
      invSubBytes (subBytes s sbox) (generateInverseSBox sbox) = s
      /\ subBytes (invSubBytes s (generateInverseSBox sbox)) sbox = s).
Proof.
  intros Hwf.
  split; [now apply invShiftRows_shiftRows|].
  split; [now apply shiftRows_invShiftRows|].
  split; [now apply invMixColumns_mixColumns|].
  split; [now apply mixColumns_invMixColumns|].
  split; [now apply addRoundKey_involutive|].
  intros Hbij. apply isSBoxBijective_spec in Hbij. split.
  - apply invSubBytes_subBytes; [assumption|]. now apply bytePermutation_injective.
  - now apply subBytes_invSubBytes.
Qed.

Lemma round_transformations_invert_witness :
  let s := bytesToState (map Z.of_nat (seq 0 16)) in
  invShiftRows (shiftRows s) = s
  /\ shiftRows (invShiftRows s) = s
  /\ invMixColumns (mixColumns s) = s
  /\ mixColumns (invMixColumns s) = s
  /\ addRoundKey (addRoundKey s (bytesToState (repeat 7 16))) (bytesToState (repeat 7 16)) = s
  /\ (isSBoxBijective AES_SBOX = true ->
      invSubBytes (subBytes s AES_SBOX) (generateInverseSBox AES_SBOX) = s
      /\ subBytes (invSubBytes s (generateInverseSBox AES_SBOX)) AES_SBOX = s).
Proof.
  apply (round_transformations_invert (bytesToState (map Z.of_nat (seq 0 16)))).
  apply wfState_bytesToState. repeat constructor; unfold is_byte; simpl; lia.
Defined.

(** ** The block cipher in both directions *)

Lemma wfState_invSubBytes (s : State) (sbox : list Z) :
  wfState s -> bytePermutation sbox ->
  wfState (invSubBytes s (generateInverseSBox sbox)).
Proof.
  intros H Hs. destruct (inverse_of_permutation sbox Hs) as (Hperm & _).
  apply wfState_subBytes; [assumption|].
  exact (proj1 (bytePermutation_injective _ Hperm)).
Qed.

Lemma round_redo (sbox : list Z) (roundKeys : list State) (s : State) (r : nat) :
  bytePermutation sbox -> wfState s -> byteKey (nth r roundKeys []) ->
  wfState (decryptRound (generateInverseSBox sbox) roundKeys s r)
  /\ encryptRound sbox roundKeys
       (decryptRound (generateInverseSBox sbox) roundKeys s r) r = s.
Proof.
  intros Hs Hwf Hr.
  assert (H1 : wfState (addRoundKey s (nth r roundKeys [])))
    by now apply wfState_addRoundKey.
  assert (H2 : wfState (invMixColumns (addRoundKey s (nth r roundKeys []))))
    by now apply wfState_invMixColumns.
  assert (H3 : wfState (invShiftRows (invMixColumns (addRoundKey s (nth r roundKeys [])))))
    by now apply wfState_invShiftRows.
  unfold decryptRound, encryptRound.
  split; [now apply wfState_invSubBytes|].
  rewrite subBytes_invSubBytes by assumption.
  rewrite shiftRows_invShiftRows by exact H2.
  rewrite mixColumns_invMixColumns by exact H1.
  now apply addRoundKey_involutive.
Qed.

Lemma encryptBlock_decryptBlock (block key sbox : list Z) :
  length block = 16%nat -> Forall is_byte block -> Forall is_byte key ->
  bytePermutation sbox ->
  encryptBlock (decryptBlock block key sbox) key sbox = block.
Proof.
  intros Hlen Hb Hk Hs.
  assert (Hsb : sbox_bytes sbox) by exact (proj1 (bytePermutation_injective _ Hs)).
  assert (Hrk : forall r, (r <= 10)%nat -> byteKey (nth r (keyExpansion key sbox) [])).
  { intros r Hr. now apply wfState_byteKey, keyExpansion_wf. }
  rewrite encryptBlock_eq, decryptBlock_eq.
  generalize dependent (keyExpansion key sbox). intros rks Hrk.
  pose proof (wfState_bytesToState block Hb) as W0.
  assert (W1 : wfState (addRoundKey (bytesToState block) (nth 10 rks []))).
  { apply wfState_addRoundKey; [exact W0 | apply Hrk; lia]. }
  assert (W2 : wfState (invShiftRows (addRoundKey (bytesToState block) (nth 10 rks []))))
    by now apply wfState_invShiftRows.
  assert (W3 : wfState (invSubBytes
                          (invShiftRows (addRoundKey (bytesToState block) (nth 10 rks [])))
                          (generateInverseSBox sbox)))
    by now apply wfState_invSubBytes.
  destruct (fold_left_undo (decryptRound (generateInverseSBox sbox) rks)
              (encryptRound sbox rks)
              wfState (fun r => byteKey (nth r rks []))
              (fun s r Hwf Hr => round_redo sbox rks s r Hs Hwf Hr)
              (rev (seq 1 9)) _
              (fun r Hr => Hrk r ltac:(apply in_rev, in_seq in Hr; lia)) W3)
    as [W4 R4].
  rewrite rev_involutive in R4.
  revert W4 R4.
  generalize (fold_left (decryptRound (generateInverseSBox sbox) rks) (rev (seq 1 9))
                (invSubBytes
                   (invShiftRows (addRoundKey (bytesToState block) (nth 10 rks [])))
                   (generateInverseSBox sbox))).
  intros s4 W4 R4.
  assert (W5 : wfState (addRoundKey s4 (nth 0 rks []))).
  { apply wfState_addRoundKey; [exact W4 | apply Hrk; lia]. }
  rewrite bytesToState_stateToBytes by exact W5.
  rewrite addRoundKey_involutive by exact W4.
  rewrite R4.
  rewrite subBytes_invSubBytes by assumption.
  rewrite shiftRows_invShiftRows by exact W1.
  rewrite addRoundKey_involutive by exact W0.
  now apply stateToBytes_bytesToState.
Qed.

(** X16. For an array of integers that [isSBoxBijective] accepts as
    S-box, a key of 16 or more bytes and a block of 16 bytes,
    [decryptBlock] and [encryptBlock] are inverse to each other in both
    orders, and both return 16 bytes. *)
Theorem encryptBlock_decryptBlock_inverse (block key sbox : list Z) :
  Numbers.isSBoxBijective (ints sbox) = true ->
  (16 <= length key)%nat -> Forall is_byte key ->
  length block = 16%nat -> Forall is_byte block ->
  decryptBlock (encryptBlock block key sbox) key sbox = block
  /\ encryptBlock (decryptBlock block key sbox) key sbox = block
  /\ length (encryptBlock block key sbox) = 16%nat
  /\ Forall is_byte (encryptBlock block key sbox)
  /\ length (decryptBlock block key sbox) = 16%nat
  /\ Forall is_byte (decryptBlock block key sbox).
Proof.
  intros Hbij _ Hk Hlen Hb. rewrite <- isSBoxBijective_ints in Hbij.
  apply isSBoxBijective_spec in Hbij.
  split; [apply decryptBlock_encryptBlock; auto using bytePermutation_injective|].
  split; [now apply encryptBlock_decryptBlock|].
  split; [apply length_encryptBlock|].
  split; [apply stateToBytes_bytes|].
  split; [apply length_decryptBlock|apply stateToBytes_bytes].
Qed.

Lemma encryptBlock_decryptBlock_inverse_witness :
  let block := map Z.of_nat (seq 0 16) in
  let key := repeat 0x2b 16 in
  decryptBlock (encryptBlock block key AES_SBOX) key AES_SBOX = block
  /\ encryptBlock (decryptBlock block key AES_SBOX) key AES_SBOX = block
  /\ length (encryptBlock block key AES_SBOX) = 16%nat
  /\ Forall is_byte (encryptBlock block key AES_SBOX)
  /\ length (decryptBlock block key AES_SBOX) = 16%nat
  /\ Forall is_byte (decryptBlock block key AES_SBOX).
Proof.
  apply (encryptBlock_decryptBlock_inverse (map Z.of_nat (seq 0 16)) (repeat 0x2b 16) AES_SBOX);
    [vm_compute; reflexivity | simpl; lia
     | repeat constructor; unfold is_byte; lia | reflexivity
     | repeat constructor; unfold is_byte; simpl; lia].
Defined.

(** ** The step trace and the plain block encryption *)

(** X17. [encryptBlockWithSteps] computes the ciphertext of
    [encryptBlock]: the two functions return the same 16 bytes, the last
    step of the trace holds the state these bytes are read from, and the
    round keys returned are those of [keyExpansion]. *)
Theorem encryptBlockWithSteps_agrees (block key sbox : list Z) :
  let '(ciphertext, steps, roundKeys) := encryptBlockWithSteps block key sbox in
  ciphertext = encryptBlock block key sbox
  /\ stateToBytes (state (List.last steps emptyStep)) = ciphertext
  /\ operation (List.last steps emptyStep) = opAddRoundKey
  /\ round (List.last steps emptyStep) = 10%nat
  /\ roundKeys = keyExpansion key sbox.
Proof.
  rewrite encryptBlock_eq. unfold encryptBlockWithSteps.
  generalize (keyExpansion key sbox) as roundKeys.
  generalize (bytesToState block) as st. intros st roundKeys.
  cbv [fold_left seq traceRound app encryptRound].
  rewrite !cloneState_id. cbn [List.last state operation round].
  repeat split; reflexivity.
Qed.

(** ** The key schedule *)

Lemma expand_fold_length (sbox : list Z) (l : list nat) (W : list (list Z)) :
  length (fold_left (fun W i => W ++ [nextWord sbox W i]) l W)
  = (length W + length l)%nat.
Proof.
  revert W. induction l as [|i l IH]; intros W; cbn [fold_left length]; [lia|].
  rewrite IH, length_app. simpl. lia.
Qed.

Lemma expand_fold_prefix (sbox : list Z) (l : list nat) (W : list (list Z)) (j : nat) :
  (j < length W)%nat ->
  nth j (fold_left (fun W i => W ++ [nextWord sbox W i]) l W) [] = nth j W [].
Proof.
  revert W. induction l as [|i l IH]; intros W Hj; cbn [fold_left]; [reflexivity|].
  rewrite IH by (rewrite length_app; simpl; lia). now apply app_nth1.
Qed.

Lemma nextWord_ext (sbox : list Z) (W W' : list (list Z)) (i : nat) :
  nth (i - 1) W [] = nth (i - 1) W' [] ->
  nth (i - 4) W [] = nth (i - 4) W' [] ->
  nextWord sbox W i = nextWord sbox W' i.
Proof. intros H1 H4. unfold nextWord. now rewrite H1, H4. Qed.

Lemma expand_fold_new (sbox : list Z) (n : nat) :
  forall k W i,
    length W = k -> (1 <= k)%nat -> (k <= i < k + n)%nat ->
    let W' := fold_left (fun W i => W ++ [nextWord sbox W i]) (seq k n) W in
    nth i W' [] = nextWord sbox W' i.
Proof.
  induction n as [|n IH]; intros k W i Hlen Hk Hi W'; [lia|].
  subst W'. cbn [seq fold_left].
  destruct (Nat.eq_dec i k) as [->|Hne].
  - rewrite expand_fold_prefix by (rewrite length_app; simpl; lia).
    rewrite app_nth2, Hlen, Nat.sub_diag by lia. cbn [nth].
    apply nextWord_ext.
    + rewrite expand_fold_prefix by (rewrite length_app; simpl; lia).
      rewrite app_nth1 by lia. reflexivity.
    + rewrite expand_fold_prefix by (rewrite length_app; simpl; lia).
      rewrite app_nth1 by lia. reflexivity.
  - apply (IH (S k)); [rewrite length_app; simpl; lia | lia | lia].
Qed.

Lemma expandWords_words (key sbox : list Z) :
  Forall (fun w => length w = 4%nat) (expandWords key sbox).
Proof.
  unfold expandWords.
  assert (Hfold : forall n k W,
             length W = k -> (4 <= k)%nat ->
             Forall (fun w => length w = 4%nat) W ->
             Forall (fun w => length w = 4%nat)
                    (fold_left (fun W i => W ++ [nextWord sbox W i]) (seq k n) W)).
  { induction n as [|n IH]; intros k W Hlen Hk HW; [exact HW|].
    cbn [seq fold_left]. apply IH; [rewrite length_app; simpl; lia | lia |].
    apply Forall_app. split; [exact HW|].
    apply List.Forall_cons; [|apply List.Forall_nil].
    unfold nextWord. rewrite length_imap.
    rewrite List.Forall_forall in HW. apply HW, nth_In. lia. }
  apply Hfold; [reflexivity | lia |].
  cbn [map seq]. repeat apply List.Forall_cons; try apply List.Forall_nil; reflexivity.
Qed.

Lemma nth_imap {A B} (f : nat -> A -> B) (l : list A) (i : nat) (a : A) (b : B) :
  (i < length l)%nat -> nth i (imap f l) b = f i (nth i l a).
Proof.
  intros Hi. destruct (lookup_lt_is_Some_2 l i Hi) as [x Hx].
  rewrite (nth_lookup_Some l i a x Hx).
  apply nth_lookup_Some. now rewrite list_lookup_imap, Hx.
Qed.

Lemma at2_roundKey (key sbox : list Z) (r row col : nat) :
  (r <= 10)%nat -> (row < 4)%nat -> (col < 4)%nat ->
  at2 (nth r (keyExpansion key sbox) []) row col
  = nth row (nth (r * 4 + col) (expandWords key sbox) []) 0.
Proof.
  intros Hr Hrow Hcol. unfold keyExpansion.
  generalize (expandWords key sbox). intros W. cbv zeta.
  match goal with |- at2 (nth _ (map ?g _) _) _ _ = _ => set (f := g) end.
  assert (Hnth : nth r (map f (seq 0 11)) [] = f r).
  { clearbody f. do 11 (destruct r as [|r]; [reflexivity|]). lia. }
  rewrite Hnth. subst f. cbv beta. rewrite roundKey_explicit.
  do 4 (destruct row as [|row];
        [do 4 (destruct col as [|col]; [reflexivity|]); lia|]).
  lia.
Qed.

Lemma expandWords_schedule (key sbox : list Z) (i : nat) :
  (4 <= i < 44)%nat ->
  nth i (expandWords key sbox) [] = nextWord sbox (expandWords key sbox) i.
Proof.
  intros Hi. unfold expandWords.
  apply (expand_fold_new sbox 40 4); [reflexivity|lia|lia].
Qed.

Lemma expandWords_key (key sbox : list Z) (i : nat) :
  (i < 4)%nat ->
  nth i (expandWords key sbox) []
  = [nth (4 * i) key 0; nth (4 * i + 1) key 0; nth (4 * i + 2) key 0; nth (4 * i + 3) key 0].
Proof.
  intros Hi. unfold expandWords.
  rewrite expand_fold_prefix by (simpl; lia).
  do 4 (destruct i as [|i]; [reflexivity|]). lia.
Qed.

Lemma nth_firstn_16 (key : list Z) (j : nat) :
  (j < 16)%nat -> nth j (firstn 16 key) 0 = nth j key 0.
Proof.
  intros Hj. destruct (Nat.lt_ge_cases j (length key)) as [Hlt|Hge].
  - now apply nth_firstn_lt.
  - rewrite !nth_overflow; [reflexivity|lia|].
    rewrite length_firstn. lia.
Qed.

Lemma expandWords_firstn (key sbox : list Z) :
  expandWords (firstn 16 key) sbox = expandWords key sbox.
Proof.
  unfold expandWords. f_equal. cbn [map seq].
  rewrite !nth_firstn_16 by lia. reflexivity.
Qed.

(** The rotated, substituted word with the round constant, entry by
    entry. *)
Lemma nth_rotated (sbox w : list Z) (rcon : Z) (row : nat) :
  (row < 4)%nat ->
  nth row
    (<[O := Z.lxor (nth 0 (map (fun b => get sbox b) [nth 1 w 0; nth 2 w 0; nth 3 w 0; nth 0 w 0]) 0)
                   rcon]>
       (map (fun b => get sbox b) [nth 1 w 0; nth 2 w 0; nth 3 w 0; nth 0 w 0])) 0
  = Z.lxor (get sbox (nth ((row + 1) mod 4) w 0)) (if (row =? 0)%nat then rcon else 0).
Proof.
  intros Hrow.
  do 4 (destruct row as [|row]; [cbn; now rewrite ?Z.lxor_0_r|]). lia.
Qed.

(** X18. For a key of 16 or more bytes and an S-box whose entries at
    the bytes are bytes, [keyExpansion] returns 11 round keys, each a 4x4
    grid of bytes.  Round key 0 is the key itself in column-major order,
    and only the first 16 bytes of the key are read.  For the rounds 1..10
    the columns follow the AES schedule: column 0 is column 0 of the round
    before, XORed with the rotated and substituted column 3 of the round
    before and the round constant in row 0; the columns 1..3 are the same
    column of the round before XORed with the column to the left. *)
Theorem keyExpansion_schedule (key sbox : list Z) (r row col : nat) :
  (16 <= length key)%nat -> Forall is_byte key ->
  (forall x, is_byte x -> is_byte (get sbox x)) ->
  (1 <= r <= 10)%nat -> (row < 4)%nat -> (1 <= col < 4)%nat ->
  let roundKeys := keyExpansion key sbox in
  length roundKeys = 11%nat
  /\ nth 0 roundKeys [] = bytesToState key
  /\ keyExpansion (firstn 16 key) sbox = roundKeys
  /\ at2 (nth r roundKeys []) row 0
     = Z.lxor (at2 (nth (r - 1) roundKeys []) row 0)
         (Z.lxor (get sbox (at2 (nth (r - 1) roundKeys []) ((row + 1) mod 4) 3))
                 (if (row =? 0)%nat then nth (r - 1) RCON 0 else 0))
  /\ at2 (nth r roundKeys []) row col
     = Z.lxor (at2 (nth (r - 1) roundKeys []) row col)
              (at2 (nth r roundKeys []) row (col - 1))
  /\ (forall k, (k <= 10)%nat -> wfState (nth k roundKeys [])).
Proof.
  intros _ Hk Hs Hr Hrow Hcol roundKeys. subst roundKeys.
  pose proof (expandWords_words key sbox) as Hwords.
  assert (Hlen4 : forall i, (i < 44)%nat -> length (nth i (expandWords key sbox) []) = 4%nat).
  { intros i Hi. rewrite List.Forall_forall in Hwords. apply Hwords, nth_In.
    unfold expandWords. rewrite expand_fold_length. simpl. lia. }
  split; [reflexivity|]. split; [|split; [|split; [|split]]].
  - change (nth 0 (keyExpansion key sbox) [])
      with (fold_left
              (fun roundKey col =>
                 fold_left
                   (fun roundKey row =>
                      set2 roundKey row col
                        (nth row (nth (0 * 4 + col) (expandWords key sbox) []) 0))
                   (seq 0 4) roundKey)
              (seq 0 4) zeroState).
    rewrite roundKey_explicit, bytesToState_explicit.
    rewrite !expandWords_key by lia. reflexivity.
  - unfold keyExpansion. now rewrite expandWords_firstn.
  - assert (Hmod : ((row + 1) mod 4 < 4)%nat) by (apply Nat.mod_upper_bound; lia).
    rewrite !at2_roundKey by (try assumption; lia).
    rewrite expandWords_schedule by lia.
    unfold nextWord.
    replace ((r * 4 + 0) mod 4 =? 0)%nat with true
      by (symmetry; apply Nat.eqb_eq; rewrite Nat.add_0_r; apply Nat.Div0.mod_mul).
    replace (r * 4 + 0 - 4)%nat with ((r - 1) * 4 + 0)%nat by lia.
    replace (r * 4 + 0 - 1)%nat with ((r - 1) * 4 + 3)%nat by lia.
    replace ((r * 4 + 0) / 4 - 1)%nat with (r - 1)%nat
      by (rewrite Nat.add_0_r, Nat.div_mul; lia).
    rewrite (nth_imap _ _ _ 0) by (rewrite Hlen4; lia).
    f_equal. now apply nth_rotated.
  - rewrite !at2_roundKey by (try assumption; lia).
    rewrite expandWords_schedule by lia.
    unfold nextWord.
    replace ((r * 4 + col) mod 4 =? 0)%nat with false.
    2:{ symmetry. apply Nat.eqb_neq.
        rewrite Nat.add_comm, Nat.Div0.mod_add, Nat.mod_small; lia. }
    replace (r * 4 + col - 4)%nat with ((r - 1) * 4 + col)%nat by lia.
    replace (r * 4 + col - 1)%nat with (r * 4 + (col - 1))%nat by lia.
    now rewrite (nth_imap _ _ _ 0) by (rewrite Hlen4; lia).
  - intros k Hk10. now apply keyExpansion_wf.
Qed.

Lemma keyExpansion_schedule_witness :
  let roundKeys := keyExpansion (repeat 0x2b 16) AES_SBOX in
  length roundKeys = 11%nat
  /\ nth 0 roundKeys [] = bytesToState (repeat 0x2b 16)
  /\ keyExpansion (firstn 16 (repeat 0x2b 16)) AES_SBOX = roundKeys
  /\ at2 (nth 1 roundKeys []) 0 0
     = Z.lxor (at2 (nth (1 - 1) roundKeys []) 0 0)
         (Z.lxor (get AES_SBOX (at2 (nth (1 - 1) roundKeys []) ((0 + 1) mod 4) 3))
                 (if (0 =? 0)%nat then nth (1 - 1) RCON 0 else 0))
  /\ at2 (nth 1 roundKeys []) 0 1
     = Z.lxor (at2 (nth (1 - 1) roundKeys []) 0 1)
              (at2 (nth 1 roundKeys []) 0 (1 - 1))
  /\ (forall k, (k <= 10)%nat -> wfState (nth k roundKeys [])).
Proof.
  apply (keyExpansion_schedule (repeat 0x2b 16) AES_SBOX 1 0 1); try lia.
  - simpl. lia.
  - repeat constructor; unfold is_byte; lia.
  - assert (Hbij : isSBoxBijective AES_SBOX = true) by (vm_compute; reflexivity).
    apply isSBoxBijective_spec, bytePermutation_injective in Hbij. exact (proj1 Hbij).
Defined.

(** ** ECB: block by block *)

Lemma slice_concat_16 (blocks : list (list Z)) (i : nat) :
  Forall (fun b => length b = 16%nat) blocks -> (i < length blocks)%nat ->
  slice (concat blocks) (16 * i) (16 * i + 16) = nth i blocks [].
Proof.
  unfold slice. replace (16 * i + 16 - 16 * i)%nat with 16%nat by lia.
  revert blocks. induction i as [|i IH]; intros blocks Hblocks Hi.
  - destruct blocks as [|b blocks]; [simpl in Hi; lia|].
    apply Forall_cons in Hblocks as [Hb _]. cbn [concat nth Nat.mul].
    rewrite skipn_O, firstn_app, Hb, Nat.sub_diag, firstn_all2 by lia.
    cbn [firstn]. apply app_nil_r.
  - destruct blocks as [|b blocks]; [simpl in Hi; lia|].
    apply Forall_cons in Hblocks as [Hb Hblocks]. cbn [concat nth length] in *.
    rewrite skipn_app, Hb, skipn_all2 by lia. cbn [app].
    replace (16 * S i - 16)%nat with (16 * i)%nat by lia.
    apply IH; [assumption|lia].
Qed.

Lemma encrypt_blocks (encode : list Z -> list Z) (plaintext keyStr sbox : list Z) :
  exists blocks,
    concat blocks = pkcs7Pad (encode plaintext)
    /\ Forall (fun b => length b = 16%nat) blocks
    /\ encrypt encode plaintext keyStr sbox
       = inr (concat (map (fun block => encryptBlock block (encode (canonicalKey keyStr)) sbox)
                          blocks)).
Proof.
  destruct (chunks_exist _ _ (pkcs7Pad_length (encode plaintext))) as (blocks & Hc & Hf).
  exists blocks. split; [assumption|]. split; [assumption|].
  unfold encrypt. cbv zeta. rewrite <- Hc.
  apply ecbLoop_concat; [|assumption]. intros b. cbv beta. apply length_encryptBlock.
Qed.

(** X19. [encrypt] never throws, whatever the plaintext, key and S-box:
    it returns as many bytes as the padded plaintext has, and block [i] of
    the ciphertext is [encryptBlock] of block [i] of the padded plaintext
    alone.  So equal plaintext blocks give equal ciphertext blocks. *)
Theorem encrypt_is_blockwise (encode : list Z -> list Z) (plaintext keyStr sbox : list Z) :
  let data := pkcs7Pad (encode plaintext) in
  let key := encode (canonicalKey keyStr) in
  exists ciphertext,
    encrypt encode plaintext keyStr sbox = inr ciphertext
    /\ length ciphertext = length data
    /\ Forall is_byte ciphertext
    /\ (forall i, (16 * i + 16 <= length data)%nat ->
          slice ciphertext (16 * i) (16 * i + 16)
          = encryptBlock (slice data (16 * i) (16 * i + 16)) key sbox)
    /\ (forall i j, (16 * i + 16 <= length data)%nat -> (16 * j + 16 <= length data)%nat ->
          slice data (16 * i) (16 * i + 16) = slice data (16 * j) (16 * j + 16) ->
          slice ciphertext (16 * i) (16 * i + 16) = slice ciphertext (16 * j) (16 * j + 16)).
Proof.
  intros data key. subst data key.
  destruct (encrypt_blocks encode plaintext keyStr sbox) as (blocks & Hc & Hf & Henc).
  revert Henc.
  generalize (encode (canonicalKey keyStr)) as key. intros key Henc.
  assert (Hmap : Forall (fun b => length b = 16%nat)
                   (map (fun block => encryptBlock block key sbox) blocks)).
  { apply List.Forall_forall. intros c Hin. apply in_map_iff in Hin as (b & <- & _).
    cbv beta. apply length_encryptBlock. }
  assert (Hslice : forall i, (16 * i + 16 <= length (pkcs7Pad (encode plaintext)))%nat ->
            slice (concat (map (fun block => encryptBlock block key sbox) blocks))
                  (16 * i) (16 * i + 16)
            = encryptBlock (slice (pkcs7Pad (encode plaintext)) (16 * i) (16 * i + 16))
                key sbox).
  { intros i Hi. rewrite <- Hc in *. rewrite length_concat_16 in Hi by assumption.
    rewrite !slice_concat_16 by (try assumption; rewrite ?length_map; lia).
    rewrite (nth_indep _ [] (encryptBlock [] key sbox)) by (rewrite length_map; lia).
    apply (map_nth (fun block => encryptBlock block key sbox)). }
  exists (concat (map (fun block => encryptBlock block key sbox) blocks)).
  split; [exact Henc|]. split; [|split; [|split]].
  - rewrite <- Hc, !length_concat_16 by assumption. now rewrite length_map.
  - apply Forall_concat. apply List.Forall_forall. intros c Hin.
    apply in_map_iff in Hin as (b & <- & _). cbv beta.
    rewrite encryptBlock_eq. apply stateToBytes_bytes.
  - exact Hslice.
  - intros i j Hi Hj Heq. now rewrite !Hslice, Heq by assumption.
Qed.

(** ** Ciphertexts that are not whole blocks *)

Lemma length_typedSet (target source result : list Z) (offset : nat) :
  typedSet target source offset = inr result -> length result = length target.
Proof.
  unfold typedSet. destruct (Nat.leb_spec (offset + length source) (length target));
    [|discriminate].
  intros [= <-]. rewrite !length_app, length_firstn, length_skipn. lia.
Qed.

Lemma ecb_prefix (blockFn : list Z -> list Z) (input : list Z) (k : nat) :
  (forall b, length (blockFn b) = 16%nat) ->
  (16 * k <= length input)%nat ->
  exists result,
    fold_left (ecbStep blockFn input) (map (fun k => 16 * k)%nat (seq 0 k))
      (inr (repeat 0 (length input))) = inr result
    /\ length result = length input.
Proof.
  intros Hfn. induction k as [|k IH]; intros Hk.
  - exists (repeat 0 (length input)). split; [reflexivity|apply repeat_length].
  - destruct (IH ltac:(lia)) as (result & Hfold & Hlen).
    rewrite seq_S, map_app, fold_left_app, Hfold. cbn [map fold_left Nat.add ecbStep].
    unfold typedSet. rewrite Hfn, Hlen.
    destruct (Nat.leb_spec (16 * k + 16) (length input)); [|lia].
    eexists. split; [reflexivity|].
    rewrite !length_app, length_firstn, length_skipn, Hfn. lia.
Qed.

Lemma ecbLoop_ragged (blockFn : list Z -> list Z) (input : list Z) :
  (forall b, length (blockFn b) = 16%nat) ->
  (length input mod 16 <> 0)%nat ->
  ecbLoop blockFn input = inl RangeError.
Proof.
  intros Hfn Hmod. rewrite ecbLoop_eq. unfold blockOffsets.
  pose proof (Nat.div_mod_eq (length input) 16) as Hdm.
  pose proof (Nat.mod_upper_bound (length input) 16 ltac:(lia)) as Hlt.
  set (q := (length input / 16)%nat) in *.
  replace ((length input + 15) / 16)%nat with (S q).
  2:{ apply (Nat.div_unique _ 16 (S q) (length input mod 16 - 1)); lia. }
  destruct (ecb_prefix blockFn input q Hfn ltac:(lia)) as (result & Hfold & Hlen).
  rewrite seq_S, map_app, fold_left_app, Hfold. cbn [map fold_left Nat.add ecbStep].
  unfold typedSet. rewrite Hfn, Hlen.
  destruct (Nat.leb_spec (16 * q + 16) (length input)); [lia|reflexivity].
Qed.

(** X20. [decrypt] returns a text only from a ciphertext of one or more
    whole blocks: a length that is no multiple of 16 makes the copy of
    the last block throw a RangeError, and the empty ciphertext fails the
    padding check with "empty data". *)
Theorem decrypt_rejects_partial_blocks
    (encode decode : list Z -> list Z) (ciphertext keyStr sbox : list Z) :
  ((length ciphertext mod 16 <> 0)%nat ->
   decrypt encode decode ciphertext keyStr sbox = inl RangeError)
  /\ (ciphertext = [] ->
      decrypt encode decode ciphertext keyStr sbox = inl (InvalidPadding EmptyData))
  /\ (forall text, decrypt encode decode ciphertext keyStr sbox = inr text ->
        (length ciphertext mod 16 = 0)%nat /\ (16 <= length ciphertext)%nat).
Proof.
  assert (Hragged : (length ciphertext mod 16 <> 0)%nat ->
                    decrypt encode decode ciphertext keyStr sbox = inl RangeError).
  { intros Hmod. unfold decrypt. cbv zeta.
    rewrite ecbLoop_ragged; [reflexivity| |assumption].
    intros b. cbv beta. apply length_decryptBlock. }
  assert (Hempty : ciphertext = [] ->
                   decrypt encode decode ciphertext keyStr sbox
                   = inl (InvalidPadding EmptyData)).
  { intros ->. reflexivity. }
  split; [exact Hragged|]. split; [exact Hempty|].
  intros text Htext.
  destruct (Nat.eq_dec (length ciphertext mod 16)%nat 0%nat) as [Hmod|Hmod].
  - split; [assumption|].
    destruct ciphertext as [|c ciphertext]; [rewrite Hempty in Htext by reflexivity; discriminate|].
    pose proof (Nat.div_mod_eq (length (c :: ciphertext)) 16) as Hdm.
    rewrite Hmod in Hdm. simpl length in *. lia.
  - rewrite Hragged in Htext by assumption. discriminate.
Qed.

(** ** PKCS7 padding and unpadding are inverse to each other *)

Lemma pkcs7Unpad_inr (padded data : list Z) :
  Forall is_byte padded ->
  pkcs7Unpad padded = inr data ->
  exists padLen,
    (1 <= padLen <= 16)%nat /\ (padLen <= length padded)%nat
    /\ data = firstn (length padded - padLen) padded
    /\ skipn (length padded - padLen) padded = repeat (Z.of_nat padLen) padLen.
Proof.
  intros Hbytes. unfold pkcs7Unpad.
  destruct (Nat.eqb_spec (length padded) 0) as [|Hlen]; [discriminate|].
  pose proof (nth_byte padded (length padded - 1) Hbytes) as Hlast.
  set (padLen := nth (length padded - 1) padded 0) in *. unfold is_byte in Hlast.
  destruct (Z.gtb_spec padLen 16) as [|H16]; [discriminate|].
  destruct (Z.eqb_spec padLen 0) as [|H0]; [discriminate|]. cbn [orb].
  destruct (Z.gtb_spec padLen (Z.of_nat (length padded))) as [|Hle]; [discriminate|].
  destruct (find _ _) as [i|] eqn:Hfind; [discriminate|].
  intros [= <-].
  exists (Z.to_nat padLen). split; [lia|]. split; [lia|]. split; [reflexivity|].
  apply (nth_ext _ _ 0 0).
  - rewrite length_skipn, repeat_length. lia.
  - intros j Hj. rewrite length_skipn in Hj.
    rewrite nth_skipn, nth_repeat_lt by lia.
    pose proof (find_none _ _ Hfind (length padded - Z.to_nat padLen + j)%nat) as Hnone.
    cbv beta in Hnone. rewrite Z2Nat.id by lia.
    apply negb_false_iff, Z.eqb_eq in Hnone; [exact Hnone|].
    apply in_seq. lia.
Qed.

(** X21. [pkcs7Pad] appends 1 to 16 bytes, each equal to their number,
    and fills the data up to the next multiple of 16; [pkcs7Unpad]
    returns the data from the padded array; and when [pkcs7Unpad] accepts
    an array of whole blocks, padding its result gives the array back. *)
Theorem pkcs7Pad_pkcs7Unpad_inverse (data padded : list Z) :
  let padLen := (16 - length data mod 16)%nat in
  (1 <= padLen <= 16)%nat
  /\ length (pkcs7Pad data) = (length data + padLen)%nat
  /\ (length (pkcs7Pad data) mod 16 = 0)%nat
  /\ firstn (length data) (pkcs7Pad data) = data
  /\ skipn (length data) (pkcs7Pad data) = repeat (Z.of_nat padLen) padLen
  /\ pkcs7Unpad (pkcs7Pad data) = inr data
  /\ (Forall is_byte padded -> (length padded mod 16 = 0)%nat ->
      pkcs7Unpad padded = inr data -> pkcs7Pad data = padded).
Proof.
  intros padLen.
  pose proof (Nat.mod_upper_bound (length data) 16 ltac:(lia)) as Hmod.
  pose proof (Nat.div_mod_eq (length data) 16) as Hdm.
  split; [subst padLen; lia|].
  split; [unfold pkcs7Pad; rewrite length_app, repeat_length; reflexivity|].
  split.
  { rewrite pkcs7Pad_length. rewrite Nat.mul_comm. apply Nat.Div0.mod_mul. }
  split.
  { unfold pkcs7Pad. rewrite firstn_app, Nat.sub_diag, firstn_all. cbn [firstn].
    apply app_nil_r. }
  split.
  { unfold pkcs7Pad. rewrite skipn_app, Nat.sub_diag, skipn_all. reflexivity. }
  split; [apply pkcs7Unpad_pkcs7Pad|].
  intros Hbytes Hblocks Hunpad.
  destruct (pkcs7Unpad_inr padded data Hbytes Hunpad) as (p & Hp & Hple & Hdata & Htail).
  assert (Hlen : length data = (length padded - p)%nat).
  { rewrite Hdata, length_firstn. lia. }
  assert (Hpad : (16 - length data mod 16)%nat = p).
  { pose proof (Nat.div_mod_eq (length padded) 16) as Hpm. rewrite Hblocks in Hpm.
    destruct (Nat.eq_dec p 16%nat) as [->|Hne].
    - replace (length data) with (16 * (length padded / 16 - 1))%nat by lia.
      rewrite Nat.mul_comm, Nat.Div0.mod_mul. reflexivity.
    - assert (Hm : (length data mod 16 = 16 - p)%nat); [|lia].
      symmetry. apply (Nat.mod_unique _ 16%nat (length padded / 16 - 1)%nat); lia. }
  unfold pkcs7Pad. rewrite Hpad, <- Htail, Hdata. apply firstn_skipn.
Qed.

(** ** Blocks and states *)

(** X22. [bytesToState] fills the 4x4 state column by column, entry
    (row, col) being byte [row + 4 col] of a block of 16 or more bytes;
    [stateToBytes] reads a state of four rows back in the same order,
    each entry reduced modulo 256, and returns 16 bytes; on 16 bytes and
    on 4x4 states of bytes the two are inverse to each other. *)
Theorem bytesToState_column_major (block : list Z) (s : State) (row col : nat) :
  (16 <= length block)%nat -> (4 <= length s)%nat ->
  (row < 4)%nat -> (col < 4)%nat ->
  at2 (bytesToState block) row col = nth (row + 4 * col) block 0
  /\ nth (row + 4 * col) (stateToBytes s) 0 = toUint8 (at2 s row col)
  /\ length (stateToBytes s) = 16%nat
  /\ Forall is_byte (stateToBytes s)
  /\ (length block = 16%nat -> Forall is_byte block ->
      stateToBytes (bytesToState block) = block)
  /\ (wfState s -> bytesToState (stateToBytes s) = s).
Proof.
  intros _ _ Hrow Hcol.
  split.
  { rewrite bytesToState_explicit.
    do 4 (destruct row as [|row];
          [do 4 (destruct col as [|col]; [reflexivity|]); lia|]).
    lia. }
  split.
  { unfold stateToBytes.
    do 4 (destruct row as [|row];
          [do 4 (destruct col as [|col]; [reflexivity|]); lia|]).
    lia. }
  split; [apply length_stateToBytes|].
  split; [apply stateToBytes_bytes|].
  split; [apply stateToBytes_bytesToState|apply bytesToState_stateToBytes].
Qed.

Lemma bytesToState_column_major_witness :
  let block := map Z.of_nat (seq 0 16) in
  let s := bytesToState (repeat 7 16) in
  at2 (bytesToState block) 1 2 = nth (1 + 4 * 2) block 0
  /\ nth (1 + 4 * 2) (stateToBytes s) 0 = toUint8 (at2 s 1 2)
  /\ length (stateToBytes s) = 16%nat
  /\ Forall is_byte (stateToBytes s)
  /\ (length block = 16%nat -> Forall is_byte block ->
      stateToBytes (bytesToState block) = block)
  /\ (wfState s -> bytesToState (stateToBytes s) = s).
Proof.
  apply (bytesToState_column_major (map Z.of_nat (seq 0 16)) (bytesToState (repeat 7 16)) 1 2);
    try lia; simpl; lia.
Defined.

(** ** Nonlinearity *)

(** A sum of [n] terms +1 and -1 has the parity of [n]. *)
Lemma signed_count (p : Z -> bool) (l : list Z) (s : Z) :
  exists c, 0 <= c <= Z.of_nat (length l)
            /\ fold_left (fun sum x => sum + (if p x then 1 else -1)) l s
               = s + 2 * c - Z.of_nat (length l).
Proof.
  revert s. induction l as [|x l IH]; intros s.
  - exists 0. simpl. lia.
  - cbn [fold_left]. destruct (IH (s + (if p x then 1 else -1))) as (c & Hc & ->).
    destruct (p x).
    + exists (c + 1). cbn [length]. lia.
    + exists c. cbn [length]. lia.
Qed.

Lemma walshTransform_even (truthTable : list Z) (mask : Z) :
  exists k, -128 <= k <= 128 /\ walshTransform truthTable mask = 2 * k.
Proof.
  unfold walshTransform.
  destruct (signed_count
              (fun x =>
                 strictEq (Some (Z.land (hammingWeight (Z.land x mask)) 1)) (item truthTable x))
              (range 0 256) 0) as (c & Hc & H).
  rewrite length_range in Hc, H. change (Z.of_nat (Z.to_nat (256 - 0))) with 256 in *.
  exists (c - 128). split; [lia|]. cbv zeta. rewrite H. lia.
Qed.

Lemma maxWalsh_fold (w : Z -> Z) (l : list Z) (m : Z) :
  (forall mask, exists k, -128 <= k <= 128 /\ w mask = 2 * k) ->
  (exists k, 0 <= k <= 128 /\ m = 2 * k) ->
  exists k, 0 <= k <= 128
     /\ fold_left
          (fun maxWalsh mask =>
             let coef := Z.abs (w mask) in
             if coef >? maxWalsh then coef else maxWalsh) l m = 2 * k.
Proof.
  intros Hw. revert m. induction l as [|mask l IH]; intros m Hm; [exact Hm|].
  cbn [fold_left]. apply IH. cbv zeta.
  destruct (Hw mask) as (k & Hk & ->).
  destruct (Z.abs (2 * k) >? m); [|exact Hm].
  exists (Z.abs k). split; [lia|]. lia.
Qed.

Lemma maxWalshOf_even (truthTable : list Z) :
  exists k, 0 <= k <= 128 /\ maxWalshOf truthTable = 2 * k.
Proof.
  apply (maxWalsh_fold (walshTransform truthTable) (range 0 256) 0).
  - apply walshTransform_even.
  - exists 0. lia.
Qed.

Lemma nl_integer (truthTable : list Z) :
  exists n, 0 <= n <= 128 /\ (128 - inject_Z (maxWalshOf truthTable) / 2 == inject_Z n)%Q.
Proof.
  destruct (maxWalshOf_even truthTable) as (k & Hk & ->).
  exists (128 - k). split; [lia|].
  unfold Qeq, Qminus, Qplus, Qopp, Qdiv, Qmult, Qinv, inject_Z. simpl. lia.
Qed.

Lemma min_step (nl minNL : Q) :
  (exists n, 0 <= n <= 128 /\ (nl == inject_Z n)%Q) ->
  (exists n, 0 <= n <= 120 /\ (minNL == inject_Z n)%Q) ->
  exists n, 0 <= n <= 120
            /\ ((if Qlt_le_dec nl minNL then nl else minNL) == inject_Z n)%Q.
Proof.
  intros (a & Ha & Hnl) (b & Hb & Hmin).
  destruct (Qlt_le_dec nl minNL) as [Hlt|Hle].
  - exists a. split; [|exact Hnl].
    rewrite Hnl, Hmin in Hlt. rewrite <- Zlt_Qlt in Hlt. lia.
  - exists b. auto.
Qed.

Lemma min_fold (nlOf : Z -> Q) (l : list Z) (minNL : Q) :
  (forall bit, exists n, 0 <= n <= 128 /\ (nlOf bit == inject_Z n)%Q) ->
  (exists n, 0 <= n <= 120 /\ (minNL == inject_Z n)%Q) ->
  exists n, 0 <= n <= 120
    /\ (fold_left (fun minNL bit => if Qlt_le_dec (nlOf bit) minNL then nlOf bit else minNL)
          l minNL == inject_Z n)%Q.
Proof.
  intros Hnl. revert minNL. induction l as [|bit l IH]; intros minNL Hmin; [exact Hmin|].
  cbn [fold_left]. apply IH. apply min_step; [apply Hnl|exact Hmin].
Qed.

Lemma min_fold2 (nlOf : Z -> Z -> Q) (inner : Z -> list Z) (l : list Z) (minNL : Q) :
  (forall bit1 bit2, exists n, 0 <= n <= 128 /\ (nlOf bit1 bit2 == inject_Z n)%Q) ->
  (exists n, 0 <= n <= 120 /\ (minNL == inject_Z n)%Q) ->
  exists n, 0 <= n <= 120
    /\ (fold_left
          (fun minNL bit1 =>
             fold_left
               (fun minNL bit2 =>
                  if Qlt_le_dec (nlOf bit1 bit2) minNL then nlOf bit1 bit2 else minNL)
               (inner bit1) minNL)
          l minNL == inject_Z n)%Q.
Proof.
  intros Hnl. revert minNL. induction l as [|bit1 l IH]; intros minNL Hmin; [exact Hmin|].
  cbn [fold_left]. apply IH. apply min_fold; [apply Hnl|exact Hmin].
Qed.

(** X23. [calculateNL] and [calculateBICNL] return whole numbers between
    0 and 120, for every table: each Walsh coefficient is even, so that
    halving it leaves no fraction, and the minimum starts from 120. *)
Theorem calculateNL_range (sbox : list Z) :
  (exists n, 0 <= n <= 120 /\ (calculateNL sbox == inject_Z n)%Q)
  /\ (exists n, 0 <= n <= 120 /\ (calculateBICNL sbox == inject_Z n)%Q)
  /\ (forall truthTable mask, Z.even (walshTransform truthTable mask) = true)
  /\ (forall truthTable mask, -256 <= walshTransform truthTable mask <= 256).
Proof.
  assert (Hstart : exists n, 0 <= n <= 120 /\ (120 == inject_Z n)%Q).
  { exists 120. split; [lia|reflexivity]. }
  split; [|split; [|split]].
  - apply (min_fold
             (fun bit =>
                128 - inject_Z
                        (maxWalshOf
                           (map (fun x => Z.land (Z.shiftr (get sbox x) bit) 1) (range 0 256)))
                      / 2)%Q
             (range 0 8) 120%Q); [|exact Hstart].
    intros bit. apply nl_integer.
  - apply (min_fold2
             (fun bit1 bit2 =>
                128 - inject_Z
                        (maxWalshOf
                           (map (fun x =>
                                   Z.lxor (Z.land (Z.shiftr (get sbox x) bit1) 1)
                                          (Z.land (Z.shiftr (get sbox x) bit2) 1))
                                (range 0 256)))
                      / 2)%Q
             (fun bit1 => range (bit1 + 1) 8) (range 0 8) 120%Q); [|exact Hstart].
    intros bit1 bit2. apply nl_integer.
  - intros truthTable mask.
    destruct (walshTransform_even truthTable mask) as (k & _ & ->).
    rewrite Z.even_mul. reflexivity.
  - intros truthTable mask.
    destruct (walshTransform_even truthTable mask) as (k & Hk & ->). lia.
Qed.

(** ** Differential probability *)

Lemma diffCounts_fold (sbox : list Z) (inputDiff : Z) (l counts : list Z) (d : Z) :
  length counts = 256%nat -> is_byte d ->
  (forall x, In x l ->
     is_byte (Z.lxor (get sbox x) (get sbox (Z.lxor x inputDiff)))) ->
  get (fold_left
         (fun diffCounts x =>
            let outputDiff := Z.lxor (get sbox x) (get sbox (Z.lxor x inputDiff)) in
            set diffCounts outputDiff (get diffCounts outputDiff + 1))
         l counts) d
  = get counts d + diffCount sbox inputDiff d l.
Proof.
  revert counts. induction l as [|x l IH]; intros counts Hlen Hd Hbytes.
  - unfold diffCount. simpl. lia.
  - cbn [fold_left]. cbv zeta.
    pose proof (Hbytes x (or_introl eq_refl)) as Hx.
    rewrite IH; [|now rewrite length_set|assumption|intros y Hy; apply Hbytes; now right].
    unfold diffCount. cbn [List.filter].
    destruct (Z.eqb_spec (Z.lxor (get sbox x) (get sbox (Z.lxor x inputDiff))) d)
      as [->|Hne].
    + rewrite get_set_eq by (unfold is_byte in Hd; lia). cbn [length]. lia.
    + rewrite get_set_ne by (unfold is_byte in *; lia || assumption). lia.
Qed.

Lemma get_diffCounts (sbox : list Z) (inputDiff d : Z) :
  (forall x, is_byte x -> is_byte (get sbox x)) -> is_byte inputDiff -> is_byte d ->
  get (diffCounts sbox inputDiff) d = diffCount sbox inputDiff d (range 0 256).
Proof.
  intros Hs Hi Hd. unfold diffCounts.
  rewrite diffCounts_fold; [|apply repeat_length|assumption|].
  - replace (get (repeat 0 256) d) with 0; [lia|].
    unfold get. destruct d; try reflexivity; now rewrite nth_repeat.
  - intros x Hx. apply In_range in Hx.
    apply lxor_byte; apply Hs; [exact Hx|now apply lxor_byte].
Qed.

Lemma diffCount_le (sbox : list Z) (inputDiff d : Z) :
  0 <= diffCount sbox inputDiff d (range 0 256) <= 256.
Proof.
  unfold diffCount.
  pose proof (List.filter_length_le
                (fun x => Z.lxor (get sbox x) (get sbox (Z.lxor x inputDiff)) =? d)
                (range 0 256)) as H.
  rewrite length_range in H. lia.
Qed.

(** A maximum search returns a bound of its start value and of all
    candidates, and it is one of them. *)
Lemma max_search (f : Z -> Q) (l : list Z) (m : Q) :
  let r := fold_left (fun maxProb i => if Qlt_le_dec maxProb (f i) then f i else maxProb) l m in
  (m <= r)%Q
  /\ (forall i, In i l -> (f i <= r)%Q)
  /\ (r = m \/ exists i, In i l /\ r = f i).
Proof.
  cbv zeta. revert m. induction l as [|x l IH]; intros m; cbn [fold_left].
  - split; [apply Qle_refl|]. split; [intros i []|now left].
  - specialize (IH (if Qlt_le_dec m (f x) then f x else m)).
    destruct (Qlt_le_dec m (f x)) as [Hlt|Hle]; destruct IH as (H1 & H2 & H3).
    + split; [eapply Qle_trans; [apply Qlt_le_weak, Hlt|exact H1]|].
      split.
      * intros i [<-|Hi]; [exact H1|now apply H2].
      * right. destruct H3 as [H3|(i & Hi & H3)].
        -- exists x. split; [now left|exact H3].
        -- exists i. split; [now right|exact H3].
    + split; [exact H1|]. split.
      * intros i [<-|Hi]; [eapply Qle_trans; eassumption|now apply H2].
      * destruct H3 as [H3|(i & Hi & H3)]; [now left|].
        right. exists i. split; [now right|exact H3].
Qed.

Lemma prob_le (a b : Z) : a <= b -> (inject_Z a / 256 <= inject_Z b / 256)%Q.
Proof.
  intros H. unfold Qle, Qdiv, Qmult, Qinv, inject_Z. simpl. lia.
Qed.

Lemma prob_le_1 (a : Z) : a <= 256 -> (inject_Z a / 256 <= 1)%Q.
Proof.
  intros H. unfold Qle, Qdiv, Qmult, Qinv, inject_Z. simpl. lia.
Qed.

Lemma prob_ge (a b : Z) : b <= a -> (b # 256 <= inject_Z a / 256)%Q.
Proof.
  intros H. unfold Qle, Qdiv, Qmult, Qinv, inject_Z. simpl. lia.
Qed.

Lemma dap_scan (prob : Z -> Z -> Q) (ds l : list Z) (m : Q) :
  (forall i d, In i l -> In d ds -> (prob i d <= 1)%Q) ->
  (0 <= m <= 1)%Q ->
  let r :=
    fold_left
      (fun maxProb inputDiff =>
         fold_left
           (fun maxProb outputDiff =>
              if Qlt_le_dec maxProb (prob inputDiff outputDiff)
              then prob inputDiff outputDiff else maxProb)
           ds maxProb)
      l m in
  (m <= r <= 1)%Q
  /\ forall i d, In i l -> In d ds -> (prob i d <= r)%Q.
Proof.
  cbv zeta. revert m. induction l as [|inputDiff l IH]; intros m Hl Hm; cbn [fold_left].
  - split; [split; [apply Qle_refl|apply Hm]|intros ? ? []].
  - destruct (max_search (prob inputDiff) ds m) as (H1 & H2 & H3).
    cbv zeta in H1, H2, H3. revert H1 H2 H3.
    generalize (fold_left
                  (fun maxProb i =>
                     if Qlt_le_dec maxProb (prob inputDiff i) then prob inputDiff i else maxProb)
                  ds m).
    intros m' H1 H2 H3.
    assert (Hm' : (0 <= m' <= 1)%Q).
    { split; [eapply Qle_trans; [apply Hm|exact H1]|].
      destruct H3 as [->|(d & Hd & ->)]; [apply Hm|].
      apply Hl; [now left|assumption]. }
    destruct (IH m' (fun i d Hin => Hl i d (or_intror Hin)) Hm') as ((Hlow & Hhigh) & Hall).
    split; [split; [eapply Qle_trans; eassumption|exact Hhigh]|].
    intros i d [<-|Hin] Hd; [|now apply Hall].
    eapply Qle_trans; [|exact Hlow]. now apply H2.
Qed.

Lemma calculateDAP_scan (sbox : list Z) :
  (forall x, is_byte x -> is_byte (get sbox x)) ->
  (calculateDAP sbox <= 1)%Q
  /\ forall inputDiff d, 1 <= inputDiff < 256 -> is_byte d ->
       (inject_Z (diffCount sbox inputDiff d (range 0 256)) / 256 <= calculateDAP sbox)%Q.
Proof.
  intros Hs.
  pose proof (dap_scan (fun inputDiff outputDiff =>
                          inject_Z (get (diffCounts sbox inputDiff) outputDiff) / 256)%Q
                (range 0 256) (range 1 256) 0%Q) as H.
  cbv zeta in H. fold (calculateDAP sbox) in H.
  destruct H as ((_ & Hhigh) & Hall).
  - intros i d Hi Hd. apply In_range in Hi, Hd.
    rewrite get_diffCounts by (try assumption; unfold is_byte; lia).
    apply prob_le_1. apply diffCount_le.
  - split; discriminate.
  - split; [exact Hhigh|]. intros inputDiff d Hi Hd.
    rewrite <- get_diffCounts by (try assumption; unfold is_byte; lia).
    apply Hall; now apply In_range.
Qed.

(** X24. For a table whose entries at the bytes are bytes,
    [calculateDAP] lies between 2/256 and 1: the inputs 0 and 1 always
    share their output difference under the input difference 1.  The
    output difference 0 is counted like every other, so that a table with
    the same entry everywhere has the value 1. *)
Theorem calculateDAP_bounds (sbox : list Z) :
  (forall x, is_byte x -> is_byte (get sbox x)) ->
  (1 # 128 <= calculateDAP sbox)%Q
  /\ (calculateDAP sbox <= 1)%Q
  /\ ((forall x, is_byte x -> get sbox x = get sbox 0) -> (calculateDAP sbox == 1)%Q).
Proof.
  intros Hs.
  destruct (calculateDAP_scan sbox Hs) as (Hhigh & Hall).
  assert (B0 : is_byte 0) by (unfold is_byte; lia).
  assert (B1 : is_byte 1) by (unfold is_byte; lia).
  split; [|split; [exact Hhigh|]].
  - pose proof (Hall 1 (Z.lxor (get sbox 0) (get sbox 1)) ltac:(lia)
                  (lxor_byte _ _ (Hs 0 B0) (Hs 1 B1))) as H.
    eapply Qle_trans; [|exact H].
    apply (Qle_trans _ (2 # 256)); [discriminate|]. apply prob_ge.
    unfold diffCount. change (range 0 256) with (0 :: 1 :: range 2 256).
    cbn [List.filter]. change (Z.lxor 0 1) with 1. change (Z.lxor 1 1) with 0.
    rewrite Z.eqb_refl. rewrite (Z.lxor_comm (get sbox 1)), Z.eqb_refl.
    cbn [length]. lia.
  - intros Hconst. apply Qle_antisym; [exact Hhigh|].
    pose proof (Hall 1 0 ltac:(lia) B0) as H.
    eapply Qle_trans; [|exact H].
    apply (Qle_trans _ (256 # 256)); [discriminate|]. apply prob_ge.
    unfold diffCount.
    rewrite List.forallb_filter_id.
    + rewrite length_range. reflexivity.
    + apply forallb_forall. intros x Hx. apply In_range in Hx.
      rewrite (Hconst x Hx), (Hconst (Z.lxor x 1)) by (now apply lxor_byte).
      now rewrite Z.lxor_nilpotent.
Qed.

Lemma calculateDAP_bounds_witness :
  (1 # 128 <= calculateDAP zero_table)%Q
  /\ (calculateDAP zero_table <= 1)%Q
  /\ ((forall x, is_byte x -> get zero_table x = get zero_table 0) ->
      (calculateDAP zero_table == 1)%Q).
Proof.
  apply (calculateDAP_bounds zero_table).
  intros x _. rewrite get_zero_table. unfold is_byte. lia.
Defined.

(** ** The store *)

Lemma isMatrixValid_K44 : isMatrixValid K44_MATRIX = true.
Proof. vm_compute. reflexivity. Qed.

Lemma randomAttempts_draws (random : nat -> Z) (fuel attempts : nat) :
  exists n, (attempts <= n)%nat
            /\ randomAttempts random fuel attempts
               = map (fun j => random (8 * n + j)%nat) (seq 0 8).
Proof.
  revert attempts. induction fuel as [|fuel IH]; intros attempts; cbn [randomAttempts].
  - exists attempts. split; [lia|]. now destruct (_ && _).
  - destruct (_ && _).
    + destruct (IH (S attempts)) as (n & Hn & ->). exists n. split; [lia|reflexivity].
    + exists attempts. split; [lia|reflexivity].
Qed.

(** The loop stops by its own test before the fuel is used up. *)
Lemma randomAttempts_fuel (random : nat -> Z) (fuel attempts : nat) :
  (999 <= attempts + fuel)%nat ->
  randomAttempts random (S fuel) attempts = randomAttempts random fuel attempts.
Proof.
  revert attempts. induction fuel as [|fuel IH]; intros attempts Hfuel.
  - cbn [randomAttempts].
    destruct (Nat.ltb_spec (S attempts) 1000) as [Hlt|Hge]; [lia|].
    now rewrite !andb_false_r.
  - change (randomAttempts random (S (S fuel)) attempts)
      with (let matrix := map (fun j => random (8 * attempts + j)%nat) (seq 0 8) in
            if negb (isMatrixValid matrix) && (S attempts <? 1000)%nat
            then randomAttempts random (S fuel) (S attempts) else matrix).
    change (randomAttempts random (S fuel) attempts)
      with (let matrix := map (fun j => random (8 * attempts + j)%nat) (seq 0 8) in
            if negb (isMatrixValid matrix) && (S attempts <? 1000)%nat
            then randomAttempts random fuel (S attempts) else matrix).
    cbv zeta. destruct (_ && _); [|reflexivity]. apply IH. lia.
Qed.

(** X25. [generateRandomValidMatrix] always returns a matrix that
    [isMatrixValid] accepts, whatever the random numbers are: eight
    numbers of one attempt, or the K44 matrix after 1000 failed
    attempts.  When the first eight numbers form a valid matrix they are
    the result. *)
Theorem generateRandomValidMatrix_valid (random : nat -> Z) :
  let matrix := generateRandomValidMatrix random in
  isMatrixValid matrix = true
  /\ length matrix = 8%nat
  /\ (matrix = K44_MATRIX
      \/ exists n, (n < 1000)%nat
                   /\ matrix = map (fun j => random (8 * n + j)%nat) (seq 0 8))
  /\ (isMatrixValid (map random (seq 0 8)) = true -> matrix = map random (seq 0 8))
  /\ (forall extra, randomAttempts random (999 + extra) 0 = randomAttempts random 999 0).
Proof.
  cbv zeta. unfold generateRandomValidMatrix.
  destruct (randomAttempts_draws random 999 0) as (n & _ & Hdraws).
  assert (Hfirst : isMatrixValid (map random (seq 0 8)) = true ->
                   randomAttempts random 999 0 = map random (seq 0 8)).
  { intros Hv.
    change (randomAttempts random 999 0)
      with (let matrix := map (fun j => random (8 * 0 + j)%nat) (seq 0 8) in
            if negb (isMatrixValid matrix) && (1 <? 1000)%nat
            then randomAttempts random 998 1 else matrix).
    cbv zeta. change (map (fun j => random (8 * 0 + j)%nat) (seq 0 8)) with (map random (seq 0 8)).
    now rewrite Hv. }
  assert (Hbound : forall fuel attempts,
             (attempts + fuel <= 999)%nat ->
             exists n, (n < 1000)%nat
                       /\ randomAttempts random fuel attempts
                          = map (fun j => random (8 * n + j)%nat) (seq 0 8)).
  { induction fuel as [|fuel IH]; intros attempts Hle; cbn [randomAttempts].
    - exists attempts. split; [lia|]. now destruct (_ && _).
    - destruct (_ && _).
      + apply IH. lia.
      + exists attempts. split; [lia|reflexivity]. }
  destruct (isMatrixValid (randomAttempts random 999 0)) eqn:Hvalid; cbn [negb].
  - split; [exact Hvalid|]. split; [rewrite Hdraws; reflexivity|].
    split; [right; apply (Hbound 999%nat 0%nat); lia|]. split; [exact Hfirst|].
    induction extra as [|extra IHe]; [reflexivity|].
    rewrite Nat.add_succ_r, randomAttempts_fuel by lia. exact IHe.
  - split; [exact isMatrixValid_K44|]. split; [reflexivity|].
    split; [now left|]. split.
    + intros Hv. rewrite (Hfirst Hv) in Hvalid. congruence.
    + induction extra as [|extra IHe]; [reflexivity|].
      rewrite Nat.add_succ_r, randomAttempts_fuel by lia. exact IHe.
Qed.

Lemma consistent_regenerate (st : Store.CryptoState) (matrix : list Z) (c : Z) :
  Store.consistent (Store.setMatrixState st matrix c (Store.regenerateSBox matrix c)).
Proof.
  unfold Store.consistent, Store.setMatrixState, Store.regenerateSBox. cbv zeta.
  destruct (isMatrixValid matrix) eqn:Hvalid; cbn; rewrite Hvalid; auto.
Qed.

Lemma length_trace (block key sbox : list Z) :
  length (snd (fst (encryptBlockWithSteps block key sbox))) = 41%nat.
Proof.
  unfold encryptBlockWithSteps.
  generalize (keyExpansion key sbox) as roundKeys.
  generalize (bytesToState block) as st. intros st roundKeys.
  cbv [fold_left seq traceRound app]. reflexivity.
Qed.

Lemma act_consistent (encode decode : list Z -> list Z)
    (atobTrimmed : list Z -> option (list Z)) (st : Store.CryptoState) (a : Store.Action) :
  Store.consistent st -> Store.consistent (Store.act encode decode atobTrimmed st a).
Proof.
  intros Hst. destruct a; cbn [Store.act];
    try apply consistent_regenerate; try exact Hst.
  - unfold Store.performEncryption.
    destruct (_ || _); [exact Hst|]. destruct (encrypt _ _ _ _); exact Hst.
  - unfold Store.performDecryption.
    destruct (Store.ciphertext st); [|exact Hst].
    destruct (Store.emptyString _); exact Hst.
  - unfold Store.performDecryptionFromInput.
    destruct (_ || _); [exact Hst|].
    destruct (atobTrimmed _); [|exact Hst]. destruct (decrypt _ _ _ _ _); exact Hst.
  - unfold Store.encryptWithVisualization.
    destruct (_ || _); [exact Hst|].
    destruct (encryptBlockWithSteps _ _ _) as [[c steps] keys]. exact Hst.
  - unfold Store.setCurrentStepIndex. destruct (_ && _); exact Hst.
  - unfold Store.nextStep. destruct (lessThan _ _); exact Hst.
  - unfold Store.prevStep. destruct (lessThan _ _); exact Hst.
Qed.

Lemma stepIndex_setMatrixState (st : Store.CryptoState) (matrix : list Z) (c : Z)
    (regenerated : list Z * list Z * bool) :
  Store.stepIndexInRange st ->
  Store.stepIndexInRange (Store.setMatrixState st matrix c regenerated).
Proof. destruct regenerated as [[newSbox newInverse] valid]. intros Hst. exact Hst. Qed.

Lemma Qclt_Q2Qc (p q : Q) : Qcanon.Qclt (Qcanon.Q2Qc p) (Qcanon.Q2Qc q) <-> (p < q)%Q.
Proof.
  unfold Qcanon.Qclt. cbn [Qcanon.this Qcanon.Q2Qc]. now rewrite !Qred_correct.
Qed.

Lemma lessThan_Int (a b : Z) : lessThan (Int a) (Int b) = (a <? b).
Proof.
  unfold Int. cbn [lessThan].
  destruct (Qcanon.Qclt_le_dec _ _) as [Hlt|Hle], (Z.ltb_spec a b) as [H|H];
    try reflexivity; exfalso.
  - apply (proj1 (Qclt_Q2Qc (inject_Z a) (inject_Z b))) in Hlt.
    rewrite <- Zlt_Qlt in Hlt. lia.
  - apply (proj1 (Qcle_Q2Qc (inject_Z b) (inject_Z a))) in Hle.
    rewrite <- Zle_Qle in Hle. lia.
Qed.

Lemma atLeast_Int (a b : Z) : atLeast (Int a) (Int b) = (a >=? b).
Proof.
  change (atLeast (Int a) (Int b)) with (negb (lessThan (Int a) (Int b))).
  rewrite lessThan_Int. destruct (Z.ltb_spec a b), (Z.geb_spec a b); try reflexivity; lia.
Qed.

Lemma addInt_Int (a z : Z) : addInt (Int a) z = Int (a + z).
Proof.
  unfold Int. cbn [addInt]. f_equal. unfold Qcanon.Qcplus.
  apply Qcanon.Q2Qc_eq_iff. cbn [Qcanon.this Qcanon.Q2Qc].
  now rewrite !Qred_correct, inject_Z_plus.
Qed.

Lemma act_stepIndex (encode decode : list Z -> list Z)
    (atobTrimmed : list Z -> option (list Z)) (st : Store.CryptoState) (a : Store.Action) :
  Store.integerIndex a -> Store.stepIndexInRange st ->
  Store.stepIndexInRange (Store.act encode decode atobTrimmed st a).
Proof.
  intros Hint Hst. destruct a; cbn [Store.act];
    try (apply stepIndex_setMatrixState; exact Hst); try exact Hst.
  - unfold Store.performEncryption.
    destruct (_ || _); [exact Hst|]. destruct (encrypt _ _ _ _); exact Hst.
  - unfold Store.performDecryption.
    destruct (Store.ciphertext st); [|exact Hst].
    destruct (Store.emptyString _); exact Hst.
  - unfold Store.performDecryptionFromInput.
    destruct (_ || _); [exact Hst|].
    destruct (atobTrimmed _); [|exact Hst]. destruct (decrypt _ _ _ _ _); exact Hst.
  - unfold Store.encryptWithVisualization.
    destruct (_ || _); [exact Hst|].
    pose proof (length_trace (encode (canonicalKey (Store.plaintext st)))
                  (encode (canonicalKey (Store.encryptionKey st))) (Store.sbox st)) as Hlen.
    destruct (encryptBlockWithSteps _ _ _) as [[c steps] keys].
    right. cbn in *. split; [exact Hlen|]. exists 0. split; [lia|reflexivity].
  - destruct Hint as [i ->]. unfold Store.setCurrentStepIndex.
    rewrite atLeast_Int, lessThan_Int.
    destruct (Z.geb_spec i 0) as [Hge|Hlt]; cbn [andb]; [|exact Hst].
    destruct (Z.ltb_spec i (Z.of_nat (length (Store.encryptionSteps st)))) as [Hlt|Hge'];
      [|exact Hst].
    destruct Hst as [[Hnil _]|[Hlen _]].
    + rewrite Hnil in Hlt. simpl in Hlt. lia.
    + right. cbn. split; [exact Hlen|]. rewrite Hlen in Hlt. exists i. split; [lia|reflexivity].
  - unfold Store.nextStep. destruct Hst as [[Hnil H0]|[Hlen (i & Hi & Hidx)]].
    + rewrite Hnil, H0, lessThan_Int. left. split; assumption.
    + rewrite Hlen, Hidx, lessThan_Int.
      destruct (Z.ltb_spec i (Z.of_nat 41 - 1)) as [Hlt|Hge].
      * right. cbn. split; [exact Hlen|]. exists (i + 1). split; [lia|apply addInt_Int].
      * right. split; [exact Hlen|]. exists i. split; assumption.
  - unfold Store.prevStep. destruct Hst as [[Hnil H0]|[Hlen (i & Hi & Hidx)]].
    + rewrite H0, lessThan_Int. left. split; assumption.
    + rewrite Hidx, lessThan_Int.
      destruct (Z.ltb_spec 0 i) as [Hlt|Hge].
      * right. cbn. split; [exact Hlen|]. exists (i + -1). split; [lia|apply addInt_Int].
      * right. split; [exact Hlen|]. exists i. split; assumption.
Qed.

Lemma initialState_consistent : Store.consistent Store.initialState.
Proof.
  unfold Store.consistent, Store.initialState. cbn.
  rewrite isMatrixValid_K44. auto.
Qed.

Lemma actions_consistent (encode decode : list Z -> list Z)
    (atobTrimmed : list Z -> option (list Z)) (actions : list Store.Action)
    (st : Store.CryptoState) :
  Store.consistent st ->
  Store.consistent (fold_left (Store.act encode decode atobTrimmed) actions st).
Proof.
  revert st. induction actions as [|a actions IH]; intros st Hst; [exact Hst|].
  cbn [fold_left]. apply IH. now apply act_consistent.
Qed.

Lemma emptyString_false (s : list Z) : s <> [] -> Store.emptyString s = false.
Proof. now destruct s. Qed.

(** The fields that the matrix actions leave alone. *)
Lemma setMatrixState_keeps (st : Store.CryptoState) (matrix : list Z) (c : Z)
    (regenerated : list Z * list Z * bool) :
  let st' := Store.setMatrixState st matrix c regenerated in
  Store.plaintext st' = Store.plaintext st
  /\ Store.encryptionKey st' = Store.encryptionKey st
  /\ Store.ciphertext st' = Store.ciphertext st
  /\ Store.encryptionSbox st' = Store.encryptionSbox st.
Proof. destruct regenerated as [[newSbox newInverse] valid]. cbn. auto. Qed.

Lemma edits_keep (encode decode : list Z -> list Z)
    (atobTrimmed : list Z -> option (list Z)) (edits : list Store.Action)
    (st : Store.CryptoState) :
  forallb Store.editsMatrix edits = true ->
  let st' := fold_left (Store.act encode decode atobTrimmed) edits st in
  Store.plaintext st' = Store.plaintext st
  /\ Store.encryptionKey st' = Store.encryptionKey st
  /\ Store.ciphertext st' = Store.ciphertext st
  /\ Store.encryptionSbox st' = Store.encryptionSbox st.
Proof.
  cbv zeta. revert st. induction edits as [|a edits IH]; intros st Hedits; [cbn; auto|].
  cbn [forallb] in Hedits. apply andb_prop in Hedits as [Ha Hedits].
  cbn [fold_left]. destruct (IH (Store.act encode decode atobTrimmed st a) Hedits)
    as (-> & -> & -> & ->).
  destruct a; try discriminate Ha; cbn [Store.act]; apply setMatrixState_keeps.
Qed.

(** X26. In every state that the store reaches from its initial state,
    by any sequence of its actions, the flag [isMatrixValid] is the
    answer of [isMatrixValid] on the matrix, the S-box is the one
    generated from the matrix and the constant (the empty array for an
    invalid matrix), and the inverse S-box is the one generated from the
    S-box. *)
Theorem store_sbox_consistent (encode decode : list Z -> list Z)
    (atobTrimmed : list Z -> option (list Z)) (actions : list Store.Action) :
  let st := fold_left (Store.act encode decode atobTrimmed) actions Store.initialState in
  Store.isValid st = isMatrixValid (Store.affineMatrix st)
  /\ Store.sbox st
     = (if Store.isValid st
        then generateSBox (Store.affineMatrix st) (Store.constant st) else [])
  /\ Store.inverseSbox st
     = (if Store.isValid st then generateInverseSBox (Store.sbox st) else []).
Proof.
  cbv zeta. apply (actions_consistent encode decode atobTrimmed actions Store.initialState).
  exact initialState_consistent.
Qed.

(** X27. When [setCurrentStepIndex] is given integers, as by its caller
    in the step list, the step index points into the trace in every state
    that the store reaches: the trace is empty and the index is 0, or the
    trace has 41 steps and the index is an integer in 0..40.  The guard of
    [setCurrentStepIndex] itself compares numbers only: on a trace it
    also stores the index 0.5. *)
Theorem store_step_index_in_range (encode decode : list Z -> list Z)
    (atobTrimmed : list Z -> option (list Z)) (actions : list Store.Action)
    (st : Store.CryptoState) :
  Forall Store.integerIndex actions ->
  let reached := fold_left (Store.act encode decode atobTrimmed) actions Store.initialState in
  ((Store.encryptionSteps reached = [] /\ Store.currentStepIndex reached = Int 0)
   \/ (length (Store.encryptionSteps reached) = 41%nat
       /\ exists i, 0 <= i < 41 /\ Store.currentStepIndex reached = Int i))
  /\ (Store.encryptionSteps st <> [] ->
      Store.currentStepIndex
        (Store.setCurrentStepIndex (Finite (Qcanon.Q2Qc (1 # 2))) st)
      = Finite (Qcanon.Q2Qc (1 # 2))).
Proof.
  intros Hint. cbv zeta. split.
  - fold (Store.stepIndexInRange
            (fold_left (Store.act encode decode atobTrimmed) actions Store.initialState)).
    assert (Hinit : Store.stepIndexInRange Store.initialState) by (left; split; reflexivity).
    revert Hinit. generalize Store.initialState. clear st.
    induction Hint as [|a actions Ha _ IH]; intros st Hst; [exact Hst|].
    cbn [fold_left]. apply IH. now apply act_stepIndex.
  - intros Hsteps. unfold Store.setCurrentStepIndex.
    destruct (Store.encryptionSteps st) as [|step steps]; [congruence|].
    assert (Hguard : atLeast (Finite (Qcanon.Q2Qc (1 # 2))) (Int 0)
                     && lessThan (Finite (Qcanon.Q2Qc (1 # 2)))
                          (Int (Z.of_nat (length (step :: steps)))) = true).
    { apply andb_true_intro. split.
      { unfold atLeast, Int. cbn [lessThan].
        destruct (Qcanon.Qclt_le_dec _ _) as [Hlt|Hle]; [|reflexivity].
        exfalso. apply (proj1 (Qclt_Q2Qc (1 # 2) (inject_Z 0))) in Hlt.
        revert Hlt. unfold Qlt. simpl. lia. }
      unfold Int. cbn [lessThan].
      destruct (Qcanon.Qclt_le_dec _ _) as [Hlt|Hle]; [reflexivity|].
      exfalso. apply (proj1 (Qcle_Q2Qc _ _)) in Hle.
      assert (H1 : (1 <= inject_Z (Z.of_nat (length (step :: steps))))%Q).
      { change 1%Q with (inject_Z 1). rewrite <- Zle_Qle. cbn [length]. lia. }
      assert (H2 : (1 <= 1 # 2)%Q) by (eapply Qle_trans; eassumption).
      revert H2. unfold Qle. simpl. lia. }
    rewrite Hguard. reflexivity.
Qed.

Lemma store_step_index_in_range_witness :
  let encode := fun s : list Z => s in
  let decode := fun b : list Z => b in
  let atobTrimmed := fun _ : list Z => @None (list Z) in
  let actions :=
    [Store.ASetPlaintext [72; 105]; Store.ASetEncryptionKey [107];
     Store.AEncryptWithVisualization; Store.ASetCurrentStepIndex (Int 40);
     Store.ANextStep] in
  let st := Store.initialState in
  let reached := fold_left (Store.act encode decode atobTrimmed) actions Store.initialState in
  ((Store.encryptionSteps reached = [] /\ Store.currentStepIndex reached = Int 0)
   \/ (length (Store.encryptionSteps reached) = 41%nat
       /\ exists i, 0 <= i < 41 /\ Store.currentStepIndex reached = Int i))
  /\ (Store.encryptionSteps st <> [] ->
      Store.currentStepIndex
        (Store.setCurrentStepIndex (Finite (Qcanon.Q2Qc (1 # 2))) st)
      = Finite (Qcanon.Q2Qc (1 # 2))).
Proof.
  cbv zeta.
  apply (store_step_index_in_range (fun s => s) (fun b => b) (fun _ => None)
           [Store.ASetPlaintext [72; 105]; Store.ASetEncryptionKey [107];
            Store.AEncryptWithVisualization; Store.ASetCurrentStepIndex (Int 40);
            Store.ANextStep] Store.initialState).
  repeat constructor. exists 40. reflexivity.
Defined.

(** X28. [performDecryption] decrypts with the S-box that
    [performEncryption] saved, not with the current one.  In a state
    that the store has reached, with a valid matrix, a constant byte, a
    plaintext that the platform's codec reproduces and a key, both not
    empty: after [performEncryption], then any matrix actions (bits,
    presets, random or cleared matrix, constant), [performDecryption]
    sets [decryptedText] to the plaintext. *)
Theorem store_decrypts_after_matrix_edits (encode decode : list Z -> list Z)
    (atobTrimmed : list Z -> option (list Z)) (actions edits : list Store.Action)
    (st : Store.CryptoState) :
  st = fold_left (Store.act encode decode atobTrimmed) actions Store.initialState ->
  Store.isValid st = true -> is_byte (Store.constant st) ->
  Store.plaintext st <> [] -> Store.encryptionKey st <> [] ->
  Forall is_byte (encode (Store.plaintext st)) ->
  Forall is_byte (encode (canonicalKey (Store.encryptionKey st))) ->
  decode (encode (Store.plaintext st)) = Store.plaintext st ->
  forallb Store.editsMatrix edits = true ->
  let encrypted := Store.performEncryption encode st in
  let edited := fold_left (Store.act encode decode atobTrimmed) edits encrypted in
  Store.decryptedText encrypted = Store.Text []
  /\ Store.encryptionSbox edited
     = Some (generateSBox (Store.affineMatrix st) (Store.constant st))
  /\ Store.decryptedText (Store.performDecryption encode decode edited)
     = Store.Text (Store.plaintext st).
Proof.
  intros Hreach Hvalid Hc Hplain Hkey Hp Hk Hcodec Hedits.
  assert (Hst : Store.consistent st).
  { rewrite Hreach. apply actions_consistent. exact initialState_consistent. }
  clear Hreach. destruct Hst as (Hmatrix & Hsbox & _).
  rewrite Hvalid in Hmatrix, Hsbox. symmetry in Hmatrix.
  pose proof (generateSBox_injective _ _ Hmatrix Hc) as Hs. rewrite <- Hsbox in Hs.
  destruct (ecb_roundtrip (pkcs7Pad (encode (Store.plaintext st)))
              (encode (canonicalKey (Store.encryptionKey st))) (Store.sbox st) _
              (pkcs7Pad_length _) (pkcs7Pad_bytes _ Hp) Hk Hs)
    as (c & Henc & _ & Hdec).
  assert (Hencrypted :
            Store.performEncryption encode st
            = Store.setEncryptionFields st (Store.plaintext st) (Store.encryptionKey st)
                (Some c) (Store.ciphertextInput st) (Store.Text []) (Some (Store.sbox st))).
  { unfold Store.performEncryption.
    rewrite Hvalid, !emptyString_false by assumption.
    cbn [negb orb]. unfold encrypt. now rewrite Henc. }
  cbv zeta. rewrite Hencrypted.
  destruct (edits_keep encode decode atobTrimmed edits
              (Store.setEncryptionFields st (Store.plaintext st) (Store.encryptionKey st)
                 (Some c) (Store.ciphertextInput st) (Store.Text []) (Some (Store.sbox st)))
              Hedits) as (Hp' & Hk' & Hc' & Hs').
  cbn [Store.plaintext Store.encryptionKey Store.ciphertext Store.encryptionSbox
       Store.setEncryptionFields] in Hp', Hk', Hc', Hs'.
  split; [reflexivity|]. split; [now rewrite Hs', Hsbox|].
  unfold Store.performDecryption. rewrite Hc', Hk', Hs'.
  rewrite emptyString_false by assumption.
  assert (Hlen : (length (Store.sbox st) =? 256)%nat = true).
  { rewrite Hsbox, length_generateSBox. reflexivity. }
  rewrite Hlen. cbn [negb].
  unfold decrypt. rewrite Hdec, pkcs7Unpad_pkcs7Pad, Hcodec.
  reflexivity.
Qed.

Lemma store_decrypts_after_matrix_edits_witness :
  let encode := fun s : list Z => s in
  let decode := fun b : list Z => b in
  let atobTrimmed := fun _ : list Z => @None (list Z) in
  let actions := [Store.ASetPlaintext [72; 105]; Store.ASetEncryptionKey [107]] in
  let edits := [Store.AToggleMatrixBit 0 0; Store.AClearMatrix; Store.ALoadPreset Store.KAES] in
  let st := fold_left (Store.act encode decode atobTrimmed) actions Store.initialState in
  let encrypted := Store.performEncryption encode st in
  let edited := fold_left (Store.act encode decode atobTrimmed) edits encrypted in
  Store.decryptedText encrypted = Store.Text []
  /\ Store.encryptionSbox edited
     = Some (generateSBox (Store.affineMatrix st) (Store.constant st))
  /\ Store.decryptedText (Store.performDecryption encode decode edited)
     = Store.Text (Store.plaintext st).
Proof.
  cbv zeta.
  apply (store_decrypts_after_matrix_edits (fun s => s) (fun b => b) (fun _ => None)
           [Store.ASetPlaintext [72; 105]; Store.ASetEncryptionKey [107]]
           [Store.AToggleMatrixBit 0 0; Store.AClearMatrix; Store.ALoadPreset Store.KAES]).
  - reflexivity.
  - reflexivity.
  - vm_compute. split; [discriminate|reflexivity].
  - discriminate.
  - discriminate.
  - change (Forall is_byte [72; 105]). repeat constructor; unfold is_byte; lia.
  - change (Forall is_byte [107; 0; 0; 0; 0; 0; 0; 0; 0; 0; 0; 0; 0; 0; 0; 0]).
    repeat constructor; unfold is_byte; lia.
  - reflexivity.
  - reflexivity.
Defined.

(** ** Images *)

Lemma fold_left_concat {A B} (f : B -> list A) (l : list B) (acc : list A) :
  fold_left (fun out i => out ++ f i) l acc = acc ++ concat (map f l).
Proof.
  revert acc. induction l as [|i l IH]; intros acc; cbn [fold_left map concat].
  - now rewrite app_nil_r.
  - now rewrite IH, app_assoc.
Qed.

Lemma nth_concat_uniform (m : nat) (bs : list (list Z)) (k c : nat) :
  Forall (fun b => length b = m) bs -> (c < m)%nat ->
  nth (m * k + c) (concat bs) 0 = nth c (nth k bs []) 0.
Proof.
  intros Hbs Hc. revert k. induction Hbs as [|b bs Hb _ IH]; intros k.
  - cbn [concat]. destruct (m * k + c)%nat, k, c; reflexivity.
  - cbn [concat]. destruct k as [|k]; cbn [nth].
    + rewrite Nat.mul_0_r, app_nth1 by lia. reflexivity.
    + rewrite app_nth2 by lia. rewrite Hb.
      replace (m * S k + c - m)%nat with (m * k + c)%nat by lia. apply IH.
Qed.

Lemma pixelOffsets_4 (n : nat) :
  pixelOffsets (4 * n) = map (fun k => 4 * k)%nat (seq 0 n).
Proof.
  unfold pixelOffsets. do 2 f_equal.
  symmetry. apply (Nat.div_unique _ 4 n 3); lia.
Qed.

Lemma extractRgb_triples (data : list Z) (n : nat) :
  length data = (4 * n)%nat ->
  extractRgb data
  = concat (map (fun k => [nth (4 * k) data 0; nth (4 * k + 1) data 0; nth (4 * k + 2) data 0])
              (seq 0 n)).
Proof.
  intros Hlen. unfold extractRgb. rewrite Hlen, pixelOffsets_4.
  rewrite (fold_left_concat
             (fun i => [nth i data 0; nth (i + 1) data 0; nth (i + 2) data 0])).
  cbn [app]. now rewrite map_map.
Qed.

Lemma length_concat_uniform (m : nat) (bs : list (list Z)) :
  Forall (fun b => length b = m) bs -> length (concat bs) = (m * length bs)%nat.
Proof.
  induction 1 as [|b bs Hb _ IH]; [cbn; lia|].
  cbn [concat length]. rewrite length_app, Hb, IH. lia.
Qed.

Lemma extractRgb_spec (data : list Z) (n : nat) :
  length data = (4 * n)%nat ->
  length (extractRgb data) = (3 * n)%nat
  /\ (forall k c, (k < n)%nat -> (c < 3)%nat ->
        nth (3 * k + c) (extractRgb data) 0 = nth (4 * k + c) data 0)
  /\ (Forall is_byte data -> Forall is_byte (extractRgb data)).
Proof.
  intros Hlen. rewrite (extractRgb_triples data n Hlen).
  set (f := fun k => [nth (4 * k) data 0; nth (4 * k + 1) data 0; nth (4 * k + 2) data 0]).
  assert (Hf : Forall (fun b => length b = 3%nat) (map f (seq 0 n))).
  { apply List.Forall_forall. intros b Hb. apply in_map_iff in Hb as (k & <- & _).
    reflexivity. }
  split; [|split].
  - now rewrite (length_concat_uniform 3 _ Hf), length_map, length_seq.
  - intros k c Hk Hc. rewrite (nth_concat_uniform 3 _ k c Hf Hc).
    rewrite (nth_indep _ [] (f 0%nat)) by now rewrite length_map, length_seq.
    rewrite map_nth, seq_nth by exact Hk. cbn [Nat.add]. unfold f.
    destruct c as [|[|[|c]]]; cbn [nth]; [f_equal; lia|reflexivity|reflexivity|lia].
  - intros Hbytes. apply Forall_concat. apply List.Forall_forall.
    intros b Hb. apply in_map_iff in Hb as (k & <- & _).
    unfold f. repeat constructor; now apply nth_byte.
Qed.

Lemma padToBlocks_zeros (fuel : nat) (l : list Z) (q r : nat) :
  (length l + r = 16 * q)%nat -> (r < 16)%nat -> (r <= fuel)%nat ->
  padToBlocks fuel l = l ++ repeat 0 r.
Proof.
  revert l r. induction fuel as [|fuel IH]; intros l r Hq Hr Hfuel; cbn [padToBlocks].
  - replace r with 0%nat by lia. cbn [repeat]. now rewrite app_nil_r.
  - pose proof (Nat.div_mod_eq (length l) 16) as Hdiv.
    destruct (Nat.eqb_spec (length l mod 16) 0) as [H0|Hne]; cbn [negb].
    + replace r with 0%nat by lia. cbn [repeat]. now rewrite app_nil_r.
    + destruct r as [|r].
      * exfalso. apply Hne. rewrite Nat.add_0_r in Hq. rewrite Hq, Nat.mul_comm.
        apply Nat.Div0.mod_mul.
      * rewrite (IH (l ++ [0]) r) by (rewrite ?length_app; cbn [length]; lia).
        cbn [repeat]. now rewrite <- app_assoc.
Qed.

Lemma padToBlocks_spec (l : list Z) :
  exists z, padToBlocks 15 l = l ++ repeat 0 z
            /\ (z < 16)%nat
            /\ (length l + z = 16 * ((length l + 15) / 16))%nat.
Proof.
  pose proof (Nat.div_mod_eq (length l + 15) 16) as Hdiv.
  pose proof (Nat.mod_upper_bound (length l + 15) 16 ltac:(lia)) as Hmod.
  exists (16 * ((length l + 15) / 16) - length l)%nat.
  assert (Hz : (16 * ((length l + 15) / 16) - length l < 16)%nat) by lia.
  split; [|split; [exact Hz|lia]].
  apply (padToBlocks_zeros 15 l ((length l + 15) / 16)); lia.
Qed.

Lemma map_nth_seq {A} (h : list Z -> A) (blocks : list (list Z)) :
  map (fun k => h (nth k blocks [])) (seq 0 (length blocks)) = map h blocks.
Proof.
  induction blocks as [|b blocks IH]; [reflexivity|].
  cbn [length seq map nth]. f_equal. rewrite <- seq_shift, map_map. exact IH.
Qed.

Lemma processBlocks_concat (blockFn : list Z -> list Z) (blocks : list (list Z)) :
  Forall (fun b => length b = 16%nat) blocks ->
  processBlocks blockFn (concat blocks)
  = concat (map (fun b => blockFn (map toUint8 b)) blocks).
Proof.
  intros Hblocks. unfold processBlocks.
  rewrite (length_concat_16 blocks Hblocks), blockOffsets_16.
  rewrite (fold_left_concat
             (fun i => blockFn (map toUint8 (slice (concat blocks) i (i + 16))))).
  cbn [app]. rewrite map_map. f_equal.
  rewrite <- (map_nth_seq (fun b => blockFn (map toUint8 b))).
  apply map_ext_in. intros k Hk. apply in_seq in Hk.
  now rewrite slice_concat_16 by (assumption || lia).
Qed.

Lemma map_toUint8_bytes (l : list Z) : Forall is_byte l -> map toUint8 l = l.
Proof.
  induction 1 as [|v l Hv _ IH]; [reflexivity|].
  cbn [map]. now rewrite toUint8_byte, IH.
Qed.

Lemma clamp_byte (v : Z) : is_byte v -> clamp v = v.
Proof. unfold is_byte, clamp. lia. Qed.

Lemma reconstruct_fold (rgb : list Z) (n m : nat) :
  (m <= n)%nat ->
  exists image,
    fold_left
      (fun '(image, rgbIdx) i =>
         let image := <[i := clamp (nth rgbIdx rgb 0)]> image in
         let rgbIdx := S rgbIdx in
         let image := <[(i + 1)%nat := clamp (nth rgbIdx rgb 0)]> image in
         let rgbIdx := S rgbIdx in
         let image := <[(i + 2)%nat := clamp (nth rgbIdx rgb 0)]> image in
         let rgbIdx := S rgbIdx in
         let image := <[(i + 3)%nat := clamp 255]> image in
         (image, rgbIdx))
      (map (fun k => 4 * k)%nat (seq 0 m)) (repeat 0 (4 * n), 0%nat)
    = (image, (3 * m)%nat)
    /\ length image = (4 * n)%nat
    /\ (forall k, (k < m)%nat ->
          nth (4 * k + 3) image 0 = 255
          /\ forall c, (c < 3)%nat -> nth (4 * k + c) image 0 = clamp (nth (3 * k + c) rgb 0)).
Proof.
  induction m as [|m IH]; intros Hm.
  - exists (repeat 0 (4 * n)). split; [reflexivity|]. split; [apply repeat_length|].
    intros k Hk. lia.
  - destruct (IH ltac:(lia)) as (image & Hfold & Hlen & Himage).
    rewrite seq_S, map_app, fold_left_app, Hfold. cbn [map fold_left Nat.add].
    eexists. split; [f_equal; lia|]. split; [now rewrite !length_insert|].
    intros k Hk. destruct (Nat.eq_dec k m) as [->|Hne].
    + split.
      * rewrite nth_insert_eq by (rewrite !length_insert; lia). reflexivity.
      * intros c Hc. rewrite nth_insert_ne by lia.
        destruct c as [|[|[|c]]]; [| | |lia].
        -- rewrite !nth_insert_ne by lia.
           replace (4 * m + 0)%nat with (4 * m)%nat by lia.
           rewrite nth_insert_eq by lia. do 2 f_equal; lia.
        -- rewrite nth_insert_ne by lia.
           rewrite nth_insert_eq by (rewrite !length_insert; lia).
           do 2 f_equal. lia.
        -- rewrite nth_insert_eq by (rewrite !length_insert; lia).
           do 2 f_equal. lia.
    + destruct (Himage k ltac:(lia)) as [Halpha Hrgb]. split.
      * now rewrite !nth_insert_ne by lia.
      * intros c Hc. rewrite !nth_insert_ne by lia. now apply Hrgb.
Qed.

Lemma reconstruct_spec (rgb : list Z) (n : nat) :
  length (reconstruct (4 * n) rgb) = (4 * n)%nat
  /\ (forall k, (k < n)%nat ->
        nth (4 * k + 3) (reconstruct (4 * n) rgb) 0 = 255
        /\ forall c, (c < 3)%nat ->
             nth (4 * k + c) (reconstruct (4 * n) rgb) 0 = clamp (nth (3 * k + c) rgb 0)).
Proof.
  destruct (reconstruct_fold rgb n n ltac:(lia)) as (image & Hfold & Hlen & Himage).
  cbv zeta in Hfold. unfold reconstruct. rewrite pixelOffsets_4, Hfold. cbn [fst]. now split.
Qed.

Lemma encryptBlock_bytes (block key sbox : list Z) :
  Forall is_byte (encryptBlock block key sbox).
Proof. rewrite encryptBlock_eq. apply stateToBytes_bytes. Qed.

Lemma decryptBlock_bytes (block key sbox : list Z) :
  Forall is_byte (decryptBlock block key sbox).
Proof. rewrite decryptBlock_eq. apply stateToBytes_bytes. Qed.

Lemma Forall_concat_inv (P : Z -> Prop) (blocks : list (list Z)) :
  Forall P (concat blocks) -> Forall (Forall P) blocks.
Proof.
  induction blocks as [|b blocks IH]; intros H; [constructor|].
  cbn [concat] in H. apply Forall_app in H as [Hb H]. constructor; auto.
Qed.

(** What one pass does to an image of [n] pixels: the colour bytes are
    cut into blocks, a last partial block is filled with zeros, and the
    colour slots of the result hold the first [3 * n] bytes of the
    processed blocks. *)
Lemma imagePass_blocks (blockFn : list Z -> list Z) (data : list Z) (n : nat) :
  length data = (4 * n)%nat ->
  (forall b, length (blockFn b) = 16%nat) ->
  (forall b, Forall is_byte (blockFn b)) ->
  exists blocks z,
    concat blocks = extractRgb data ++ repeat 0 z
    /\ Forall (fun b => length b = 16%nat) blocks
    /\ (z < 16)%nat
    /\ (3 * n + z = 16 * length blocks)%nat
    /\ length (imagePass blockFn data) = (4 * n)%nat
    /\ (forall k, (k < n)%nat -> nth (4 * k + 3) (imagePass blockFn data) 0 = 255)
    /\ (forall j, (j < 3 * n)%nat ->
          nth j (extractRgb (imagePass blockFn data)) 0
          = nth (j mod 16) (blockFn (map toUint8 (nth (j / 16) blocks []))) 0).
Proof.
  intros Hlen Hfn Hbytes.
  destruct (extractRgb_spec data n Hlen) as (HRlen & _ & _).
  destruct (padToBlocks_spec (extractRgb data)) as (z & HP & Hz & HPlen).
  destruct (chunks_exist _ (extractRgb data ++ repeat 0 z)
              ltac:(rewrite length_app, repeat_length; exact HPlen))
    as (blocks & Hconcat & Hblocks).
  assert (Hcount : (3 * n + z = 16 * length blocks)%nat).
  { rewrite <- (length_concat_16 blocks Hblocks), Hconcat, length_app, repeat_length. lia. }
  exists blocks, z. split; [exact Hconcat|]. split; [exact Hblocks|].
  split; [exact Hz|]. split; [exact Hcount|].
  assert (Hpass : imagePass blockFn data
                  = reconstruct (4 * n)
                      (concat (map (fun b => blockFn (map toUint8 b)) blocks))).
  { unfold imagePass. rewrite HP, <- Hconcat, Hlen.
    now rewrite processBlocks_concat by exact Hblocks. }
  rewrite Hpass.
  destruct (reconstruct_spec (concat (map (fun b => blockFn (map toUint8 b)) blocks)) n)
    as (Hrlen & Hrnth).
  split; [exact Hrlen|]. split; [intros k Hk; apply (Hrnth k Hk)|].
  intros j Hj.
  destruct (extractRgb_spec _ n Hrlen) as (_ & Hextract & _).
  pose proof (Nat.div_mod_eq j 3) as Hj3.
  pose proof (Nat.mod_upper_bound j 3 ltac:(lia)) as Hc3.
  rewrite Hj3 at 1. rewrite Hextract by lia.
  rewrite (proj2 (Hrnth (j / 3)%nat ltac:(lia))) by exact Hc3.
  rewrite <- Hj3.
  assert (Hout : Forall (fun b => length b = 16%nat)
                   (map (fun b => blockFn (map toUint8 b)) blocks)).
  { apply List.Forall_forall. intros b Hb. apply in_map_iff in Hb as (b' & <- & _).
    apply Hfn. }
  pose proof (Nat.div_mod_eq j 16) as Hj16.
  pose proof (Nat.mod_upper_bound j 16 ltac:(lia)) as Hc16.
  rewrite Hj16 at 1. rewrite (nth_concat_uniform 16 _ _ _ Hout Hc16).
  rewrite (nth_indep _ [] (blockFn (map toUint8 [])))
    by (rewrite length_map; lia).
  rewrite (map_nth (fun b => blockFn (map toUint8 b))).
  apply clamp_byte, nth_byte, Hbytes.
Qed.

Lemma Forall_nth_block (P : list Z -> Prop) (blocks : list (list Z)) (i : nat) :
  P [] -> Forall P blocks -> P (nth i blocks []).
Proof.
  intros Hnil Hblocks. destruct (Nat.lt_ge_cases i (length blocks)) as [Hi|Hi].
  - rewrite List.Forall_forall in Hblocks. now apply Hblocks, nth_In.
  - now rewrite nth_overflow.
Qed.

(** X29. An image of [n] pixels, encrypted by [encryptImage] and then
    decrypted by [decryptImage] with the same key and a bijective S-box:
    both results have the size of the image and alpha 255 in every pixel,
    and every colour byte that lies in a whole 16-byte block of the
    colour stream (the first [16 * (3 * n / 16)] bytes of it) is
    restored. *)
Theorem decryptImage_encryptImage_blocks (encode : list Z -> list Z)
    (imageKey sbox data : list Z) (n : nat) :
  length data = (4 * n)%nat -> Forall is_byte data ->
  Forall is_byte (encode (canonicalKey imageKey)) ->
  isSBoxBijective sbox = true ->
  let encrypted := encryptImage encode imageKey sbox data in
  let decrypted := decryptImage encode imageKey sbox encrypted in
  length encrypted = length data
  /\ length decrypted = length data
  /\ (forall k, (k < n)%nat ->
        nth (4 * k + 3) encrypted 0 = 255 /\ nth (4 * k + 3) decrypted 0 = 255)
  /\ (forall k c, (k < n)%nat -> (c < 3)%nat -> (3 * k + c < 16 * (3 * n / 16))%nat ->
        nth (4 * k + c) decrypted 0 = nth (4 * k + c) data 0).
Proof.
  intros Hlen Hdata Hkey Hsbox. cbv zeta. unfold decryptImage, encryptImage.
  generalize dependent (encode (canonicalKey imageKey)). intros key Hkey.
  apply isSBoxBijective_spec, bytePermutation_injective in Hsbox.
  pose proof (fun b => length_encryptBlock b key sbox) as HencLen.
  pose proof (fun b => encryptBlock_bytes b key sbox) as HencBytes.
  pose proof (fun b => length_decryptBlock b key sbox) as HdecLen.
  pose proof (fun b => decryptBlock_bytes b key sbox) as HdecBytes.
  destruct (imagePass_blocks (fun block => encryptBlock block key sbox) data n Hlen
              HencLen HencBytes)
    as (B & z & HB & HB16 & Hz & HBcount & Helen & Healpha & Henc).
  set (encrypted := imagePass (fun block => encryptBlock block key sbox) data) in *.
  destruct (imagePass_blocks (fun block => decryptBlock block key sbox) encrypted n Helen
              HdecLen HdecBytes)
    as (B' & z' & HB' & HB16' & Hz' & HBcount' & Hdlen & Hdalpha & Hdec).
  set (decrypted := imagePass (fun block => decryptBlock block key sbox) encrypted) in *.
  split; [congruence|]. split; [congruence|].
  split; [intros k Hk; split; [now apply Healpha|now apply Hdalpha]|].
  intros k c Hk Hc Hwhole.
  destruct (extractRgb_spec data n Hlen) as (HRlen & HR & HRbytes).
  destruct (extractRgb_spec encrypted n Helen) as (HElen & _ & _).
  destruct (extractRgb_spec decrypted n Hdlen) as (_ & HD & _).
  rewrite <- (HD k c Hk Hc), <- (HR k c Hk Hc).
  set (j := (3 * k + c)%nat) in *.
  pose proof (Nat.Div0.mul_div_le (3 * n) 16) as Hfloor.
  pose proof (Nat.div_mod_eq j 16) as Hj16.
  pose proof (Nat.mod_upper_bound j 16 ltac:(lia)) as Ht.
  assert (Hi : (16 * (j / 16) + 16 <= 3 * n)%nat).
  { assert (j / 16 < 3 * n / 16)%nat by (apply Nat.Div0.div_lt_upper_bound; lia). lia. }
  rewrite (Hdec j ltac:(lia)).
  set (i := (j / 16)%nat) in *. set (t := (j mod 16)%nat) in *.
  assert (Hblock : nth i B' [] = encryptBlock (map toUint8 (nth i B [])) key sbox).
  { apply (nth_ext _ _ 0 0).
    - rewrite length_encryptBlock.
      destruct (Nat.lt_ge_cases i (length B')) as [Hlt|Hge]; [|lia].
      rewrite List.Forall_forall in HB16'. now apply HB16', nth_In.
    - intros u Hu.
      assert (Hu16 : (u < 16)%nat).
      { destruct (Nat.lt_ge_cases i (length B')) as [Hlt|Hge]; [|lia].
        rewrite List.Forall_forall in HB16'.
        rewrite (HB16' (nth i B' []) (nth_In _ _ Hlt)) in Hu. exact Hu. }
      rewrite <- (nth_concat_uniform 16 B' i u HB16' Hu16), HB'.
      rewrite app_nth1 by lia.
      rewrite (Henc (16 * i + u)%nat ltac:(lia)).
      replace ((16 * i + u) / 16)%nat with i
        by (apply (Nat.div_unique _ 16 i u); lia).
      replace ((16 * i + u) mod 16)%nat with u
        by (apply (Nat.mod_unique _ 16 i u); lia).
      reflexivity. }
  assert (Hbytes : Forall is_byte (nth i B [])).
  { apply (Forall_nth_block (Forall is_byte)); [constructor|].
    apply Forall_concat_inv. rewrite HB. apply Forall_app. split; [now apply HRbytes|].
    apply List.Forall_forall. intros v Hv. apply repeat_spec in Hv as ->.
    unfold is_byte. lia. }
  assert (Hlen16 : length (nth i B []) = 16%nat).
  { destruct (Nat.lt_ge_cases i (length B)) as [Hlt|Hge]; [|lia].
    rewrite List.Forall_forall in HB16. now apply HB16, nth_In. }
  rewrite Hblock, (map_toUint8_bytes (nth i B [])) by exact Hbytes.
  rewrite (map_toUint8_bytes _ (encryptBlock_bytes _ _ _)).
  rewrite decryptBlock_encryptBlock by assumption.
  rewrite <- (nth_concat_uniform 16 B i t HB16 Ht), HB.
  rewrite app_nth1 by lia. f_equal. lia.
Qed.

Lemma decryptImage_encryptImage_blocks_witness :
  let data := map Z.of_nat (seq 0 32) in
  let encrypted := encryptImage (fun s => s) [107] AES_SBOX data in
  let decrypted := decryptImage (fun s => s) [107] AES_SBOX encrypted in
  length encrypted = length data
  /\ length decrypted = length data
  /\ (forall k, (k < 8)%nat ->
        nth (4 * k + 3) encrypted 0 = 255 /\ nth (4 * k + 3) decrypted 0 = 255)
  /\ (forall k c, (k < 8)%nat -> (c < 3)%nat -> (3 * k + c < 16 * (3 * 8 / 16))%nat ->
        nth (4 * k + c) decrypted 0 = nth (4 * k + c) data 0).
Proof.
  apply (decryptImage_encryptImage_blocks (fun s => s) [107] AES_SBOX
           (map Z.of_nat (seq 0 32)) 8).
  - reflexivity.
  - apply List.Forall_forall. intros v Hv. apply in_map_iff in Hv as (k & <- & Hk).
    apply in_seq in Hk. unfold is_byte. lia.
  - repeat constructor; unfold is_byte; lia.
  - vm_compute. reflexivity.
Defined.

(** ** Nonlinearity and linear approximation *)

Lemma parity_bit_checked : forallb parity_bit_check (range 0 256) = true.
Proof. vm_compute. reflexivity. Qed.

Lemma signed_count_fold (p : Z -> bool) (l : list Z) (s c : Z) :
  fold_left (fun sum x => sum + (if p x then 1 else -1)) l s
  = s + 2 * (fold_left (fun count x => if p x then count + 1 else count) l c - c)
    - Z.of_nat (length l).
Proof.
  revert s c. induction l as [|x l IH]; intros s c; cbn [fold_left length].
  - lia.
  - rewrite (IH _ (if p x then c + 1 else c)). destruct (p x); lia.
Qed.

(** The Walsh coefficient of the component that [outputMask] selects, in
    terms of the count of [calculateLAP]. *)
Lemma walsh_lap_count (sbox truthTable : list Z) (mask outputMask : Z) :
  length truthTable = 256%nat ->
  (forall x, 0 <= x < 256 ->
     get truthTable x = Z.land (hammingWeight (Z.land (get sbox x) outputMask)) 1) ->
  walshTransform truthTable mask = 2 * lap_count sbox mask outputMask - 256.
Proof.
  intros Hlen Htable. unfold walshTransform, lap_count.
  rewrite (fold_left_ext_in _
             (fun sum x =>
                sum + (if Z.land (hammingWeight (Z.land x mask)) 1
                          =? Z.land (hammingWeight (Z.land (get sbox x) outputMask)) 1
                       then 1 else -1))).
  - rewrite (signed_count_fold _ _ 0 0), length_range.
    change (Z.of_nat (Z.to_nat (256 - 0))) with 256. cbv zeta. lia.
  - intros sum x Hx. apply In_range in Hx. cbv zeta.
    rewrite item_get by (rewrite Hlen; lia). rewrite Htable by exact Hx.
    reflexivity.
Qed.

Lemma bias_walsh (count : Z) :
  (inject_Z (Z.abs (2 * count - 256)) == 512 * Qabs (inject_Z count / 256 - 0.5))%Q.
Proof.
  unfold Qabs, Qminus, Qplus, Qopp, Qdiv, Qmult, Qinv, Qeq, inject_Z. simpl. lia.
Qed.

Lemma maxWalsh_bound (w : Z -> Z) (l : list Z) (m : Z) (B : Q) :
  (forall mask, In mask l -> (inject_Z (Z.abs (w mask)) <= B)%Q) ->
  (inject_Z m <= B)%Q ->
  (inject_Z
     (fold_left
        (fun maxWalsh mask =>
           let coef := Z.abs (w mask) in
           if coef >? maxWalsh then coef else maxWalsh) l m) <= B)%Q.
Proof.
  revert m. induction l as [|mask l IH]; intros m Hl Hm; cbn [fold_left]; [exact Hm|].
  apply IH; [intros k Hk; apply Hl; now right|]. cbv zeta.
  destruct (Z.abs (w mask) >? m); [apply Hl; now left|exact Hm].
Qed.

Lemma min_lower (nlOf : Z -> Q) (l : list Z) (m c : Q) :
  (c <= m)%Q -> (forall bit, In bit l -> (c <= nlOf bit)%Q) ->
  (c <= fold_left (fun minNL bit => if Qlt_le_dec (nlOf bit) minNL then nlOf bit else minNL)
          l m)%Q.
Proof.
  revert m. induction l as [|bit l IH]; intros m Hm Hl; cbn [fold_left]; [exact Hm|].
  apply IH; [|intros k Hk; apply Hl; now right].
  destruct (Qlt_le_dec (nlOf bit) m); [apply Hl; now left|exact Hm].
Qed.

Lemma min_lower2 (nlOf : Z -> Z -> Q) (inner : Z -> list Z) (l : list Z) (m c : Q) :
  (c <= m)%Q ->
  (forall bit1 bit2, In bit1 l -> In bit2 (inner bit1) -> (c <= nlOf bit1 bit2)%Q) ->
  (c <= fold_left
          (fun minNL bit1 =>
             fold_left
               (fun minNL bit2 =>
                  if Qlt_le_dec (nlOf bit1 bit2) minNL then nlOf bit1 bit2 else minNL)
               (inner bit1) minNL)
          l m)%Q.
Proof.
  revert m. induction l as [|bit1 l IH]; intros m Hm Hl; cbn [fold_left]; [exact Hm|].
  apply IH; [|intros k1 k2 Hk1 Hk2; apply Hl; [now right|exact Hk2]].
  apply min_lower; [exact Hm|]. intros bit2 Hbit2. apply Hl; [now left|exact Hbit2].
Qed.

Lemma bias_le_half (count : Z) :
  0 <= count <= 256 -> (Qabs (inject_Z count / 256 - 0.5) <= 1 # 2)%Q.
Proof.
  intros H. unfold Qabs, Qminus, Qplus, Qopp, Qdiv, Qmult, Qinv, Qle, inject_Z. simpl. lia.
Qed.

Lemma lap_count_range (sbox : list Z) (inputMask outputMask : Z) :
  0 <= lap_count sbox inputMask outputMask <= 256.
Proof.
  unfold lap_count.
  assert (H : forall (p : Z -> bool) (l : list Z) (c : Z),
             c <= fold_left (fun count x => if p x then count + 1 else count) l c
               <= c + Z.of_nat (length l)).
  { intros p l. induction l as [|x l IH]; intros c; cbn [fold_left length]; [lia|].
    specialize (IH (if p x then c + 1 else c)). destruct (p x); lia. }
  pose proof (H (fun x =>
                   Z.land (hammingWeight (Z.land x inputMask)) 1
                   =? Z.land (hammingWeight (Z.land (get sbox x) outputMask)) 1)
                (range 0 256) 0) as Hc.
  rewrite length_range in Hc. change (Z.of_nat (Z.to_nat (256 - 0))) with 256 in Hc.
  exact Hc.
Qed.

Lemma scan_bound (prob : Z -> Z -> Q) (ds l : list Z) (m B : Q) :
  (forall i d, (prob i d <= B)%Q) -> (m <= B)%Q ->
  (fold_left
     (fun maxProb i =>
        fold_left
          (fun maxProb d => if Qlt_le_dec maxProb (prob i d) then prob i d else maxProb)
          ds maxProb)
     l m <= B)%Q.
Proof.
  intros Hp. revert m. induction l as [|i l IH]; intros m Hm; cbn [fold_left]; [exact Hm|].
  apply IH. destruct (max_search (prob i) ds m) as (_ & _ & [H|(d & _ & H)]);
    cbv zeta in H; rewrite H; [exact Hm|apply Hp].
Qed.

Lemma calculateLAP_scan (sbox : list Z) :
  (0 <= calculateLAP sbox <= 1 # 2)%Q
  /\ forall inputMask outputMask, 0 <= inputMask < 256 -> 1 <= outputMask < 256 ->
       (lap_bias sbox inputMask outputMask <= calculateLAP sbox)%Q.
Proof.
  assert (Hhalf : forall i d, (lap_bias sbox i d <= 1 # 2)%Q).
  { intros i d. apply bias_le_half, lap_count_range. }
  pose proof (dap_scan (lap_bias sbox) (range 1 256) (range 0 256) 0%Q) as H.
  cbv zeta in H. destruct H as ((Hlow & _) & Hall).
  - intros i d _ _. eapply Qle_trans; [apply Hhalf|discriminate].
  - split; discriminate.
  - split; [split; [exact Hlow|]|].
    + apply (scan_bound (lap_bias sbox) (range 1 256) (range 0 256) 0%Q (1 # 2) Hhalf).
      discriminate.
    + intros i d Hi Hd. apply Hall; now apply In_range.
Qed.

Lemma nl_bound_arith (M : Z) (L : Q) :
  (inject_Z M <= 512 * L)%Q -> (128 - 256 * L <= 128 - inject_Z M / 2)%Q.
Proof.
  destruct L as [p q].
  unfold Qle, Qminus, Qplus, Qopp, Qdiv, Qmult, Qinv, inject_Z. simpl. lia.
Qed.

(** The nonlinearity of one component is at least [128 - 256 * LAP]. *)
Lemma component_nl (sbox truthTable : list Z) (outputMask : Z) :
  length truthTable = 256%nat -> 1 <= outputMask < 256 ->
  (forall x, 0 <= x < 256 ->
     get truthTable x = Z.land (hammingWeight (Z.land (get sbox x) outputMask)) 1) ->
  (128 - 256 * calculateLAP sbox <= 128 - inject_Z (maxWalshOf truthTable) / 2)%Q.
Proof.
  intros Hlen Hmask Htable.
  destruct (calculateLAP_scan sbox) as ((Hlow & _) & Hall).
  assert (Hmax : (inject_Z (maxWalshOf truthTable) <= 512 * calculateLAP sbox)%Q).
  { apply (maxWalsh_bound (walshTransform truthTable) (range 0 256) 0).
    - intros mask Hin. apply In_range in Hin.
      rewrite (walsh_lap_count sbox truthTable mask outputMask Hlen Htable), bias_walsh.
      apply Qmult_le_l; [reflexivity|]. now apply Hall.
    - apply (Qle_trans _ (512 * 0)); [discriminate|].
      apply Qmult_le_l; [reflexivity|exact Hlow]. }
  now apply nl_bound_arith.
Qed.

Lemma mask_ranges :
  forallb
    (fun bit1 =>
       (1 <=? Z.shiftl 1 bit1) && (Z.shiftl 1 bit1 <? 256)
       && forallb
            (fun bit2 =>
               (1 <=? Z.lor (Z.shiftl 1 bit1) (Z.shiftl 1 bit2))
               && (Z.lor (Z.shiftl 1 bit1) (Z.shiftl 1 bit2) <? 256))
            (range (bit1 + 1) 8))
    (range 0 8) = true.
Proof. vm_compute. reflexivity. Qed.

(** X30. For a table whose entries at the bytes are bytes, the three
    figures agree with each other: [calculateLAP] lies between 0 and 1/2,
    and [calculateNL] and [calculateBICNL] are at least
    [128 - 256 * calculateLAP], or 120 where that is more than 120. *)
Theorem nonlinearity_bounded_by_LAP (sbox : list Z) :
  (forall x, is_byte x -> is_byte (get sbox x)) ->
  (0 <= calculateLAP sbox <= 1 # 2)%Q
  /\ (Qmin 120 (128 - 256 * calculateLAP sbox) <= calculateNL sbox)%Q
  /\ (Qmin 120 (128 - 256 * calculateLAP sbox) <= calculateBICNL sbox)%Q.
Proof.
  intros Hs. split; [apply calculateLAP_scan|]. split.
  - apply (min_lower
             (fun bit =>
                128 - inject_Z
                        (maxWalshOf
                           (map (fun x => Z.land (Z.shiftr (get sbox x) bit) 1) (range 0 256)))
                      / 2)%Q
             (range 0 8) 120%Q); [apply Q.le_min_l|].
    intros bit Hbit. apply In_range in Hbit.
    eapply Qle_trans; [apply Q.le_min_r|].
    pose proof (forallb_range _ _ _ mask_ranges bit Hbit) as Hmask. cbv beta in Hmask.
    apply andb_prop in Hmask as [Hmask _]. apply andb_prop in Hmask as [Hlo Hhi].
    apply Z.leb_le in Hlo. apply Z.ltb_lt in Hhi.
    apply (component_nl sbox _ (Z.shiftl 1 bit)).
    + now rewrite length_map, length_range.
    + lia.
    + intros x Hx. rewrite get_map_range by exact Hx.
      pose proof (forallb_range _ _ _ parity_bit_checked (get sbox x) (Hs x Hx)) as Hp.
      unfold parity_bit_check in Hp.
      pose proof (forallb_range _ _ _ Hp bit Hbit) as Hb. cbv beta zeta in Hb.
      apply andb_prop in Hb as [Hb _]. apply Z.eqb_eq in Hb. now rewrite Hb.
  - apply (min_lower2
             (fun bit1 bit2 =>
                128 - inject_Z
                        (maxWalshOf
                           (map (fun x =>
                                   Z.lxor (Z.land (Z.shiftr (get sbox x) bit1) 1)
                                          (Z.land (Z.shiftr (get sbox x) bit2) 1))
                                (range 0 256)))
                      / 2)%Q
             (fun bit1 => range (bit1 + 1) 8) (range 0 8) 120%Q); [apply Q.le_min_l|].
    intros bit1 bit2 Hbit1 Hbit2. apply In_range in Hbit1, Hbit2.
    eapply Qle_trans; [apply Q.le_min_r|].
    pose proof (forallb_range _ _ _ mask_ranges bit1 Hbit1) as Hmask. cbv beta in Hmask.
    apply andb_prop in Hmask as [_ Hmask].
    pose proof (forallb_range _ _ _ Hmask bit2 Hbit2) as Hmask2. cbv beta in Hmask2.
    apply andb_prop in Hmask2 as [Hlo Hhi].
    apply Z.leb_le in Hlo. apply Z.ltb_lt in Hhi.
    apply (component_nl sbox _ (Z.lor (Z.shiftl 1 bit1) (Z.shiftl 1 bit2))).
    + now rewrite length_map, length_range.
    + lia.
    + intros x Hx. rewrite get_map_range by exact Hx.
      pose proof (forallb_range _ _ _ parity_bit_checked (get sbox x) (Hs x Hx)) as Hp.
      unfold parity_bit_check in Hp.
      pose proof (forallb_range _ _ _ Hp bit1 Hbit1) as Hb. cbv beta zeta in Hb.
      apply andb_prop in Hb as [_ Hb].
      pose proof (forallb_range _ _ _ Hb bit2 Hbit2) as Hb2. cbv beta in Hb2.
      apply Z.eqb_eq in Hb2. now rewrite Hb2.
Qed.

Lemma nonlinearity_bounded_by_LAP_witness :
  (0 <= calculateLAP zero_table <= 1 # 2)%Q
  /\ (Qmin 120 (128 - 256 * calculateLAP zero_table) <= calculateNL zero_table)%Q
  /\ (Qmin 120 (128 - 256 * calculateLAP zero_table) <= calculateBICNL zero_table)%Q.
Proof.
  apply (nonlinearity_bounded_by_LAP zero_table).
  intros x Hx. unfold zero_table, is_byte in *.
  rewrite get_nth by lia.
  destruct (Nat.lt_ge_cases (Z.to_nat x) 256) as [Hlt|Hge].
  - rewrite nth_repeat. lia.
  - rewrite nth_overflow by now rewrite repeat_length. lia.
Defined.

